(** * Subgradient methods for set-covering problems: a shallow embedding

    The development follows [subgradient.c]: the sparse instance held in the
    module's static arrays, [init_dual_vector], the two subgradient
    computations, the two drivers ([spectral_projected_subgradient] and
    [basic_subgradient]) and the instance loader [load_scp_instance].

    Numbers.  C [int] values are integers ([Z], or [nat] for counts and array
    indices of a loaded instance); [int] is 32 bits wide, and the places where
    the source can leave its range are modelled as such: the products
    [subg[i] * subg[i]] ([int_mul]), the value of [atoi], and the sums of the
    loader.  In the drivers C [double] values are exact rationals ([Q]):
    every finite double is a rational, and the arithmetic of that model is
    exact, so that the statements about the drivers are statements about
    comparisons and stored values, or equalities that the program keeps up to
    rounding.  Three places are modelled with the values of binary64 itself:
    the division [eta_not / pow(itr,1.1)], whose divisor can be zero, and the
    square root before it (see [xdouble]); the halving [lambda *= 0.5], which
    underflows (see [times_half]); and the whole of [init_dual_vector], which
    the module [Binary64] embeds a second time with the rounding of every
    operation.  The decimal literals of the source ([0.1], [0.7], [1.05],
    [pow(10,-12)], [pow(10,-14)]) are the rationals they denote.

    Arrays are lists; a read is [nth] and a write is [upd].  A read or write
    outside an array is undefined behaviour in C; the model reads a default
    value and the write leaves the array unchanged, and the theorems carry the
    length and range hypotheses under which no such access happens. *)

From Stdlib Require Import ZArith QArith Qminmax Qround Qabs List Bool Arith Lia ZifyNat
  Lra Psatz.
From Stdlib Require Import SpecFloat.
From Stdlib Require Ascii String.
Import ListNotations.

Local Open Scope Q_scope.

(* ================================================================== *)
(** ** Arrays and counted loops *)

Fixpoint upd {A : Type} (l : list A) (i : nat) (v : A) : list A :=
  match l, i with
  | [], _ => []
  | _ :: t, O => v :: t
  | h :: t, S i' => h :: upd t i' v
  end.

(** [for (j = lo; j < hi; j++) s = body j s] *)
Fixpoint for_loop {St : Type} (n : nat) (j : nat) (body : nat -> St -> St) (s : St) : St :=
  match n with
  | O => s
  | S n' => for_loop n' (S j) body (body j s)
  end.

Definition for_range {St : Type} (lo hi : nat) (body : nat -> St -> St) (s : St) : St :=
  for_loop (hi - lo) lo body s.

(** [for (j = n-1; j >= 0; j--) s = body j s] *)
Fixpoint for_down {St : Type} (n : nat) (body : nat -> St -> St) (s : St) : St :=
  match n with
  | O => s
  | S n' => for_down n' body (body n' s)
  end.

Definition Qltb (x y : Q) : bool := negb (Qle_bool y x).

Definition Qsum (l : list Q) : Q := fold_right Qplus 0 l.

(** [pow(10,-12)] and [pow(10,-14)] *)
Definition ZERO_TOL : Q := 1 # 1000000000000.
Definition TOL14 : Q := 1 # 100000000000000.

(** The range of [int], and the value that a result outside it has on a
    two's-complement target.  A signed overflow is undefined in C: the
    theorems that depend on such a result carry the hypothesis under which
    there is no overflow. *)
Definition INT_MIN : Z := (-2147483648)%Z.
Definition INT_MAX : Z := 2147483647%Z.

Definition int_wrap (z : Z) : Z :=
  ((z + 2147483648) mod 4294967296 - 2147483648)%Z.

(** [a * b] for two [int]s. *)
Definition int_mul (a b : Z) : Z := int_wrap (a * b).

(** The integer nearest to [q], the even one at a tie. *)
Definition round_half_even (q : Q) : Z :=
  let f := Qfloor q in
  match Qcompare (q - inject_Z f) (1 # 2) with
  | Lt => f
  | Gt => (f + 1)%Z
  | Eq => if Z.even f then f else (f + 1)%Z
  end.

(** The smallest positive normal double and the smallest positive double. *)
Definition MIN_NORMAL : Q := 1 # (2 ^ 1022).
Definition DENORM_MIN : Q := 1 # (2 ^ 1074).

(** [x * 0.5] for a double [x].  Halving a double is exact as long as the
    half is not below the smallest normal number; below it the result is the
    multiple of 2^-1074 nearest to the half, the even one at a tie, so that
    the half of 2^-1074 is 0. *)
Definition times_half (x : Q) : Q :=
  let y := x * (1 # 2) in
  if Qltb (Qabs y) MIN_NORMAL
  then inject_Z (round_half_even (y / DENORM_MIN)) * DENORM_MIN
  else y.

(* ================================================================== *)
(** ** The sparse instance (the static variables of subgradient.c) *)

Record instance : Type := {
  num_col : nat;
  num_row : nat;
  costs : list Z;
  col_wise_a : list nat;
  col_wise_idx : list nat;
  row_wise_a : list nat;
  row_wise_idx : list nat;
  col_sizes : list nat
}.

Section Instance.

Variable I : instance.

Definition cost_of (c : nat) : Z := nth c (costs I) 0%Z.
Definition col_lo (c : nat) : nat := nth c (col_wise_idx I) O.
Definition col_hi (c : nat) : nat := nth (S c) (col_wise_idx I) O.
Definition row_lo (r : nat) : nat := nth r (row_wise_idx I) O.
Definition row_hi (r : nat) : nat := nth (S r) (row_wise_idx I) O.
Definition col_at (j : nat) : nat := nth j (col_wise_a I) O.
Definition row_at (j : nat) : nat := nth j (row_wise_a I) O.
Definition col_size (c : nat) : nat := nth c (col_sizes I) O.

(** The entries a loop [for (j = idx[i]; j < idx[i+1]; j++)] walks over. *)
Definition rows_of_col (c : nat) : list nat :=
  map col_at (seq (col_lo c) (col_hi c - col_lo c)).
Definition cols_of_row (r : nat) : list nat :=
  map row_at (seq (row_lo r) (row_hi r - row_lo r)).

(* ------------------------------------------------------------------ *)
(** *** init_dual_vector *)

Definition init_row_min (i : nat) : Q :=
  for_range (row_lo i) (row_hi i)
    (fun j min_value =>
       let idx := row_at j in
       let value := inject_Z (cost_of idx) / inject_Z (Z.of_nat (col_size idx)) in
       if Qltb value min_value then value else min_value)
    (inject_Z (cost_of (row_at (row_lo i)))).

Definition init_duals (dual : list Q) : list Q * Q :=
  for_range O (num_row I)
    (fun i (s : list Q * Q) =>
       let min_value := init_row_min i in
       (upd (fst s) i min_value, snd s + min_value))
    (dual, 0).

Definition col_reduced_cost (dual : list Q) (i : nat) : Q :=
  for_range (col_lo i) (col_hi i)
    (fun j value => value - nth (col_at j) dual 0)
    (inject_Z (cost_of i)).

Definition compute_reduced_costs (dual reduced_costs : list Q) : list Q :=
  for_range O (num_col I)
    (fun i rc => upd rc i (col_reduced_cost dual i))
    reduced_costs.

(** Returns the buffers after the call and the returned objective value. *)
Definition init_dual_vector (dual reduced_costs : list Q) : list Q * list Q * Q :=
  let '(dual', obj_value) := init_duals dual in
  (dual', compute_reduced_costs dual' reduced_costs, obj_value).

(** The Lagrangian objective, as the drivers evaluate it:
    the sum of the duals plus the negative reduced costs. *)
Definition neg_part_sum (reduced_costs : list Q) (acc : Q) : Q :=
  for_range O (num_col I)
    (fun i acc => if Qltb (nth i reduced_costs 0) 0 then acc + nth i reduced_costs 0 else acc)
    acc.

Definition dual_sum (dual : list Q) : Q :=
  for_range O (num_row I) (fun i acc => acc + nth i dual 0) 0.

Definition objective (dual reduced_costs : list Q) : Q :=
  neg_part_sum reduced_costs (dual_sum dual).

(* ------------------------------------------------------------------ *)
(** *** The subgradient vector *)

(** The body of the loop over the columns (lines 231-235). *)
Definition fill_body (reduced_costs : list Q) (i : nat) (s : list Z) : list Z :=
  if Qltb (nth i reduced_costs 0) TOL14 then
    for_range (col_lo i) (col_hi i)
      (fun j s => upd s (col_at j) (nth (col_at j) s 0%Z - 1)%Z) s
  else s.

(** The first two loops, shared by both variants. *)
Definition subg_fill (subg : list Z) (reduced_costs : list Q) : list Z :=
  let subg1 := for_range O (num_row I) (fun i s => upd s i 1%Z) subg in
  for_range O (num_col I) (fill_body reduced_costs) subg1.

(** [for (i...) if (subg[i] != 0) return 0;  return -1;] *)
Fixpoint scan_nonzero (n i : nat) (subg : list Z) : Z :=
  match n with
  | O => (-1)%Z
  | S n' => if negb (nth i subg 0%Z =? 0)%Z then 0%Z else scan_nonzero n' (S i) subg
  end.

Definition compute_subg_vector_sps (subg : list Z) (reduced_costs : list Q) : list Z * Z :=
  let subg' := subg_fill subg reduced_costs in
  (subg', scan_nonzero (num_row I) O subg').

(** The third loop of [compute_subg_vector_basic]; the state is
    (subg, is_opt, norm).  The product is computed in [int] and then added to
    the [long long]; with [num_row] an [int] the sum stays within 64 bits. *)
Definition basic_clamp_loop (subg : list Z) (dual : list Q) : list Z * bool * Z :=
  for_range O (num_row I)
    (fun i (s : list Z * bool * Z) =>
       let '(sg, is_opt, norm) := s in
       if negb (nth i sg 0%Z =? 0)%Z then
         if ((nth i sg 0%Z <? 0)%Z && Qltb (nth i dual 0) TOL14)%bool
         then (upd sg i 0%Z, false, norm)
         else (sg, false, (norm + int_mul (nth i sg 0%Z) (nth i sg 0%Z))%Z)
       else s)
    (subg, true, 0%Z).

Definition compute_subg_vector_basic (subg : list Z) (reduced_costs dual : list Q)
  : list Z * Z :=
  let '(sg, is_opt, norm) := basic_clamp_loop (subg_fill subg reduced_costs) dual in
  if is_opt then (sg, (-1)%Z)
  else (sg, if (norm =? 0)%Z then 1%Z else norm).

End Instance.

(* ================================================================== *)
(** ** init_dual_vector in double precision

    The same function, and the objective as the drivers evaluate it, with the
    arithmetic of IEEE 754 binary64 (round to nearest, ties to even) as
    [SpecFloat] defines it: a division, an addition or a subtraction of the
    source is one rounded operation, a conversion of an [int] is exact, and
    a comparison is the comparison of the values. *)

Module Binary64.

Definition double : Type := spec_float.

Definition prec : Z := 53%Z.
Definition emax : Z := 1024%Z.

(** [(double) z] for an [int] [z] *)
Definition of_int (z : Z) : double := binary_normalize prec emax z 0%Z false.

Definition zero : double := S754_zero false.
Definition add : double -> double -> double := SFadd prec emax.
Definition sub : double -> double -> double := SFsub prec emax.
Definition div : double -> double -> double := SFdiv prec emax.
Definition ltb : double -> double -> bool := SFltb.

(** The rational a finite double denotes. *)
Definition to_Q (x : double) : Q :=
  match x with
  | S754_finite s m e =>
      let v := inject_Z (Zpos m) * Qpower 2 e in
      if s then - v else v
  | _ => 0
  end.

Section Init.

Variable I : instance.

Definition init_row_min (i : nat) : double :=
  for_range (row_lo I i) (row_hi I i)
    (fun j min_value =>
       let idx := row_at I j in
       let value := div (of_int (cost_of I idx)) (of_int (Z.of_nat (col_size I idx))) in
       if ltb value min_value then value else min_value)
    (of_int (cost_of I (row_at I (row_lo I i)))).

Definition init_duals (dual : list double) : list double * double :=
  for_range O (num_row I)
    (fun i (s : list double * double) =>
       let min_value := init_row_min i in
       (upd (fst s) i min_value, add (snd s) min_value))
    (dual, of_int 0).

Definition col_reduced_cost (dual : list double) (i : nat) : double :=
  for_range (col_lo I i) (col_hi I i)
    (fun j value => sub value (nth (col_at I j) dual zero))
    (of_int (cost_of I i)).

Definition compute_reduced_costs (dual reduced_costs : list double) : list double :=
  for_range O (num_col I)
    (fun i rc => upd rc i (col_reduced_cost dual i))
    reduced_costs.

(** Returns the buffers after the call and the returned objective value. *)
Definition init_dual_vector (dual reduced_costs : list double)
  : list double * list double * double :=
  let '(dual', obj_value) := init_duals dual in
  (dual', compute_reduced_costs dual' reduced_costs, obj_value).

(** The objective as both drivers evaluate it (lines 337-343 and 555-559):
    the sum of the duals, then the negative reduced costs added to it. *)
Definition dual_sum (dual : list double) : double :=
  for_range O (num_row I) (fun i acc => add acc (nth i dual zero)) (of_int 0).

Definition neg_part_sum (reduced_costs : list double) (acc : double) : double :=
  for_range O (num_col I)
    (fun i acc =>
       if ltb (nth i reduced_costs zero) (of_int 0)
       then add acc (nth i reduced_costs zero) else acc)
    acc.

Definition objective (dual reduced_costs : list double) : double :=
  neg_part_sum reduced_costs (dual_sum dual).

End Init.

End Binary64.

(* ================================================================== *)
(** ** The two dual buffers and the pointers into them

    Both drivers allocate [dual1] and [dual2] and move the three pointers
    [curr_dual], [old_dual] and [best_dual] between them.  [dual2] is not
    initialised by the drivers: its contents at allocation are an argument
    ([junk]) of the models. *)

Inductive buf : Type := Dual1 | Dual2.

Record duals : Type := { d1 : list Q; d2 : list Q }.

Definition rd (m : duals) (b : buf) : list Q :=
  match b with Dual1 => d1 m | Dual2 => d2 m end.

Definition wr (m : duals) (b : buf) (i : nat) (v : Q) : duals :=
  match b with
  | Dual1 => {| d1 := upd (d1 m) i v; d2 := d2 m |}
  | Dual2 => {| d1 := d1 m; d2 := upd (d2 m) i v |}
  end.

Definition set_buf (m : duals) (b : buf) (l : list Q) : duals :=
  match b with
  | Dual1 => {| d1 := l; d2 := d2 m |}
  | Dual2 => {| d1 := d1 m; d2 := l |}
  end.

(** What a driver leaves behind: the returned value and [best_dual_copy]. *)
Record result : Type := { ret_obj : Q; best_dual_copy : list Q }.

(** [value < - ZERO_TOL || value > ZERO_TOL] *)
Definition beyond_tol (value : Q) : bool :=
  (Qltb value (- ZERO_TOL) || Qltb ZERO_TOL value)%bool.

(* ================================================================== *)
(** ** basic_subgradient *)

Section Basic.

Variable I : instance.

(** [for (j = row_wise_idx[i]; j < row_wise_idx[i+1]; j++)
       reduced_costs[row_wise_a[j]] -= value;] *)
Definition rc_sub_row (reduced_costs : list Q) (i : nat) (value : Q) : list Q :=
  for_range (row_lo I i) (row_hi I i)
    (fun j rc => upd rc (row_at I j) (nth (row_at I j) rc 0 - value))
    reduced_costs.

Record basic_state : Type := {
  b_mem : duals;
  b_curr_dual : buf;
  b_old_dual : buf;
  b_best_dual : buf;
  b_reduced_costs : list Q;
  b_subg : list Z;
  b_curr_obj : Q;
  b_best_obj : Q;
  b_counter : nat;
  b_lambda : Q;
  b_norm : Z
}.

(** One row of the update loop; the state is (mem, reduced_costs, curr_obj). *)
Definition basic_row (step_size : Q) (subg : list Z) (curr old : buf) (i : nat)
  (s : duals * list Q * Q) : duals * list Q * Q :=
  let '(m, rc, curr_obj) := s in
  let value := step_size * inject_Z (nth i subg 0%Z) in
  let m1 := wr m curr i (nth i (rd m old) 0 + value) in
  let '(value, m2) :=
    if Qltb (nth i (rd m1 curr) 0) 0
    then (value - nth i (rd m1 curr) 0, wr m1 curr i 0)
    else (value, m1) in
  let rc' := if beyond_tol value then rc_sub_row rc i value else rc in
  (m2, rc', curr_obj + nth i (rd m2 curr) 0).

(** The state after the subgradient computation at the head of the loop. *)
Definition basic_head (s : basic_state) : basic_state :=
  let '(subg', norm) :=
    compute_subg_vector_basic I (b_subg s) (b_reduced_costs s) (rd (b_mem s) (b_old_dual s)) in
  {| b_mem := b_mem s; b_curr_dual := b_curr_dual s; b_old_dual := b_old_dual s;
     b_best_dual := b_best_dual s; b_reduced_costs := b_reduced_costs s;
     b_subg := subg'; b_curr_obj := b_curr_obj s; b_best_obj := b_best_obj s;
     b_counter := b_counter s; b_lambda := b_lambda s; b_norm := norm |}.

(** The dual update and the evaluation of the objective (lines 535-559):
    (mem, reduced_costs, curr_obj). *)
Definition basic_update (upperbound : Z) (s : basic_state) : duals * list Q * Q :=
  let step_size :=
    b_lambda s * ((21 # 20) * inject_Z upperbound - b_curr_obj s) / inject_Z (b_norm s) in
  let '(m, rc, curr_obj) :=
    for_range O (num_row I)
      (basic_row step_size (b_subg s) (b_curr_dual s) (b_old_dual s))
      (b_mem s, b_reduced_costs s, 0) in
  (m, rc, neg_part_sum I rc curr_obj).

(** The rest of the loop body (lines 561-578). *)
Definition basic_tail (s : basic_state) (u : duals * list Q * Q) : basic_state :=
  let '(m, rc, curr_obj) := u in
  let '(best_obj, counter, old, curr, best) :=
    if Qltb (b_best_obj s) curr_obj
    then (curr_obj, O, b_curr_dual s, b_best_dual s, b_curr_dual s)
    else (b_best_obj s, S (b_counter s), b_curr_dual s, b_curr_dual s, b_best_dual s) in
  let '(lambda, counter) :=
    if (10 <? counter)%nat then (times_half (b_lambda s), O) else (b_lambda s, counter) in
  {| b_mem := m; b_curr_dual := curr; b_old_dual := old; b_best_dual := best;
     b_reduced_costs := rc; b_subg := b_subg s; b_curr_obj := curr_obj;
     b_best_obj := best_obj; b_counter := counter; b_lambda := lambda;
     b_norm := b_norm s |}.

(** [for (itr = 0; itr < max_itr; itr++)], with the [break] on optimality.
    [n] is the number of iterations still allowed. *)
Fixpoint basic_loop (upperbound : Z) (n : nat) (s : basic_state) : basic_state :=
  match n with
  | O => s
  | S n' =>
      let s1 := basic_head s in
      if (b_norm s1 <? 0)%Z then s1
      else basic_loop upperbound n' (basic_tail s1 (basic_update upperbound s1))
  end.

Definition basic_init (dual1 junk reduced_costs : list Q) (subg : list Z) : basic_state :=
  let '(dual', rc, obj) := init_dual_vector I dual1 reduced_costs in
  {| b_mem := {| d1 := dual'; d2 := junk |};
     b_curr_dual := Dual1; b_old_dual := Dual1; b_best_dual := Dual2;
     b_reduced_costs := rc; b_subg := subg;
     b_curr_obj := obj; b_best_obj := obj;
     b_counter := O; b_lambda := 2; b_norm := 0%Z |}.

(** After the loop (lines 582-594). *)
Definition basic_finish (s : basic_state) : result :=
  let '(best, best_obj) :=
    if (b_norm s <? 0)%Z then (b_curr_dual s, b_curr_obj s)
    else (b_best_dual s, b_best_obj s) in
  {| ret_obj := best_obj; best_dual_copy := rd (b_mem s) best |}.

(** The buffers are allocated with [num_row] (or [num_col]) cells; all but
    [dual2] are written before they are read, so their initial contents are
    zeros here. *)
Definition basic_subgradient (max_itr : nat) (upperbound : Z) (junk : list Q) : result :=
  basic_finish
    (basic_loop upperbound max_itr
       (basic_init (repeat 0 (num_row I)) junk (repeat 0 (num_col I))
          (repeat 0%Z (num_row I)))).

End Basic.

(* ================================================================== *)
(** ** spectral_projected_subgradient *)

(** The value of a [double] expression that may divide by zero: a finite
    value, an infinity or a NaN, with the IEEE rules for the operations the
    driver applies to [eta] and [accept]. *)
Inductive xdouble : Type :=
| Fin (q : Q)
| PInf
| NInf
| NaN.

(** [a / b] *)
Definition xdiv (a b : Q) : xdouble :=
  if Qeq_bool b 0 then
    if Qltb 0 a then PInf else if Qltb a 0 then NInf else NaN
  else Fin (a / b).

(** [x / b] for a finite [b] that is not a negative zero *)
Definition xdivx (x : xdouble) (b : Q) : xdouble :=
  match x with
  | Fin a => xdiv a b
  | PInf => if Qltb b 0 then NInf else PInf
  | NInf => if Qltb b 0 then PInf else NInf
  | NaN => NaN
  end.

(** [a - x] for a finite [a] *)
Definition xsub (a : Q) (x : xdouble) : xdouble :=
  match x with
  | Fin q => Fin (a - q)
  | PInf => NInf
  | NInf => PInf
  | NaN => NaN
  end.

(** [x - a] for a finite [a] *)
Definition xsub_fin (x : xdouble) (a : Q) : xdouble :=
  match x with
  | Fin q => Fin (q - a)
  | _ => x
  end.

(** [a < x] for a finite [a] *)
Definition xlt (a : Q) (x : xdouble) : bool :=
  match x with
  | Fin q => Qltb a q
  | PInf => true
  | NInf => false
  | NaN => false
  end.

(** How a run of the model ends: with a value, or because the fuel given to
    the line search ran out, or at a read of a cell of [past_objs] that was
    never written. *)
Inductive outcome (A : Type) : Type :=
| Returned (a : A)
| OutOfFuel
| UninitRead.
Arguments Returned {A} a.
Arguments OutOfFuel {A}.
Arguments UninitRead {A}.

Definition M : nat := 10.
Definition mu : Q := 7 # 10.
Definition gamma : Q := 1 # 10.

(** [unsigned char is_opt = <int>;  if (is_opt)] *)
Definition truthy_uchar (v : Z) : bool := negb ((v mod 256) =? 0)%Z.

Section SPS.

Variable I : instance.

(** [sqrt] and [pow] of the C library, on the values of [double]. *)
Variable libm_sqrt : Q -> Q.
Variable libm_pow : Q -> Q -> Q.

(** [for (j = row_wise_idx[i]; j < row_wise_idx[i+1]; j++)
       reduced_costs[row_wise_a[j]] += value;] *)
Definition rc_add_row (reduced_costs : list Q) (i : nat) (value : Q) : list Q :=
  for_range (row_lo I i) (row_hi I i)
    (fun j rc => upd rc (row_at I j) (nth (row_at I j) rc 0 + value))
    reduced_costs.

Record sps_state : Type := {
  s_mem : duals;
  s_curr_dual : buf;
  s_old_dual : buf;
  s_best_dual : buf;
  s_reduced_costs : list Q;
  s_subg1 : list Z;
  s_subg2 : list Z;
  s_momentum : list Q;
  s_dd : list Q;
  s_dd_idx : list nat;
  s_past_objs : list (option Q);
  s_worst_obj : Q;
  s_worst_obj_idx : nat;
  s_curr_obj : Q;
  s_best_obj : Q;
  s_alpha : Q;
  s_eta_not : xdouble
}.

(** The variables of the tentative step (lines 310-335). *)
Record step_state : Type := {
  t_mem : duals;
  t_rc : list Q;
  t_momentum : list Q;
  t_dd : list Q;
  t_dd_idx : list nat;
  t_dd_size : nat;
  t_sub_obj : Q;
  t_product : Q
}.

Definition old_subg_of (itr : nat) (s : sps_state) : list Z :=
  if (itr mod 2 =? 0)%nat then s_subg1 s else s_subg2 s.
Definition curr_subg_of (itr : nat) (s : sps_state) : list Z :=
  if (itr mod 2 =? 0)%nat then s_subg2 s else s_subg1 s.

(** The step of the dual of row [i]: [(momentum[i], value)] after line 319. *)
Definition sps_delta (alpha : Q) (old_subg : list Z) (momentum old : list Q) (i : nat)
  : Q * Q :=
  let m := alpha * inject_Z (nth i old_subg 0%Z) + mu * nth i momentum 0 in
  let value := nth i old 0 + m in
  let value := if Qltb value 0 then 0 else value in
  (m, value - nth i old 0).

Definition sps_row (alpha : Q) (old_subg : list Z) (curr old : buf) (i : nat)
  (t : step_state) : step_state :=
  let '(m, value) :=
    sps_delta alpha old_subg (t_momentum t) (rd (t_mem t) old) i in
  if beyond_tol value then
    let mem' := wr (t_mem t) curr i (nth i (rd (t_mem t) old) 0 + value) in
    {| t_mem := mem';
       t_rc := rc_sub_row I (t_rc t) i value;
       t_momentum := upd (t_momentum t) i m;
       t_dd := upd (t_dd t) i value;
       t_dd_idx := upd (t_dd_idx t) (t_dd_size t) i;
       t_dd_size := S (t_dd_size t);
       t_sub_obj := t_sub_obj t + nth i (rd mem' curr) 0;
       t_product := t_product t + value * m |}
  else
    let mem' := wr (t_mem t) curr i (nth i (rd (t_mem t) old) 0) in
    {| t_mem := mem';
       t_rc := t_rc t;
       t_momentum := upd (t_momentum t) i m;
       t_dd := t_dd t;
       t_dd_idx := t_dd_idx t;
       t_dd_size := t_dd_size t;
       t_sub_obj := t_sub_obj t + nth i (rd mem' curr) 0;
       t_product := t_product t |}.

Definition sps_step (itr : nat) (s : sps_state) : step_state :=
  for_range O (num_row I)
    (sps_row (s_alpha s) (old_subg_of itr s) (s_curr_dual s) (s_old_dual s))
    {| t_mem := s_mem s; t_rc := s_reduced_costs s; t_momentum := s_momentum s;
       t_dd := s_dd s; t_dd_idx := s_dd_idx s; t_dd_size := O;
       t_sub_obj := 0; t_product := 0 |}.

(** The variables of the line search (lines 345-372). *)
Record ls_state : Type := {
  l_tau : Q;
  l_mem : duals;
  l_rc : list Q;
  l_sub_obj : Q;
  l_curr_obj : Q;
  l_accept : xdouble
}.

(** One changed row of the rollback; the state is (mem, reduced_costs, sub_obj). *)
Definition ls_row (tau : Q) (curr : buf) (dd : list Q) (dd_idx : list nat) (k : nat)
  (s : duals * list Q * Q) : duals * list Q * Q :=
  let '(m, rc, sub_obj) := s in
  let i := nth k dd_idx O in
  let value := tau * nth i dd 0 in
  if beyond_tol value then
    (wr m curr i (nth i (rd m curr) 0 - value), rc_add_row rc i value, sub_obj - value)
  else s.

(** The body of the [while (curr_obj < accept)] loop. *)
Definition ls_halve (product : Q) (curr : buf) (dd : list Q) (dd_idx : list nat)
  (dd_size : nat) (l : ls_state) : ls_state :=
  let tau := l_tau l * (1 # 2) in
  let '(m, rc, sub_obj) :=
    for_range O dd_size (ls_row tau curr dd dd_idx) (l_mem l, l_rc l, l_sub_obj l) in
  {| l_tau := tau; l_mem := m; l_rc := rc; l_sub_obj := sub_obj;
     l_curr_obj := neg_part_sum I rc sub_obj;
     l_accept := xsub_fin (l_accept l) (gamma * tau * product) |}.

Fixpoint line_search (fuel : nat) (product : Q) (curr : buf) (dd : list Q)
  (dd_idx : list nat) (dd_size : nat) (l : ls_state) : option ls_state :=
  if xlt (l_curr_obj l) (l_accept l) then
    match fuel with
    | O => None
    | S fuel' =>
        line_search fuel' product curr dd dd_idx dd_size
          (ls_halve product curr dd dd_idx dd_size l)
    end
  else Some l.

(** [sqrt(x)]: a NaN for a negative argument. *)
Definition xsqrt (x : Q) : xdouble :=
  if Qltb x 0 then NaN else Fin (libm_sqrt x).

(** [eta_not / pow(itr, 1.1)] *)
Definition eta_of (eta_not : xdouble) (itr : nat) : xdouble :=
  xdivx eta_not (libm_pow (inject_Z (Z.of_nat itr)) (11 # 10)).

(** The state at the head of the [while] loop (lines 337-349);
    the first component is [product] after [product /= alpha]. *)
Definition ls_entry (itr : nat) (s : sps_state) (t : step_state) : Q * ls_state :=
  let curr_obj := neg_part_sum I (t_rc t) (t_sub_obj t) in
  let product := t_product t / s_alpha s in
  let tau := 1 in
  let eta := eta_of (s_eta_not s) itr in
  (product,
   {| l_tau := tau; l_mem := t_mem t; l_rc := t_rc t; l_sub_obj := t_sub_obj t;
      l_curr_obj := curr_obj;
      l_accept := xsub (s_worst_obj s + gamma * tau * product) eta |}).

(** Lines 391-405: the new [alpha]. *)
Definition alpha_sums (old_subg curr_subg : list Z) (dd : list Q) (dd_idx : list nat)
  (dd_size : nat) : Q * Q :=
  for_range O dd_size
    (fun k (a : Q * Q) =>
       let i := nth k dd_idx O in
       let value := nth i dd 0 in
       (fst a + value * value,
        snd a + value * inject_Z (nth i old_subg 0%Z - nth i curr_subg 0%Z)))
    (0, 0).

Definition update_alpha (tau : Q) (old_subg curr_subg : list Z) (dd : list Q)
  (dd_idx : list nat) (dd_size : nat) : Q :=
  let '(alpha, alpha_deno) := alpha_sums old_subg curr_subg dd dd_idx dd_size in
  if Qltb alpha_deno ZERO_TOL then 1 # 10 else tau * alpha / alpha_deno.

(** Lines 416-421: the scan of [past_objs]; [None] when a cell that was never
    written would be read. *)
Definition rescan_body (past_objs : list (option Q)) (j : nat) (acc : option (Q * nat))
  : option (Q * nat) :=
  match acc with
  | None => None
  | Some (w, idx) =>
      match nth j past_objs None with
      | None => None
      | Some v => if Qltb v w then Some (v, j) else Some (w, idx)
      end
  end.

Definition rescan (past_objs : list (option Q)) (worst_obj : Q) (worst_obj_idx : nat)
  : option (Q * nat) :=
  for_down M (rescan_body past_objs) (Some (worst_obj, worst_obj_idx)).

(** Lines 408-426: (past_objs, worst_obj, worst_obj_idx) after the update. *)
Definition update_worst (itr : nat) (curr_obj : Q) (past_objs : list (option Q))
  (worst_obj : Q) (worst_obj_idx : nat) : option (list (option Q) * Q * nat) :=
  let i := ((itr + 1) mod M)%nat in
  let past := upd past_objs i (Some curr_obj) in
  if (i =? worst_obj_idx)%nat then
    if Qle_bool curr_obj worst_obj then Some (past, curr_obj, worst_obj_idx)
    else
      match rescan past curr_obj worst_obj_idx with
      | Some (w, idx) => Some (past, w, idx)
      | None => None
      end
  else if Qltb curr_obj worst_obj then Some (past, curr_obj, i)
  else Some (past, worst_obj, worst_obj_idx).

(** The state after the update of the best solution and the computation of
    the subgradient (lines 374-389), with [is_opt]. *)
Definition sps_accept (itr : nat) (s : sps_state) (t : step_state) (l : ls_state)
  : sps_state * bool :=
  let '(best_obj, old, curr, best) :=
    if Qltb (s_best_obj s) (l_curr_obj l)
    then (l_curr_obj l, s_curr_dual s, s_best_dual s, s_curr_dual s)
    else (s_best_obj s, s_curr_dual s, s_curr_dual s, s_best_dual s) in
  let '(sg, r) := compute_subg_vector_sps I (curr_subg_of itr s) (l_rc l) in
  let '(subg1, subg2) :=
    if (itr mod 2 =? 0)%nat then (s_subg1 s, sg) else (sg, s_subg2 s) in
  ({| s_mem := l_mem l; s_curr_dual := curr; s_old_dual := old; s_best_dual := best;
      s_reduced_costs := l_rc l; s_subg1 := subg1; s_subg2 := subg2;
      s_momentum := t_momentum t; s_dd := t_dd t; s_dd_idx := t_dd_idx t;
      s_past_objs := s_past_objs s; s_worst_obj := s_worst_obj s;
      s_worst_obj_idx := s_worst_obj_idx s;
      s_curr_obj := l_curr_obj l; s_best_obj := best_obj;
      s_alpha := s_alpha s; s_eta_not := s_eta_not s |},
   truthy_uchar r).

(** The end of the loop body (lines 391-426) when the loop goes on. *)
Definition sps_tail (itr : nat) (tau : Q) (dd_size : nat) (s : sps_state)
  : outcome sps_state :=
  let alpha :=
    update_alpha tau (old_subg_of itr s) (curr_subg_of itr s) (s_dd s) (s_dd_idx s) dd_size in
  match update_worst itr (s_curr_obj s) (s_past_objs s) (s_worst_obj s) (s_worst_obj_idx s) with
  | None => UninitRead
  | Some (past, worst_obj, worst_obj_idx) =>
      Returned
        {| s_mem := s_mem s; s_curr_dual := s_curr_dual s; s_old_dual := s_old_dual s;
           s_best_dual := s_best_dual s; s_reduced_costs := s_reduced_costs s;
           s_subg1 := s_subg1 s; s_subg2 := s_subg2 s; s_momentum := s_momentum s;
           s_dd := s_dd s; s_dd_idx := s_dd_idx s;
           s_past_objs := past; s_worst_obj := worst_obj;
           s_worst_obj_idx := worst_obj_idx;
           s_curr_obj := s_curr_obj s; s_best_obj := s_best_obj s;
           s_alpha := alpha; s_eta_not := s_eta_not s |}
  end.

(** One iteration of the [for] loop; the flag is [true] when the iteration
    ends in the [break]. *)
Definition sps_body (fuel : nat) (itr : nat) (s : sps_state) : outcome (sps_state * bool) :=
  let t := sps_step itr s in
  let '(product, l0) := ls_entry itr s t in
  match line_search fuel product (s_curr_dual s) (t_dd t) (t_dd_idx t) (t_dd_size t) l0 with
  | None => OutOfFuel
  | Some l =>
      let '(s1, is_opt) := sps_accept itr s t l in
      if is_opt then Returned (s1, true)
      else
        match sps_tail itr (l_tau l) (t_dd_size t) s1 with
        | Returned s2 => Returned (s2, false)
        | OutOfFuel => OutOfFuel
        | UninitRead => UninitRead
        end
  end.

(** [for (itr = 0; itr < max_itr; itr++)]: [n] iterations are still allowed. *)
Fixpoint sps_loop (fuel : nat) (n : nat) (itr : nat) (s : sps_state)
  : outcome (sps_state * bool) :=
  match n with
  | O => Returned (s, false)
  | S n' =>
      match sps_body fuel itr s with
      | Returned (s', true) => Returned (s', true)
      | Returned (s', false) => sps_loop fuel n' (S itr) s'
      | OutOfFuel => OutOfFuel
      | UninitRead => UninitRead
      end
  end.

(** Lines 278-295: the state before the loop, with [is_opt]. *)
Definition sps_init (junk : list Q) : sps_state * bool :=
  let '(dual', rc, obj) :=
    init_dual_vector I (repeat 0 (num_row I)) (repeat 0 (num_col I)) in
  let '(subg1, r) := compute_subg_vector_sps I (repeat 0%Z (num_row I)) rc in
  let eta_not :=
    xsqrt
      (for_range O (num_row I)
         (fun i e => e + inject_Z (int_mul (nth i subg1 0%Z) (nth i subg1 0%Z))) 0) in
  ({| s_mem := {| d1 := dual'; d2 := junk |};
      s_curr_dual := Dual1; s_old_dual := Dual1; s_best_dual := Dual2;
      s_reduced_costs := rc;
      s_subg1 := subg1; s_subg2 := repeat 0%Z (num_row I);
      s_momentum := repeat 0 (num_row I);
      s_dd := repeat 0 (num_row I); s_dd_idx := repeat O (num_row I);
      s_past_objs := upd (repeat None M) O (Some obj);
      s_worst_obj := obj; s_worst_obj_idx := O;
      s_curr_obj := obj; s_best_obj := obj;
      s_alpha := 1 # 10; s_eta_not := eta_not |},
   truthy_uchar r).

(** The [cleanup] label (lines 430-448). *)
Definition sps_cleanup (s : sps_state) (is_opt : bool) : result :=
  let '(best, best_obj) :=
    if is_opt then (s_curr_dual s, s_curr_obj s)
    else (s_best_dual s, s_best_obj s) in
  {| ret_obj := best_obj; best_dual_copy := rd (s_mem s) best |}.

Definition spectral_projected_subgradient (fuel : nat) (max_itr : nat) (junk : list Q)
  : outcome result :=
  let '(s0, is_opt) := sps_init junk in
  if is_opt then Returned (sps_cleanup s0 true)
  else
    match sps_loop fuel max_itr O s0 with
    | Returned (s, is_opt') => Returned (sps_cleanup s is_opt')
    | OutOfFuel => OutOfFuel
    | UninitRead => UninitRead
    end.

End SPS.

(* ================================================================== *)
(** ** The accessors of the result *)

Section Accessors.

Variable I : instance.



Definition get_num_col : nat := num_col I.
Definition get_num_row : nat := num_row I.

End Accessors.

(* ================================================================== *)
(** ** load_scp_instance

    The file is its contents (the [fopen] has succeeded).  [getline] yields
    the lines one after the other, each with its newline; [strtok(., " ")]
    yields the maximal runs of characters other than the space; [atoi] reads
    an optional sign and the leading digits.  A call of [malloc] succeeds when
    [malloc_ok] says so for the number of elements asked for.  A write outside
    an allocated array ends the run as [Undefined], and so does an [int]
    computed outside its range ([atoi(token) - 1], [num_nonzero += ...],
    [num_col + 1], [num_row + 1]); [Failed] is the [return -1]. *)

Module Loader.

Import Ascii.

Inductive load_result (A : Type) : Type :=
| Loaded (a : A)
| Failed
| Undefined.
Arguments Loaded {A} a.
Arguments Failed {A}.
Arguments Undefined {A}.

Definition bind {A B : Type} (r : load_result A) (k : A -> load_result B)
  : load_result B :=
  match r with
  | Loaded a => k a
  | Failed => Failed
  | Undefined => Undefined
  end.

Notation "x <- c ;; k" := (bind c (fun x => k))
  (at level 61, c at next level, right associativity).

(** The static variables after a successful load. *)
Record raw_instance : Type := {
  r_num_row : Z;
  r_num_col : Z;
  r_costs : list Z;
  r_col_wise_a : list Z;
  r_col_wise_idx : list Z;
  r_row_wise_a : list Z;
  r_row_wise_idx : list Z;
  r_col_sizes : list Z;
  r_row_sizes : list Z
}.

Definition newline : ascii := "010"%char.
Definition space : ascii := " "%char.

(** The lines [getline] returns, in order. *)
Fixpoint lines_from (cur : list ascii) (s : list ascii) : list (list ascii) :=
  match s with
  | [] => match cur with [] => [] | _ => [rev cur] end
  | c :: s' =>
      if Ascii.eqb c newline then rev (c :: cur) :: lines_from [] s'
      else lines_from (c :: cur) s'
  end.

(** The tokens [strtok] finds in a line with the delimiter [" "]. *)
Fixpoint tokens_from (cur : list ascii) (s : list ascii) : list (list ascii) :=
  match s with
  | [] => match cur with [] => [] | _ => [rev cur] end
  | c :: s' =>
      if Ascii.eqb c space then
        match cur with
        | [] => tokens_from [] s'
        | _ => rev cur :: tokens_from [] s'
        end
      else tokens_from (c :: cur) s'
  end.

Definition tokens (line : list ascii) : list (list ascii) := tokens_from [] line.

Definition is_space (c : ascii) : bool :=
  let n := nat_of_ascii c in ((n =? 32) || ((9 <=? n) && (n <=? 13)))%nat.

Definition digit_of (c : ascii) : option Z :=
  let n := nat_of_ascii c in
  if ((48 <=? n) && (n <=? 57))%nat then Some (Z.of_nat (n - 48)) else None.

Fixpoint atoi_digits (acc : Z) (s : list ascii) : Z :=
  match s with
  | [] => acc
  | c :: s' =>
      match digit_of c with
      | Some d => atoi_digits (10 * acc + d)%Z s'
      | None => acc
      end
  end.

Fixpoint skip_spaces (s : list ascii) : list ascii :=
  match s with
  | c :: s' => if is_space c then skip_spaces s' else s
  | [] => []
  end.

Definition LONG_MIN : Z := (-9223372036854775808)%Z.
Definition LONG_MAX : Z := 9223372036854775807%Z.

(** [strtol(s, NULL, 10)]: the number read, kept within the range of [long]. *)
Definition strtol (s : list ascii) : Z :=
  Z.max LONG_MIN
    (Z.min LONG_MAX
       match skip_spaces s with
       | c :: s' =>
           if Ascii.eqb c "-"%char then (- atoi_digits 0 s')%Z
           else if Ascii.eqb c "+"%char then atoi_digits 0 s'
           else atoi_digits 0 (c :: s')
       | [] => 0%Z
       end).

(** [atoi], as the GNU C library defines it: [(int) strtol(s, NULL, 10)], the
    conversion to [int] keeping the low 32 bits.  (ISO C leaves the value
    undefined when the number read is outside the range of [int].) *)
Definition atoi (s : list ascii) : Z := int_wrap (strtol s).

(** [*token != '\n'] *)
Definition not_newline (token : list ascii) : bool :=
  match token with
  | c :: _ => negb (Ascii.eqb c newline)
  | [] => true
  end.

Section TokenLoop.

Variable St : Type.

(** The body of the loop for a token that does not start with a newline,
    at the index [j]. *)
Variable step : St -> Z -> list ascii -> load_result St.

(** The number of values to read. *)
Variable n : Z.

(** [for (j = 0, token = NULL; j < n; token = strtok(NULL, " ")) {
       if (token == NULL) { GETLINE(...) STR_TOKEN(token, buf, " ") }
       if ( *token != '\n') { step; j++ } }]
    from the lines still unread; it returns the lines left. *)
Fixpoint token_loop (lines : list (list ascii)) (j : Z) (s : St) {struct lines}
  : load_result (St * list (list ascii)) :=
  if (n <=? j)%Z then Loaded (s, lines)
  else
    match lines with
    | [] => Failed
    | l :: rest =>
        match tokens l with
        | [] => Failed
        | toks =>
            (fix inner (cur : list (list ascii)) (j : Z) (s : St) {struct cur}
               : load_result (St * list (list ascii)) :=
               if (n <=? j)%Z then Loaded (s, rest)
               else
                 match cur with
                 | [] => token_loop rest j s
                 | t :: ts =>
                     if not_newline t then
                       match step s j t with
                       | Loaded s' => inner ts (j + 1)%Z s'
                       | Failed => Failed
                       | Undefined => Undefined
                       end
                     else inner ts j s
                 end) toks j s
        end
    end.

End TokenLoop.

(** [MALLOC(var, type, n * sizeof(...))] *)
Definition MALLOC {A : Type} (malloc_ok : Z -> bool) (n : Z) (cells : list A)
  : load_result (list A) :=
  if malloc_ok n then Loaded cells else Failed.

(** A write [arr[k] = v] into an allocated array. *)
Definition store {A : Type} (arr : list A) (k : Z) (v : A) : load_result (list A) :=
  if ((0 <=? k) && (k <? Z.of_nat (length arr)))%Z
  then Loaded (upd arr (Z.to_nat k) v)
  else Undefined.

Definition zeros (n : Z) : list Z := repeat 0%Z (Z.to_nat n).

(** The temporary matrices and the counters while the rows are read. *)
Record row_state : Type := {
  w_cols : list (list Z);
  w_rows : list (list Z);
  w_col_sizes : list Z;
  w_row_sizes : list Z;
  w_num_nonzero : Z
}.

(** Lines 132-139, for the row [i] and the position [j] in it. *)
Definition entry_step (i : Z) (w : row_state) (j : Z) (token : list ascii)
  : load_result row_state :=
  if (atoi token =? INT_MIN)%Z then Undefined
  else
  let col_idx := (atoi token - 1)%Z in
  if (col_idx <? 0)%Z then Failed
  else if (Z.of_nat (length (w_cols w)) <=? col_idx)%Z then Undefined
  else
    let c := Z.to_nat col_idx in
    col <- store (nth c (w_cols w) []) (nth c (w_col_sizes w) 0%Z) i ;;
    row <- store (nth (Z.to_nat i) (w_rows w) []) j col_idx ;;
    Loaded
      {| w_cols := upd (w_cols w) c col;
         w_rows := upd (w_rows w) (Z.to_nat i) row;
         w_col_sizes := upd (w_col_sizes w) c (nth c (w_col_sizes w) 0 + 1)%Z;
         w_row_sizes := w_row_sizes w;
         w_num_nonzero := w_num_nonzero w |}.

(** Lines 120-141: the rows from [i] on, [k] of them. *)
Fixpoint read_rows (k : nat) (i : Z) (lines : list (list ascii)) (w : row_state)
  : load_result row_state :=
  match k with
  | O => Loaded w
  | S k' =>
      match lines with
      | [] => Failed
      | l :: rest =>
          match tokens l with
          | [] => Failed
          | token :: _ =>
              let size := atoi token in
              let num_nonzero := (w_num_nonzero w + size)%Z in
              if ((num_nonzero <? INT_MIN) || (INT_MAX <? num_nonzero))%Z then Undefined
              else
                let w1 :=
                  {| w_cols := w_cols w; w_rows := w_rows w;
                     w_col_sizes := w_col_sizes w;
                     w_row_sizes := upd (w_row_sizes w) (Z.to_nat i) size;
                     w_num_nonzero := num_nonzero |} in
                r <- token_loop row_state (entry_step i) size rest 0%Z w1 ;;
                read_rows k' (i + 1)%Z (snd r) (fst r)
          end
      end
  end.

(** Lines 143-153 and 155-165: the compressed form of [num] arrays; the
    state is (a, idx, k). *)
Definition compress (num : Z) (sizes : list Z) (arrs : list (list Z))
  (a idx : list Z) : load_result (list Z * list Z) :=
  r <- for_range O (Z.to_nat num)
         (fun i (st : load_result (list Z * list Z * Z)) =>
            s <- st ;;
            let '(a, idx, k) := s in
            idx' <- store idx (Z.of_nat i) k ;;
            for_range O (Z.to_nat (nth i sizes 0%Z))
              (fun j (st : load_result (list Z * list Z * Z)) =>
                 s <- st ;;
                 let '(a, idx, k) := s in
                 a' <- store a k (nth j (nth i arrs []) 0%Z) ;;
                 Loaded (a', idx, (k + 1)%Z))
              (Loaded (a, idx', k)))
         (Loaded (a, idx, 0%Z)) ;;
  let '(a, idx, k) := r in
  idx' <- store idx num k ;;
  Loaded (a, idx').

Definition load_lines (malloc_ok : Z -> bool) (lines : list (list ascii))
  : load_result raw_instance :=
  match lines with
  | [] => Failed
  | first :: rest =>
      match tokens first with
      | t1 :: t2 :: _ =>
          let num_row := atoi t1 in
          let num_col := atoi t2 in
          costs <- MALLOC malloc_ok num_col (zeros num_col) ;;
          r <- token_loop (list Z) (fun c i t => Loaded (upd c (Z.to_nat i) (atoi t)))
                 num_col rest 0%Z costs ;;
          cols <- MALLOC malloc_ok num_col (repeat ([] : list Z) (Z.to_nat num_col)) ;;
          rows <- MALLOC malloc_ok num_row (repeat ([] : list Z) (Z.to_nat num_row)) ;;
          cols <- for_range O (Z.to_nat num_col)
                    (fun i st =>
                       c <- st ;; x <- MALLOC malloc_ok num_row (zeros num_row) ;;
                       Loaded (upd c i x))
                    (Loaded cols) ;;
          rows <- for_range O (Z.to_nat num_row)
                    (fun i st =>
                       c <- st ;; x <- MALLOC malloc_ok num_col (zeros num_col) ;;
                       Loaded (upd c i x))
                    (Loaded rows) ;;
          col_sizes <- MALLOC malloc_ok num_col (zeros num_col) ;;
          row_sizes <- MALLOC malloc_ok num_row (zeros num_row) ;;
          w <- read_rows (Z.to_nat num_row) 0%Z (snd r)
                 {| w_cols := cols; w_rows := rows; w_col_sizes := col_sizes;
                    w_row_sizes := row_sizes; w_num_nonzero := 0 |} ;;
          col_wise_a <- MALLOC malloc_ok (w_num_nonzero w) (zeros (w_num_nonzero w)) ;;
          col_wise_idx <- (if (num_col =? INT_MAX)%Z then Undefined
                           else MALLOC malloc_ok (num_col + 1) (zeros (num_col + 1))) ;;
          cw <- compress num_col (w_col_sizes w) (w_cols w) col_wise_a col_wise_idx ;;
          row_wise_a <- MALLOC malloc_ok (w_num_nonzero w) (zeros (w_num_nonzero w)) ;;
          row_wise_idx <- (if (num_row =? INT_MAX)%Z then Undefined
                           else MALLOC malloc_ok (num_row + 1) (zeros (num_row + 1))) ;;
          rw <- compress num_row (w_row_sizes w) (w_rows w) row_wise_a row_wise_idx ;;
          best_dual_copy <- MALLOC malloc_ok num_row (zeros num_row) ;;
          Loaded
            {| r_num_row := num_row; r_num_col := num_col; r_costs := fst r;
               r_col_wise_a := fst cw; r_col_wise_idx := snd cw;
               r_row_wise_a := fst rw; r_row_wise_idx := snd rw;
               r_col_sizes := w_col_sizes w; r_row_sizes := w_row_sizes w |}
      | _ => Failed
      end
  end.

Definition load_scp_instance (malloc_ok : Z -> bool) (file : String.string)
  : load_result raw_instance :=
  load_lines malloc_ok (lines_from [] (String.list_ascii_of_string file)).

(** The instance the drivers work on. *)
Definition to_instance (r : raw_instance) : instance :=
  {| num_col := Z.to_nat (r_num_col r);
     num_row := Z.to_nat (r_num_row r);
     costs := r_costs r;
     col_wise_a := map Z.to_nat (r_col_wise_a r);
     col_wise_idx := map Z.to_nat (r_col_wise_idx r);
     row_wise_a := map Z.to_nat (r_row_wise_a r);
     row_wise_idx := map Z.to_nat (r_row_wise_idx r);
     col_sizes := map Z.to_nat (r_col_sizes r) |}.

(** An allocator that refuses every request for no element or fewer. *)
Definition malloc_positive (n : Z) : bool := (0 <? n)%Z.

(** An allocator that also serves the requests for no element. *)
Definition malloc_nonneg (n : Z) : bool := (0 <=? n)%Z.

(** The text of a file from its lines. *)
Definition scp_text (lines : list String.string) : String.string :=
  String.concat String.EmptyString
    (map (fun l => String.append l (String.String newline String.EmptyString)) lines).

End Loader.

(* ================================================================== *)
(** ** Executable stand-ins for the C library

    [sqrt_approx] and [pow_approx] round the exact value down to a multiple
    of 2^-52; they are used to run the drivers on concrete instances. *)

Definition sqrt_approx (x : Q) : Q :=
  Z.sqrt (Qnum x * Zpos (Qden x) * 2 ^ 104) # (Qden x * 2 ^ 52).

Fixpoint iroot_bisect (fuel : nat) (q : Z) (n lo hi : Z) : Z :=
  match fuel with
  | O => lo
  | S fuel' =>
      if (hi - lo <=? 1)%Z then lo
      else
        let mid := ((lo + hi) / 2)%Z in
        if (mid ^ q <=? n)%Z then iroot_bisect fuel' q n mid hi
        else iroot_bisect fuel' q n lo mid
  end.

(** The integer part of the [q]-th root of [n]. *)
Definition iroot (q : Z) (n : Z) : Z :=
  iroot_bisect (S (S (Z.to_nat (Z.log2 n)))) q n 0 (n + 1).

(** [x ^ y] for [x >= 0] and [y > 0]; zero elsewhere. *)
Definition pow_approx (x y : Q) : Q :=
  if (Qle_bool x 0 || Qle_bool y 0)%bool then 0
  else
    let p := Qnum y in
    let q := Zpos (Qden y) in
    let n := (Qnum x ^ p)%Z in
    let d := (Zpos (Qden x) ^ p)%Z in
    (iroot q (n * d ^ (q - 1) * 2 ^ (q * 52)) # 1) / inject_Z (d * 2 ^ 52).

(* ================================================================== *)
(** ** Concrete instances *)

(** One row covered by one column of cost 1. *)
Definition inst_1x1 : instance :=
  {| num_col := 1; num_row := 1; costs := [1%Z];
     col_wise_a := [O]; col_wise_idx := [O; 1%nat];
     row_wise_a := [O]; row_wise_idx := [O; 1%nat];
     col_sizes := [1%nat] |}.

(** One row covered by two columns of cost 2. *)
Definition inst_1x2 : instance :=
  {| num_col := 2; num_row := 1; costs := [2%Z; 2%Z];
     col_wise_a := [O; O]; col_wise_idx := [O; 1%nat; 2%nat];
     row_wise_a := [O; 1%nat]; row_wise_idx := [O; 2%nat];
     col_sizes := [1%nat; 1%nat] |}.

(** Six rows covered by one column of cost 7. *)
Definition inst_6x1 : instance :=
  {| num_col := 1; num_row := 6; costs := [7%Z];
     col_wise_a := [0; 1; 2; 3; 4; 5]%nat;
     col_wise_idx := [0; 6]%nat;
     row_wise_a := [0; 0; 0; 0; 0; 0]%nat;
     row_wise_idx := [0; 1; 2; 3; 4; 5; 6]%nat;
     col_sizes := [6]%nat |}.

(** One row listed by [n] columns of cost 1, each of which lists this row
    only. *)
Definition inst_wide (n : nat) : instance :=
  {| num_col := n; num_row := 1; costs := repeat 1%Z n;
     col_wise_a := repeat O n; col_wise_idx := seq O (S n);
     row_wise_a := seq O n; row_wise_idx := [O; n];
     col_sizes := repeat 1%nat n |}.

(** Five rows and three columns: column 0 (cost 6) covers every row,
    columns 1 and 2 (cost 1 each) cover row 4 only. *)
Definition inst_5x3 : instance :=
  {| num_col := 3; num_row := 5; costs := [6%Z; 1%Z; 1%Z];
     col_wise_a := [0; 1; 2; 3; 4; 4; 4]%nat;
     col_wise_idx := [0; 5; 6; 7]%nat;
     row_wise_a := [0; 0; 0; 0; 0; 1; 2]%nat;
     row_wise_idx := [0; 1; 2; 3; 4; 7]%nat;
     col_sizes := [5; 1; 1]%nat |}.

(** Thirty-nine rows and ten columns.  Column [i], for [i < 9], has size
    [s_i] (3, 7, 11, 13, 17, 19, 23, 29, 31): it covers row [i] and the rows
    [9 .. 9 + s_i - 2].  Column 9, of cost 0, covers the rows [9 .. 38]. *)
Definition drift_sizes : list nat := [3; 7; 11; 13; 17; 19; 23; 29; 31]%nat.

Definition drift_col_wise_a : list nat :=
  Eval vm_compute in
    (concat (map (fun i => i :: seq 9 (nth i drift_sizes O - 1)) (seq O 9)) ++ seq 9 30)%nat.

Definition drift_row_wise_a : list nat :=
  Eval vm_compute in
    (seq O 9
     ++ concat (map (fun t =>
                       filter (fun i => (t + 2 <=? nth i drift_sizes O)%nat) (seq O 9)
                       ++ [9%nat])
                  (seq O 30)))%nat.

Definition prefix_sums (l : list nat) : list nat :=
  fold_left (fun acc n => acc ++ [(last acc O + n)%nat]) l [O].

Definition drift_col_wise_idx : list nat :=
  Eval vm_compute in prefix_sums (drift_sizes ++ [30%nat]).

Definition drift_row_wise_idx : list nat :=
  Eval vm_compute in
    prefix_sums
      (repeat 1%nat 9
       ++ map (fun t =>
                 S (length (filter (fun i => (t + 2 <=? nth i drift_sizes O)%nat)
                              (seq O 9))))
            (seq O 30)).

Definition inst_drift : instance :=
  {| num_col := 10; num_row := 39;
     costs := [1; 3; 3; 8; 12; 2; 18; 26; 425; 0]%Z;
     col_wise_a := drift_col_wise_a;
     col_wise_idx := drift_col_wise_idx;
     row_wise_a := drift_row_wise_a;
     row_wise_idx := drift_row_wise_idx;
     col_sizes := drift_sizes ++ [30%nat] |}.

(** Three rows and two columns of cost 2: column 0 covers rows 0 and 1,
    column 1 covers rows 1 and 2. *)
Definition inst_3x2 : instance :=
  {| num_col := 2; num_row := 3; costs := [2%Z; 2%Z];
     col_wise_a := [0; 1; 1; 2]%nat; col_wise_idx := [0; 2; 4]%nat;
     row_wise_a := [0; 0; 1; 1]%nat; row_wise_idx := [0; 1; 3; 4]%nat;
     col_sizes := [2; 2]%nat |}.

(** The SPS driver on [inst_1x2]: the state before the loop and the state
    after the first iteration. *)
Definition sps_1x2_start : sps_state := fst (sps_init inst_1x2 sqrt_approx [0]).

Definition sps_1x2_next : sps_state :=
  match sps_body inst_1x2 pow_approx O O sps_1x2_start with
  | Returned (s, _) => s
  | _ => sps_1x2_start
  end.

(* ================================================================== *)
(** * Specifications *)

(** The number of times row [r] is listed by the columns selected by [sel]
    (a column that lists a row twice counts twice, as in the loops). *)
Definition covering_count (I : instance) (sel : nat -> bool) (r : nat) : nat :=
  list_sum
    (map (fun c => if sel c then count_occ Nat.eq_dec (rows_of_col I c) r else O)
       (seq O (num_col I))).

(** The entry of the subgradient vector as section 4.3 of the specification
    words it: 1 minus the number of incident columns whose reduced cost is at
    least 1e-14. *)
Definition subg_entry_spec_ge (I : instance) (reduced_costs : list Q) (r : nat) : Z :=
  (1 - Z.of_nat (covering_count I (fun c => Qle_bool TOL14 (nth c reduced_costs 0%Q)) r))%Z.

(** The entry as the loops compute it: 1 minus the number of incident columns
    whose reduced cost is below 1e-14. *)
Definition subg_entry (I : instance) (reduced_costs : list Q) (r : nat) : Z :=
  (1 - Z.of_nat (covering_count I (fun c => Qltb (nth c reduced_costs 0%Q) TOL14) r))%Z.

Definition all_zero (n : nat) (v : list Z) : Prop :=
  forall r, (r < n)%nat -> nth r v 0%Z = 0%Z.

(** The squared Euclidean norm of the first [n] entries. *)
Definition sqnorm (n : nat) (v : list Z) : Z :=
  fold_right Z.add 0%Z (map (fun r => nth r v 0 * nth r v 0)%Z (seq O n)).

(** The same sum with the products as [int] computes them. *)
Definition sqnorm_int (n : nat) (v : list Z) : Z :=
  fold_right Z.add 0%Z (map (fun r => int_mul (nth r v 0) (nth r v 0))%Z (seq O n)).

(** No row is listed more than 46341 times by the columns.  An entry of the
    subgradient vector is 1 minus the number of selected columns that list
    the row: under this bound it lies between -46340 and 1, and its square,
    at most 2147395600, is within the range of [int]; the square of -46341
    is not. *)
Definition rows_fit_int (I : instance) : bool :=
  forallb (fun r => (Z.of_nat (covering_count I (fun _ => true) r) <=? 46341)%Z)
    (seq O (num_row I)).

(** The clamping step of the sign-aware variant. *)
Definition clamped (filled : list Z) (dual : list Q) (r : nat) : Z :=
  if ((nth r filled 0%Z <? 0)%Z && Qltb (nth r dual 0) TOL14)%bool then 0%Z
  else nth r filled 0%Z.

(** The ratio [cost / colSize] of a column. *)
Definition ratio (I : instance) (c : nat) : Q :=
  inject_Z (cost_of I c) / inject_Z (Z.of_nat (col_size I c)).

(** [v] is the minimum of the ratios of the columns incident to row [r]. *)
Definition is_min_ratio (I : instance) (r : nat) (v : Q) : Prop :=
  (forall c, In c (cols_of_row I r) -> v <= ratio I c) /\
  (exists c, In c (cols_of_row I r) /\ v == ratio I c).

(** The reduced cost of a column from scratch:
    [cost[col] - sum of dual[row] for row in rowOfCol[col]]. *)
Definition reduced_cost_spec (I : instance) (dual : list Q) (c : nat) : Q :=
  inject_Z (cost_of I c) - Qsum (map (fun r => nth r dual 0) (rows_of_col I c)).

(** The Lagrangian objective of section 3:
    [sum of dual[row] + sum of min(0, reducedCost[col])]. *)
Definition lagrangian (I : instance) (dual reduced_costs : list Q) : Q :=
  Qsum (map (fun r => nth r dual 0) (seq O (num_row I)))
  + Qsum (map (fun c => Qmin 0 (nth c reduced_costs 0)) (seq O (num_col I))).

(** The two compressed structures describe the same incidence relation:
    the entries are in range, each column is listed by a row as often as it
    lists the row, and [col_sizes] holds the lengths of the columns. *)
Definition wf_instance (I : instance) : bool :=
  forallb (fun c =>
             forallb (fun r => (r <? num_row I)%nat) (rows_of_col I c)
             && (col_size I c =? length (rows_of_col I c))%nat)%bool
    (seq O (num_col I))
  && forallb (fun r =>
                forallb (fun c => (c <? num_col I)%nat) (cols_of_row I r)
                && forallb (fun c =>
                              (count_occ Nat.eq_dec (cols_of_row I r) c
                               =? count_occ Nat.eq_dec (rows_of_col I c) r)%nat)
                     (seq O (num_col I)))%bool
       (seq O (num_row I)).

(** A valid instance: well formed, with non-negative costs and every row
    incident to at least one column. *)
Definition valid_instance (I : instance) : bool :=
  wf_instance I
  && forallb (fun c => (0 <=? cost_of I c)%Z) (seq O (num_col I))
  && forallb (fun r => (row_lo I r <? row_hi I r)%nat) (seq O (num_row I)).

(** The entries of [dual] below [n] are non-negative. *)
Definition dual_nonneg (n : nat) (dual : list Q) : Prop :=
  forall r, (r < n)%nat -> 0 <= nth r dual 0.

(** The tentative step of row [r] in iteration [itr] from the state [s]:
    the new momentum and the effective delta, and whether the row changes. *)
Definition step_mom (s : sps_state) (itr r : nat) : Q :=
  fst (sps_delta (s_alpha s) (old_subg_of itr s) (s_momentum s)
         (rd (s_mem s) (s_old_dual s)) r).

Definition step_value (s : sps_state) (itr r : nat) : Q :=
  snd (sps_delta (s_alpha s) (old_subg_of itr s) (s_momentum s)
         (rd (s_mem s) (s_old_dual s)) r).

Definition step_changed (s : sps_state) (itr r : nat) : bool :=
  beyond_tol (step_value s itr r).

(** The buffers of a driver state have the sizes they were allocated with. *)
Definition sps_sized (I : instance) (s : sps_state) : Prop :=
  length (d1 (s_mem s)) = num_row I /\
  length (d2 (s_mem s)) = num_row I /\
  length (s_dd s) = num_row I /\
  length (s_dd_idx s) = num_row I /\
  length (s_momentum s) = num_row I /\
  length (s_reduced_costs s) = num_col I.

(** The non-negativity invariant of the line search: with [X] the rows the
    tentative step changed and [dd] their deltas, every dual is non-negative
    and stays so when a changed row is taken back by [tau * dd] more. *)
Definition ls_ok (I : instance) (curr : buf) (dd : list Q) (X : list nat)
  (l : ls_state) : Prop :=
  0 < l_tau l /\
  length (d1 (l_mem l)) = num_row I /\
  length (d2 (l_mem l)) = num_row I /\
  length (l_rc l) = num_col I /\
  dual_nonneg (num_row I) (rd (l_mem l) curr) /\
  (forall r, In r X -> 0 <= nth r (rd (l_mem l) curr) 0 - l_tau l * nth r dd 0).

(** The invariant of the driver's loop for the non-negativity of the duals. *)
Definition sps_nonneg_inv (I : instance) (s : sps_state) : Prop :=
  sps_sized I s /\ dual_nonneg (num_row I) (rd (s_mem s) (s_old_dual s)).

(** [w] is the minimum of the values of [l]. *)
Definition is_min_of (w : Q) (l : list Q) : Prop :=
  In w l /\ forall x, In x l -> w <= x.

(** The states of the SPS driver at the head of its loop: [sps_reach itr h s]
    when [s] is the state at the start of iteration [itr] and [h] lists the
    objective values accepted so far, the most recent first and the initial
    objective last. *)
Inductive sps_reach (I : instance) (libm_sqrt : Q -> Q) (libm_pow : Q -> Q -> Q)
  (fuel : nat) (junk : list Q) : nat -> list Q -> sps_state -> Prop :=
| reach_init :
    snd (sps_init I libm_sqrt junk) = false ->
    sps_reach I libm_sqrt libm_pow fuel junk O
      [s_curr_obj (fst (sps_init I libm_sqrt junk))]
      (fst (sps_init I libm_sqrt junk))
| reach_step (itr : nat) (h : list Q) (s s' : sps_state) :
    sps_reach I libm_sqrt libm_pow fuel junk itr h s ->
    sps_body I libm_pow fuel itr s = Returned (s', false) ->
    sps_reach I libm_sqrt libm_pow fuel junk (S itr) (s_curr_obj s' :: h) s'.

(** The ring buffer at the start of iteration [itr]: the value accepted [a]
    iterations ago, for [a < M], is in the cell [(itr - a) mod M]; the cell
    [idx] holds the minimum [worst] of the window. *)
Definition window_inv (itr : nat) (h : list Q) (past : list (option Q)) (worst : Q)
  (idx : nat) : Prop :=
  length h = S itr /\
  length past = M /\
  (forall a, (a < M)%nat -> (a <= itr)%nat ->
     nth ((itr - a) mod M) past None = Some (nth a h 0)) /\
  (exists a, (a < M)%nat /\ (a <= itr)%nat /\ ((itr - a) mod M)%nat = idx /\
     nth a h 0 = worst) /\
  (forall x, In x (firstn M h) -> worst <= x).

(** The state of the loop over the rows of the tentative step, before row
    [k]: the rows below [k] hold their new dual, momentum and delta, the
    rows from [k] on are as they were, and the first [t_dd_size] cells of
    [t_dd_idx] list the rows below [k] that changed. *)
Definition step_inv (I : instance) (s : sps_state) (itr : nat) (k : nat)
  (t : step_state) : Prop :=
  length (d1 (t_mem t)) = num_row I /\
  length (d2 (t_mem t)) = num_row I /\
  length (t_dd t) = num_row I /\
  length (t_dd_idx t) = num_row I /\
  length (t_momentum t) = num_row I /\
  length (t_rc t) = num_col I /\
  (forall r, (k <= r)%nat ->
     nth r (rd (t_mem t) (s_old_dual s)) 0 = nth r (rd (s_mem s) (s_old_dual s)) 0) /\
  (forall r, (k <= r)%nat -> nth r (t_momentum t) 0 = nth r (s_momentum s) 0) /\
  (forall r, (r < k)%nat ->
     nth r (rd (t_mem t) (s_curr_dual s)) 0
     = if step_changed s itr r
       then nth r (rd (s_mem s) (s_old_dual s)) 0 + step_value s itr r
       else nth r (rd (s_mem s) (s_old_dual s)) 0) /\
  (forall r, (r < k)%nat -> step_changed s itr r = true ->
     nth r (t_dd t) 0 = step_value s itr r) /\
  (forall r, (r < k)%nat -> nth r (t_momentum t) 0 = step_mom s itr r) /\
  t_dd_size t = length (filter (step_changed s itr) (seq O k)) /\
  firstn (t_dd_size t) (t_dd_idx t) = filter (step_changed s itr) (seq O k).

(** The from-scratch reduced cost for duals given as a function of the row. *)
Definition rc_fn_spec (I : instance) (g : nat -> Q) (c : nat) : Q :=
  inject_Z (cost_of I c) - Qsum (map g (rows_of_col I c)).

(** The dual vector in the middle of the tentative step: the rows below [k]
    from the buffer being written, the others from the previous iterate. *)
Definition step_ghost (s : sps_state) (k : nat) (t : step_state) (r : nat) : Q :=
  if (r <? k)%nat then nth r (rd (t_mem t) (s_curr_dual s)) 0
  else nth r (rd (s_mem s) (s_old_dual s)) 0.

(** The reduced costs are those of the dual vector in [dual], and the
    objective is the Lagrangian objective of that vector. *)
Definition rc_consistent (I : instance) (dual rc : list Q) : Prop :=
  forall c, (c < num_col I)%nat -> nth c rc 0 == reduced_cost_spec I dual c.

Definition ls_consistent (I : instance) (curr : buf) (l : ls_state) : Prop :=
  length (d1 (l_mem l)) = num_row I /\
  length (d2 (l_mem l)) = num_row I /\
  length (l_rc l) = num_col I /\
  rc_consistent I (rd (l_mem l) curr) (l_rc l) /\
  l_sub_obj l == Qsum (map (fun r => nth r (rd (l_mem l) curr) 0) (seq O (num_row I))) /\
  l_curr_obj l == lagrangian I (rd (l_mem l) curr) (l_rc l).

(** The invariant of the SPS loop for the reduced costs. *)
Definition sps_consistent_inv (I : instance) (s : sps_state) : Prop :=
  sps_sized I s /\
  rc_consistent I (rd (s_mem s) (s_old_dual s)) (s_reduced_costs s).

(** The invariant of the loop over the rows of the tentative step for the
    reduced costs and for [sub_obj]. *)
Definition step_consistent (I : instance) (s : sps_state) (itr : nat) (k : nat)
  (t : step_state) : Prop :=
  step_inv I s itr k t /\
  (forall c, (c < num_col I)%nat ->
     nth c (t_rc t) 0 == rc_fn_spec I (step_ghost s k t) c) /\
  t_sub_obj t
  == Qsum (map (fun r => nth r (rd (t_mem t) (s_curr_dual s)) 0) (seq O k)).

(** The step size of an iteration of the Basic driver (line 535). *)
Definition basic_step_size (upperbound : Z) (s : basic_state) : Q :=
  b_lambda s * ((21 # 20) * inject_Z upperbound - b_curr_obj s) / inject_Z (b_norm s).

(** The effective change of the dual of row [i] in the Basic update, after
    the projection, and the part of it that is not propagated to the reduced
    costs. *)
Definition basic_delta (step_size : Q) (subg : list Z) (old : list Q) (i : nat) : Q :=
  let value := step_size * inject_Z (nth i subg 0%Z) in
  if Qltb (nth i old 0 + value) 0 then value - (nth i old 0 + value) else value.

Definition basic_skipped (step_size : Q) (subg : list Z) (old : list Q) (i : nat) : Q :=
  if beyond_tol (basic_delta step_size subg old i) then 0
  else basic_delta step_size subg old i.

(** The dual vector in the middle of the Basic update. *)
Definition basic_ghost (curr : buf) (base : list Q) (k : nat) (m : duals) (r : nat) : Q :=
  if (r <? k)%nat then nth r (rd m curr) 0 else nth r base 0.

(** What the skipped deltas of the rows below [k] add to the reduced cost of
    column [c]. *)
Definition skipped_sum (I : instance) (step_size : Q) (subg : list Z) (old : list Q)
  (k : nat) (c : nat) : Q :=
  Qsum (map (fun r =>
               inject_Z (Z.of_nat (count_occ Nat.eq_dec (cols_of_row I r) c))
               * basic_skipped step_size subg old r)
          (seq O k)).

(** The invariant of the loop over the rows of the Basic update. *)
Definition basic_update_inv (I : instance) (s : basic_state) (step_size : Q) (k : nat)
  (u : duals * list Q * Q) : Prop :=
  length (d1 (fst (fst u))) = num_row I /\
  length (d2 (fst (fst u))) = num_row I /\
  length (snd (fst u)) = num_col I /\
  (forall r, (k <= r)%nat ->
     nth r (rd (fst (fst u)) (b_old_dual s)) 0 = nth r (rd (b_mem s) (b_old_dual s)) 0) /\
  (forall r, (r < k)%nat ->
     nth r (rd (fst (fst u)) (b_curr_dual s)) 0
     == nth r (rd (b_mem s) (b_old_dual s)) 0
        + basic_delta step_size (b_subg s) (rd (b_mem s) (b_old_dual s)) r) /\
  (forall c, (c < num_col I)%nat ->
     nth c (snd (fst u)) 0
     - rc_fn_spec I (basic_ghost (b_curr_dual s) (rd (b_mem s) (b_old_dual s)) k
                       (fst (fst u))) c
     == nth c (b_reduced_costs s) 0
        - reduced_cost_spec I (rd (b_mem s) (b_old_dual s)) c
        + skipped_sum I step_size (b_subg s) (rd (b_mem s) (b_old_dual s)) k c) /\
  snd u == Qsum (map (fun r => nth r (rd (fst (fst u)) (b_curr_dual s)) 0) (seq O k)).

(** The buffers of the Basic driver have the sizes they were allocated with. *)
Definition basic_sized (I : instance) (s : basic_state) : Prop :=
  length (d1 (b_mem s)) = num_row I /\
  length (d2 (b_mem s)) = num_row I /\
  length (b_reduced_costs s) = num_col I.

(** The sum [product] accumulates in the tentative step: over the rows below
    [k] that change, the delta times the new momentum. *)
Definition step_product (s : sps_state) (itr k : nat) : Q :=
  Qsum (map (fun r => step_value s itr r * step_mom s itr r)
          (filter (step_changed s itr) (seq O k))).

(** The step length [tau] of the line search after [k] halvings. *)
Fixpoint halves (k : nat) : Q :=
  match k with
  | O => 1
  | S k' => halves k' * (1 # 2)
  end.


(** The Lagrangian dual function: the Lagrangian objective of a dual vector
    with the reduced costs computed from scratch. *)
Definition dual_function (I : instance) (dual : list Q) : Q :=
  Qsum (map (fun r => nth r dual 0) (seq O (num_row I)))
  + Qsum (map (fun c => Qmin 0 (reduced_cost_spec I dual c)) (seq O (num_col I))).

(** A selection of columns is a cover when every row is listed by a selected
    column; its cost is the sum of the costs of the selected columns. *)
Definition is_cover (I : instance) (sel : nat -> bool) : Prop :=
  forall r, (r < num_row I)%nat -> (1 <= covering_count I sel r)%nat.

Definition cover_cost (I : instance) (sel : nat -> bool) : Z :=
  fold_right Z.add 0%Z
    (map (fun c => if sel c then cost_of I c else 0%Z) (seq O (num_col I))).

(** The values the SPS driver keeps are values of the dual function: the
    iterate is non-negative, the reduced costs are its reduced costs, the
    current objective is its value, and the best objective is the value at some
    non-negative dual vector. *)
Definition sps_value_inv (I : instance) (s : sps_state) : Prop :=
  sps_sized I s /\
  dual_nonneg (num_row I) (rd (s_mem s) (s_old_dual s)) /\
  rc_consistent I (rd (s_mem s) (s_old_dual s)) (s_reduced_costs s) /\
  s_curr_obj s == dual_function I (rd (s_mem s) (s_old_dual s)) /\
  exists u, dual_nonneg (num_row I) u /\ s_best_obj s == dual_function I u.

(** What the three pointers of the SPS driver point to, with [junk] the
    contents of [dual2] at allocation and [obj0] the initial objective.
    [curr_dual] and [best_dual] are different buffers.  The buffer of
    [best_dual] is [dual2], still as allocated, while no step has improved on
    [obj0]; afterwards it holds a non-negative vector whose dual function is
    [best_obj].  [old_dual] is [curr_dual] unless the last step was an
    improvement: then the buffer of [curr_dual] is the one [best_dual] pointed
    to before. *)
Definition sps_best_inv (I : instance) (junk : list Q) (obj0 : Q) (s : sps_state)
  : Prop :=
  s_curr_dual s <> s_best_dual s /\
  ((s_best_dual s = Dual2 /\ rd (s_mem s) Dual2 = junk /\ s_best_obj s = obj0) \/
   (dual_nonneg (num_row I) (rd (s_mem s) (s_best_dual s)) /\
    s_best_obj s == dual_function I (rd (s_mem s) (s_best_dual s)) /\
    obj0 < s_best_obj s)) /\
  (s_old_dual s = s_curr_dual s \/
   (s_old_dual s = s_best_dual s /\ s_curr_obj s = s_best_obj s /\
    (rd (s_mem s) (s_curr_dual s) = junk \/
     (dual_nonneg (num_row I) (rd (s_mem s) (s_curr_dual s)) /\
      dual_function I (rd (s_mem s) (s_curr_dual s)) < s_curr_obj s)))).



(** [w] is the maximum of the values of [l]. *)
Definition is_max_of (w : Q) (l : list Q) : Prop :=
  In w l /\ forall x, In x l -> x <= w.

(** The state of the Basic driver before its loop, and after [n] turns of it
    (the buffers as [basic_subgradient] allocates them). *)
Definition basic_start (I : instance) (junk : list Q) : basic_state :=
  basic_init I (repeat 0 (num_row I)) junk (repeat 0 (num_col I)) (repeat 0%Z (num_row I)).

Definition basic_run (I : instance) (upperbound : Z) (n : nat) (junk : list Q)
  : basic_state :=
  basic_loop I upperbound n (basic_start I junk).

(** The step-size control of the Basic driver after at most [n] iterations:
    [counter] has not passed its limit and [lambda] is 2.0 halved [k] times,
    each halving paid for by eleven iterations without improvement. *)
Definition lambda_schedule (n : nat) (s : basic_state) : Prop :=
  (b_counter s <= 10)%nat /\
  exists k, b_lambda s = Nat.iter k times_half 2 /\ (11 * k + b_counter s <= n)%nat.

(** The columns the subgradient computations count: those whose reduced cost
    is below 1e-14. *)
Definition selected (reduced_costs : list Q) (c : nat) : bool :=
  Qltb (nth c reduced_costs 0) TOL14.

(** The two subgradient buffers of the SPS driver have [num_row] cells. *)
Definition sps_subg_sized (I : instance) (s : sps_state) : Prop :=
  length (s_subg1 s) = num_row I /\ length (s_subg2 s) = num_row I.

(** One turn of the loop of the Basic driver from its head, once the loop
    has not been left. *)
Definition basic_turn (I : instance) (upperbound : Z) (s : basic_state) : basic_state :=
  basic_tail (basic_head I s) (basic_update I upperbound (basic_head I s)).

(** The states of the Basic driver at the head of its loop:
    [basic_reach n h s] when [s] is the state before iteration [n], no
    iteration before it having raised the optimal signal, and [h] lists the
    iterates with the objective values evaluated for them, the most recent
    first and the initial one last. *)
Inductive basic_reach (I : instance) (upperbound : Z) (junk : list Q)
  : nat -> list (list Q * Q) -> basic_state -> Prop :=
| breach_init :
    basic_reach I upperbound junk O
      [(rd (b_mem (basic_start I junk)) (b_old_dual (basic_start I junk)),
        b_curr_obj (basic_start I junk))]
      (basic_start I junk)
| breach_step (n : nat) (h : list (list Q * Q)) (s : basic_state) :
    basic_reach I upperbound junk n h s ->
    (b_norm (basic_head I s) <? 0)%Z = false ->
    basic_reach I upperbound junk (S n)
      ((rd (b_mem (basic_turn I upperbound s)) (b_old_dual (basic_turn I upperbound s)),
        b_curr_obj (basic_turn I upperbound s)) :: h)
      (basic_turn I upperbound s).

(** What the three pointers of the Basic driver point to, with [h] the
    history of the run. *)
Definition basic_best_inv (junk : list Q) (obj0 : Q) (h : list (list Q * Q))
  (s : basic_state) : Prop :=
  (b_norm s <? 0)%Z = false /\
  b_curr_dual s <> b_best_dual s /\
  hd_error h = Some (rd (b_mem s) (b_old_dual s), b_curr_obj s) /\
  (forall x, In x h -> snd x <= b_best_obj s) /\
  ((b_best_dual s = Dual2 /\ rd (b_mem s) Dual2 = junk /\ b_best_obj s = obj0) \/
   (In (rd (b_mem s) (b_best_dual s), b_best_obj s) h /\ obj0 < b_best_obj s)) /\
  (b_old_dual s = b_curr_dual s \/
   (b_old_dual s = b_best_dual s /\ b_curr_obj s = b_best_obj s /\
    (rd (b_mem s) (b_curr_dual s) = junk \/
     exists o, In (rd (b_mem s) (b_curr_dual s), o) h /\ o < b_curr_obj s))).

(** What the loader has read while the rows are read, for a file that
    declares [NR] rows and [NC] columns. *)
Module LoaderSpec.

Import Loader.

Section RowInvariant.

Variables NR NC : nat.

(** The number of entries of row [r] read so far, when the rows below [i]
    are done and [j] entries of row [i] are read. *)
Definition rowlen (w : row_state) (i j : nat) (r : nat) : nat :=
  if (r <? i)%nat then Z.to_nat (nth r (w_row_sizes w) 0%Z)
  else if (r =? i)%nat then j else O.

(** The entries of a row and of a column of the temporary matrices. *)
Definition row_entries (w : row_state) (i j : nat) (r : nat) : list Z :=
  firstn (rowlen w i j r) (nth r (w_rows w) []).

Definition col_entries (w : row_state) (c : nat) : list Z :=
  firstn (Z.to_nat (nth c (w_col_sizes w) 0%Z)) (nth c (w_cols w) []).

(** The temporary matrices have the allocated sizes, their entries are
    indices in range, and a row lists a column as often as the column lists
    the row. *)
Definition rows_inv (w : row_state) (i j : nat) : Prop :=
  length (w_cols w) = NC /\
  (forall c, (c < NC)%nat -> length (nth c (w_cols w) []) = NR) /\
  length (w_rows w) = NR /\
  (forall r, (r < NR)%nat -> length (nth r (w_rows w) []) = NC) /\
  length (w_col_sizes w) = NC /\
  length (w_row_sizes w) = NR /\
  (forall c, (c < NC)%nat -> (0 <= nth c (w_col_sizes w) 0 <= Z.of_nat NR)%Z) /\
  (forall r, (r < NR)%nat -> (rowlen w i j r <= NC)%nat) /\
  (forall r x, (r < NR)%nat -> In x (row_entries w i j r) -> (0 <= x < Z.of_nat NC)%Z) /\
  (forall c x, (c < NC)%nat -> In x (col_entries w c) -> (0 <= x < Z.of_nat NR)%Z) /\
  (forall r c, (r < NR)%nat -> (c < NC)%nat ->
     count_occ Z.eq_dec (row_entries w i j r) (Z.of_nat c)
     = count_occ Z.eq_dec (col_entries w c) (Z.of_nat r)).

End RowInvariant.

(** The position at which [compress] starts the array [i]: the sizes of the
    arrays before it, each counted as the inner loop runs it. *)
Fixpoint off (sizes : list Z) (i : nat) : nat :=
  match i with
  | O => O
  | S i' => (off sizes i' + Z.to_nat (nth i' sizes 0%Z))%nat
  end.

(** What the loader leaves for the file of three rows and two columns in
    which row 0 lists column 1, row 1 both columns and row 2 column 2. *)
Definition raw_3x2 : raw_instance :=
  {| r_num_row := 3; r_num_col := 2; r_costs := [2; 2]%Z;
     r_col_wise_a := [0; 1; 1; 2]%Z; r_col_wise_idx := [0; 2; 4]%Z;
     r_row_wise_a := [0; 0; 1; 1]%Z; r_row_wise_idx := [0; 1; 3; 4]%Z;
     r_col_sizes := [2; 2]%Z; r_row_sizes := [1; 2; 1]%Z |}.

End LoaderSpec.

(* ================================================================== *)
(** * Proofs *)

(** ** Arrays, loops and comparisons *)

Lemma Qltb_lt (x y : Q) : Qltb x y = true <-> x < y.
Proof.
  unfold Qltb. rewrite negb_true_iff. split; intros H.
  - apply Qnot_le_lt. intros Hle. apply Qle_bool_iff in Hle. congruence.
  - destruct (Qle_bool y x) eqn:E; [|reflexivity].
    apply Qle_bool_iff in E. exfalso. apply (Qlt_not_le _ _ H E).
Qed.

Lemma Qltb_ge (x y : Q) : Qltb x y = false <-> y <= x.
Proof.
  unfold Qltb. rewrite negb_false_iff. apply Qle_bool_iff.
Qed.

Lemma length_upd {A : Type} (l : list A) (i : nat) (v : A) :
  length (upd l i v) = length l.
Proof.
  revert i. induction l as [|h t IH]; intros [|i]; simpl; auto.
Qed.

Lemma nth_upd_eq {A : Type} (l : list A) (i : nat) (v d : A) :
  (i < length l)%nat -> nth i (upd l i v) d = v.
Proof.
  revert i. induction l as [|h t IH]; intros [|i] H; simpl in *; try lia; auto.
  apply IH. lia.
Qed.

Lemma nth_upd_neq {A : Type} (l : list A) (i j : nat) (v d : A) :
  i <> j -> nth j (upd l i v) d = nth j l d.
Proof.
  revert i j. induction l as [|h t IH]; intros [|i] [|j] H; simpl; auto; try congruence.
Qed.

Lemma nth_upd {A : Type} (l : list A) (i j : nat) (v d : A) :
  (i < length l)%nat ->
  nth j (upd l i v) d = if Nat.eq_dec i j then v else nth j l d.
Proof.
  intros H. destruct (Nat.eq_dec i j) as [->|Hne].
  - now apply nth_upd_eq.
  - now apply nth_upd_neq.
Qed.

Lemma upd_out_of_range {A : Type} (l : list A) (i : nat) (v : A) :
  (length l <= i)%nat -> upd l i v = l.
Proof.
  revert i. induction l as [|h t IH]; intros [|i] H; simpl in *; auto; try lia.
  f_equal. apply IH. lia.
Qed.

Lemma for_loop_S {St : Type} (n j : nat) (body : nat -> St -> St) (s : St) :
  for_loop (S n) j body s = body (j + n)%nat (for_loop n j body s).
Proof.
  revert j s. induction n as [|n IH]; intros j s.
  - simpl. now rewrite Nat.add_0_r.
  - change (for_loop (S (S n)) j body s) with (for_loop (S n) (S j) body (body j s)).
    rewrite IH. simpl. f_equal. lia.
Qed.

(** The invariant rule of a counted loop. *)
Lemma for_loop_inv {St : Type} (P : nat -> St -> Prop) (body : nat -> St -> St) :
  forall n j s,
    P j s ->
    (forall k t, (j <= k < j + n)%nat -> P k t -> P (S k) (body k t)) ->
    P (j + n)%nat (for_loop n j body s).
Proof.
  induction n as [|n IH]; intros j s H0 Hstep.
  - simpl. now rewrite Nat.add_0_r.
  - simpl. replace (j + S n)%nat with (S j + n)%nat by lia.
    apply IH.
    + apply Hstep; [lia|assumption].
    + intros k t Hk. apply Hstep. lia.
Qed.

Lemma for_range_inv {St : Type} (P : nat -> St -> Prop) (body : nat -> St -> St)
  (lo hi : nat) (s : St) :
  (lo <= hi)%nat ->
  P lo s ->
  (forall k t, (lo <= k < hi)%nat -> P k t -> P (S k) (body k t)) ->
  P hi (for_range lo hi body s).
Proof.
  intros Hle H0 Hstep. unfold for_range.
  replace hi with (lo + (hi - lo))%nat at 1 by lia.
  apply for_loop_inv; [assumption|].
  intros k t Hk. apply Hstep. lia.
Qed.

(** A loop whose body keeps a property keeps it. *)
Lemma for_loop_keeps {St : Type} (P : St -> Prop) (body : nat -> St -> St) :
  (forall k t, P t -> P (body k t)) ->
  forall n j s, P s -> P (for_loop n j body s).
Proof.
  intros Hb. induction n as [|n IH]; intros j s H; simpl; auto.
Qed.

(* ------------------------------------------------------------------ *)
(** ** The subgradient computations *)

Section SubgProofs.

Variable I : instance.

Lemma dec_loop_length (n j : nat) (s : list Z) :
  length (for_loop n j
            (fun j s => upd s (col_at I j) (nth (col_at I j) s 0%Z - 1)%Z) s)
  = length s.
Proof.
  apply (for_loop_keeps (fun t => length t = length s)); [|reflexivity].
  intros k t Ht. now rewrite length_upd.
Qed.

Lemma dec_loop_nth (n : nat) : forall (j : nat) (s : list Z) (r : nat),
  (r < length s)%nat ->
  nth r (for_loop n j
           (fun j s => upd s (col_at I j) (nth (col_at I j) s 0%Z - 1)%Z) s) 0%Z
  = (nth r s 0 - Z.of_nat (count_occ Nat.eq_dec (map (col_at I) (seq j n)) r))%Z.
Proof.
  induction n as [|n IH]; intros j s r Hr.
  - simpl. lia.
  - cbn [for_loop seq map]. rewrite IH by (now rewrite length_upd).
    cbn [count_occ].
    destruct (Nat.eq_dec (col_at I j) r) as [E|E].
    + rewrite E. rewrite nth_upd_eq by assumption. lia.
    + rewrite nth_upd_neq by assumption. lia.
Qed.

Lemma ones_loop_length (n j : nat) (s : list Z) :
  length (for_loop n j (fun i s => upd s i 1%Z) s) = length s.
Proof.
  apply (for_loop_keeps (fun t => length t = length s)); [|reflexivity].
  intros k t Ht. now rewrite length_upd.
Qed.

Lemma ones_loop_nth (n : nat) : forall (j : nat) (s : list Z) (r : nat),
  (r < length s)%nat ->
  nth r (for_loop n j (fun i s => upd s i 1%Z) s) 0%Z
  = if ((j <=? r) && (r <? j + n))%nat then 1%Z else nth r s 0%Z.
Proof.
  induction n as [|n IH]; intros j s r Hr.
  - simpl. destruct (Nat.leb_spec j r); destruct (Nat.ltb_spec r (j + 0)); simpl; auto; lia.
  - cbn [for_loop]. rewrite IH by (now rewrite length_upd).
    destruct (Nat.eq_dec j r) as [E|E].
    + subst j. rewrite nth_upd_eq by assumption.
      destruct (Nat.leb_spec (S r) r); destruct (Nat.ltb_spec r (S r + n));
        destruct (Nat.leb_spec r r); destruct (Nat.ltb_spec r (r + S n));
        cbn [andb]; auto; lia.
    + rewrite nth_upd_neq by assumption.
      destruct (Nat.leb_spec (S j) r); destruct (Nat.ltb_spec r (S j + n));
        destruct (Nat.leb_spec j r); destruct (Nat.ltb_spec r (j + S n));
        cbn [andb]; auto; lia.
Qed.

Lemma fill_body_length (rc : list Q) (i : nat) (s : list Z) :
  length (fill_body I rc i s) = length s.
Proof.
  unfold fill_body. destruct (Qltb _ _); [|reflexivity].
  unfold for_range. apply dec_loop_length.
Qed.

Lemma fill_loop_nth (rc : list Q) (n : nat) : forall (c0 : nat) (s : list Z) (r : nat),
  (r < length s)%nat ->
  nth r (for_loop n c0 (fill_body I rc) s) 0%Z
  = (nth r s 0
     - Z.of_nat (list_sum
         (map (fun c => if Qltb (nth c rc 0%Q) TOL14
                        then count_occ Nat.eq_dec (rows_of_col I c) r else O)
            (seq c0 n))))%Z.
Proof.
  induction n as [|n IH]; intros c0 s r Hr.
  - simpl. lia.
  - cbn [for_loop seq map list_sum fold_right].
    rewrite IH by (now rewrite fill_body_length).
    unfold fill_body.
    destruct (Qltb (nth c0 rc 0) TOL14).
    + unfold for_range. rewrite dec_loop_nth by assumption.
      unfold rows_of_col, list_sum. lia.
    + unfold list_sum. lia.
Qed.

Lemma subg_fill_length (subg : list Z) (rc : list Q) :
  length (subg_fill I subg rc) = length subg.
Proof.
  unfold subg_fill, for_range.
  rewrite (for_loop_keeps (fun t => length t = length subg) (fill_body I rc)); auto.
  - intros k t Ht. now rewrite fill_body_length.
  - apply ones_loop_length.
Qed.

(** Each entry of the filled vector is 1 minus the number of listings of the
    row by columns whose reduced cost is below 1e-14. *)
Lemma subg_fill_nth (subg : list Z) (rc : list Q) (r : nat) :
  length subg = num_row I -> (r < num_row I)%nat ->
  nth r (subg_fill I subg rc) 0%Z = subg_entry I rc r.
Proof.
  intros Hlen Hr. unfold subg_fill, for_range, subg_entry, covering_count.
  rewrite fill_loop_nth by (rewrite ones_loop_length; lia).
  rewrite ones_loop_nth by lia.
  rewrite !Nat.sub_0_r.
  replace ((0 <=? r)%nat && (r <? 0 + num_row I)%nat)%bool with true.
  - reflexivity.
  - symmetry. apply andb_true_intro. split; [apply Nat.leb_le|apply Nat.ltb_lt]; lia.
Qed.

Lemma scan_nonzero_spec (v : list Z) (n : nat) : forall i,
  (scan_nonzero n i v = (-1)%Z <->
   forall r, (i <= r < i + n)%nat -> nth r v 0%Z = 0%Z) /\
  (scan_nonzero n i v = (-1)%Z \/ scan_nonzero n i v = 0%Z).
Proof.
  induction n as [|n IH]; intros i; simpl.
  - split; [|now left]. split; [intros _ r Hr; lia|reflexivity].
  - destruct (Z.eqb_spec (nth i v 0%Z) 0) as [E|E]; simpl.
    + destruct (IH (S i)) as [[H1 H2] H3]. split; [|assumption]. split.
      * intros H r Hr. destruct (Nat.eq_dec r i) as [->|Hne]; [assumption|].
        apply H1; [assumption|lia].
      * intros H. apply H2. intros r Hr. apply H. lia.
    + split; [|now right]. split; [discriminate|].
      intros H. exfalso. apply E. apply H. lia.
Qed.

End SubgProofs.

(** C1, as amended: for every instance and every reduced-cost vector, the
    strict variant leaves in each row's entry 1 minus the number of incident
    columns whose reduced cost is below 1e-14, and it returns the optimal
    signal (-1, which the driver reads as true) exactly when that vector is
    identically zero; otherwise it returns 0. *)
Theorem compute_subg_vector_sps_spec (I : instance) (subg : list Z) (rc : list Q) :
  length subg = num_row I ->
  (forall r, (r < num_row I)%nat ->
     nth r (fst (compute_subg_vector_sps I subg rc)) 0%Z = subg_entry I rc r) /\
  (snd (compute_subg_vector_sps I subg rc) = (-1)%Z <->
   all_zero (num_row I) (fst (compute_subg_vector_sps I subg rc))) /\
  (truthy_uchar (snd (compute_subg_vector_sps I subg rc)) = true <->
   all_zero (num_row I) (fst (compute_subg_vector_sps I subg rc))) /\
  (snd (compute_subg_vector_sps I subg rc) = (-1)%Z \/
   snd (compute_subg_vector_sps I subg rc) = 0%Z).
Proof.
  intros Hlen. unfold compute_subg_vector_sps. cbn [fst snd].
  destruct (scan_nonzero_spec (subg_fill I subg rc) (num_row I) O) as [Hiff Hor].
  assert (Hz : scan_nonzero (num_row I) 0 (subg_fill I subg rc) = (-1)%Z <->
               all_zero (num_row I) (subg_fill I subg rc)).
  { rewrite Hiff. unfold all_zero. split; intros H r Hr; apply H; lia. }
  repeat split.
  - intros r Hr. now apply subg_fill_nth.
  - apply Hz.
  - apply Hz.
  - intros Ht. apply Hz. destruct Hor as [E|E]; [assumption|].
    rewrite E in Ht. discriminate Ht.
  - intros Ha. apply Hz in Ha. rewrite Ha. reflexivity.
  - assumption.
Qed.

Lemma compute_subg_vector_sps_spec_witness :
  length [0%Z] = num_row inst_1x1 /\
  nth O (fst (compute_subg_vector_sps inst_1x1 [0%Z] [1])) 0%Z = subg_entry inst_1x1 [1] O.
Proof.
  split; [reflexivity|].
  apply (compute_subg_vector_sps_spec inst_1x1 [0%Z] [1] eq_refl). simpl. lia.
Defined.

(** C1 as stated fails: with one row, one column and reduced cost 1 (which is
    at least 1e-14) the entry is 1, not 1 - 1 = 0. *)
Lemma compute_subg_vector_sps_not_ge :
  nth O (fst (compute_subg_vector_sps inst_1x1 [0%Z] [1])) 0%Z = 1%Z /\
  subg_entry_spec_ge inst_1x1 [1] O = 0%Z.
Proof. split; reflexivity. Qed.

Lemma sqnorm_S (k : nat) (v : list Z) :
  sqnorm (S k) v = (sqnorm k v + nth k v 0 * nth k v 0)%Z.
Proof.
  unfold sqnorm. rewrite seq_S, map_app, fold_right_app. simpl.
  generalize (map (fun r => (nth r v 0 * nth r v 0)%Z) (seq 0 k)) as l.
  induction l as [|h t IH]; simpl; [lia|]. rewrite IH. lia.
Qed.

Lemma sqnorm_ext (k : nat) (v w : list Z) :
  (forall r, (r < k)%nat -> nth r v 0%Z = nth r w 0%Z) -> sqnorm k v = sqnorm k w.
Proof.
  induction k as [|k IH]; intros H; [reflexivity|].
  rewrite !sqnorm_S, IH, (H k) by (intros; try apply H; lia). reflexivity.
Qed.

Lemma sqnorm_nonneg (k : nat) (v : list Z) : (0 <= sqnorm k v)%Z.
Proof.
  induction k as [|k IH]; [unfold sqnorm; simpl; lia|].
  rewrite sqnorm_S. nia.
Qed.

Lemma sqnorm_int_S (k : nat) (v : list Z) :
  sqnorm_int (S k) v = (sqnorm_int k v + int_mul (nth k v 0) (nth k v 0))%Z.
Proof.
  unfold sqnorm_int. rewrite seq_S, map_app, fold_right_app. simpl.
  generalize (map (fun r => int_mul (nth r v 0%Z) (nth r v 0%Z)) (seq 0 k)) as l.
  induction l as [|h t IH]; simpl; [lia|]. rewrite IH. lia.
Qed.

Lemma sqnorm_int_ext (k : nat) (v w : list Z) :
  (forall r, (r < k)%nat -> nth r v 0%Z = nth r w 0%Z) -> sqnorm_int k v = sqnorm_int k w.
Proof.
  induction k as [|k IH]; intros H; [reflexivity|].
  rewrite !sqnorm_int_S, IH, (H k) by (intros; try apply H; lia). reflexivity.
Qed.

(** Within the bound the product of the source is the square. *)
Lemma int_mul_square (a : Z) :
  (-46340 <= a <= 46340)%Z -> int_mul a a = (a * a)%Z.
Proof.
  intros H. unfold int_mul, int_wrap.
  rewrite Z.mod_small by nia. lia.
Qed.

(** Beyond it the product is not the square. *)
Lemma int_mul_square_overflow : int_mul (-46341) (-46341) = (-2147479015)%Z.
Proof. reflexivity. Qed.

Lemma sqnorm_int_sqnorm (k : nat) (v : list Z) :
  (forall r, (r < k)%nat -> (-46340 <= nth r v 0 <= 46340)%Z) ->
  sqnorm_int k v = sqnorm k v.
Proof.
  induction k as [|k IH]; intros H; [reflexivity|].
  rewrite sqnorm_int_S, sqnorm_S, IH, int_mul_square by (intros; try apply H; lia).
  reflexivity.
Qed.

Lemma basic_clamp_loop_spec (I : instance) (filled : list Z) (dual : list Q) :
  length filled = num_row I ->
  forall sg is_opt norm, basic_clamp_loop I filled dual = (sg, is_opt, norm) ->
  (forall r, (r < num_row I)%nat -> nth r sg 0%Z = clamped filled dual r) /\
  (is_opt = true <-> all_zero (num_row I) filled) /\
  norm = sqnorm_int (num_row I) sg.
Proof.
  intros Hlen. unfold basic_clamp_loop.
  set (body := fun (i : nat) (s : list Z * bool * Z) => _).
  pose (P := fun (k : nat) (s : list Z * bool * Z) =>
    let '(sg, is_opt, norm) := s in
    length sg = length filled /\
    (forall r, (r < k)%nat -> nth r sg 0%Z = clamped filled dual r) /\
    (forall r, (k <= r)%nat -> nth r sg 0%Z = nth r filled 0%Z) /\
    (is_opt = true <-> all_zero k filled) /\
    norm = sqnorm_int k sg).
  assert (HP : P (num_row I) (for_range O (num_row I) body (filled, true, 0%Z))).
  { apply for_range_inv; [lia| |].
    - unfold P. repeat split; auto; try (intros; lia).
      intros r Hr. lia.
    - intros k [[sg is_opt] norm] Hk (HL & Hlo & Hhi & Hopt & Hn).
      unfold body, P.
      assert (Ek : nth k sg 0%Z = nth k filled 0%Z) by (apply Hhi; lia).
      destruct (Z.eqb_spec (nth k sg 0%Z) 0) as [E0|E0]; cbn [negb].
      + repeat split; auto.
        * intros r Hr. destruct (Nat.eq_dec r k) as [->|Hne]; [|apply Hlo; lia].
          unfold clamped. rewrite <- Ek, E0. now destruct (_ && _)%bool.
        * intros r Hr. apply Hhi. lia.
        * intros H r Hr. destruct (Nat.eq_dec r k) as [->|Hne]; [congruence|].
          apply Hopt; [assumption|lia].
        * intros H. apply Hopt. intros r Hr. apply H. lia.
        * rewrite sqnorm_int_S, E0. change (int_mul 0 0) with 0%Z. lia.
      + destruct ((nth k sg 0 <? 0)%Z && Qltb (nth k dual 0) TOL14)%bool eqn:Ec.
        * repeat split.
          -- now rewrite length_upd.
          -- intros r Hr. destruct (Nat.eq_dec r k) as [->|Hne].
             ++ rewrite nth_upd_eq by lia. unfold clamped. now rewrite <- Ek, Ec.
             ++ rewrite nth_upd_neq by lia. apply Hlo. lia.
          -- intros r Hr. rewrite nth_upd_neq by lia. apply Hhi. lia.
          -- discriminate.
          -- intros H. exfalso. apply E0. rewrite Ek. apply H. lia.
          -- rewrite sqnorm_int_S, nth_upd_eq by lia.
             rewrite (sqnorm_int_ext k (upd sg k 0%Z) sg).
             ++ change (int_mul 0 0) with 0%Z. lia.
             ++ intros r Hr. apply nth_upd_neq. lia.
        * repeat split; auto.
          -- intros r Hr. destruct (Nat.eq_dec r k) as [->|Hne]; [|apply Hlo; lia].
             unfold clamped. now rewrite <- Ek, Ec.
          -- intros r Hr. apply Hhi. lia.
          -- discriminate.
          -- intros H. exfalso. apply E0. rewrite Ek. apply H. lia.
          -- rewrite sqnorm_int_S. lia. }
  intros sg is_opt norm E. rewrite E in HP. unfold P in HP.
  destruct HP as (_ & Hlo & _ & Hopt & Hn). auto.
Qed.

Lemma covering_count_le (I : instance) (sel : nat -> bool) (r : nat) :
  (covering_count I sel r <= covering_count I (fun _ => true) r)%nat.
Proof.
  unfold covering_count. induction (seq O (num_col I)) as [|c l IH]; simpl; [lia|].
  destruct (sel c); lia.
Qed.

(** Under the bound on the rows, the entries the first two loops leave and
    the clamped ones are between -46340 and 1. *)
Lemma rows_fit_int_entries (I : instance) (subg : list Z) (rc dual : list Q) (r : nat) :
  rows_fit_int I = true -> length subg = num_row I -> (r < num_row I)%nat ->
  (-46340 <= nth r (subg_fill I subg rc) 0 <= 1)%Z /\
  (-46340 <= clamped (subg_fill I subg rc) dual r <= 1)%Z.
Proof.
  intros Hb Hlen Hr. unfold rows_fit_int in Hb.
  rewrite forallb_forall in Hb. specialize (Hb r).
  rewrite in_seq in Hb. specialize (Hb ltac:(lia)). apply Z.leb_le in Hb.
  assert (H : (-46340 <= nth r (subg_fill I subg rc) 0 <= 1)%Z).
  { rewrite subg_fill_nth by assumption. unfold subg_entry.
    pose proof (covering_count_le I (fun c => Qltb (nth c rc 0) TOL14) r). lia. }
  split; [exact H|]. unfold clamped. destruct (_ && _)%bool; lia.
Qed.

(** C3, as amended: for an instance in which no row is listed more than 46341
    times (the products [subg[i] * subg[i]] are then within the range of
    [int]), the sign-aware variant returns the sentinel -1 if and only if
    every entry of the subgradient vector is zero before the clamping step;
    the vector it leaves is the clamped one, and when it does not return the
    sentinel it returns the squared Euclidean norm of the clamped vector, or
    1 when that norm is zero. *)
Theorem compute_subg_vector_basic_spec (I : instance) (subg : list Z) (rc dual : list Q) :
  rows_fit_int I = true ->
  length subg = num_row I ->
  (forall r, (r < num_row I)%nat ->
     nth r (fst (compute_subg_vector_basic I subg rc dual)) 0%Z
     = clamped (subg_fill I subg rc) dual r) /\
  (snd (compute_subg_vector_basic I subg rc dual) = (-1)%Z <->
   all_zero (num_row I) (subg_fill I subg rc)) /\
  (snd (compute_subg_vector_basic I subg rc dual) <> (-1)%Z ->
   snd (compute_subg_vector_basic I subg rc dual)
   = if (sqnorm (num_row I) (fst (compute_subg_vector_basic I subg rc dual)) =? 0)%Z
     then 1%Z
     else sqnorm (num_row I) (fst (compute_subg_vector_basic I subg rc dual))).
Proof.
  intros Hb Hlen. unfold compute_subg_vector_basic.
  destruct (basic_clamp_loop I (subg_fill I subg rc) dual) as [[sg is_opt] norm] eqn:E.
  destruct (basic_clamp_loop_spec I (subg_fill I subg rc) dual
              (eq_trans (subg_fill_length I subg rc) Hlen) sg is_opt norm E)
    as (Hc & Hopt & Hn).
  rewrite sqnorm_int_sqnorm in Hn.
  2:{ intros r Hr. rewrite (Hc r Hr).
      destruct (rows_fit_int_entries I subg rc dual r Hb Hlen Hr) as [_ H]. lia. }
  pose proof (sqnorm_nonneg (num_row I) sg) as Hnn.
  destruct is_opt; cbn [fst snd].
  - repeat split; auto.
    + intros _. now apply Hopt.
    + intros H. congruence.
  - repeat split; auto.
    + intros H. exfalso. subst norm. destruct (Z.eqb_spec (sqnorm (num_row I) sg) 0); lia.
    + intros H. apply Hopt in H. discriminate.
    + intros _. now subst norm.
Qed.

Lemma compute_subg_vector_basic_spec_witness :
  rows_fit_int inst_1x2 = true /\
  length [0%Z] = num_row inst_1x2 /\
  (snd (compute_subg_vector_basic inst_1x2 [0%Z] [0; 0] [0]) = (-1)%Z <->
   all_zero (num_row inst_1x2) (subg_fill inst_1x2 [0%Z] [0; 0])).
Proof.
  split; [reflexivity|]. split; [reflexivity|].
  apply (compute_subg_vector_basic_spec inst_1x2 [0%Z] [0; 0] [0] eq_refl eq_refl).
Defined.

(** Beyond the bound the value returned is not the norm: for a single row
    whose entry is -46341 the loop returns the wrapped product, a negative
    number, which [basic_subgradient] reads as the optimal signal. *)
Lemma basic_clamp_loop_overflow :
  basic_clamp_loop inst_1x1 [(-46341)%Z] [1]
  = ([(-46341)%Z], false, (-2147479015)%Z).
Proof. reflexivity. Qed.

(** C3 as stated fails: one row at dual 0 covered by two columns of reduced
    cost 0 has entry -1, which is clamped to 0; every entry is then zero after
    the clamping step, and yet the value returned is 1, not the sentinel. *)
Lemma compute_subg_vector_basic_clamped_zero_not_sentinel :
  all_zero (num_row inst_1x2) (fst (compute_subg_vector_basic inst_1x2 [0%Z] [0; 0] [0])) /\
  snd (compute_subg_vector_basic inst_1x2 [0%Z] [0; 0] [0]) = 1%Z.
Proof.
  split; [|reflexivity].
  intros r Hr. destruct r as [|r]; [reflexivity|]. simpl in Hr. lia.
Qed.

(* ------------------------------------------------------------------ *)
(** ** Sums, fills and the instance predicates *)

Lemma Qsum_app (l1 l2 : list Q) : Qsum (l1 ++ l2) == Qsum l1 + Qsum l2.
Proof.
  induction l1 as [|h t IH]; simpl; [lra|]. rewrite IH. lra.
Qed.

Lemma Qsum_ext {A : Type} (f g : A -> Q) (l : list A) :
  (forall x, In x l -> f x == g x) -> Qsum (map f l) == Qsum (map g l).
Proof.
  induction l as [|h t IH]; intros H; simpl; [lra|].
  rewrite IH by (intros; apply H; now right).
  rewrite (H h) by now left. lra.
Qed.

Lemma Qsum_le_const (l : list Q) (b : Q) :
  (forall x, In x l -> x <= b) -> Qsum l <= inject_Z (Z.of_nat (length l)) * b.
Proof.
  induction l as [|h t IH]; intros H.
  - unfold Qsum. simpl. change (inject_Z 0) with 0. lra.
  - cbn [Qsum fold_right length]. rewrite Nat2Z.inj_succ. unfold Z.succ.
    rewrite inject_Z_plus.
    assert (Hh : h <= b) by (apply H; now left).
    assert (Ht : Qsum t <= inject_Z (Z.of_nat (length t)) * b)
      by (apply IH; intros; apply H; now right).
    unfold Qsum in Ht. change (inject_Z 1) with 1. lra.
Qed.

Lemma sum_loop (f : nat -> Q) (n : nat) : forall (j : nat) (a : Q),
  for_loop n j (fun i acc => acc + f i) a == a + Qsum (map f (seq j n)).
Proof.
  induction n as [|n IH]; intros j a; simpl; [lra|].
  rewrite IH. lra.
Qed.

Lemma sub_loop (f : nat -> Q) (n : nat) : forall (j : nat) (a : Q),
  for_loop n j (fun i acc => acc - f i) a == a - Qsum (map f (seq j n)).
Proof.
  induction n as [|n IH]; intros j a; simpl; [lra|].
  rewrite IH. lra.
Qed.

Lemma fill_loop_length {A : Type} (f : nat -> A) (n j : nat) (l : list A) :
  length (for_loop n j (fun i l => upd l i (f i)) l) = length l.
Proof.
  apply (for_loop_keeps (fun t => length t = length l)); [|reflexivity].
  intros k t Ht. now rewrite length_upd.
Qed.

Lemma fill_loop_below {A : Type} (f : nat -> A) (d : A) (n : nat) :
  forall (j : nat) (l : list A) (r : nat),
  (r < j)%nat ->
  nth r (for_loop n j (fun i l => upd l i (f i)) l) d = nth r l d.
Proof.
  induction n as [|n IH]; intros j l r Hr; [reflexivity|].
  cbn [for_loop]. rewrite IH by lia. apply nth_upd_neq. lia.
Qed.

Lemma fill_loop_in {A : Type} (f : nat -> A) (d : A) (n : nat) :
  forall (j : nat) (l : list A) (r : nat),
  (j <= r < j + n)%nat -> (r < length l)%nat ->
  nth r (for_loop n j (fun i l => upd l i (f i)) l) d = f r.
Proof.
  induction n as [|n IH]; intros j l r Hr Hl; [lia|].
  cbn [for_loop]. destruct (Nat.eq_dec j r) as [->|Hne].
  - rewrite fill_loop_below by lia. now apply nth_upd_eq.
  - apply IH; [lia|now rewrite length_upd].
Qed.

Lemma pair_loop (f : nat -> Q) (n : nat) : forall (j : nat) (l : list Q) (a : Q),
  for_loop n j (fun i (s : list Q * Q) => (upd (fst s) i (f i), snd s + f i)) (l, a)
  = (for_loop n j (fun i l => upd l i (f i)) l,
     for_loop n j (fun i acc => acc + f i) a).
Proof.
  induction n as [|n IH]; intros j l a; [reflexivity|].
  cbn [for_loop fst snd]. apply IH.
Qed.

Lemma wf_instance_spec (I : instance) :
  wf_instance I = true ->
  (forall c, (c < num_col I)%nat ->
     (forall r, In r (rows_of_col I c) -> (r < num_row I)%nat) /\
     col_size I c = length (rows_of_col I c)) /\
  (forall r, (r < num_row I)%nat ->
     (forall c, In c (cols_of_row I r) -> (c < num_col I)%nat) /\
     (forall c, (c < num_col I)%nat ->
        count_occ Nat.eq_dec (cols_of_row I r) c
        = count_occ Nat.eq_dec (rows_of_col I c) r)).
Proof.
  unfold wf_instance. rewrite andb_true_iff, !forallb_forall. intros [Hc Hr].
  split.
  - intros c Hlt. specialize (Hc c). rewrite in_seq in Hc.
    specialize (Hc (conj (Nat.le_0_l _) Hlt)).
    apply andb_true_iff in Hc. destruct Hc as [H1 H2].
    rewrite forallb_forall in H1. apply Nat.eqb_eq in H2. split; [|assumption].
    intros r Hin. apply Nat.ltb_lt. now apply H1.
  - intros r Hlt. specialize (Hr r). rewrite in_seq in Hr.
    specialize (Hr (conj (Nat.le_0_l _) Hlt)).
    apply andb_true_iff in Hr. destruct Hr as [H1 H2].
    rewrite forallb_forall in H1, H2. split.
    + intros c Hin. apply Nat.ltb_lt. now apply H1.
    + intros c Hc'. apply Nat.eqb_eq. apply H2. apply in_seq. lia.
Qed.

Lemma valid_instance_spec (I : instance) :
  valid_instance I = true ->
  wf_instance I = true /\
  (forall c, (c < num_col I)%nat -> (0 <= cost_of I c)%Z) /\
  (forall r, (r < num_row I)%nat -> (row_lo I r < row_hi I r)%nat).
Proof.
  unfold valid_instance. rewrite !andb_true_iff, !forallb_forall.
  intros [[Hw Hc] Hr]. repeat split; [assumption| |].
  - intros c Hlt. apply Z.leb_le. apply Hc. apply in_seq. lia.
  - intros r Hlt. apply Nat.ltb_lt. apply Hr. apply in_seq. lia.
Qed.

(** In a well-formed instance incidence is symmetric. *)
Lemma wf_incident (I : instance) (r c : nat) :
  wf_instance I = true -> (r < num_row I)%nat -> (c < num_col I)%nat ->
  (In c (cols_of_row I r) <-> In r (rows_of_col I c)).
Proof.
  intros Hw Hr Hc. destruct (wf_instance_spec I Hw) as [_ H2].
  destruct (H2 r Hr) as [_ Hcnt]. specialize (Hcnt c Hc).
  rewrite (count_occ_In Nat.eq_dec), (count_occ_In Nat.eq_dec). lia.
Qed.

(* ------------------------------------------------------------------ *)
(** ** init_dual_vector and the objective *)

Section InitProofs.

Variable I : instance.

Lemma min_loop (g : nat -> Q) (n : nat) : forall (j : nat) (m0 : Q),
  for_loop n j (fun j m => if Qltb (g j) m then g j else m) m0 <= m0 /\
  (forall k, (j <= k < j + n)%nat ->
     for_loop n j (fun j m => if Qltb (g j) m then g j else m) m0 <= g k) /\
  (for_loop n j (fun j m => if Qltb (g j) m then g j else m) m0 = m0 \/
   exists k, (j <= k < j + n)%nat /\
     for_loop n j (fun j m => if Qltb (g j) m then g j else m) m0 = g k).
Proof.
  induction n as [|n IH]; intros j m0.
  - simpl. repeat split; [lra|intros; lia|now left].
  - cbn [for_loop].
    destruct (IH (S j) (if Qltb (g j) m0 then g j else m0)) as (H1 & H2 & H3).
    set (R := for_loop n (S j) _ _) in *.
    destruct (Qltb (g j) m0) eqn:E.
    + apply Qltb_lt in E. repeat split.
      * lra.
      * intros k Hk. destruct (Nat.eq_dec k j) as [->|Hne]; [assumption|].
        apply H2. lia.
      * right. destruct H3 as [H3|(k & Hk & H3)].
        -- exists j. split; [lia|assumption].
        -- exists k. split; [lia|assumption].
    + apply Qltb_ge in E. repeat split.
      * assumption.
      * intros k Hk. destruct (Nat.eq_dec k j) as [->|Hne]; [lra|].
        apply H2. lia.
      * destruct H3 as [H3|(k & Hk & H3)]; [now left|].
        right. exists k. split; [lia|assumption].
Qed.

Lemma ratio_le_cost (c : nat) :
  (0 <= cost_of I c)%Z -> (1 <= col_size I c)%nat -> ratio I c <= inject_Z (cost_of I c).
Proof.
  intros Hc Hs. unfold ratio.
  assert (H1 : 1 <= inject_Z (Z.of_nat (col_size I c))).
  { change 1 with (inject_Z 1). rewrite <- Zle_Qle. lia. }
  assert (H0 : 0 <= inject_Z (cost_of I c)).
  { change 0 with (inject_Z 0). now rewrite <- Zle_Qle. }
  apply Qle_shift_div_r; [lra|]. nra.
Qed.

(** Every column incident to a row of a well-formed instance has a size of
    at least one. *)
Lemma incident_col_size (r c : nat) :
  wf_instance I = true -> (r < num_row I)%nat -> In c (cols_of_row I r) ->
  (c < num_col I)%nat /\ (1 <= col_size I c)%nat.
Proof.
  intros Hw Hr Hin. destruct (wf_instance_spec I Hw) as [H1 H2].
  destruct (H2 r Hr) as [Hrange _]. pose proof (Hrange c Hin) as Hc.
  split; [assumption|].
  destruct (H1 c Hc) as [_ ->].
  apply (wf_incident I r c Hw Hr Hc) in Hin.
  destruct (rows_of_col I c); [contradiction|simpl; lia].
Qed.

Lemma init_row_min_spec (r : nat) :
  valid_instance I = true -> (r < num_row I)%nat ->
  is_min_ratio I r (init_row_min I r).
Proof.
  intros Hv Hr. destruct (valid_instance_spec I Hv) as (Hw & Hcost & Hne).
  specialize (Hne r Hr).
  unfold init_row_min, for_range.
  change (fun (j : nat) (min_value : Q) =>
            let idx := row_at I j in
            let value := inject_Z (cost_of I idx) / inject_Z (Z.of_nat (col_size I idx)) in
            if Qltb value min_value then value else min_value)
    with (fun (j : nat) (m : Q) =>
            if Qltb (ratio I (row_at I j)) m then ratio I (row_at I j) else m).
  destruct (min_loop (fun j => ratio I (row_at I j)) (row_hi I r - row_lo I r)
              (row_lo I r) (inject_Z (cost_of I (row_at I (row_lo I r)))))
    as (H1 & H2 & H3).
  set (R := for_loop _ _ _ _) in *.
  assert (Hin : forall k, (row_lo I r <= k < row_lo I r + (row_hi I r - row_lo I r))%nat ->
                In (row_at I k) (cols_of_row I r)).
  { intros k Hk. unfold cols_of_row. apply in_map. apply in_seq. lia. }
  split.
  - intros c Hc. unfold cols_of_row in Hc. apply in_map_iff in Hc.
    destruct Hc as (k & <- & Hk). apply in_seq in Hk. now apply H2.
  - destruct H3 as [H3|(k & Hk & H3)].
    + exists (row_at I (row_lo I r)).
      assert (Hk : (row_lo I r <= row_lo I r < row_lo I r + (row_hi I r - row_lo I r))%nat)
        by lia.
      split; [now apply Hin|].
      destruct (incident_col_size r _ Hw Hr (Hin _ Hk)) as [Hc Hs].
      pose proof (ratio_le_cost _ (Hcost _ Hc) Hs) as Hle.
      pose proof (H2 _ Hk) as Hge. rewrite H3 in *. lra.
    + exists (row_at I k). split; [now apply Hin|]. rewrite H3. reflexivity.
Qed.

Lemma init_duals_fst (dual : list Q) (r : nat) :
  length dual = num_row I -> (r < num_row I)%nat ->
  nth r (fst (init_duals I dual)) 0 = init_row_min I r.
Proof.
  intros Hlen Hr. unfold init_duals, for_range.
  rewrite (pair_loop (init_row_min I)). cbn [fst].
  apply fill_loop_in; lia.
Qed.

Lemma init_duals_length (dual : list Q) :
  length (fst (init_duals I dual)) = length dual.
Proof.
  unfold init_duals, for_range. rewrite (pair_loop (init_row_min I)). cbn [fst].
  apply fill_loop_length.
Qed.

Lemma init_duals_snd (dual : list Q) :
  snd (init_duals I dual) == Qsum (map (init_row_min I) (seq O (num_row I))).
Proof.
  unfold init_duals, for_range. rewrite (pair_loop (init_row_min I)). cbn [snd].
  rewrite sum_loop, Nat.sub_0_r. lra.
Qed.

Lemma col_reduced_cost_spec (dual : list Q) (c : nat) :
  col_reduced_cost I dual c == reduced_cost_spec I dual c.
Proof.
  unfold col_reduced_cost, reduced_cost_spec, for_range, rows_of_col.
  rewrite (sub_loop (fun j => nth (col_at I j) dual 0)), map_map. reflexivity.
Qed.

Lemma compute_reduced_costs_nth (dual rc : list Q) (c : nat) :
  length rc = num_col I -> (c < num_col I)%nat ->
  nth c (compute_reduced_costs I dual rc) 0 = col_reduced_cost I dual c.
Proof.
  intros Hlen Hc. unfold compute_reduced_costs, for_range.
  apply (fill_loop_in (col_reduced_cost I dual)); lia.
Qed.

Lemma compute_reduced_costs_length (dual rc : list Q) :
  length (compute_reduced_costs I dual rc) = length rc.
Proof.
  unfold compute_reduced_costs, for_range. apply fill_loop_length.
Qed.

Lemma neg_loop (rc : list Q) (n : nat) : forall (j : nat) (acc : Q),
  for_loop n j
    (fun i acc => if Qltb (nth i rc 0) 0 then acc + nth i rc 0 else acc) acc
  == acc + Qsum (map (fun c => Qmin 0 (nth c rc 0)) (seq j n)).
Proof.
  induction n as [|n IH]; intros j acc; simpl; [lra|].
  rewrite IH. destruct (Qltb (nth j rc 0) 0) eqn:E.
  - apply Qltb_lt in E. rewrite (Q.min_r 0 (nth j rc 0)) by lra. lra.
  - apply Qltb_ge in E. rewrite (Q.min_l 0 (nth j rc 0)) by lra. lra.
Qed.

Lemma neg_part_sum_spec (rc : list Q) (acc : Q) :
  neg_part_sum I rc acc
  == acc + Qsum (map (fun c => Qmin 0 (nth c rc 0)) (seq O (num_col I))).
Proof.
  unfold neg_part_sum, for_range. rewrite neg_loop, Nat.sub_0_r. reflexivity.
Qed.

(** The objective as the drivers evaluate it is the Lagrangian objective. *)
Lemma objective_lagrangian (dual rc : list Q) :
  objective I dual rc == lagrangian I dual rc.
Proof.
  unfold objective, lagrangian, dual_sum, for_range.
  rewrite neg_part_sum_spec, (sum_loop (fun i => nth i dual 0)), Nat.sub_0_r. lra.
Qed.

Lemma neg_part_sum_nonneg (rc : list Q) (acc : Q) :
  (forall c, (c < num_col I)%nat -> 0 <= nth c rc 0) ->
  neg_part_sum I rc acc == acc.
Proof.
  intros H. rewrite neg_part_sum_spec.
  rewrite (Qsum_ext _ (fun _ => 0)).
  - assert (Z0 : forall l : list nat, Qsum (map (fun _ => 0) l) == 0).
    { induction l as [|h t IH]; simpl; [lra|]. rewrite IH. lra. }
    rewrite Z0. lra.
  - intros c Hc. apply in_seq in Hc. apply Q.min_l. apply H. lia.
Qed.

(** At the initial dual vector no reduced cost is negative. *)
Lemma init_reduced_costs_nonneg (dual : list Q) (c : nat) :
  valid_instance I = true -> length dual = num_row I -> (c < num_col I)%nat ->
  0 <= reduced_cost_spec I (fst (init_duals I dual)) c.
Proof.
  intros Hv Hlen Hc. destruct (valid_instance_spec I Hv) as (Hw & Hcost & Hne).
  destruct (wf_instance_spec I Hw) as [H1 H2].
  destruct (H1 c Hc) as [Hrows Hsize].
  unfold reduced_cost_spec.
  assert (Hle : Qsum (map (fun r => nth r (fst (init_duals I dual)) 0) (rows_of_col I c))
                <= inject_Z (Z.of_nat (length (rows_of_col I c))) * ratio I c).
  { rewrite <- (length_map (fun r => nth r (fst (init_duals I dual)) 0) (rows_of_col I c)).
    apply Qsum_le_const. intros x Hx. apply in_map_iff in Hx.
    destruct Hx as (r & <- & Hr). pose proof (Hrows r Hr) as Hr'.
    rewrite init_duals_fst by assumption.
    destruct (init_row_min_spec r Hv Hr') as [Hmin _].
    apply Hmin. now apply (wf_incident I r c Hw Hr' Hc). }
  rewrite <- Hsize in Hle. unfold ratio in Hle.
  destruct (col_size I c) as [|s] eqn:Es.
  - simpl in Hle. change (inject_Z 0) with 0 in Hle.
    pose proof (Hcost c Hc) as H0. rewrite Zle_Qle in H0.
    change (inject_Z 0) with 0 in H0. lra.
  - assert (Hpos : 0 < inject_Z (Z.of_nat (S s))).
    { change 0 with (inject_Z 0). rewrite <- Zlt_Qlt. lia. }
    assert (E : inject_Z (Z.of_nat (S s))
                * (inject_Z (cost_of I c) / inject_Z (Z.of_nat (S s)))
                == inject_Z (cost_of I c)) by (field; lra).
    rewrite E in Hle. lra.
Qed.

End InitProofs.

(** [init_dual_vector] over exact arithmetic: for every valid instance it
    sets each row's dual to the minimum over the incident columns of
    cost / colSize, leaves the reduced costs of that dual vector, none of
    which is negative, and the sum of the duals it returns is the Lagrangian
    objective [sum dual + sum min(0, reducedCost)] of that dual vector. *)
Lemma init_dual_vector_spec (I : instance) (dual rcbuf : list Q) :
  valid_instance I = true ->
  length dual = num_row I -> length rcbuf = num_col I ->
  (forall r, (r < num_row I)%nat ->
     is_min_ratio I r (nth r (fst (fst (init_dual_vector I dual rcbuf))) 0)) /\
  (forall c, (c < num_col I)%nat ->
     nth c (snd (fst (init_dual_vector I dual rcbuf))) 0
     == reduced_cost_spec I (fst (fst (init_dual_vector I dual rcbuf))) c /\
     0 <= nth c (snd (fst (init_dual_vector I dual rcbuf))) 0) /\
  snd (init_dual_vector I dual rcbuf)
  == lagrangian I (fst (fst (init_dual_vector I dual rcbuf)))
       (snd (fst (init_dual_vector I dual rcbuf))).
Proof.
  intros Hv Hd Hrc. unfold init_dual_vector.
  pose proof (init_duals_fst I dual) as Hfst.
  pose proof (init_duals_snd I dual) as Hsnd.
  pose proof (init_reduced_costs_nonneg I dual) as Hnn.
  destruct (init_duals I dual) as [d obj] eqn:E. cbn [fst snd] in *.
  assert (Hrcs : forall c, (c < num_col I)%nat ->
            nth c (compute_reduced_costs I d rcbuf) 0 == reduced_cost_spec I d c).
  { intros c Hc. rewrite compute_reduced_costs_nth by assumption.
    apply col_reduced_cost_spec. }
  repeat split.
  - destruct (init_row_min_spec I r Hv H) as [Hmin _]. rewrite Hfst by assumption.
    assumption.
  - destruct (init_row_min_spec I r Hv H) as [_ Hex]. rewrite Hfst by assumption.
    assumption.
  - now apply Hrcs.
  - rewrite Hrcs by assumption. now apply Hnn.
  - rewrite <- objective_lagrangian. unfold objective.
    rewrite neg_part_sum_nonneg.
    + unfold dual_sum, for_range. rewrite (sum_loop (fun i => nth i d 0)), Nat.sub_0_r.
      rewrite Hsnd. rewrite (Qsum_ext (init_row_min I) (fun i => nth i d 0)); [lra|].
      intros r Hr. apply in_seq in Hr. rewrite Hfst by lia. reflexivity.
    + intros c Hc. rewrite Hrcs by assumption. now apply Hnn.
Qed.

Lemma init_dual_vector_spec_witness :
  valid_instance inst_5x3 = true /\
  snd (init_dual_vector inst_5x3 (repeat 0 5) (repeat 0 3))
  == lagrangian inst_5x3
       (fst (fst (init_dual_vector inst_5x3 (repeat 0 5) (repeat 0 3))))
       (snd (fst (init_dual_vector inst_5x3 (repeat 0 5) (repeat 0 3)))).
Proof.
  split; [reflexivity|].
  apply (init_dual_vector_spec inst_5x3 (repeat 0 5) (repeat 0 3));
    reflexivity.
Defined.

(** C6: [init_dual_vector] in double precision on six rows covered by one
    column of cost 7, a valid instance.  Each dual is the double nearest to
    7/6, which is above 7/6.  The reduced cost of the column, 7 minus the six
    duals one after the other, is -6 * 2^-52: an initial reduced cost is
    negative.  The value returned, the sum of the six duals, is 7 + 2^-50,
    while the objective of this dual vector and these reduced costs, as both
    drivers evaluate it, is 7: the value returned is not the Lagrangian
    objective, and it is above the cost 7 of the only cover. *)
Theorem init_dual_vector_returns_above_objective :
  valid_instance inst_6x1 = true /\
  fst (fst (Binary64.init_dual_vector inst_6x1
              (repeat Binary64.zero 6) (repeat Binary64.zero 1)))
  = repeat (S754_finite false 5254199565265579 (-52)) 6 /\
  7 # 6 < Binary64.to_Q (S754_finite false 5254199565265579 (-52)) /\
  snd (fst (Binary64.init_dual_vector inst_6x1
              (repeat Binary64.zero 6) (repeat Binary64.zero 1)))
  = [S754_finite true 6755399441055744 (-102)] /\
  Binary64.to_Q (S754_finite true 6755399441055744 (-102)) == - (6 # 2 ^ 52) /\
  Binary64.ltb (S754_finite true 6755399441055744 (-102)) Binary64.zero = true /\
  snd (Binary64.init_dual_vector inst_6x1
         (repeat Binary64.zero 6) (repeat Binary64.zero 1))
  = S754_finite false 7881299347898369 (-50) /\
  Binary64.to_Q (S754_finite false 7881299347898369 (-50)) == 7 + (1 # 2 ^ 50) /\
  Binary64.objective inst_6x1
    (repeat (S754_finite false 5254199565265579 (-52)) 6)
    [S754_finite true 6755399441055744 (-102)]
  = Binary64.of_int 7 /\
  Binary64.to_Q (Binary64.of_int 7) == 7.
Proof.
  repeat split; try (vm_compute; reflexivity).
Qed.

(* ------------------------------------------------------------------ *)
(** ** The dual buffers *)

Lemma rd_wr_same (m : duals) (b : buf) (i : nat) (v : Q) :
  rd (wr m b i v) b = upd (rd m b) i v.
Proof. destruct b; reflexivity. Qed.

Lemma rd_wr_other (m : duals) (b b' : buf) (i : nat) (v : Q) :
  b <> b' -> rd (wr m b i v) b' = rd m b'.
Proof. destruct b, b'; intros H; try reflexivity; congruence. Qed.

Lemma buf_eq_dec (b b' : buf) : {b = b'} + {b <> b'}.
Proof. decide equality. Qed.

Lemma nth_upd_nonneg (l : list Q) (i : nat) (v : Q) :
  0 <= v -> 0 <= nth i (upd l i v) 0.
Proof.
  intros Hv. destruct (Nat.lt_ge_cases i (length l)) as [Hlt|Hge].
  - now rewrite nth_upd_eq.
  - rewrite nth_overflow by (now rewrite length_upd). lra.
Qed.

(* ------------------------------------------------------------------ *)
(** ** basic_subgradient: the projection *)

Section BasicProofs.

Variable I : instance.

Lemma basic_row_curr (step_size : Q) (subg : list Z) (curr old : buf) (i : nat)
  (m : duals) (rc : list Q) (obj : Q) :
  0 <= nth i (rd (fst (fst (basic_row I step_size subg curr old i (m, rc, obj)))) curr) 0 /\
  forall r, r <> i ->
    nth r (rd (fst (fst (basic_row I step_size subg curr old i (m, rc, obj)))) curr) 0
    = nth r (rd m curr) 0.
Proof.
  unfold basic_row.
  set (value := step_size * inject_Z (nth i subg 0%Z)).
  set (m1 := wr m curr i (nth i (rd m old) 0 + value)).
  destruct (Qltb (nth i (rd m1 curr) 0) 0) eqn:E; cbn [fst snd].
  - split.
    + rewrite rd_wr_same. apply nth_upd_nonneg. lra.
    + intros r Hr. unfold m1. rewrite !rd_wr_same, !nth_upd_neq by congruence.
      reflexivity.
  - apply Qltb_ge in E. split; [assumption|].
    intros r Hr. unfold m1. rewrite rd_wr_same, nth_upd_neq by congruence.
    reflexivity.
Qed.

Lemma basic_update_nonneg (upperbound : Z) (s : basic_state) :
  dual_nonneg (num_row I) (rd (fst (fst (basic_update I upperbound s))) (b_curr_dual s)).
Proof.
  unfold basic_update.
  set (step := b_lambda s * _ / _).
  set (body := basic_row I step (b_subg s) (b_curr_dual s) (b_old_dual s)).
  assert (H : forall k, (k <= num_row I)%nat ->
            forall r, (r < k)%nat ->
              0 <= nth r (rd (fst (fst (for_range O k body
                                          (b_mem s, b_reduced_costs s, 0))))
                            (b_curr_dual s)) 0).
  { intros k Hk.
    apply (for_range_inv
             (fun k (t : duals * list Q * Q) =>
                forall r, (r < k)%nat -> 0 <= nth r (rd (fst (fst t)) (b_curr_dual s)) 0));
      [lia|intros r Hr; lia|].
    intros j [[m rc] obj] Hj IH r Hr. unfold body.
    destruct (basic_row_curr step (b_subg s) (b_curr_dual s) (b_old_dual s) j m rc obj)
      as [H1 H2].
    destruct (Nat.eq_dec r j) as [->|Hne]; [assumption|].
    rewrite H2 by assumption. apply IH. lia. }
  specialize (H (num_row I) (Nat.le_refl _)).
  destruct (for_range O (num_row I) body (b_mem s, b_reduced_costs s, 0))
    as [[m rc] obj]. cbn [fst snd] in *. exact H.
Qed.

Lemma basic_tail_old (s : basic_state) (u : duals * list Q * Q) :
  b_old_dual (basic_tail s u) = b_curr_dual s /\
  b_mem (basic_tail s u) = fst (fst u).
Proof.
  unfold basic_tail. destruct u as [[m rc] obj]. cbn [fst snd].
  destruct (Qltb (b_best_obj s) obj); cbn [b_old_dual b_mem];
    match goal with |- context [if ?c then _ else _] => destruct c end;
    split; reflexivity.
Qed.

Lemma basic_head_same (s : basic_state) :
  b_mem (basic_head I s) = b_mem s /\
  b_old_dual (basic_head I s) = b_old_dual s /\
  b_curr_dual (basic_head I s) = b_curr_dual s.
Proof.
  unfold basic_head.
  destruct (compute_subg_vector_basic I (b_subg s) (b_reduced_costs s)
              (rd (b_mem s) (b_old_dual s))) as [sg norm].
  repeat split.
Qed.

(** The iterate stays non-negative through the loop. *)
Lemma basic_loop_nonneg (upperbound : Z) (n : nat) : forall s,
  dual_nonneg (num_row I) (rd (b_mem s) (b_old_dual s)) ->
  dual_nonneg (num_row I)
    (rd (b_mem (basic_loop I upperbound n s)) (b_old_dual (basic_loop I upperbound n s))).
Proof.
  induction n as [|n IH]; intros s Hs; [exact Hs|].
  cbn [basic_loop]. destruct (basic_head_same s) as (Em & Eo & Ec).
  destruct (b_norm (basic_head I s) <? 0)%Z.
  - rewrite Em, Eo. exact Hs.
  - apply IH.
    destruct (basic_tail_old (basic_head I s) (basic_update I upperbound (basic_head I s)))
      as [E1 E2].
    rewrite E1, E2. apply basic_update_nonneg.
Qed.

(** The initial dual vector of a valid instance is non-negative. *)
Lemma init_dual_nonneg (dual rcbuf : list Q) :
  valid_instance I = true -> length dual = num_row I ->
  dual_nonneg (num_row I) (fst (fst (init_dual_vector I dual rcbuf))).
Proof.
  intros Hv Hlen r Hr. unfold init_dual_vector.
  pose proof (init_duals_fst I dual r Hlen Hr) as E.
  destruct (init_duals I dual) as [d obj]. cbn [fst] in *. rewrite E.
  destruct (init_row_min_spec I r Hv Hr) as [_ (c & Hin & Heq)].
  destruct (valid_instance_spec I Hv) as (Hw & Hcost & _).
  destruct (incident_col_size I r c Hw Hr Hin) as [Hc Hs].
  rewrite Heq. unfold ratio.
  assert (H0 : 0 <= inject_Z (cost_of I c)).
  { change 0 with (inject_Z 0). rewrite <- Zle_Qle. now apply Hcost. }
  assert (H1 : 0 < inject_Z (Z.of_nat (col_size I c))).
  { change 0 with (inject_Z 0). rewrite <- Zlt_Qlt. lia. }
  apply Qle_shift_div_l; [assumption|lra].
Qed.

End BasicProofs.

(* ------------------------------------------------------------------ *)
(** ** spectral_projected_subgradient: the tentative step *)

Lemma rd_wr_nth_neq (m : duals) (c b : buf) (k r : nat) (v d : Q) :
  r <> k -> nth r (rd (wr m c k v) b) d = nth r (rd m b) d.
Proof.
  intros H. destruct c, b; simpl; try reflexivity; apply nth_upd_neq; congruence.
Qed.

Lemma rd_wr_nth_eq (m : duals) (c : buf) (k : nat) (v d : Q) :
  (k < length (rd m c))%nat -> nth k (rd (wr m c k v) c) d = v.
Proof.
  intros H. rewrite rd_wr_same. now apply nth_upd_eq.
Qed.

Lemma rd_wr_length (m : duals) (c b : buf) (k : nat) (v : Q) :
  length (rd (wr m c k v) b) = length (rd m b).
Proof.
  destruct c, b; simpl; try reflexivity; apply length_upd.
Qed.

Lemma sps_delta_ext (alpha : Q) (sg : list Z) (mom mom' old old' : list Q) (i : nat) :
  nth i mom 0 = nth i mom' 0 -> nth i old 0 = nth i old' 0 ->
  sps_delta alpha sg mom old i = sps_delta alpha sg mom' old' i.
Proof.
  intros E1 E2. unfold sps_delta. now rewrite E1, E2.
Qed.

Lemma firstn_upd_snoc {A : Type} (l : list A) (k : nat) (v : A) :
  (k < length l)%nat -> firstn (S k) (upd l k v) = firstn k l ++ [v].
Proof.
  revert k. induction l as [|h t IH]; intros [|k] H; simpl in *; try lia; auto.
  f_equal. apply IH. lia.
Qed.

Lemma firstn_upd_above {A : Type} (l : list A) (k n : nat) (v : A) :
  (n <= k)%nat -> firstn n (upd l k v) = firstn n l.
Proof.
  revert k n. induction l as [|h t IH]; intros [|k] [|n] H; simpl in *; try lia; auto.
  f_equal. apply IH. lia.
Qed.

Lemma filter_seq_S (f : nat -> bool) (k : nat) :
  filter f (seq O (S k)) = filter f (seq O k) ++ (if f k then [k] else []).
Proof.
  rewrite seq_S, filter_app. simpl. now destruct (f k).
Qed.

Lemma filter_seq_length (f : nat -> bool) (k : nat) :
  (length (filter f (seq O k)) <= k)%nat.
Proof.
  induction k as [|k IH]; [simpl; lia|].
  rewrite filter_seq_S, length_app. destruct (f k); simpl; lia.
Qed.

Section StepProofs.

Variable I : instance.
Variable s : sps_state.
Variable itr : nat.

Hypothesis Hsized : sps_sized I s.

Lemma rc_sub_row_length (rc : list Q) (i : nat) (v : Q) :
  length (rc_sub_row I rc i v) = length rc.
Proof.
  unfold rc_sub_row, for_range.
  apply (for_loop_keeps (fun t => length t = length rc)); [|reflexivity].
  intros k t Ht. now rewrite length_upd.
Qed.

Lemma rd_length (m : duals) (b : buf) :
  length (d1 m) = num_row I -> length (d2 m) = num_row I -> length (rd m b) = num_row I.
Proof. destruct b; simpl; auto. Qed.

Lemma sps_row_inv (k : nat) (t : step_state) :
  (k < num_row I)%nat -> step_inv I s itr k t ->
  step_inv I s itr (S k)
    (sps_row I (s_alpha s) (old_subg_of itr s) (s_curr_dual s) (s_old_dual s) k t).
Proof.
  intros Hk (L1 & L2 & L3 & L4 & L5 & L6 & HO & HM & HC & HD & HMo & HS & HX).
  unfold sps_row.
  rewrite (sps_delta_ext (s_alpha s) (old_subg_of itr s) (t_momentum t) (s_momentum s)
             (rd (t_mem t) (s_old_dual s)) (rd (s_mem s) (s_old_dual s)) k)
    by (try apply HM; try apply HO; lia).
  pose proof (eq_refl : step_value s itr k = step_value s itr k) as Ev.
  pose proof (eq_refl : step_mom s itr k = step_mom s itr k) as Em.
  unfold step_value at 2 in Ev. unfold step_mom at 2 in Em.
  destruct (sps_delta (s_alpha s) (old_subg_of itr s) (s_momentum s)
              (rd (s_mem s) (s_old_dual s)) k)
    as [m value]. cbn [fst snd] in Ev, Em. subst m value.
  assert (Hlk : (k < length (rd (t_mem t) (s_curr_dual s)))%nat)
    by (rewrite rd_length; assumption).
  assert (Ech : step_changed s itr k = beyond_tol (step_value s itr k)) by reflexivity.
  rewrite (HO k (Nat.le_refl _)).
  assert (Hsz : (t_dd_size t <= k)%nat) by (rewrite HS; apply filter_seq_length).
  destruct (beyond_tol (step_value s itr k)) eqn:Eb; unfold step_inv;
    cbn [t_mem t_dd t_dd_idx t_momentum t_dd_size t_rc].
  - repeat split.
    + pose proof (rd_wr_length (t_mem t) (s_curr_dual s) Dual1 k
                    (nth k (rd (s_mem s) (s_old_dual s)) 0 + step_value s itr k)) as E.
      simpl in E. now rewrite E.
    + pose proof (rd_wr_length (t_mem t) (s_curr_dual s) Dual2 k
                    (nth k (rd (s_mem s) (s_old_dual s)) 0 + step_value s itr k)) as E.
      simpl in E. now rewrite E.
    + now rewrite length_upd.
    + now rewrite length_upd.
    + now rewrite length_upd.
    + now rewrite rc_sub_row_length.
    + intros r Hr. rewrite rd_wr_nth_neq by lia. apply HO. lia.
    + intros r Hr. rewrite nth_upd_neq by lia. apply HM. lia.
    + intros r Hr. destruct (Nat.eq_dec r k) as [->|Hne].
      * rewrite rd_wr_nth_eq by assumption. now rewrite Ech.
      * rewrite rd_wr_nth_neq by assumption. apply HC. lia.
    + intros r Hr Hc. destruct (Nat.eq_dec r k) as [->|Hne].
      * apply nth_upd_eq. lia.
      * rewrite nth_upd_neq by congruence. apply HD; [lia|assumption].
    + intros r Hr. destruct (Nat.eq_dec r k) as [->|Hne].
      * apply nth_upd_eq. lia.
      * rewrite nth_upd_neq by congruence. apply HMo. lia.
    + rewrite filter_seq_S, length_app, Ech, HS. simpl. lia.
    + rewrite filter_seq_S, Ech, firstn_upd_snoc by lia. now rewrite HX.
  - repeat split; auto.
    + pose proof (rd_wr_length (t_mem t) (s_curr_dual s) Dual1 k
                    (nth k (rd (s_mem s) (s_old_dual s)) 0)) as E.
      simpl in E. now rewrite E.
    + pose proof (rd_wr_length (t_mem t) (s_curr_dual s) Dual2 k
                    (nth k (rd (s_mem s) (s_old_dual s)) 0)) as E.
      simpl in E. now rewrite E.
    + now rewrite length_upd.
    + intros r Hr. rewrite rd_wr_nth_neq by lia. apply HO. lia.
    + intros r Hr. rewrite nth_upd_neq by lia. apply HM. lia.
    + intros r Hr. destruct (Nat.eq_dec r k) as [->|Hne].
      * rewrite rd_wr_nth_eq by assumption. now rewrite Ech.
      * rewrite rd_wr_nth_neq by assumption. apply HC. lia.
    + intros r Hr Hc. destruct (Nat.eq_dec r k) as [->|Hne]; [congruence|].
      apply HD; [lia|assumption].
    + intros r Hr. destruct (Nat.eq_dec r k) as [->|Hne].
      * apply nth_upd_eq. lia.
      * rewrite nth_upd_neq by congruence. apply HMo. lia.
    + rewrite filter_seq_S, length_app, Ech, HS. simpl. lia.
    + rewrite filter_seq_S, Ech, app_nil_r. exact HX.
Qed.

Lemma sps_step_inv : step_inv I s itr (num_row I) (sps_step I itr s).
Proof.
  destruct Hsized as (S1 & S2 & S3 & S4 & S5 & S6).
  unfold sps_step. apply (for_range_inv (step_inv I s itr)); [lia| |].
  - unfold step_inv. cbn [t_mem t_dd t_dd_idx t_momentum t_dd_size t_rc].
    repeat split; auto; intros; lia.
  - intros k t Hk Ht. apply sps_row_inv; [lia|assumption].
Qed.

End StepProofs.

(* ------------------------------------------------------------------ *)
(** ** spectral_projected_subgradient: the line search keeps the duals
       non-negative *)

Lemma rc_add_row_length (I : instance) (rc : list Q) (i : nat) (v : Q) :
  length (rc_add_row I rc i v) = length rc.
Proof.
  unfold rc_add_row, for_range.
  apply (for_loop_keeps (fun t => length t = length rc)); [|reflexivity].
  intros k t Ht. now rewrite length_upd.
Qed.

Lemma nth_firstn_lt {A : Type} (l : list A) (k j : nat) (d : A) :
  (j < k)%nat -> nth j (firstn k l) d = nth j l d.
Proof.
  revert k j. induction l as [|h t IH]; intros [|k] [|j] H; simpl; try lia; auto.
  apply IH. lia.
Qed.

Section LineSearchProofs.

Variable I : instance.
Variable curr : buf.
Variable dd : list Q.
Variable dd_idx : list nat.
Variable dd_size : nat.
Variable product : Q.

Let n := num_row I.
Let X := firstn dd_size dd_idx.

Hypothesis Hsize : (dd_size <= length dd_idx)%nat.
Hypothesis Hnodup : NoDup X.
Hypothesis Hrange : forall r, In r X -> (r < n)%nat.

Lemma X_nth (j : nat) : (j < dd_size)%nat -> In (nth j dd_idx O) X.
Proof.
  intros Hj. unfold X. rewrite <- (nth_firstn_lt dd_idx dd_size j O Hj).
  apply nth_In. rewrite length_firstn. lia.
Qed.

Lemma X_inj (j j' : nat) :
  (j < dd_size)%nat -> (j' < dd_size)%nat ->
  nth j dd_idx O = nth j' dd_idx O -> j = j'.
Proof.
  intros Hj Hj' E.
  rewrite <- (nth_firstn_lt dd_idx dd_size j O Hj) in E.
  rewrite <- (nth_firstn_lt dd_idx dd_size j' O Hj') in E.
  apply (proj1 (NoDup_nth X O) Hnodup); [| |exact E];
    unfold X; rewrite length_firstn; lia.
Qed.

Lemma X_pos (r : nat) : In r X -> exists j, (j < dd_size)%nat /\ nth j dd_idx O = r.
Proof.
  intros Hin. destruct (In_nth X r O Hin) as (j & Hj & E).
  unfold X in Hj. rewrite length_firstn in Hj.
  exists j. split; [lia|]. rewrite <- E. unfold X.
  symmetry. apply nth_firstn_lt. lia.
Qed.

Lemma ls_halve_ok (l : ls_state) :
  ls_ok I curr dd X l -> ls_ok I curr dd X (ls_halve I product curr dd dd_idx dd_size l).
Proof.
  intros (Htau & L1 & L2 & L3 & Hnn & Hlo).
  unfold ls_halve.
  set (tau' := l_tau l * (1 # 2)).
  pose (J := fun (k : nat) (st : duals * list Q * Q) =>
    let m := fst (fst st) in
    length (d1 m) = n /\ length (d2 m) = n /\ length (snd (fst st)) = num_col I /\
    dual_nonneg n (rd m curr) /\
    (forall j, (j < dd_size)%nat ->
       ((j < k)%nat -> 0 <= nth (nth j dd_idx O) (rd m curr) 0
                            - tau' * nth (nth j dd_idx O) dd 0) /\
       ((k <= j)%nat -> 0 <= nth (nth j dd_idx O) (rd m curr) 0
                             - l_tau l * nth (nth j dd_idx O) dd 0))).
  assert (HJ : J dd_size (for_range O dd_size (ls_row I tau' curr dd dd_idx)
                            (l_mem l, l_rc l, l_sub_obj l))).
  { apply (for_range_inv J); [lia| |].
    - unfold J. cbn [fst snd]. repeat split; auto; try (intros; lia).
      intros _. apply Hlo. now apply X_nth.
    - intros k [[m rc] sub] Hk (M1 & M2 & M3 & Mnn & Mj). cbn [fst snd] in *.
      unfold ls_row, J.
      set (i := nth k dd_idx O).
      assert (Hi : (i < n)%nat) by (apply Hrange, X_nth; lia).
      destruct (Mj k (proj2 Hk)) as [_ Hk2]. specialize (Hk2 (Nat.le_refl _)).
      fold i in Hk2. pose proof (Mnn i Hi) as Hi0.
      assert (Ehalf : tau' * nth i dd 0 == (1 # 2) * (l_tau l * nth i dd 0))
        by (unfold tau'; ring).
      destruct (beyond_tol (tau' * nth i dd 0)); cbn [fst snd].
      + assert (Hli : (i < length (rd m curr))%nat)
          by (destruct curr; simpl; lia).
        repeat split.
        * pose proof (rd_wr_length m curr Dual1 i
                        (nth i (rd m curr) 0 - tau' * nth i dd 0)) as E.
          simpl in E. now rewrite E.
        * pose proof (rd_wr_length m curr Dual2 i
                        (nth i (rd m curr) 0 - tau' * nth i dd 0)) as E.
          simpl in E. now rewrite E.
        * now rewrite rc_add_row_length.
        * intros r Hr. destruct (Nat.eq_dec r i) as [->|Hne].
          -- rewrite rd_wr_nth_eq by assumption. lra.
          -- rewrite rd_wr_nth_neq by assumption. now apply Mnn.
        * intros Hjk. destruct (Nat.eq_dec j k) as [->|Hne].
          -- fold i. rewrite rd_wr_nth_eq by assumption. lra.
          -- assert (nth j dd_idx O <> i).
             { intros E. apply Hne. now apply X_inj. }
             rewrite rd_wr_nth_neq by assumption.
             apply (Mj j H). lia.
        * intros Hjk.
          assert (nth j dd_idx O <> i).
          { intros E. apply (X_inj j k) in E; lia. }
          rewrite rd_wr_nth_neq by assumption.
          apply (Mj j H). lia.
      + repeat split; auto.
        * intros Hjk. destruct (Nat.eq_dec j k) as [->|Hne].
          -- fold i. lra.
          -- apply (Mj j H). lia.
        * intros Hjk. apply (Mj j H). lia. }
  destruct (for_range O dd_size (ls_row I tau' curr dd dd_idx)
              (l_mem l, l_rc l, l_sub_obj l)) as [[m rc] sub].
  destruct HJ as (M1 & M2 & M3 & Mnn & Mj). cbn [fst snd] in *.
  unfold ls_ok. cbn [l_tau l_mem l_rc].
  repeat split; auto.
  - unfold tau'. lra.
  - intros r Hr. destruct (X_pos r Hr) as (j & Hj & <-).
    apply (Mj j Hj). assumption.
Qed.

Lemma ls_iter_ok (k : nat) (l : ls_state) :
  ls_ok I curr dd X l ->
  ls_ok I curr dd X (Nat.iter k (ls_halve I product curr dd dd_idx dd_size) l).
Proof.
  intros H. induction k as [|k IH]; [exact H|].
  cbn [Nat.iter]. now apply ls_halve_ok.
Qed.

Lemma line_search_ok (fuel : nat) : forall l l',
  ls_ok I curr dd X l ->
  line_search I fuel product curr dd dd_idx dd_size l = Some l' ->
  ls_ok I curr dd X l'.
Proof.
  induction fuel as [|fuel IH]; intros l l' H E; cbn [line_search] in E;
    destruct (xlt (l_curr_obj l) (l_accept l)); try discriminate;
    try (injection E as <-; exact H).
  apply (IH _ _ (ls_halve_ok l H) E).
Qed.

End LineSearchProofs.

(* ------------------------------------------------------------------ *)
(** ** spectral_projected_subgradient: the duals stay non-negative *)

Section SpsNonneg.

Variable I : instance.
Variable libm_sqrt : Q -> Q.
Variable libm_pow : Q -> Q -> Q.

Lemma step_value_nonneg (s : sps_state) (itr r : nat) :
  0 <= nth r (rd (s_mem s) (s_old_dual s)) 0 ->
  0 <= nth r (rd (s_mem s) (s_old_dual s)) 0 + step_value s itr r.
Proof.
  intros H. unfold step_value, sps_delta. cbn [snd].
  destruct (Qltb _ 0) eqn:E.
  - lra.
  - apply Qltb_ge in E. lra.
Qed.

Lemma changed_rows_facts (s : sps_state) (itr : nat) :
  NoDup (filter (step_changed s itr) (seq O (num_row I))) /\
  (forall r, In r (filter (step_changed s itr) (seq O (num_row I))) ->
     (r < num_row I)%nat /\ step_changed s itr r = true).
Proof.
  split.
  - apply NoDup_filter, seq_NoDup.
  - intros r Hr. apply filter_In in Hr. destruct Hr as [Hr Hc].
    apply in_seq in Hr. split; [lia|assumption].
Qed.

Lemma ls_entry_ok (s : sps_state) (itr : nat) :
  sps_nonneg_inv I s ->
  ls_ok I (s_curr_dual s) (t_dd (sps_step I itr s))
    (firstn (t_dd_size (sps_step I itr s)) (t_dd_idx (sps_step I itr s)))
    (snd (ls_entry I libm_pow itr s (sps_step I itr s))).
Proof.
  intros [Hsz Hnn].
  destruct (sps_step_inv I s itr Hsz)
    as (L1 & L2 & L3 & L4 & L5 & L6 & _ & _ & HC & HD & _ & _ & HX).
  unfold ls_entry, ls_ok. cbn [snd l_tau l_mem l_rc].
  assert (Hcur : dual_nonneg (num_row I)
                   (rd (t_mem (sps_step I itr s)) (s_curr_dual s))).
  { intros r Hr. rewrite (HC r Hr).
    destruct (step_changed s itr r); [|now apply Hnn].
    apply step_value_nonneg. now apply Hnn. }
  split; [lra|]. split; [exact L1|]. split; [exact L2|]. split; [exact L6|].
  split; [exact Hcur|].
  intros r Hr. rewrite HX in Hr.
  destruct (proj2 (changed_rows_facts s itr) r Hr) as [Hlt Hch].
  rewrite (HC r Hlt), Hch, (HD r Hlt Hch).
  pose proof (Hnn r Hlt). lra.
Qed.

Lemma sps_accept_nonneg (s : sps_state) (itr : nat) (l : ls_state) :
  sps_sized I s ->
  ls_ok I (s_curr_dual s) (t_dd (sps_step I itr s))
    (firstn (t_dd_size (sps_step I itr s)) (t_dd_idx (sps_step I itr s))) l ->
  sps_nonneg_inv I (fst (sps_accept I itr s (sps_step I itr s) l)).
Proof.
  intros Hsz (_ & L1 & L2 & L3 & Hnn & _).
  destruct (sps_step_inv I s itr Hsz)
    as (_ & _ & T3 & T4 & T5 & _).
  unfold sps_accept.
  destruct (compute_subg_vector_sps I (curr_subg_of itr s) (l_rc l)) as [sg r].
  destruct (Qltb (s_best_obj s) (l_curr_obj l));
    destruct (itr mod 2 =? 0)%nat; cbn [fst];
    (split; [repeat split; assumption|exact Hnn]).
Qed.

Lemma sps_tail_same (itr : nat) (tau : Q) (dd_size : nat) (s s' : sps_state) :
  sps_tail itr tau dd_size s = Returned s' ->
  s_mem s' = s_mem s /\ s_old_dual s' = s_old_dual s /\
  s_curr_dual s' = s_curr_dual s /\ s_best_dual s' = s_best_dual s /\
  s_reduced_costs s' = s_reduced_costs s /\
  s_dd s' = s_dd s /\ s_dd_idx s' = s_dd_idx s /\ s_momentum s' = s_momentum s /\
  s_curr_obj s' = s_curr_obj s /\ s_best_obj s' = s_best_obj s /\
  s_subg1 s' = s_subg1 s /\ s_subg2 s' = s_subg2 s /\ s_eta_not s' = s_eta_not s.
Proof.
  unfold sps_tail.
  destruct (update_worst itr (s_curr_obj s) (s_past_objs s) (s_worst_obj s)
              (s_worst_obj_idx s)) as [[[past w] idx]|]; [|discriminate].
  intros E. injection E as <-. cbn. repeat split.
Qed.

Lemma sps_body_nonneg (fuel itr : nat) (s s' : sps_state) (b : bool) :
  sps_nonneg_inv I s ->
  sps_body I libm_pow fuel itr s = Returned (s', b) ->
  sps_nonneg_inv I s'.
Proof.
  intros Hinv. pose proof (ls_entry_ok s itr Hinv) as Hentry.
  destruct Hinv as [Hsz Hnn].
  destruct (sps_step_inv I s itr Hsz)
    as (_ & _ & _ & T4 & _ & _ & _ & _ & _ & _ & _ & TS & TX).
  destruct (changed_rows_facts s itr) as [Hnd Hrg].
  unfold sps_body.
  destruct (ls_entry I libm_pow itr s (sps_step I itr s)) as [product l0] eqn:El.
  cbn [snd] in Hentry.
  destruct (line_search I fuel product (s_curr_dual s) (t_dd (sps_step I itr s))
              (t_dd_idx (sps_step I itr s)) (t_dd_size (sps_step I itr s)) l0)
    as [l|] eqn:Els; [|discriminate].
  assert (Hl : ls_ok I (s_curr_dual s) (t_dd (sps_step I itr s))
                 (firstn (t_dd_size (sps_step I itr s)) (t_dd_idx (sps_step I itr s))) l).
  { apply (line_search_ok I (s_curr_dual s) (t_dd (sps_step I itr s))
             (t_dd_idx (sps_step I itr s)) (t_dd_size (sps_step I itr s)) product)
      with (fuel := fuel) (l := l0); auto.
    - rewrite TS, T4. apply filter_seq_length.
    - rewrite TX. exact Hnd.
    - intros r Hr. rewrite TX in Hr. now apply Hrg. }
  pose proof (sps_accept_nonneg s itr l Hsz Hl) as Hacc.
  destruct (sps_accept I itr s (sps_step I itr s) l) as [s1 is_opt].
  cbn [fst] in Hacc. destruct is_opt.
  - intros E. injection E as <- <-. exact Hacc.
  - destruct (sps_tail itr (l_tau l) (t_dd_size (sps_step I itr s)) s1) as [s2| |] eqn:Et;
      try discriminate.
    intros E. injection E as <- <-.
    destruct (sps_tail_same _ _ _ _ _ Et)
      as (E1 & E2 & E3 & E4 & E5 & E6 & E7 & E8 & _).
    destruct Hacc as [(A1 & A2 & A3 & A4 & A5 & A6) Ann].
    unfold sps_nonneg_inv, sps_sized. rewrite E1, E2, E5, E6, E7, E8.
    repeat split; assumption.
Qed.

Lemma sps_loop_nonneg (fuel n : nat) : forall (itr : nat) (s s' : sps_state) (b : bool),
  sps_nonneg_inv I s ->
  sps_loop I libm_pow fuel n itr s = Returned (s', b) ->
  sps_nonneg_inv I s'.
Proof.
  induction n as [|n IH]; intros itr s s' b Hinv E; cbn [sps_loop] in E.
  - injection E as <- <-. exact Hinv.
  - destruct (sps_body I libm_pow fuel itr s) as [[s1 [|]]| |] eqn:Eb; try discriminate.
    + injection E as <- <-. apply (sps_body_nonneg fuel itr s s1 true Hinv Eb).
    + apply (IH (S itr) s1 s' b); [|exact E].
      apply (sps_body_nonneg fuel itr s s1 false Hinv Eb).
Qed.

Lemma sps_init_nonneg (junk : list Q) :
  valid_instance I = true -> length junk = num_row I ->
  sps_nonneg_inv I (fst (sps_init I libm_sqrt junk)).
Proof.
  intros Hv Hj. unfold sps_init.
  pose proof (init_dual_nonneg I (repeat 0 (num_row I)) (repeat 0 (num_col I)) Hv
                (repeat_length _ _)) as Hnn.
  unfold init_dual_vector in *.
  pose proof (init_duals_length I (repeat 0 (num_row I))) as Hl.
  destruct (init_duals I (repeat 0 (num_row I))) as [d obj]. cbn [fst snd] in *.
  destruct (compute_subg_vector_sps I (repeat 0%Z (num_row I))
              (compute_reduced_costs I d (repeat 0 (num_col I)))) as [sg r].
  cbn [fst]. split; [|exact Hnn].
  unfold sps_sized. cbn.
  rewrite compute_reduced_costs_length, !repeat_length, Hl, repeat_length.
  repeat split; assumption.
Qed.

End SpsNonneg.

Lemma basic_init_nonneg (I : instance) (junk : list Q) :
  valid_instance I = true ->
  dual_nonneg (num_row I)
    (rd (b_mem (basic_init I (repeat 0 (num_row I)) junk (repeat 0 (num_col I))
                  (repeat 0%Z (num_row I))))
        (b_old_dual (basic_init I (repeat 0 (num_row I)) junk (repeat 0 (num_col I))
                       (repeat 0%Z (num_row I))))).
Proof.
  intros Hv. unfold basic_init.
  pose proof (init_dual_nonneg I (repeat 0 (num_row I)) (repeat 0 (num_col I)) Hv
                (repeat_length _ _)) as Hnn.
  destruct (init_dual_vector I (repeat 0 (num_row I)) (repeat 0 (num_col I)))
    as [[d rc] obj]. exact Hnn.
Qed.

(** C4: for every valid instance and every run of either driver, the dual
    vector is component-wise non-negative after every iteration.  In the SPS
    driver the vector being written is also non-negative after the tentative
    momentum step and after each of the rollbacks of the line search (after
    [k] halvings, for every [k]); in the Basic driver it is non-negative after
    the projection of the update. *)
Theorem duals_nonneg_every_iteration (I : instance) (libm_sqrt : Q -> Q)
  (libm_pow : Q -> Q -> Q) (junk : list Q) :
  valid_instance I = true -> length junk = num_row I ->
  (forall fuel n s b,
     sps_loop I libm_pow fuel n O (fst (sps_init I libm_sqrt junk)) = Returned (s, b) ->
     dual_nonneg (num_row I) (rd (s_mem s) (s_old_dual s)) /\
     forall itr k,
       dual_nonneg (num_row I) (rd (t_mem (sps_step I itr s)) (s_curr_dual s)) /\
       dual_nonneg (num_row I)
         (rd (l_mem
                (Nat.iter k
                   (ls_halve I (fst (ls_entry I libm_pow itr s (sps_step I itr s)))
                      (s_curr_dual s) (t_dd (sps_step I itr s))
                      (t_dd_idx (sps_step I itr s)) (t_dd_size (sps_step I itr s)))
                   (snd (ls_entry I libm_pow itr s (sps_step I itr s)))))
             (s_curr_dual s))) /\
  (forall n upperbound,
     dual_nonneg (num_row I)
       (rd (b_mem (basic_loop I upperbound n
                     (basic_init I (repeat 0 (num_row I)) junk (repeat 0 (num_col I))
                        (repeat 0%Z (num_row I)))))
           (b_old_dual (basic_loop I upperbound n
                          (basic_init I (repeat 0 (num_row I)) junk
                             (repeat 0 (num_col I)) (repeat 0%Z (num_row I)))))) /\
     forall sb,
       dual_nonneg (num_row I)
         (rd (fst (fst (basic_update I upperbound sb))) (b_curr_dual sb))).
Proof.
  intros Hv Hj. split.
  - intros fuel n s b E.
    pose proof (sps_loop_nonneg I libm_pow fuel n O _ s b
                  (sps_init_nonneg I libm_sqrt junk Hv Hj) E) as Hinv.
    split; [exact (proj2 Hinv)|].
    intros itr k.
    pose proof (ls_entry_ok I libm_pow s itr Hinv) as Hentry.
    destruct Hinv as [Hsz Hnn].
    destruct (sps_step_inv I s itr Hsz)
      as (_ & _ & _ & T4 & _ & _ & _ & _ & _ & _ & _ & TS & TX).
    destruct (changed_rows_facts I s itr) as [Hnd Hrg].
    split.
    + destruct Hentry as (_ & _ & _ & _ & H & _). exact H.
    + assert (Hk : ls_ok I (s_curr_dual s) (t_dd (sps_step I itr s))
                     (firstn (t_dd_size (sps_step I itr s)) (t_dd_idx (sps_step I itr s)))
                     (Nat.iter k
                        (ls_halve I (fst (ls_entry I libm_pow itr s (sps_step I itr s)))
                           (s_curr_dual s) (t_dd (sps_step I itr s))
                           (t_dd_idx (sps_step I itr s)) (t_dd_size (sps_step I itr s)))
                        (snd (ls_entry I libm_pow itr s (sps_step I itr s))))).
      { apply ls_iter_ok.
        - rewrite TS, T4. apply filter_seq_length.
        - rewrite TX. exact Hnd.
        - intros r Hr. rewrite TX in Hr. now apply Hrg.
        - exact Hentry. }
      destruct Hk as (_ & _ & _ & _ & H & _). exact H.
  - intros n upperbound. split.
    + apply basic_loop_nonneg. now apply basic_init_nonneg.
    + intros sb. apply basic_update_nonneg.
Qed.

Lemma duals_nonneg_every_iteration_witness :
  valid_instance inst_5x3 = true /\ length (repeat 0 5) = num_row inst_5x3 /\
  dual_nonneg (num_row inst_5x3)
    (rd (b_mem (basic_loop inst_5x3 6 2
                  (basic_init inst_5x3 (repeat 0 (num_row inst_5x3)) (repeat 0 5)
                     (repeat 0 (num_col inst_5x3)) (repeat 0%Z (num_row inst_5x3)))))
        (b_old_dual (basic_loop inst_5x3 6 2
                       (basic_init inst_5x3 (repeat 0 (num_row inst_5x3)) (repeat 0 5)
                          (repeat 0 (num_col inst_5x3)) (repeat 0%Z (num_row inst_5x3)))))).
Proof.
  split; [reflexivity|]. split; [reflexivity|].
  apply (proj1 (proj2 (duals_nonneg_every_iteration inst_5x3 sqrt_approx pow_approx
                         (repeat 0 5) eq_refl eq_refl) 2%nat 6%Z)).
Defined.

(* ------------------------------------------------------------------ *)
(** ** spectral_projected_subgradient: the first iteration *)

Lemma sqrt_approx_ge1 (x : Q) : 1 <= x -> 1 <= sqrt_approx x.
Proof.
  destruct x as [a d]. unfold Qle, sqrt_approx. cbn [Qnum Qden].
  rewrite !Z.mul_1_l, !Z.mul_1_r. intros H.
  rewrite Pos2Z.inj_mul, Pos2Z.inj_pow.
  apply Z.sqrt_le_square; [nia|nia|].
  change (2 ^ 104)%Z with (2 ^ 52 * 2 ^ 52)%Z.
  change (Z.pos 2 ^ Z.pos 52)%Z with (2 ^ 52)%Z.
  assert (0 < 2 ^ 52)%Z by reflexivity.
  generalize dependent (2 ^ 52)%Z. intros p Hp. nia.
Qed.

Lemma scan_nonzero_witness (v : list Z) (n : nat) : forall i,
  scan_nonzero n i v <> (-1)%Z ->
  exists r, (i <= r < i + n)%nat /\ nth r v 0%Z <> 0%Z.
Proof.
  induction n as [|n IH]; intros i H; simpl in H; [congruence|].
  destruct (Z.eqb_spec (nth i v 0%Z) 0) as [E|E]; simpl in H.
  - destruct (IH (S i) H) as (r & Hr & Hnz). exists r. split; [lia|assumption].
  - exists i. split; [lia|assumption].
Qed.

Lemma Qsum_ge_term {A : Type} (f : A -> Q) (l : list A) (y : A) :
  (forall x, In x l -> 0 <= f x) -> In y l -> f y <= Qsum (map f l).
Proof.
  induction l as [|h t IH]; intros Hnn Hin; [contradiction|].
  simpl. assert (Ht : 0 <= Qsum (map f t)).
  { clear IH Hin. induction t as [|h' t' IH']; simpl; [lra|].
    assert (0 <= f h') by (apply Hnn; right; now left).
    assert (0 <= Qsum (map f t')).
    { apply IH'. intros x [Hx|Hx]; apply Hnn; [now left|right; now right]. }
    unfold Qsum in *. lra. }
  assert (Hh : 0 <= f h) by (apply Hnn; now left).
  destruct Hin as [->|Hin].
  - unfold Qsum in *. lra.
  - assert (f y <= Qsum (map f t)).
    { apply IH; [|assumption]. intros x Hx. apply Hnn. now right. }
    unfold Qsum in *. lra.
Qed.

Lemma truthy_uchar_minus1 : truthy_uchar (-1) = true.
Proof. reflexivity. Qed.

Lemma sps_init_eta_not (I : instance) (libm_sqrt : Q -> Q) (junk : list Q) :
  rows_fit_int I = true ->
  (forall x, 1 <= x -> 1 <= libm_sqrt x) ->
  snd (sps_init I libm_sqrt junk) = false ->
  exists eta_not,
    s_eta_not (fst (sps_init I libm_sqrt junk)) = Fin eta_not /\ 1 <= eta_not.
Proof.
  intros Hb Hsqrt. unfold sps_init.
  destruct (init_dual_vector I (repeat 0 (num_row I)) (repeat 0 (num_col I)))
    as [[d rc] obj].
  unfold compute_subg_vector_sps. cbn [fst snd s_eta_not]. intros Hopt.
  set (sg := subg_fill I (repeat 0%Z (num_row I)) rc) in *.
  assert (Hne : scan_nonzero (num_row I) 0 sg <> (-1)%Z).
  { intros E. rewrite E, truthy_uchar_minus1 in Hopt. discriminate. }
  destruct (scan_nonzero_witness sg (num_row I) O Hne) as (r & Hr & Hnz).
  assert (Hsq : forall i, (i < num_row I)%nat ->
            int_mul (nth i sg 0%Z) (nth i sg 0%Z) = (nth i sg 0 * nth i sg 0)%Z).
  { intros i Hi. apply int_mul_square.
    destruct (rows_fit_int_entries I (repeat 0%Z (num_row I)) rc [] i Hb
                (repeat_length _ _) Hi) as [H _].
    fold sg in H. lia. }
  set (total := for_range O (num_row I) _ 0).
  assert (Et : total
               == Qsum (map (fun i => inject_Z (int_mul (nth i sg 0%Z) (nth i sg 0%Z)))
                          (seq O (num_row I)))).
  { unfold total, for_range.
    rewrite (sum_loop (fun i => inject_Z (int_mul (nth i sg 0%Z) (nth i sg 0%Z)))).
    rewrite Nat.sub_0_r. lra. }
  assert (Hterm : 1 <= inject_Z (int_mul (nth r sg 0%Z) (nth r sg 0%Z))).
  { rewrite Hsq by lia. change 1 with (inject_Z 1). rewrite <- Zle_Qle. nia. }
  pose proof (Qsum_ge_term (fun i => inject_Z (int_mul (nth i sg 0%Z) (nth i sg 0%Z)))
                (seq O (num_row I)) r) as Hsum.
  cbv beta in Hsum.
  assert (Hs : inject_Z (int_mul (nth r sg 0%Z) (nth r sg 0%Z)) <= total).
  { rewrite Et. apply Hsum.
    - intros x Hx. apply in_seq in Hx. rewrite Hsq by lia.
      change 0 with (inject_Z 0). rewrite <- Zle_Qle. nia.
    - apply in_seq. lia. }
  exists (libm_sqrt total). unfold xsqrt.
  assert (Hlt : Qltb total 0 = false).
  { destruct (Qltb total 0) eqn:E; [|reflexivity]. apply Qltb_lt in E. lra. }
  rewrite Hlt. split; [reflexivity|]. apply Hsqrt. lra.
Qed.

(** X19: the first tolerance of the SPS driver.  In every run that enters
    the loop, on an instance in which no row is listed more than 46341 times
    (the products [subg1[i] * subg1[i]] are then within the range of [int]),
    [eta_not] is a number at least 1; at iteration 0 the tolerance [eta] is
    its quotient by [pow(0, 1.1) = 0]: it is +infinity, the acceptance
    threshold is -infinity, and the line search leaves the tentative step as
    it is, with [tau = 1] and without a single halving, whatever the
    objective of the step is. *)
Theorem sps_first_iteration_accepts (I : instance) (libm_sqrt : Q -> Q)
  (libm_pow : Q -> Q -> Q) (junk : list Q) :
  rows_fit_int I = true ->
  libm_pow 0 (11 # 10) == 0 ->
  (forall x, 1 <= x -> 1 <= libm_sqrt x) ->
  snd (sps_init I libm_sqrt junk) = false ->
  (exists eta_not,
     s_eta_not (fst (sps_init I libm_sqrt junk)) = Fin eta_not /\ 1 <= eta_not) /\
  eta_of libm_pow (s_eta_not (fst (sps_init I libm_sqrt junk))) O = PInf /\
  l_accept (snd (ls_entry I libm_pow O (fst (sps_init I libm_sqrt junk))
                   (sps_step I O (fst (sps_init I libm_sqrt junk))))) = NInf /\
  l_tau (snd (ls_entry I libm_pow O (fst (sps_init I libm_sqrt junk))
                (sps_step I O (fst (sps_init I libm_sqrt junk))))) = 1 /\
  forall fuel,
    line_search I fuel
      (fst (ls_entry I libm_pow O (fst (sps_init I libm_sqrt junk))
              (sps_step I O (fst (sps_init I libm_sqrt junk)))))
      (s_curr_dual (fst (sps_init I libm_sqrt junk)))
      (t_dd (sps_step I O (fst (sps_init I libm_sqrt junk))))
      (t_dd_idx (sps_step I O (fst (sps_init I libm_sqrt junk))))
      (t_dd_size (sps_step I O (fst (sps_init I libm_sqrt junk))))
      (snd (ls_entry I libm_pow O (fst (sps_init I libm_sqrt junk))
              (sps_step I O (fst (sps_init I libm_sqrt junk)))))
    = Some (snd (ls_entry I libm_pow O (fst (sps_init I libm_sqrt junk))
                   (sps_step I O (fst (sps_init I libm_sqrt junk))))).
Proof.
  intros Hb Hpow Hsqrt Hopt.
  pose proof (sps_init_eta_not I libm_sqrt junk Hb Hsqrt Hopt) as Heta.
  set (s0 := fst (sps_init I libm_sqrt junk)) in *.
  assert (E : eta_of libm_pow (s_eta_not s0) O = PInf).
  { destruct Heta as (e & -> & He). unfold eta_of, xdivx, xdiv.
    change (inject_Z (Z.of_nat 0)) with 0.
    rewrite (proj2 (Qeq_bool_iff _ _) Hpow).
    assert (Hlt : Qltb 0 e = true) by (apply Qltb_lt; lra).
    now rewrite Hlt. }
  assert (Ea : l_accept (snd (ls_entry I libm_pow O s0 (sps_step I O s0))) = NInf).
  { unfold ls_entry. cbn [snd l_accept]. now rewrite E. }
  split; [exact Heta|]. split; [exact E|]. split; [exact Ea|]. split; [reflexivity|].
  intros fuel. destruct fuel; cbn [line_search]; rewrite Ea; reflexivity.
Qed.

Lemma sps_first_iteration_accepts_witness :
  rows_fit_int inst_5x3 = true /\
  pow_approx 0 (11 # 10) == 0 /\
  snd (sps_init inst_5x3 sqrt_approx (repeat 0 5)) = false /\
  eta_of pow_approx (s_eta_not (fst (sps_init inst_5x3 sqrt_approx (repeat 0 5)))) O
  = PInf.
Proof.
  split; [reflexivity|]. split; [reflexivity|]. split; [reflexivity|].
  apply (sps_first_iteration_accepts inst_5x3 sqrt_approx pow_approx (repeat 0 5)).
  - reflexivity.
  - reflexivity.
  - exact sqrt_approx_ge1.
  - reflexivity.
Defined.

(** Beyond the bound [eta_not] need not be a number: when the wrapped
    products sum to a negative value, [sqrt] returns a NaN, and so do the
    division by [pow(itr, 1.1)] and the subtraction that gives [accept]. *)
Lemma eta_of_negative_sum (libm_sqrt : Q -> Q) (libm_pow : Q -> Q -> Q) (x : Q)
  (itr : nat) :
  x < 0 -> eta_of libm_pow (xsqrt libm_sqrt x) itr = NaN.
Proof.
  intros H. unfold xsqrt. apply Qltb_lt in H. rewrite H. reflexivity.
Qed.

(* ------------------------------------------------------------------ *)
(** ** spectral_projected_subgradient: the window of objective values *)

Lemma rescan_loop (past : list (option Q)) (n : nat) :
  (forall j, (j < n)%nat -> exists x, nth j past None = Some x) ->
  forall w0 i0,
  exists w i,
    for_down n (rescan_body past) (Some (w0, i0)) = Some (w, i) /\
    w <= w0 /\
    (forall j x, (j < n)%nat -> nth j past None = Some x -> w <= x) /\
    ((w = w0 /\ i = i0) \/ ((i < n)%nat /\ nth i past None = Some w)).
Proof.
  induction n as [|n IH]; intros Hall w0 i0.
  - exists w0, i0. simpl. repeat split; [lra|intros; lia|now left].
  - cbn [for_down]. destruct (Hall n (Nat.lt_succ_diag_r n)) as [v Ev].
    unfold rescan_body at 2. rewrite Ev.
    assert (Hall' : forall j, (j < n)%nat -> exists x, nth j past None = Some x)
      by (intros j Hj; apply Hall; lia).
    destruct (Qltb v w0) eqn:E.
    + apply Qltb_lt in E.
      destruct (IH Hall' v n) as (w & i & Ef & Hle & Hall2 & Hat).
      exists w, i. split; [exact Ef|]. split; [lra|]. split.
      * intros j x Hj Ex. destruct (Nat.eq_dec j n) as [->|Hne].
        -- rewrite Ev in Ex. injection Ex as <-. exact Hle.
        -- apply (Hall2 j x); [lia|exact Ex].
      * right. destruct Hat as [[-> ->]|[Hi Ei]]; [split; [lia|exact Ev]|].
        split; [lia|exact Ei].
    + apply Qltb_ge in E.
      destruct (IH Hall' w0 i0) as (w & i & Ef & Hle & Hall2 & Hat).
      exists w, i. split; [exact Ef|]. split; [exact Hle|]. split.
      * intros j x Hj Ex. destruct (Nat.eq_dec j n) as [->|Hne].
        -- rewrite Ev in Ex. injection Ex as <-. lra.
        -- apply (Hall2 j x); [lia|exact Ex].
      * destruct Hat as [H|[Hi Ei]]; [now left|right]. split; [lia|exact Ei].
Qed.

Lemma In_firstn_nth (l : list Q) (k : nat) (x : Q) :
  In x (firstn k l) -> exists a, (a < k)%nat /\ (a < length l)%nat /\ nth a l 0 = x.
Proof.
  intros H. destruct (In_nth _ _ 0 H) as (a & Ha & E).
  rewrite length_firstn in Ha. exists a. split; [lia|]. split; [lia|].
  rewrite <- E. symmetry. apply nth_firstn_lt. lia.
Qed.

Lemma nth_In_firstn (l : list Q) (k a : nat) :
  (a < k)%nat -> (a < length l)%nat -> In (nth a l 0) (firstn k l).
Proof.
  intros Hk Hl. rewrite <- (nth_firstn_lt l k a 0 Hk).
  apply nth_In. rewrite length_firstn. lia.
Qed.

(** The update of the window keeps its invariant and never reads a cell
    that was not written. *)
Lemma update_worst_inv (itr : nat) (h : list Q) (past : list (option Q)) (worst : Q)
  (idx : nat) (v : Q) :
  window_inv itr h past worst idx ->
  exists past' worst' idx',
    update_worst itr v past worst idx = Some (past', worst', idx') /\
    window_inv (S itr) (v :: h) past' worst' idx'.
Proof.
  intros (Hlen & Hpl & Hslot & (aw & Haw & Hawi & Hidx & Hwv) & Hmin).
  unfold M in *.
  assert (Hslot' : forall a, (a < 10)%nat -> (a <= S itr)%nat ->
            nth ((S itr - a) mod 10) (upd past ((itr + 1) mod 10) (Some v)) None
            = Some (nth a (v :: h) 0)).
  { intros a Ha Hai. destruct a as [|a].
    - replace (S itr - 0)%nat with (itr + 1)%nat by lia.
      apply nth_upd_eq. rewrite Hpl. lia.
    - rewrite nth_upd_neq by lia.
      replace (S itr - S a)%nat with (itr - a)%nat by lia.
      cbn [nth]. apply Hslot; lia. }
  assert (Hl' : length (v :: h) = S (S itr)) by (simpl; lia).
  assert (Hpl' : length (upd past ((itr + 1) mod 10) (Some v)) = 10%nat)
    by (now rewrite length_upd).
  assert (Hold : forall x, In x (firstn 9 h) -> worst <= x).
  { intros x Hx. destruct (In_firstn_nth h 9 x Hx) as (a & Ha1 & Ha2 & <-).
    apply Hmin. apply nth_In_firstn; lia. }
  unfold update_worst, M.
  destruct (Nat.eqb_spec ((itr + 1) mod 10) idx) as [Ei|Ei].
  - (* the cell of the minimum is overwritten *)
    assert (Haw9 : aw = 9%nat) by lia.
    destruct (Qle_bool v worst) eqn:Ev.
    + apply Qle_bool_iff in Ev.
      exists (upd past ((itr + 1) mod 10) (Some v)), v, idx.
      split; [reflexivity|]. unfold window_inv, M.
      split; [exact Hl'|]. split; [exact Hpl'|]. split; [exact Hslot'|]. split.
      * exists O. repeat split; lia.
      * intros x Hx. cbn [firstn] in Hx. destruct Hx as [<-|Hx]; [lra|].
        pose proof (Hold x Hx). lra.
    + assert (Hv : worst < v).
      { apply Qnot_le_lt. intros Hle. apply Qle_bool_iff in Hle. congruence. }
      assert (Hall : forall j, (j < 10)%nat ->
                exists x, nth j (upd past ((itr + 1) mod 10) (Some v)) None = Some x).
      { intros j Hj. remember ((S itr + 10 - j) mod 10)%nat as a eqn:Ea.
        assert (Ha : (a < 10)%nat /\ (a <= S itr)%nat /\ ((S itr - a) mod 10)%nat = j)
          by lia.
        destruct Ha as (H1 & H2 & H3).
        exists (nth a (v :: h) 0). pose proof (Hslot' a H1 H2) as E.
        rewrite H3 in E. exact E. }
      destruct (rescan_loop _ 10 Hall v idx) as (w & i & Er & Hle & Hall2 & Hat).
      unfold rescan, M. rewrite Er.
      exists (upd past ((itr + 1) mod 10) (Some v)), w, i.
      split; [reflexivity|]. unfold window_inv, M.
      split; [exact Hl'|]. split; [exact Hpl'|]. split; [exact Hslot'|]. split.
      * destruct Hat as [[-> ->]|[Hi Eat]].
        -- exists O. repeat split; lia.
        -- remember ((S itr + 10 - i) mod 10)%nat as a eqn:Ea.
           assert (Ha : (a < 10)%nat /\ (a <= S itr)%nat /\ ((S itr - a) mod 10)%nat = i)
             by lia.
           destruct Ha as (H1 & H2 & H3).
           exists a. split; [exact H1|]. split; [exact H2|]. split; [exact H3|].
           pose proof (Hslot' a H1 H2) as E2. rewrite H3, Eat in E2.
           congruence.
      * intros x Hx. destruct (In_firstn_nth (v :: h) 10 x Hx) as (a & Ha1 & Ha2 & <-).
        assert (Ha3 : (a <= S itr)%nat) by (rewrite Hl' in Ha2; lia).
        apply (Hall2 ((S itr - a) mod 10)%nat); [lia|].
        apply Hslot'; assumption.
  - destruct (Qltb v worst) eqn:Ev.
    + apply Qltb_lt in Ev.
      exists (upd past ((itr + 1) mod 10) (Some v)), v, ((itr + 1) mod 10)%nat.
      split; [reflexivity|]. unfold window_inv, M.
      split; [exact Hl'|]. split; [exact Hpl'|]. split; [exact Hslot'|]. split.
      * exists O. repeat split; lia.
      * intros x Hx. cbn [firstn] in Hx. destruct Hx as [<-|Hx]; [lra|].
        pose proof (Hold x Hx). lra.
    + apply Qltb_ge in Ev.
      exists (upd past ((itr + 1) mod 10) (Some v)), worst, idx.
      split; [reflexivity|]. unfold window_inv, M.
      split; [exact Hl'|]. split; [exact Hpl'|]. split; [exact Hslot'|]. split.
      * exists (S aw). split; [lia|]. split; [lia|]. split.
        -- replace (S itr - S aw)%nat with (itr - aw)%nat by lia. exact Hidx.
        -- exact Hwv.
      * intros x Hx. cbn [firstn] in Hx. destruct Hx as [<-|Hx]; [lra|].
        now apply Hold.
Qed.

Lemma window_inv_min (itr : nat) (h : list Q) (past : list (option Q)) (worst : Q)
  (idx : nat) :
  window_inv itr h past worst idx -> is_min_of worst (firstn M h).
Proof.
  intros (Hlen & _ & _ & (aw & Haw & Hawi & _ & Hwv) & Hmin).
  split; [|exact Hmin]. rewrite <- Hwv. apply nth_In_firstn; lia.
Qed.

Section WindowProofs.

Variable I : instance.
Variable libm_sqrt : Q -> Q.
Variable libm_pow : Q -> Q -> Q.

Lemma sps_accept_window (itr : nat) (s : sps_state) (t : step_state) (l : ls_state) :
  s_past_objs (fst (sps_accept I itr s t l)) = s_past_objs s /\
  s_worst_obj (fst (sps_accept I itr s t l)) = s_worst_obj s /\
  s_worst_obj_idx (fst (sps_accept I itr s t l)) = s_worst_obj_idx s.
Proof.
  unfold sps_accept.
  destruct (compute_subg_vector_sps I (curr_subg_of itr s) (l_rc l)) as [sg r].
  destruct (Qltb (s_best_obj s) (l_curr_obj l));
    destruct (itr mod 2 =? 0)%nat; cbn; repeat split.
Qed.

Lemma sps_tail_window (itr : nat) (tau : Q) (dd_size : nat) (s : sps_state) :
  match sps_tail itr tau dd_size s with
  | Returned s' =>
      update_worst itr (s_curr_obj s') (s_past_objs s) (s_worst_obj s) (s_worst_obj_idx s)
      = Some (s_past_objs s', s_worst_obj s', s_worst_obj_idx s')
  | UninitRead =>
      update_worst itr (s_curr_obj s) (s_past_objs s) (s_worst_obj s) (s_worst_obj_idx s)
      = None
  | OutOfFuel => False
  end.
Proof.
  unfold sps_tail.
  destruct (update_worst itr (s_curr_obj s) (s_past_objs s) (s_worst_obj s)
              (s_worst_obj_idx s)) as [[[past w] idx]|] eqn:E; cbn; auto.
Qed.

Lemma sps_body_window (fuel itr : nat) (s : sps_state) :
  match sps_body I libm_pow fuel itr s with
  | Returned (s', false) =>
      update_worst itr (s_curr_obj s') (s_past_objs s) (s_worst_obj s) (s_worst_obj_idx s)
      = Some (s_past_objs s', s_worst_obj s', s_worst_obj_idx s')
  | UninitRead =>
      exists v,
        update_worst itr v (s_past_objs s) (s_worst_obj s) (s_worst_obj_idx s) = None
  | _ => True
  end.
Proof.
  unfold sps_body.
  destruct (ls_entry I libm_pow itr s (sps_step I itr s)) as [product l0].
  destruct (line_search I fuel product (s_curr_dual s) (t_dd (sps_step I itr s))
              (t_dd_idx (sps_step I itr s)) (t_dd_size (sps_step I itr s)) l0)
    as [l|]; [|exact Logic.I].
  destruct (sps_accept_window itr s (sps_step I itr s) l) as (E1 & E2 & E3).
  destruct (sps_accept I itr s (sps_step I itr s) l) as [s1 is_opt].
  cbn [fst] in *. destruct is_opt; [exact Logic.I|].
  pose proof (sps_tail_window itr (l_tau l) (t_dd_size (sps_step I itr s)) s1) as Ht.
  rewrite E1, E2, E3 in Ht.
  destruct (sps_tail itr (l_tau l) (t_dd_size (sps_step I itr s)) s1) as [s2| |].
  - exact Ht.
  - exact Logic.I.
  - exists (s_curr_obj s1). exact Ht.
Qed.

Lemma sps_init_window (junk : list Q) :
  window_inv O [s_curr_obj (fst (sps_init I libm_sqrt junk))]
    (s_past_objs (fst (sps_init I libm_sqrt junk)))
    (s_worst_obj (fst (sps_init I libm_sqrt junk)))
    (s_worst_obj_idx (fst (sps_init I libm_sqrt junk))).
Proof.
  unfold sps_init.
  destruct (init_dual_vector I (repeat 0 (num_row I)) (repeat 0 (num_col I)))
    as [[d rc] obj].
  destruct (compute_subg_vector_sps I (repeat 0%Z (num_row I)) rc) as [sg r].
  cbn [fst s_curr_obj s_past_objs s_worst_obj s_worst_obj_idx].
  unfold window_inv, M. split; [reflexivity|]. split; [reflexivity|]. split.
  - intros a Ha Ha0. assert (a = O) by lia. subst a. reflexivity.
  - split.
    + exists O. repeat split; lia.
    + intros x [<-|[]]. lra.
Qed.

Lemma sps_reach_window (fuel : nat) (junk : list Q) (itr : nat) (h : list Q)
  (s : sps_state) :
  sps_reach I libm_sqrt libm_pow fuel junk itr h s ->
  window_inv itr h (s_past_objs s) (s_worst_obj s) (s_worst_obj_idx s).
Proof.
  induction 1 as [Hopt|itr h s s' Hr IH Hb].
  - apply sps_init_window.
  - destruct (update_worst_inv itr h _ _ _ (s_curr_obj s') IH)
      as (past' & w' & idx' & Eu & Hw).
    pose proof (sps_body_window fuel itr s) as Hbw. rewrite Hb in Hbw.
    rewrite Eu in Hbw. injection Hbw as <- <- <-. exact Hw.
Qed.

Lemma sps_body_no_uninit (fuel : nat) (junk : list Q) (itr : nat) (h : list Q)
  (s : sps_state) :
  sps_reach I libm_sqrt libm_pow fuel junk itr h s ->
  sps_body I libm_pow fuel itr s <> UninitRead.
Proof.
  intros Hr E. pose proof (sps_body_window fuel itr s) as Hbw. rewrite E in Hbw.
  destruct Hbw as [v Hv].
  destruct (update_worst_inv itr h _ _ _ v (sps_reach_window fuel junk itr h s Hr))
    as (past' & w' & idx' & Eu & _).
  congruence.
Qed.

Lemma sps_loop_no_uninit (fuel : nat) (junk : list Q) (n : nat) :
  forall (itr : nat) (h : list Q) (s : sps_state),
  sps_reach I libm_sqrt libm_pow fuel junk itr h s ->
  sps_loop I libm_pow fuel n itr s <> UninitRead.
Proof.
  induction n as [|n IH]; intros itr h s Hr; cbn [sps_loop]; [discriminate|].
  pose proof (sps_body_no_uninit fuel junk itr h s Hr) as Hb.
  destruct (sps_body I libm_pow fuel itr s) as [[s' [|]]| |] eqn:E;
    try discriminate; try congruence.
  apply (IH (S itr) (s_curr_obj s' :: h) s').
  now apply (reach_step I libm_sqrt libm_pow fuel junk itr h s s').
Qed.

End WindowProofs.

(** C7: in every run of the SPS driver, at the start of every iteration
    [worst_obj] is the minimum of the window of the most recent accepted
    objective values (the last M = 10 of them, or all of them, the initial
    objective included, while there are fewer), and neither that iteration
    nor any later one reads a cell of [past_objs] that was never written. *)
Theorem sps_worst_obj_is_window_min (I : instance) (libm_sqrt : Q -> Q)
  (libm_pow : Q -> Q -> Q) (fuel : nat) (junk : list Q) (itr : nat) (h : list Q)
  (s : sps_state) :
  sps_reach I libm_sqrt libm_pow fuel junk itr h s ->
  length h = S itr /\
  is_min_of (s_worst_obj s) (firstn M h) /\
  sps_body I libm_pow fuel itr s <> UninitRead /\
  forall n, sps_loop I libm_pow fuel n itr s <> UninitRead.
Proof.
  intros Hr. pose proof (sps_reach_window I libm_sqrt libm_pow fuel junk itr h s Hr) as Hw.
  split; [exact (proj1 Hw)|]. split.
  - apply (window_inv_min itr h _ _ _ Hw).
  - split.
    + apply (sps_body_no_uninit I libm_sqrt libm_pow fuel junk itr h s Hr).
    + intros n. apply (sps_loop_no_uninit I libm_sqrt libm_pow fuel junk n itr h s Hr).
Qed.

Lemma sps_worst_obj_is_window_min_witness :
  sps_reach inst_1x2 sqrt_approx pow_approx O [0] 1
    [s_curr_obj sps_1x2_next; s_curr_obj sps_1x2_start] sps_1x2_next /\
  is_min_of (s_worst_obj sps_1x2_next)
    (firstn M [s_curr_obj sps_1x2_next; s_curr_obj sps_1x2_start]).
Proof.
  assert (R : sps_reach inst_1x2 sqrt_approx pow_approx O [0] 1
                [s_curr_obj sps_1x2_next; s_curr_obj sps_1x2_start] sps_1x2_next).
  { apply (reach_step inst_1x2 sqrt_approx pow_approx O [0] O
             [s_curr_obj sps_1x2_start] sps_1x2_start sps_1x2_next).
    - apply reach_init. reflexivity.
    - vm_compute. reflexivity. }
  split; [exact R|].
  apply (sps_worst_obj_is_window_min inst_1x2 sqrt_approx pow_approx O [0] 1 _ _ R).
Defined.

(* ------------------------------------------------------------------ *)
(** ** Termination by optimality right after an improvement *)

(** C2 at a failing input.  On [inst_5x3] the first iteration of the SPS
    driver improves the objective from 29/5 to 6 and reaches a zero
    subgradient.  The swap has then made [curr_dual] point to the other
    buffer, so the vector copied to [best_dual_copy] is that buffer (here the
    never-written [dual2], whatever it holds), not the final iterate
    (13/10, 13/10, 13/10, 13/10, 9/10) left in [dual1].  The Basic driver with
    upper bound 6 does the same at its second iteration: its final iterate is
    (7/5, 7/5, 7/5, 7/5, 4/5).  Both return the objective 6 of that iterate. *)
Theorem optimal_exit_copies_other_buffer (junk : list Q) :
  (exists s,
     sps_loop inst_5x3 pow_approx O 1 O (fst (sps_init inst_5x3 sqrt_approx junk))
     = Returned (s, true) /\
     firstn 5 (s_subg2 s) = [0; 0; 0; 0; 0]%Z /\
     s_old_dual s = Dual1 /\ s_curr_dual s = Dual2 /\
     map Qred (rd (s_mem s) (s_old_dual s)) = [13 # 10; 13 # 10; 13 # 10; 13 # 10; 9 # 10] /\
     Qred (s_curr_obj s) = 6 /\
     spectral_projected_subgradient inst_5x3 sqrt_approx pow_approx O 1 junk
     = Returned {| ret_obj := s_curr_obj s; best_dual_copy := junk |}) /\
  (exists sb,
     basic_loop inst_5x3 6 2
       (basic_init inst_5x3 (repeat 0 5) junk (repeat 0 3) (repeat 0%Z 5)) = sb /\
     b_norm sb = (-1)%Z /\
     b_old_dual sb = Dual1 /\ b_curr_dual sb = Dual2 /\
     map Qred (rd (b_mem sb) (b_old_dual sb)) = [7 # 5; 7 # 5; 7 # 5; 7 # 5; 4 # 5] /\
     Qred (b_curr_obj sb) = 6 /\
     basic_subgradient inst_5x3 2 6 junk
     = {| ret_obj := b_curr_obj sb; best_dual_copy := junk |}).
Proof.
  split.
  - eexists. split; [vm_compute; reflexivity|].
    repeat split; vm_compute; reflexivity.
  - eexists. split; [vm_compute; reflexivity|].
    repeat split; vm_compute; reflexivity.
Qed.

(* ------------------------------------------------------------------ *)
(** ** basic_subgradient: deltas within the tolerance *)

(** C5: the reduced costs kept by the Basic driver are not always those of
    the current dual vector.  On the valid instance [inst_drift] with upper
    bound 17 the first step size is 1/1805044411170, below [ZERO_TOL]: the
    duals of rows 0..8 move by it (line 541 assigns [curr_dual[i]] before the
    test of line 547), the reduced costs are left as they were, and the
    objective is evaluated with reduced costs that are not those of the
    current dual vector (column 0: 2/3 instead of 2/3 - 1/1805044411170).
    The SPS driver, under the same test, leaves the dual of such a row as it
    was (line 332). *)
Theorem basic_small_delta_not_propagated :
  valid_instance inst_drift = true /\
  exists sb,
    basic_loop inst_drift 17 1
      (basic_init inst_drift (repeat 0 39) (repeat 0 39) (repeat 0 10) (repeat 0%Z 39))
    = sb /\
    nth 0 (rd (b_mem sb) (b_old_dual sb)) 0 == (1 # 3) + (1 # 1805044411170) /\
    nth 0 (b_reduced_costs sb) 0 == 2 # 3 /\
    reduced_cost_spec inst_drift (rd (b_mem sb) (b_old_dual sb)) 0
    == (2 # 3) - (1 # 1805044411170) /\
    ~ nth 0 (b_reduced_costs sb) 0
      == reduced_cost_spec inst_drift (rd (b_mem sb) (b_old_dual sb)) 0.
Proof.
  split; [vm_compute; reflexivity|].
  eexists. split; [vm_compute; reflexivity|].
  repeat split; try (vm_compute; reflexivity).
  vm_compute. discriminate.
Qed.

(* ------------------------------------------------------------------ *)
(** ** load_scp_instance: what is checked *)

Module LoaderProofs.

Import Loader.
Import String.
Local Open Scope string_scope.

Lemma entry_step_below_one (i : Z) (w : row_state) (j : Z) (token : list Ascii.ascii) :
  (INT_MIN < atoi token < 1)%Z -> entry_step i w j token = Failed.
Proof.
  intros H. unfold entry_step.
  destruct (Z.eqb_spec (atoi token) INT_MIN); [lia|].
  destruct (Z.ltb_spec (atoi token - 1) 0); [reflexivity|lia].
Qed.

(** The test the loader makes: it returns -1 as soon as it reads, as an entry
    of a row, a column index below 1: the step of the loop fails on such a
    token, and so does the loop when such a token is the next entry to be
    read. *)
Lemma load_rejects_column_index_below_one :
  (forall i w j token, (INT_MIN < atoi token < 1)%Z -> entry_step i w j token = Failed) /\
  (forall i size line rest j w t ts,
     tokens line = t :: ts -> not_newline t = true -> (INT_MIN < atoi t < 1)%Z ->
     (j < size)%Z ->
     token_loop row_state (entry_step i) size (line :: rest) j w = Failed).
Proof.
  split; [exact entry_step_below_one|].
  intros i size line rest j w t ts Et Hn Ha Hj.
  cbn [token_loop].
  destruct (Z.leb_spec size j); [lia|].
  rewrite Et. destruct (Z.leb_spec size j); [lia|].
  rewrite Hn, (entry_step_below_one i w j t Ha). reflexivity.
Qed.

(** The test the loader does not make: a column index above the number of
    columns is written through, outside the array [cols]. *)
Lemma entry_step_above_range (i : Z) (w : row_state) (j : Z) (token : list Ascii.ascii) :
  (Z.of_nat (List.length (w_cols w)) < atoi token)%Z ->
  entry_step i w j token = Undefined.
Proof.
  intros H. unfold entry_step.
  destruct (Z.eqb_spec (atoi token) INT_MIN) as [E|E]; [reflexivity|].
  destruct (Z.ltb_spec (atoi token - 1) 0); [lia|].
  destruct (Z.leb_spec (Z.of_nat (List.length (w_cols w))) (atoi token - 1)); [reflexivity|lia].
Qed.

(** A row with an entry count of zero is accepted, even by an allocator that
    refuses empty requests.  The second row of this file declares no entry,
    and the load succeeds. *)
Lemma load_accepts_row_count_zero :
  load_scp_instance malloc_positive (scp_text ["2 1"; "1"; "1"; "1"; "0"])
  = Loaded
      {| r_num_row := 2; r_num_col := 1; r_costs := [1%Z];
         r_col_wise_a := [0%Z]; r_col_wise_idx := [0%Z; 1%Z];
         r_row_wise_a := [0%Z]; r_row_wise_idx := [0%Z; 1%Z; 1%Z];
         r_col_sizes := [1%Z]; r_row_sizes := [1%Z; 0%Z] |}.
Proof. vm_compute. reflexivity. Qed.

(** C8: the loader on three files with one row and one column.  The column
    index 0 is refused with -1 and the index 1 loads; the index 2, above the
    number of columns, is not refused: the loader writes [cols[1][...]]
    outside the array it allocated, where the claim has it fail with -1. *)
Theorem load_index_above_range_undefined :
  load_scp_instance malloc_positive (scp_text ["1 1"; "1"; "1"; "2"]) = Undefined /\
  load_scp_instance malloc_positive (scp_text ["1 1"; "1"; "1"; "0"]) = Failed /\
  load_scp_instance malloc_positive (scp_text ["1 1"; "1"; "1"; "1"])
  = Loaded
      {| r_num_row := 1; r_num_col := 1; r_costs := [1%Z];
         r_col_wise_a := [0%Z]; r_col_wise_idx := [0%Z; 1%Z];
         r_row_wise_a := [0%Z]; r_row_wise_idx := [0%Z; 1%Z];
         r_col_sizes := [1%Z]; r_row_sizes := [1%Z] |}.
Proof. repeat split; vm_compute; reflexivity. Qed.

(** [atoi] keeps the low 32 bits of the number read: the index 4294967297 is
    read as 1, and the file loads. *)
Lemma load_index_beyond_int :
  atoi (String.list_ascii_of_string "4294967297") = 1%Z /\
  load_scp_instance malloc_positive (scp_text ["1 1"; "1"; "1"; "4294967297"])
  = load_scp_instance malloc_positive (scp_text ["1 1"; "1"; "1"; "1"]).
Proof. split; vm_compute; reflexivity. Qed.

(** Declared counts of zero are refused only by the allocator. *)
Lemma load_zero_counts :
  load_scp_instance malloc_positive (scp_text ["0 0"]) = Failed /\
  load_scp_instance malloc_nonneg (scp_text ["0 0"])
  = Loaded
      {| r_num_row := 0; r_num_col := 0; r_costs := [];
         r_col_wise_a := []; r_col_wise_idx := [0%Z];
         r_row_wise_a := []; r_row_wise_idx := [0%Z];
         r_col_sizes := []; r_row_sizes := [] |}.
Proof. split; vm_compute; reflexivity. Qed.

(** The file of [inst_5x3]. *)
Lemma load_inst_5x3 :
  match load_scp_instance malloc_positive
          (scp_text ["5 3"; "6 1 1"; "1"; "1"; "1"; "1"; "1"; "1"; "1"; "1"; "3"; "1 2 3"])
  with
  | Loaded r => to_instance r = inst_5x3
  | _ => False
  end.
Proof. vm_compute. reflexivity. Qed.

(** The file of [inst_6x1]. *)
Lemma load_inst_6x1 :
  match load_scp_instance malloc_positive
          (scp_text ["6 1"; "7"; "1"; "1"; "1"; "1"; "1"; "1"; "1"; "1"; "1"; "1"; "1"; "1"])
  with
  | Loaded r => to_instance r = inst_6x1
  | _ => False
  end.
Proof. vm_compute. reflexivity. Qed.

End LoaderProofs.

(* ------------------------------------------------------------------ *)
(** ** spectral_projected_subgradient: the reduced costs follow the duals *)

Lemma inject_nat_S (k : nat) :
  inject_Z (Z.of_nat (S k)) == inject_Z (Z.of_nat k) + 1.
Proof.
  rewrite Nat2Z.inj_succ. unfold Z.succ. rewrite inject_Z_plus. reflexivity.
Qed.

Lemma Qsum_point (f g : nat -> Q) (i : nat) (v : Q) (l : list nat) :
  (forall r, r <> i -> g r == f r) -> g i == f i + v ->
  Qsum (map g l)
  == Qsum (map f l) + inject_Z (Z.of_nat (count_occ Nat.eq_dec l i)) * v.
Proof.
  intros Hne Hi. induction l as [|h t IH].
  - simpl. change (inject_Z 0) with 0. lra.
  - cbn [map Qsum fold_right count_occ]. unfold Qsum in IH. rewrite IH.
    destruct (Nat.eq_dec h i) as [->|Hh].
    + rewrite Hi, inject_nat_S. lra.
    + rewrite (Hne h Hh). lra.
Qed.

Lemma count_occ_seq (n i : nat) :
  (i < n)%nat -> count_occ Nat.eq_dec (seq O n) i = 1%nat.
Proof.
  intros H. induction n as [|n IH]; [lia|].
  rewrite seq_S, count_occ_app. cbn [count_occ Nat.add].
  destruct (Nat.eq_dec n i) as [->|Hne].
  - rewrite (proj1 (count_occ_not_In Nat.eq_dec (seq 0 i) i)); [reflexivity|].
    rewrite in_seq. lia.
  - rewrite IH by lia. reflexivity.
Qed.

Section RowUpdate.

Variable I : instance.

Lemma rc_sub_loop_nth (v : Q) (c : nat) (n : nat) : forall (j : nat) (rc : list Q),
  (c < length rc)%nat ->
  nth c (for_loop n j
           (fun j rc => upd rc (row_at I j) (nth (row_at I j) rc 0 - v)) rc) 0
  == nth c rc 0
     - inject_Z (Z.of_nat (count_occ Nat.eq_dec (map (row_at I) (seq j n)) c)) * v.
Proof.
  induction n as [|n IH]; intros j rc Hc.
  - simpl. change (inject_Z 0) with 0. lra.
  - cbn [for_loop seq map count_occ]. rewrite IH by (now rewrite length_upd).
    destruct (Nat.eq_dec (row_at I j) c) as [E|E].
    + rewrite E, nth_upd_eq, inject_nat_S by assumption. lra.
    + rewrite nth_upd_neq by assumption. lra.
Qed.

Lemma rc_add_loop_nth (v : Q) (c : nat) (n : nat) : forall (j : nat) (rc : list Q),
  (c < length rc)%nat ->
  nth c (for_loop n j
           (fun j rc => upd rc (row_at I j) (nth (row_at I j) rc 0 + v)) rc) 0
  == nth c rc 0
     + inject_Z (Z.of_nat (count_occ Nat.eq_dec (map (row_at I) (seq j n)) c)) * v.
Proof.
  induction n as [|n IH]; intros j rc Hc.
  - simpl. change (inject_Z 0) with 0. lra.
  - cbn [for_loop seq map count_occ]. rewrite IH by (now rewrite length_upd).
    destruct (Nat.eq_dec (row_at I j) c) as [E|E].
    + rewrite E, nth_upd_eq, inject_nat_S by assumption. lra.
    + rewrite nth_upd_neq by assumption. lra.
Qed.

Lemma rc_sub_row_nth (rc : list Q) (i : nat) (v : Q) (c : nat) :
  (c < length rc)%nat ->
  nth c (rc_sub_row I rc i v) 0
  == nth c rc 0 - inject_Z (Z.of_nat (count_occ Nat.eq_dec (cols_of_row I i) c)) * v.
Proof. intros H. unfold rc_sub_row, for_range, cols_of_row. now apply rc_sub_loop_nth. Qed.

Lemma rc_add_row_nth (rc : list Q) (i : nat) (v : Q) (c : nat) :
  (c < length rc)%nat ->
  nth c (rc_add_row I rc i v) 0
  == nth c rc 0 + inject_Z (Z.of_nat (count_occ Nat.eq_dec (cols_of_row I i) c)) * v.
Proof. intros H. unfold rc_add_row, for_range, cols_of_row. now apply rc_add_loop_nth. Qed.

Hypothesis Hwf : wf_instance I = true.

(** Changing the dual of one row by [v] changes the from-scratch reduced
    cost of a column by [-v] for each listing of the column by the row. *)
Lemma rc_fn_spec_point (f g : nat -> Q) (i c : nat) (v : Q) :
  (i < num_row I)%nat -> (c < num_col I)%nat ->
  (forall r, r <> i -> g r == f r) -> g i == f i + v ->
  rc_fn_spec I g c
  == rc_fn_spec I f c
     - inject_Z (Z.of_nat (count_occ Nat.eq_dec (cols_of_row I i) c)) * v.
Proof.
  intros Hi Hc Hne Hgi. unfold rc_fn_spec.
  rewrite (Qsum_point f g i v (rows_of_col I c) Hne Hgi).
  destruct (wf_instance_spec I Hwf) as [_ H2].
  destruct (H2 i Hi) as [_ Hcnt]. rewrite (Hcnt c Hc). lra.
Qed.

Lemma rc_fn_spec_ext (f g : nat -> Q) (c : nat) :
  (c < num_col I)%nat ->
  (forall r, (r < num_row I)%nat -> g r == f r) ->
  rc_fn_spec I g c == rc_fn_spec I f c.
Proof.
  intros Hc H. unfold rc_fn_spec.
  destruct (wf_instance_spec I Hwf) as [H1 _].
  destruct (H1 c Hc) as [Hrows _].
  rewrite (Qsum_ext g f); [reflexivity|].
  intros r Hr. apply H. now apply Hrows.
Qed.

End RowUpdate.

Section StepConsistency.

Variable I : instance.
Variable s : sps_state.
Variable itr : nat.

Hypothesis Hwf : wf_instance I = true.
Hypothesis Hsized : sps_sized I s.
Hypothesis Hrc : rc_consistent I (rd (s_mem s) (s_old_dual s)) (s_reduced_costs s).

Lemma sps_row_fields (k : nat) (t : step_state) :
  t_rc (sps_row I (s_alpha s) (old_subg_of itr s) (s_curr_dual s) (s_old_dual s) k t)
  = (if beyond_tol (snd (sps_delta (s_alpha s) (old_subg_of itr s) (t_momentum t)
                           (rd (t_mem t) (s_old_dual s)) k))
     then rc_sub_row I (t_rc t) k
            (snd (sps_delta (s_alpha s) (old_subg_of itr s) (t_momentum t)
                    (rd (t_mem t) (s_old_dual s)) k))
     else t_rc t) /\
  t_sub_obj (sps_row I (s_alpha s) (old_subg_of itr s) (s_curr_dual s) (s_old_dual s) k t)
  = t_sub_obj t
    + nth k (rd (t_mem (sps_row I (s_alpha s) (old_subg_of itr s) (s_curr_dual s)
                          (s_old_dual s) k t)) (s_curr_dual s)) 0.
Proof.
  unfold sps_row.
  destruct (sps_delta (s_alpha s) (old_subg_of itr s) (t_momentum t)
              (rd (t_mem t) (s_old_dual s)) k) as [m v].
  cbn [snd]. destruct (beyond_tol v); cbn; split; reflexivity.
Qed.

Lemma sps_row_consistent (k : nat) (t : step_state) :
  (k < num_row I)%nat -> step_consistent I s itr k t ->
  step_consistent I s itr (S k)
    (sps_row I (s_alpha s) (old_subg_of itr s) (s_curr_dual s) (s_old_dual s) k t).
Proof.
  intros Hk (Hinv & HR & HS).
  pose proof (sps_row_inv I s itr k t Hk Hinv) as Hinv'.
  destruct (sps_row_fields k t) as [Erc Esub].
  set (t' := sps_row I (s_alpha s) (old_subg_of itr s) (s_curr_dual s) (s_old_dual s) k t)
    in *.
  destruct Hinv as (L1 & L2 & L3 & L4 & L5 & L6 & HO & HM & HC & _).
  pose proof Hinv' as (_ & _ & _ & _ & _ & _ & _ & _ & HC' & _).
  rewrite (sps_delta_ext (s_alpha s) (old_subg_of itr s) (t_momentum t) (s_momentum s)
             (rd (t_mem t) (s_old_dual s)) (rd (s_mem s) (s_old_dual s)) k) in Erc
    by (try apply HM; try apply HO; lia).
  fold (step_value s itr k) in Erc. fold (step_changed s itr k) in Erc.
  assert (Hother : forall r, r <> k -> step_ghost s (S k) t' r == step_ghost s k t r).
  { intros r Hr. unfold step_ghost.
    destruct (Nat.ltb_spec r (S k)); destruct (Nat.ltb_spec r k); try lia; try reflexivity.
    rewrite (HC' r) by lia. rewrite (HC r) by lia. reflexivity. }
  assert (Hk0 : step_ghost s k t k = nth k (rd (s_mem s) (s_old_dual s)) 0).
  { unfold step_ghost. destruct (Nat.ltb_spec k k); [lia|reflexivity]. }
  assert (Hk1 : step_ghost s (S k) t' k
                = if step_changed s itr k
                  then nth k (rd (s_mem s) (s_old_dual s)) 0 + step_value s itr k
                  else nth k (rd (s_mem s) (s_old_dual s)) 0).
  { unfold step_ghost. destruct (Nat.ltb_spec k (S k)); [|lia]. apply HC'. lia. }
  split; [exact Hinv'|]. split.
  - intros c Hc. rewrite Erc.
    destruct (step_changed s itr k) eqn:Ech.
    + rewrite rc_sub_row_nth by lia. rewrite (HR c Hc).
      rewrite (rc_fn_spec_point I Hwf (step_ghost s k t) (step_ghost s (S k) t') k c
                 (step_value s itr k) Hk Hc Hother).
      * reflexivity.
      * rewrite Hk1, Hk0. reflexivity.
    + rewrite (HR c Hc).
      rewrite (rc_fn_spec_point I Hwf (step_ghost s k t) (step_ghost s (S k) t') k c
                 0 Hk Hc Hother).
      * lra.
      * rewrite Hk1, Hk0. lra.
  - rewrite Esub, HS, seq_S, map_app, Qsum_app. cbn [map Qsum fold_right Nat.add].
    rewrite (Qsum_ext (fun r => nth r (rd (t_mem t') (s_curr_dual s)) 0)
               (fun r => nth r (rd (t_mem t) (s_curr_dual s)) 0)); [lra|].
    intros r Hr. apply in_seq in Hr. rewrite (HC' r) by lia. rewrite (HC r) by lia.
    reflexivity.
Qed.

Lemma sps_step_consistent :
  step_inv I s itr (num_row I) (sps_step I itr s) /\
  rc_consistent I (rd (t_mem (sps_step I itr s)) (s_curr_dual s)) (t_rc (sps_step I itr s)) /\
  t_sub_obj (sps_step I itr s)
  == Qsum (map (fun r => nth r (rd (t_mem (sps_step I itr s)) (s_curr_dual s)) 0)
             (seq O (num_row I))).
Proof.
  assert (H : step_consistent I s itr (num_row I) (sps_step I itr s)).
  { unfold sps_step. apply (for_range_inv (step_consistent I s itr)); [lia| |].
    - split; [|split].
      + destruct Hsized as (S1 & S2 & S3 & S4 & S5 & S6).
        unfold step_inv. cbn [t_mem t_dd t_dd_idx t_momentum t_dd_size t_rc].
        repeat split; auto; intros; lia.
      + intros c Hc. cbn [t_rc]. rewrite (Hrc c Hc). reflexivity.
      + cbn. lra.
    - intros k t Hk Ht. apply sps_row_consistent; [lia|assumption]. }
  destruct H as (Hinv & HR & HS). split; [exact Hinv|]. split; [|exact HS].
  intros c Hc. rewrite (HR c Hc). unfold reduced_cost_spec.
  apply (rc_fn_spec_ext I Hwf); [assumption|].
  intros r Hr. unfold step_ghost. destruct (Nat.ltb_spec r (num_row I)); [reflexivity|lia].
Qed.

End StepConsistency.

Section LsConsistency.

Variable I : instance.
Variable libm_sqrt : Q -> Q.
Variable libm_pow : Q -> Q -> Q.

Hypothesis Hwf : wf_instance I = true.

Lemma ls_row_consistent (tau : Q) (curr : buf) (dd : list Q) (dd_idx : list nat) (k : nat)
  (m : duals) (rc : list Q) (sub : Q) :
  (nth k dd_idx O < num_row I)%nat ->
  length (d1 m) = num_row I -> length (d2 m) = num_row I -> length rc = num_col I ->
  rc_consistent I (rd m curr) rc ->
  sub == Qsum (map (fun r => nth r (rd m curr) 0) (seq O (num_row I))) ->
  let st := ls_row I tau curr dd dd_idx k (m, rc, sub) in
  length (d1 (fst (fst st))) = num_row I /\
  length (d2 (fst (fst st))) = num_row I /\
  length (snd (fst st)) = num_col I /\
  rc_consistent I (rd (fst (fst st)) curr) (snd (fst st)) /\
  snd st == Qsum (map (fun r => nth r (rd (fst (fst st)) curr) 0) (seq O (num_row I))).
Proof.
  intros Hi L1 L2 L3 HR HS. unfold ls_row.
  set (i := nth k dd_idx O) in *.
  set (value := tau * nth i dd 0).
  destruct (beyond_tol value); cbn [fst snd]; [|repeat split; assumption].
  assert (Hli : (i < length (rd m curr))%nat) by (destruct curr; simpl; lia).
  assert (Hother : forall r, r <> i ->
            nth r (rd (wr m curr i (nth i (rd m curr) 0 - value)) curr) 0
            == nth r (rd m curr) 0).
  { intros r Hr. rewrite rd_wr_nth_neq by assumption. reflexivity. }
  assert (Hat : nth i (rd (wr m curr i (nth i (rd m curr) 0 - value)) curr) 0
                == nth i (rd m curr) 0 + - value).
  { rewrite rd_wr_nth_eq by assumption. lra. }
  split; [|split; [|split; [|split]]].
  - pose proof (rd_wr_length m curr Dual1 i (nth i (rd m curr) 0 - value)) as E.
    simpl in E. now rewrite E.
  - pose proof (rd_wr_length m curr Dual2 i (nth i (rd m curr) 0 - value)) as E.
    simpl in E. now rewrite E.
  - now rewrite rc_add_row_length.
  - intros c Hc. rewrite rc_add_row_nth by lia. rewrite (HR c Hc).
    unfold reduced_cost_spec.
    change (inject_Z (cost_of I c)
            - Qsum (map (fun r => nth r (rd (wr m curr i (nth i (rd m curr) 0 - value)) curr) 0)
                      (rows_of_col I c)))
      with (rc_fn_spec I
              (fun r => nth r (rd (wr m curr i (nth i (rd m curr) 0 - value)) curr) 0) c).
    rewrite (rc_fn_spec_point I Hwf (fun r => nth r (rd m curr) 0) _ i c (- value)
               Hi Hc Hother Hat).
    unfold rc_fn_spec. lra.
  - rewrite (Qsum_point (fun r => nth r (rd m curr) 0) _ i (- value) _ Hother Hat).
    rewrite count_occ_seq by assumption. rewrite HS. change (inject_Z (Z.of_nat 1)) with 1.
    lra.
Qed.

Lemma ls_halve_consistent (product : Q) (curr : buf) (dd : list Q) (dd_idx : list nat)
  (dd_size : nat) (l : ls_state) :
  (forall k, (k < dd_size)%nat -> (nth k dd_idx O < num_row I)%nat) ->
  ls_consistent I curr l ->
  ls_consistent I curr (ls_halve I product curr dd dd_idx dd_size l).
Proof.
  intros Hrange (L1 & L2 & L3 & HR & HS & _). unfold ls_halve.
  set (tau' := l_tau l * (1 # 2)).
  pose (J := fun (k : nat) (st : duals * list Q * Q) =>
    length (d1 (fst (fst st))) = num_row I /\
    length (d2 (fst (fst st))) = num_row I /\
    length (snd (fst st)) = num_col I /\
    rc_consistent I (rd (fst (fst st)) curr) (snd (fst st)) /\
    snd st == Qsum (map (fun r => nth r (rd (fst (fst st)) curr) 0) (seq O (num_row I)))).
  assert (HJ : J dd_size (for_range O dd_size (ls_row I tau' curr dd dd_idx)
                            (l_mem l, l_rc l, l_sub_obj l))).
  { apply (for_range_inv J); [lia| |].
    - unfold J. cbn [fst snd]. repeat split; assumption.
    - intros k [[m rc] sub] Hk (M1 & M2 & M3 & MR & MS). cbn [fst snd] in *.
      apply ls_row_consistent; auto. apply Hrange. lia. }
  destruct (for_range O dd_size (ls_row I tau' curr dd dd_idx)
              (l_mem l, l_rc l, l_sub_obj l)) as [[m rc] sub].
  destruct HJ as (M1 & M2 & M3 & MR & MS). cbn [fst snd] in *.
  unfold ls_consistent. cbn [l_mem l_rc l_sub_obj l_curr_obj].
  repeat split; auto.
  rewrite neg_part_sum_spec, MS. unfold lagrangian. reflexivity.
Qed.

Lemma ls_iter_consistent (product : Q) (curr : buf) (dd : list Q) (dd_idx : list nat)
  (dd_size : nat) (k : nat) (l : ls_state) :
  (forall k, (k < dd_size)%nat -> (nth k dd_idx O < num_row I)%nat) ->
  ls_consistent I curr l ->
  ls_consistent I curr (Nat.iter k (ls_halve I product curr dd dd_idx dd_size) l).
Proof.
  intros Hrange H. induction k as [|k IH]; [exact H|].
  cbn [Nat.iter]. now apply ls_halve_consistent.
Qed.

Lemma line_search_consistent (product : Q) (curr : buf) (dd : list Q) (dd_idx : list nat)
  (dd_size : nat) (fuel : nat) : forall l l',
  (forall k, (k < dd_size)%nat -> (nth k dd_idx O < num_row I)%nat) ->
  ls_consistent I curr l ->
  line_search I fuel product curr dd dd_idx dd_size l = Some l' ->
  ls_consistent I curr l'.
Proof.
  induction fuel as [|fuel IH]; intros l l' Hrange H E; cbn [line_search] in E;
    destruct (xlt (l_curr_obj l) (l_accept l)); try discriminate;
    try (injection E as <-; exact H).
  apply (IH _ _ Hrange (ls_halve_consistent product curr dd dd_idx dd_size l Hrange H) E).
Qed.

Lemma step_rows_in_range (s : sps_state) (itr : nat) :
  sps_sized I s ->
  forall k, (k < t_dd_size (sps_step I itr s))%nat ->
    (nth k (t_dd_idx (sps_step I itr s)) O < num_row I)%nat.
Proof.
  intros Hsz k Hk.
  destruct (sps_step_inv I s itr Hsz)
    as (_ & _ & _ & T4 & _ & _ & _ & _ & _ & _ & _ & TS & TX).
  rewrite <- (nth_firstn_lt _ (t_dd_size (sps_step I itr s)) k O Hk), TX.
  assert (Hin : In (nth k (filter (step_changed s itr) (seq O (num_row I))) O)
                  (filter (step_changed s itr) (seq O (num_row I)))).
  { apply nth_In. rewrite <- TS. exact Hk. }
  apply filter_In in Hin. destruct Hin as [Hin _]. apply in_seq in Hin. lia.
Qed.

Lemma ls_entry_consistent (s : sps_state) (itr : nat) :
  sps_consistent_inv I s ->
  ls_consistent I (s_curr_dual s) (snd (ls_entry I libm_pow itr s (sps_step I itr s))).
Proof.
  intros [Hsz Hrc].
  destruct (sps_step_consistent I s itr Hwf Hsz Hrc) as (Hinv & HR & HS).
  destruct Hinv as (L1 & L2 & _ & _ & _ & L6 & _).
  unfold ls_entry, ls_consistent. cbn [snd l_mem l_rc l_sub_obj l_curr_obj].
  repeat split; auto.
  rewrite neg_part_sum_spec, HS. unfold lagrangian. reflexivity.
Qed.

Lemma sps_body_consistent (fuel itr : nat) (s s' : sps_state) (b : bool) :
  sps_consistent_inv I s ->
  sps_body I libm_pow fuel itr s = Returned (s', b) ->
  sps_consistent_inv I s' /\
  s_curr_obj s' == lagrangian I (rd (s_mem s') (s_old_dual s')) (s_reduced_costs s').
Proof.
  intros Hinv. pose proof (ls_entry_consistent s itr Hinv) as Hentry.
  destruct Hinv as [Hsz Hrc].
  pose proof (step_rows_in_range s itr Hsz) as Hrange.
  destruct (sps_step_inv I s itr Hsz) as (_ & _ & T3 & T4 & T5 & _).
  unfold sps_body.
  destruct (ls_entry I libm_pow itr s (sps_step I itr s)) as [product l0] eqn:El.
  cbn [snd] in Hentry.
  destruct (line_search I fuel product (s_curr_dual s) (t_dd (sps_step I itr s))
              (t_dd_idx (sps_step I itr s)) (t_dd_size (sps_step I itr s)) l0)
    as [l|] eqn:Els; [|discriminate].
  pose proof (line_search_consistent product _ _ _ _ fuel l0 l Hrange Hentry Els)
    as (L1 & L2 & L3 & HR & _ & HO).
  assert (Hacc : sps_consistent_inv I (fst (sps_accept I itr s (sps_step I itr s) l)) /\
                 s_curr_obj (fst (sps_accept I itr s (sps_step I itr s) l))
                 == lagrangian I
                      (rd (s_mem (fst (sps_accept I itr s (sps_step I itr s) l)))
                          (s_old_dual (fst (sps_accept I itr s (sps_step I itr s) l))))
                      (s_reduced_costs (fst (sps_accept I itr s (sps_step I itr s) l)))).
  { unfold sps_accept.
    destruct (compute_subg_vector_sps I (curr_subg_of itr s) (l_rc l)) as [sg r].
    destruct (Qltb (s_best_obj s) (l_curr_obj l));
      destruct (itr mod 2 =? 0)%nat; cbn [fst];
      (split; [split; [repeat split; assumption|exact HR]|exact HO]). }
  destruct (sps_accept I itr s (sps_step I itr s) l) as [s1 is_opt].
  cbn [fst] in Hacc. destruct is_opt.
  - intros E. injection E as <- <-. exact Hacc.
  - destruct (sps_tail itr (l_tau l) (t_dd_size (sps_step I itr s)) s1) as [s2| |] eqn:Et;
      try discriminate.
    intros E. injection E as <- <-.
    destruct (sps_tail_same _ _ _ _ _ Et)
      as (E1 & E2 & E3 & E4 & E5 & E6 & E7 & E8 & E9 & _).
    destruct Hacc as [[(A1 & A2 & A3 & A4 & A5 & A6) Arc] Aobj].
    unfold sps_consistent_inv, sps_sized. rewrite E1, E2, E5, E6, E7, E8, E9.
    repeat split; assumption.
Qed.

Lemma sps_loop_consistent (fuel n : nat) : forall (itr : nat) (s s' : sps_state) (b : bool),
  sps_consistent_inv I s ->
  sps_loop I libm_pow fuel n itr s = Returned (s', b) ->
  sps_consistent_inv I s'.
Proof.
  induction n as [|n IH]; intros itr s s' b Hinv E; cbn [sps_loop] in E.
  - injection E as <- <-. exact Hinv.
  - destruct (sps_body I libm_pow fuel itr s) as [[s1 [|]]| |] eqn:Eb; try discriminate.
    + injection E as <- <-. apply (sps_body_consistent fuel itr s s1 true Hinv Eb).
    + apply (IH (S itr) s1 s' b); [|exact E].
      apply (sps_body_consistent fuel itr s s1 false Hinv Eb).
Qed.

Lemma sps_init_consistent (junk : list Q) :
  length junk = num_row I -> sps_consistent_inv I (fst (sps_init I libm_sqrt junk)).
Proof.
  intros Hj. unfold sps_init, init_dual_vector.
  pose proof (init_duals_length I (repeat 0 (num_row I))) as Hl.
  destruct (init_duals I (repeat 0 (num_row I))) as [d obj]. cbn [fst snd] in *.
  destruct (compute_subg_vector_sps I (repeat 0%Z (num_row I))
              (compute_reduced_costs I d (repeat 0 (num_col I)))) as [sg r].
  cbn [fst]. split.
  - unfold sps_sized. cbn.
    rewrite compute_reduced_costs_length, !repeat_length, Hl, repeat_length.
    repeat split; assumption.
  - intros c Hc. cbn.
    rewrite compute_reduced_costs_nth by (rewrite ?repeat_length; auto).
    apply col_reduced_cost_spec.
Qed.

(** In the SPS driver the reduced costs are those of the current dual vector
    at every evaluation of the objective: at the head of every iteration,
    after the tentative step and after each halving of the line search, where
    the objective evaluated is the Lagrangian objective of the vector. *)
Lemma sps_reduced_costs_follow_duals (junk : list Q) :
  length junk = num_row I ->
  forall fuel n s b,
    sps_loop I libm_pow fuel n O (fst (sps_init I libm_sqrt junk)) = Returned (s, b) ->
    rc_consistent I (rd (s_mem s) (s_old_dual s)) (s_reduced_costs s) /\
    forall itr k,
      ls_consistent I (s_curr_dual s)
        (Nat.iter k
           (ls_halve I (fst (ls_entry I libm_pow itr s (sps_step I itr s)))
              (s_curr_dual s) (t_dd (sps_step I itr s))
              (t_dd_idx (sps_step I itr s)) (t_dd_size (sps_step I itr s)))
           (snd (ls_entry I libm_pow itr s (sps_step I itr s)))).
Proof.
  intros Hj fuel n s b E.
  pose proof (sps_loop_consistent fuel n O _ s b (sps_init_consistent junk Hj) E) as Hinv.
  split; [exact (proj2 Hinv)|].
  intros itr k. apply ls_iter_consistent.
  - apply step_rows_in_range. exact (proj1 Hinv).
  - now apply ls_entry_consistent.
Qed.

End LsConsistency.

(* ------------------------------------------------------------------ *)
(** ** basic_subgradient: what an update does to the reduced costs *)

Lemma beyond_tol_false (v : Q) : beyond_tol v = false -> - ZERO_TOL <= v <= ZERO_TOL.
Proof.
  unfold beyond_tol. intros H. apply orb_false_iff in H. destruct H as [H1 H2].
  apply Qltb_ge in H1. apply Qltb_ge in H2. split; assumption.
Qed.

Lemma beyond_tol_true (v : Q) : beyond_tol v = true -> v < - ZERO_TOL \/ ZERO_TOL < v.
Proof.
  unfold beyond_tol. intros H. apply orb_true_iff in H.
  destruct H as [H|H]; apply Qltb_lt in H; [now left|now right].
Qed.

Lemma basic_skipped_small (step_size : Q) (subg : list Z) (old : list Q) (i : nat) :
  - ZERO_TOL <= basic_skipped step_size subg old i <= ZERO_TOL.
Proof.
  unfold basic_skipped. destruct (beyond_tol _) eqn:E.
  - unfold ZERO_TOL. split; unfold Qle; simpl; lia.
  - now apply beyond_tol_false.
Qed.

Section BasicUpdate.

Variable I : instance.
Variable s : basic_state.
Variable step_size : Q.

Hypothesis Hwf : wf_instance I = true.
Hypothesis Hd1 : length (d1 (b_mem s)) = num_row I.
Hypothesis Hd2 : length (d2 (b_mem s)) = num_row I.
Hypothesis Hrcl : length (b_reduced_costs s) = num_col I.

Lemma basic_row_fields (k : nat) (m : duals) (rc : list Q) (obj : Q) :
  (k < length (rd m (b_curr_dual s)))%nat ->
  nth k (rd m (b_old_dual s)) 0 = nth k (rd (b_mem s) (b_old_dual s)) 0 ->
  let u := basic_row I step_size (b_subg s) (b_curr_dual s) (b_old_dual s) k (m, rc, obj) in
  (forall b r, r <> k -> nth r (rd (fst (fst u)) b) 0 = nth r (rd m b) 0) /\
  (forall b, length (rd (fst (fst u)) b) = length (rd m b)) /\
  nth k (rd (fst (fst u)) (b_curr_dual s)) 0
  == nth k (rd (b_mem s) (b_old_dual s)) 0
     + basic_delta step_size (b_subg s) (rd (b_mem s) (b_old_dual s)) k /\
  snd (fst u)
  = (if beyond_tol (basic_delta step_size (b_subg s) (rd (b_mem s) (b_old_dual s)) k)
     then rc_sub_row I rc k
            (basic_delta step_size (b_subg s) (rd (b_mem s) (b_old_dual s)) k)
     else rc) /\
  snd u = obj + nth k (rd (fst (fst u)) (b_curr_dual s)) 0.
Proof.
  intros Hk Eold. unfold basic_row, basic_delta. rewrite Eold.
  set (base_k := nth k (rd (b_mem s) (b_old_dual s)) 0).
  set (value := step_size * inject_Z (nth k (b_subg s) 0%Z)).
  rewrite rd_wr_nth_eq by assumption.
  destruct (Qltb (base_k + value) 0) eqn:E; cbn [fst snd].
  - repeat split.
    + intros b r Hr. now rewrite !rd_wr_nth_neq by assumption.
    + intros b. now rewrite !rd_wr_length.
    + rewrite rd_wr_nth_eq by (now rewrite rd_wr_length). lra.
  - repeat split.
    + intros b r Hr. now rewrite rd_wr_nth_neq by assumption.
    + intros b. now rewrite rd_wr_length.
    + rewrite rd_wr_nth_eq by assumption. reflexivity.
Qed.

Lemma basic_row_inv (k : nat) (u : duals * list Q * Q) :
  (k < num_row I)%nat ->
  basic_update_inv I s step_size k u ->
  basic_update_inv I s step_size (S k)
    (basic_row I step_size (b_subg s) (b_curr_dual s) (b_old_dual s) k u).
Proof.
  intros Hk (L1 & L2 & L3 & HO & HC & HR & HS).
  destruct u as [[m rc] obj]. cbn [fst snd] in *.
  assert (Hlen : forall b, length (rd m b) = num_row I) by (intros []; assumption).
  destruct (basic_row_fields k m rc obj) as (Fne & Flen & Fk & Frc & Fobj);
    [rewrite Hlen; exact Hk|apply HO; lia|].
  set (u' := basic_row I step_size (b_subg s) (b_curr_dual s) (b_old_dual s) k (m, rc, obj))
    in *.
  set (base := rd (b_mem s) (b_old_dual s)) in *.
  set (delta := basic_delta step_size (b_subg s) base k) in *.
  assert (Hother : forall r, r <> k ->
            basic_ghost (b_curr_dual s) base (S k) (fst (fst u')) r
            == basic_ghost (b_curr_dual s) base k m r).
  { intros r Hr. unfold basic_ghost.
    destruct (Nat.ltb_spec r (S k)); destruct (Nat.ltb_spec r k); try lia; try reflexivity.
    rewrite Fne by assumption. reflexivity. }
  assert (Hat : basic_ghost (b_curr_dual s) base (S k) (fst (fst u')) k
                == basic_ghost (b_curr_dual s) base k m k + delta).
  { unfold basic_ghost.
    destruct (Nat.ltb_spec k (S k)); [|lia]. destruct (Nat.ltb_spec k k); [lia|].
    exact Fk. }
  unfold basic_update_inv.
  split; [|split; [|split; [|split; [|split; [|split]]]]].
  - change (length (rd (fst (fst u')) Dual1) = num_row I).
    rewrite (Flen Dual1). apply (Hlen Dual1).
  - change (length (rd (fst (fst u')) Dual2) = num_row I).
    rewrite (Flen Dual2). apply (Hlen Dual2).
  - rewrite Frc. destruct (beyond_tol delta); [now rewrite rc_sub_row_length|assumption].
  - intros r Hr. rewrite Fne by lia. apply HO. lia.
  - intros r Hr. destruct (Nat.eq_dec r k) as [->|Hne]; [exact Fk|].
    rewrite Fne by assumption. apply HC. lia.
  - intros c Hc.
    pose proof (rc_fn_spec_point I Hwf _ _ k c delta Hk Hc Hother Hat) as Hpt.
    pose proof (HR c Hc) as HRc. unfold skipped_sum in HRc |- *.
    rewrite seq_S, map_app, Qsum_app.
    cbn [map Qsum fold_right Nat.add].
    fold base. fold base in HRc.
    unfold basic_skipped at 2. fold delta.
    rewrite Frc. destruct (beyond_tol delta).
    + pose proof (rc_sub_row_nth I rc k delta c ltac:(lia)) as Hsub. lra.
    + lra.
  - rewrite Fobj, HS, seq_S, map_app, Qsum_app. cbn [map Qsum fold_right Nat.add].
    rewrite (Qsum_ext (fun r => nth r (rd (fst (fst u')) (b_curr_dual s)) 0)
               (fun r => nth r (rd m (b_curr_dual s)) 0)); [lra|].
    intros r Hr. apply in_seq in Hr. rewrite Fne by lia. reflexivity.
Qed.

Lemma basic_rows_inv :
  basic_update_inv I s step_size (num_row I)
    (for_range O (num_row I)
       (basic_row I step_size (b_subg s) (b_curr_dual s) (b_old_dual s))
       (b_mem s, b_reduced_costs s, 0)).
Proof.
  apply (for_range_inv (basic_update_inv I s step_size)); [lia| |].
  - unfold basic_update_inv. cbn [fst snd].
    split; [exact Hd1|]. split; [exact Hd2|]. split; [exact Hrcl|].
    split; [reflexivity|]. split; [intros; lia|]. split.
    + intros c Hc. unfold skipped_sum. cbn [seq map Qsum fold_right].
      assert (E : rc_fn_spec I (basic_ghost (b_curr_dual s)
                                  (rd (b_mem s) (b_old_dual s)) O (b_mem s)) c
                  == reduced_cost_spec I (rd (b_mem s) (b_old_dual s)) c)
        by reflexivity.
      rewrite E. lra.
    + cbn. lra.
  - intros k u Hk Hu. apply basic_row_inv; [lia|assumption].
Qed.

(** One pass over the rows in the Basic driver: the dual of each row moves by
    its effective delta, the objective evaluated is the Lagrangian objective
    of the new duals and the reduced costs kept, and the difference between
    the reduced costs kept and those of the new dual vector grows by the
    deltas that were not propagated. *)
Lemma basic_rows_spec :
  let u := for_range O (num_row I)
             (basic_row I step_size (b_subg s) (b_curr_dual s) (b_old_dual s))
             (b_mem s, b_reduced_costs s, 0) in
  (forall r, (r < num_row I)%nat ->
     nth r (rd (fst (fst u)) (b_curr_dual s)) 0
     == nth r (rd (b_mem s) (b_old_dual s)) 0
        + basic_delta step_size (b_subg s) (rd (b_mem s) (b_old_dual s)) r) /\
  (forall c, (c < num_col I)%nat ->
     nth c (snd (fst u)) 0 - reduced_cost_spec I (rd (fst (fst u)) (b_curr_dual s)) c
     == nth c (b_reduced_costs s) 0
        - reduced_cost_spec I (rd (b_mem s) (b_old_dual s)) c
        + skipped_sum I step_size (b_subg s) (rd (b_mem s) (b_old_dual s)) (num_row I) c) /\
  neg_part_sum I (snd (fst u)) (snd u)
  == lagrangian I (rd (fst (fst u)) (b_curr_dual s)) (snd (fst u)).
Proof.
  cbv zeta. destruct basic_rows_inv as (L1 & L2 & L3 & _ & HC & HR & HS).
  split; [exact HC|]. split.
  - intros c Hc. rewrite <- (HR c Hc).
    assert (E : rc_fn_spec I
                  (basic_ghost (b_curr_dual s) (rd (b_mem s) (b_old_dual s)) (num_row I)
                     (fst (fst (for_range O (num_row I)
                                  (basic_row I step_size (b_subg s) (b_curr_dual s)
                                     (b_old_dual s))
                                  (b_mem s, b_reduced_costs s, 0))))) c
                == reduced_cost_spec I
                     (rd (fst (fst (for_range O (num_row I)
                                      (basic_row I step_size (b_subg s) (b_curr_dual s)
                                         (b_old_dual s))
                                      (b_mem s, b_reduced_costs s, 0))))
                        (b_curr_dual s)) c).
    { unfold reduced_cost_spec. apply (rc_fn_spec_ext I Hwf); [assumption|].
      intros r Hr. unfold basic_ghost.
      destruct (Nat.ltb_spec r (num_row I)); [reflexivity|lia]. }
    rewrite E. reflexivity.
  - rewrite neg_part_sum_spec, HS. unfold lagrangian. reflexivity.
Qed.

End BasicUpdate.

Section BasicConsistency.

Variable I : instance.
Hypothesis Hwf : wf_instance I = true.

Lemma basic_update_sized (upperbound : Z) (s : basic_state) :
  basic_sized I s ->
  length (d1 (fst (fst (basic_update I upperbound s)))) = num_row I /\
  length (d2 (fst (fst (basic_update I upperbound s)))) = num_row I /\
  length (snd (fst (basic_update I upperbound s))) = num_col I.
Proof.
  intros (H1 & H2 & H3). unfold basic_update.
  destruct (basic_rows_inv I s (basic_step_size upperbound s) Hwf H1 H2 H3)
    as (L1 & L2 & L3 & _).
  unfold basic_step_size in *.
  destruct (for_range _ _ _ _) as [[m rc] obj]. cbn [fst snd] in *. tauto.
Qed.

Lemma basic_head_sized (s : basic_state) : basic_sized I s -> basic_sized I (basic_head I s).
Proof.
  unfold basic_sized, basic_head.
  destruct (compute_subg_vector_basic _ _ _ _) as [sg nm]. cbn. tauto.
Qed.

Lemma basic_tail_sized (s : basic_state) (u : duals * list Q * Q) :
  length (d1 (fst (fst u))) = num_row I ->
  length (d2 (fst (fst u))) = num_row I ->
  length (snd (fst u)) = num_col I ->
  basic_sized I (basic_tail s u).
Proof.
  intros H1 H2 H3. destruct u as [[m rc] obj]. unfold basic_sized, basic_tail.
  destruct (Qltb _ _); cbn [fst snd] in *.
  - destruct (10 <? 0)%nat; cbn; tauto.
  - destruct (10 <? S (b_counter s))%nat; cbn; tauto.
Qed.

Lemma basic_loop_sized (upperbound : Z) (n : nat) : forall s,
  basic_sized I s -> basic_sized I (basic_loop I upperbound n s).
Proof.
  induction n as [|n IH]; intros s Hs; [exact Hs|].
  cbn [basic_loop]. pose proof (basic_head_sized s Hs) as Hh.
  destruct (b_norm (basic_head I s) <? 0)%Z; [exact Hh|].
  apply IH. destruct (basic_update_sized upperbound _ Hh) as (U1 & U2 & U3).
  now apply basic_tail_sized.
Qed.

Lemma basic_init_sized (junk : list Q) :
  length junk = num_row I ->
  basic_sized I (basic_init I (repeat 0 (num_row I)) junk (repeat 0 (num_col I))
                   (repeat 0%Z (num_row I))).
Proof.
  intros Hj. unfold basic_sized, basic_init, init_dual_vector.
  pose proof (init_duals_length I (repeat 0 (num_row I))) as Hl.
  destruct (init_duals I (repeat 0 (num_row I))) as [d obj]. cbn [fst snd] in *.
  cbn. rewrite Hl, repeat_length, compute_reduced_costs_length, repeat_length.
  repeat split; exact Hj.
Qed.

Lemma basic_init_consistent (junk : list Q) :
  rc_consistent I
    (rd (b_mem (basic_init I (repeat 0 (num_row I)) junk (repeat 0 (num_col I))
                  (repeat 0%Z (num_row I))))
        (b_old_dual (basic_init I (repeat 0 (num_row I)) junk (repeat 0 (num_col I))
                       (repeat 0%Z (num_row I)))))
    (b_reduced_costs (basic_init I (repeat 0 (num_row I)) junk (repeat 0 (num_col I))
                        (repeat 0%Z (num_row I)))).
Proof.
  intros c Hc. unfold basic_init, init_dual_vector.
  destruct (init_duals I (repeat 0 (num_row I))) as [d obj]. cbn.
  rewrite compute_reduced_costs_nth by (rewrite ?repeat_length; auto).
  apply col_reduced_cost_spec.
Qed.

(** One update of the Basic driver from a state with buffers of the right
    sizes. *)
Lemma basic_update_spec (upperbound : Z) (s : basic_state) :
  basic_sized I s ->
  (forall r, (r < num_row I)%nat ->
     nth r (rd (fst (fst (basic_update I upperbound s))) (b_curr_dual s)) 0
     == nth r (rd (b_mem s) (b_old_dual s)) 0
        + basic_delta (basic_step_size upperbound s) (b_subg s)
            (rd (b_mem s) (b_old_dual s)) r) /\
  (forall c, (c < num_col I)%nat ->
     nth c (snd (fst (basic_update I upperbound s))) 0
     - reduced_cost_spec I
         (rd (fst (fst (basic_update I upperbound s))) (b_curr_dual s)) c
     == nth c (b_reduced_costs s) 0
        - reduced_cost_spec I (rd (b_mem s) (b_old_dual s)) c
        + skipped_sum I (basic_step_size upperbound s) (b_subg s)
            (rd (b_mem s) (b_old_dual s)) (num_row I) c) /\
  snd (basic_update I upperbound s)
  == lagrangian I (rd (fst (fst (basic_update I upperbound s))) (b_curr_dual s))
       (snd (fst (basic_update I upperbound s))).
Proof.
  intros (H1 & H2 & H3). unfold basic_update.
  pose proof (basic_rows_spec I s (basic_step_size upperbound s) Hwf H1 H2 H3) as H.
  cbv zeta in H. unfold basic_step_size in *.
  destruct (for_range _ _ _ _) as [[m rc] obj]. cbn [fst snd] in *. exact H.
Qed.

End BasicConsistency.

(* ------------------------------------------------------------------ *)
(** ** The reduced costs and the duals, in both drivers *)

(** X18: how the drivers maintain the reduced costs.  For every
    well-formed instance and every run, over exact arithmetic: in the SPS
    driver the reduced costs are those of the current dual vector at every
    evaluation of the objective (at the head of every iteration, after the
    tentative step and after each rollback of the line search), and the
    objective evaluated is the Lagrangian objective of that vector.  In the
    Basic driver the reduced costs are those of the dual vector at the start;
    in every iteration the dual of each row moves by its projection-corrected
    delta, the objective evaluated is the Lagrangian objective of the new
    duals with the reduced costs kept, and the difference between the reduced
    costs kept and those of the new dual vector grows exactly by the deltas
    that were not propagated, each of which is within [ZERO_TOL]. *)
Theorem reduced_costs_follow_propagated_deltas (I : instance) (libm_sqrt : Q -> Q)
  (libm_pow : Q -> Q -> Q) (junk : list Q) :
  wf_instance I = true -> length junk = num_row I ->
  (forall fuel n s b,
     sps_loop I libm_pow fuel n O (fst (sps_init I libm_sqrt junk)) = Returned (s, b) ->
     rc_consistent I (rd (s_mem s) (s_old_dual s)) (s_reduced_costs s) /\
     forall itr k,
       ls_consistent I (s_curr_dual s)
         (Nat.iter k
            (ls_halve I (fst (ls_entry I libm_pow itr s (sps_step I itr s)))
               (s_curr_dual s) (t_dd (sps_step I itr s))
               (t_dd_idx (sps_step I itr s)) (t_dd_size (sps_step I itr s)))
            (snd (ls_entry I libm_pow itr s (sps_step I itr s))))) /\
  rc_consistent I
    (rd (b_mem (basic_init I (repeat 0 (num_row I)) junk (repeat 0 (num_col I))
                  (repeat 0%Z (num_row I))))
        (b_old_dual (basic_init I (repeat 0 (num_row I)) junk (repeat 0 (num_col I))
                       (repeat 0%Z (num_row I)))))
    (b_reduced_costs (basic_init I (repeat 0 (num_row I)) junk (repeat 0 (num_col I))
                        (repeat 0%Z (num_row I)))) /\
  (forall n upperbound sb,
     sb = basic_head I
            (basic_loop I upperbound n
               (basic_init I (repeat 0 (num_row I)) junk (repeat 0 (num_col I))
                  (repeat 0%Z (num_row I)))) ->
     (forall r, (r < num_row I)%nat ->
        nth r (rd (fst (fst (basic_update I upperbound sb))) (b_curr_dual sb)) 0
        == nth r (rd (b_mem sb) (b_old_dual sb)) 0
           + basic_delta (basic_step_size upperbound sb) (b_subg sb)
               (rd (b_mem sb) (b_old_dual sb)) r) /\
     (forall c, (c < num_col I)%nat ->
        nth c (snd (fst (basic_update I upperbound sb))) 0
        - reduced_cost_spec I
            (rd (fst (fst (basic_update I upperbound sb))) (b_curr_dual sb)) c
        == nth c (b_reduced_costs sb) 0
           - reduced_cost_spec I (rd (b_mem sb) (b_old_dual sb)) c
           + skipped_sum I (basic_step_size upperbound sb) (b_subg sb)
               (rd (b_mem sb) (b_old_dual sb)) (num_row I) c) /\
     snd (basic_update I upperbound sb)
     == lagrangian I (rd (fst (fst (basic_update I upperbound sb))) (b_curr_dual sb))
          (snd (fst (basic_update I upperbound sb))) /\
     (forall r,
        - ZERO_TOL
        <= basic_skipped (basic_step_size upperbound sb) (b_subg sb)
             (rd (b_mem sb) (b_old_dual sb)) r
        <= ZERO_TOL)).
Proof.
  intros Hwf Hj. split; [|split].
  - intros fuel n s b E.
    exact (sps_reduced_costs_follow_duals I libm_sqrt libm_pow Hwf junk Hj fuel n s b E).
  - apply basic_init_consistent.
  - intros n upperbound sb ->.
    pose proof (basic_head_sized I _
                  (basic_loop_sized I Hwf upperbound n _ (basic_init_sized I junk Hj)))
      as Hs.
    destruct (basic_update_spec I Hwf upperbound _ Hs) as (U1 & U2 & U3).
    split; [exact U1|]. split; [exact U2|]. split; [exact U3|].
    intros r. apply basic_skipped_small.
Qed.

Lemma reduced_costs_follow_propagated_deltas_witness :
  wf_instance inst_drift = true /\ length (repeat 0 39) = num_row inst_drift /\
  rc_consistent inst_drift
    (rd (b_mem (basic_init inst_drift (repeat 0 (num_row inst_drift)) (repeat 0 39)
                  (repeat 0 (num_col inst_drift)) (repeat 0%Z (num_row inst_drift))))
        (b_old_dual (basic_init inst_drift (repeat 0 (num_row inst_drift)) (repeat 0 39)
                       (repeat 0 (num_col inst_drift))
                       (repeat 0%Z (num_row inst_drift)))))
    (b_reduced_costs (basic_init inst_drift (repeat 0 (num_row inst_drift))
                        (repeat 0 39) (repeat 0 (num_col inst_drift))
                        (repeat 0%Z (num_row inst_drift)))).
Proof.
  split; [reflexivity|]. split; [reflexivity|].
  apply (proj1 (proj2 (reduced_costs_follow_propagated_deltas inst_drift sqrt_approx
                         pow_approx (repeat 0 39) eq_refl eq_refl))).
Defined.

Lemma step_term_nonneg (s : sps_state) (itr r : nat) :
  0 <= nth r (rd (s_mem s) (s_old_dual s)) 0 ->
  0 <= step_value s itr r * step_mom s itr r /\
  (step_changed s itr r = true -> 0 < step_value s itr r * step_mom s itr r).
Proof.
  intros Hold. unfold step_changed, step_value, step_mom, sps_delta. cbn [fst snd].
  set (m := s_alpha s * inject_Z (nth r (old_subg_of itr s) 0%Z)
            + mu * nth r (s_momentum s) 0).
  set (o := nth r (rd (s_mem s) (s_old_dual s)) 0) in *.
  destruct (Qltb (o + m) 0) eqn:E.
  - apply Qltb_lt in E. split.
    + nra.
    + intros Hc. apply beyond_tol_true in Hc. unfold ZERO_TOL in Hc.
      assert (0 < o) by (destruct Hc as [Hc|Hc]; lra). nra.
  - apply Qltb_ge in E. split.
    + nra.
    + intros Hc. apply beyond_tol_true in Hc. unfold ZERO_TOL in Hc.
      assert (Hm : o + m - o == m) by ring.
      destruct Hc as [Hc|Hc]; rewrite Hm in *; nra.
Qed.

Section StepProduct.

Variable I : instance.
Variable s : sps_state.
Variable itr : nat.

Hypothesis Hsized : sps_sized I s.

Lemma sps_row_product (k : nat) (t : step_state) :
  (k < num_row I)%nat -> step_inv I s itr k t ->
  t_product (sps_row I (s_alpha s) (old_subg_of itr s) (s_curr_dual s) (s_old_dual s) k t)
  = (if step_changed s itr k
     then t_product t + step_value s itr k * step_mom s itr k
     else t_product t) /\
  forall b, b <> s_curr_dual s ->
    rd (t_mem (sps_row I (s_alpha s) (old_subg_of itr s) (s_curr_dual s) (s_old_dual s) k t))
       b
    = rd (t_mem t) b.
Proof.
  intros Hk (_ & _ & _ & _ & _ & _ & HO & HM & _).
  unfold sps_row.
  rewrite (sps_delta_ext (s_alpha s) (old_subg_of itr s) (t_momentum t) (s_momentum s)
             (rd (t_mem t) (s_old_dual s)) (rd (s_mem s) (s_old_dual s)) k)
    by (try apply HM; try apply HO; lia).
  unfold step_changed, step_value, step_mom.
  destruct (sps_delta (s_alpha s) (old_subg_of itr s) (s_momentum s)
              (rd (s_mem s) (s_old_dual s)) k) as [m value].
  cbn [fst snd].
  destruct (beyond_tol value); cbn [t_product t_mem]; (split; [reflexivity|]);
    intros b Hb; apply rd_wr_other; congruence.
Qed.

Lemma sps_step_product :
  t_product (sps_step I itr s) == step_product s itr (num_row I) /\
  forall b, b <> s_curr_dual s -> rd (t_mem (sps_step I itr s)) b = rd (s_mem s) b.
Proof.
  pose (J := fun (k : nat) (t : step_state) =>
    step_inv I s itr k t /\
    t_product t == step_product s itr k /\
    forall b, b <> s_curr_dual s -> rd (t_mem t) b = rd (s_mem s) b).
  assert (H : J (num_row I) (sps_step I itr s)).
  { unfold sps_step. apply (for_range_inv J); [lia| |].
    - split; [|split].
      + destruct Hsized as (S1 & S2 & S3 & S4 & S5 & S6).
        unfold step_inv. cbn [t_mem t_dd t_dd_idx t_momentum t_dd_size t_rc].
        repeat split; auto; intros; lia.
      + cbn. reflexivity.
      + intros b Hb. reflexivity.
    - intros k t Hk (Hinv & HP & HF).
      destruct (sps_row_product k t (proj2 Hk) Hinv) as [EP EF].
      split; [apply sps_row_inv; [lia|assumption]|]. split.
      + rewrite EP. unfold step_product. rewrite filter_seq_S, map_app, Qsum_app.
        fold (step_product s itr k). rewrite <- HP.
        destruct (step_changed s itr k); cbn [map Qsum fold_right]; lra.
      + intros b Hb. rewrite (EF b Hb). now apply HF. }
  destruct H as (_ & HP & HF). split; assumption.
Qed.

End StepProduct.

Lemma step_product_nonneg (I : instance) (s : sps_state) (itr : nat) :
  dual_nonneg (num_row I) (rd (s_mem s) (s_old_dual s)) ->
  forall k, (k <= num_row I)%nat ->
    0 <= step_product s itr k /\
    (filter (step_changed s itr) (seq O k) <> [] -> 0 < step_product s itr k).
Proof.
  intros Hnn. induction k as [|k IH]; intros Hk.
  - unfold step_product. cbn. split; [lra|congruence].
  - destruct (IH ltac:(lia)) as [IH1 IH2].
    destruct (step_term_nonneg s itr k (Hnn k ltac:(lia))) as [T1 T2].
    unfold step_product in *. rewrite filter_seq_S, map_app, Qsum_app.
    destruct (step_changed s itr k) eqn:E; cbn [map Qsum fold_right].
    + specialize (T2 eq_refl). split; [lra|]. intros _. lra.
    + split; [lra|]. intros Hne. rewrite app_nil_r in Hne. specialize (IH2 Hne). lra.
Qed.

(* ------------------------------------------------------------------ *)
(** ** spectral_projected_subgradient: the step length and the line search *)

Lemma alpha_sums_sign (old_subg curr_subg : list Z) (dd : list Q) (dd_idx : list nat)
  (dd_size : nat) :
  0 <= fst (alpha_sums old_subg curr_subg dd dd_idx dd_size) /\
  (fst (alpha_sums old_subg curr_subg dd dd_idx dd_size) == 0 ->
   snd (alpha_sums old_subg curr_subg dd dd_idx dd_size) == 0).
Proof.
  unfold alpha_sums.
  apply (for_range_inv (fun (_ : nat) (a : Q * Q) =>
                          0 <= fst a /\ (fst a == 0 -> snd a == 0))); [lia| |].
  - cbn. split; [lra|]. intros _. reflexivity.
  - intros k [a d] _ [Ha Hd]. cbn [fst snd] in *.
    set (v := nth (nth k dd_idx O) dd 0).
    set (e := inject_Z (nth (nth k dd_idx O) old_subg 0%Z
                        - nth (nth k dd_idx O) curr_subg 0%Z)).
    split; [nra|]. intros H0.
    assert (Ha0 : a == 0) by nra.
    assert (Hv : v == 0) by nra.
    rewrite (Hd Ha0), Hv. ring.
Qed.

Lemma update_alpha_pos (tau : Q) (old_subg curr_subg : list Z) (dd : list Q)
  (dd_idx : list nat) (dd_size : nat) :
  0 < tau -> 0 < update_alpha tau old_subg curr_subg dd dd_idx dd_size.
Proof.
  intros Ht. unfold update_alpha.
  destruct (alpha_sums_sign old_subg curr_subg dd dd_idx dd_size) as [Ha Hd].
  destruct (alpha_sums old_subg curr_subg dd dd_idx dd_size) as [a d].
  cbn [fst snd] in *.
  destruct (Qltb d ZERO_TOL) eqn:E; [reflexivity|].
  apply Qltb_ge in E. unfold ZERO_TOL in E.
  assert (Hd0 : 0 < d) by lra.
  assert (Ha0 : 0 < a).
  { destruct (Qlt_le_dec 0 a) as [H|H]; [exact H|].
    assert (a == 0) by lra. specialize (Hd H0). lra. }
  apply Qlt_shift_div_l; [exact Hd0|]. nra.
Qed.

(** The line search returns the state after the least number of halvings at
    which the test [curr_obj < accept] fails. *)
Lemma line_search_iter (I : instance) (product : Q) (curr : buf) (dd : list Q)
  (dd_idx : list nat) (dd_size : nat) (fuel : nat) : forall l l',
  line_search I fuel product curr dd dd_idx dd_size l = Some l' ->
  exists k, (k <= fuel)%nat /\
    l' = Nat.iter k (ls_halve I product curr dd dd_idx dd_size) l /\
    xlt (l_curr_obj l') (l_accept l') = false /\
    forall j, (j < k)%nat ->
      xlt (l_curr_obj (Nat.iter j (ls_halve I product curr dd dd_idx dd_size) l))
          (l_accept (Nat.iter j (ls_halve I product curr dd dd_idx dd_size) l)) = true.
Proof.
  induction fuel as [|fuel IH]; intros l l' E; cbn [line_search] in E;
    destruct (xlt (l_curr_obj l) (l_accept l)) eqn:Ex; try discriminate.
  - injection E as <-. exists O.
    split; [lia|]. split; [reflexivity|]. split; [exact Ex|]. intros j Hj. lia.
  - destruct (IH _ _ E) as (k & Hk & El & Hstop & Hgo).
    exists (S k). split; [lia|]. split.
    + rewrite El. symmetry. apply Nat.iter_succ_r.
    + split; [exact Hstop|]. intros [|j] Hj; [exact Ex|].
      specialize (Hgo j ltac:(lia)).
      rewrite Nat.iter_succ_r. exact Hgo.
  - injection E as <-. exists O.
    split; [lia|]. split; [reflexivity|]. split; [exact Ex|]. intros j Hj. lia.
Qed.

Lemma ls_halve_tau (I : instance) (product : Q) (curr : buf) (dd : list Q)
  (dd_idx : list nat) (dd_size : nat) (l : ls_state) :
  l_tau (ls_halve I product curr dd dd_idx dd_size l) = l_tau l * (1 # 2) /\
  l_accept (ls_halve I product curr dd dd_idx dd_size l)
  = xsub_fin (l_accept l) (gamma * (l_tau l * (1 # 2)) * product).
Proof.
  unfold ls_halve.
  destruct (for_range O dd_size (ls_row I (l_tau l * (1 # 2)) curr dd dd_idx)
              (l_mem l, l_rc l, l_sub_obj l)) as [[m rc] sub].
  split; reflexivity.
Qed.

Lemma halves_pos (k : nat) : 0 < halves k.
Proof. induction k as [|k IH]; cbn [halves]; lra. Qed.

Lemma halves_le_1 (k : nat) : halves k <= 1.
Proof. induction k as [|k IH]; cbn [halves]; [lra|]. pose proof (halves_pos k). lra. Qed.

Section Threshold.

Variable I : instance.
Variable libm_pow : Q -> Q -> Q.
Variable s : sps_state.
Variable itr : nat.


End Threshold.

Section SpsAlpha.

Variable I : instance.
Variable libm_sqrt : Q -> Q.
Variable libm_pow : Q -> Q -> Q.

Lemma line_search_tau_pos (product : Q) (curr : buf) (dd : list Q) (dd_idx : list nat)
  (dd_size : nat) (fuel : nat) : forall l l',
  0 < l_tau l ->
  line_search I fuel product curr dd dd_idx dd_size l = Some l' ->
  0 < l_tau l'.
Proof.
  induction fuel as [|fuel IH]; intros l l' H E; cbn [line_search] in E;
    destruct (xlt (l_curr_obj l) (l_accept l)); try discriminate;
    try (injection E as <-; exact H).
  apply (IH (ls_halve I product curr dd dd_idx dd_size l) l'); [|exact E].
  rewrite (proj1 (ls_halve_tau I product curr dd dd_idx dd_size l)). lra.
Qed.

Lemma sps_accept_alpha (itr : nat) (s : sps_state) (t : step_state) (l : ls_state) :
  s_alpha (fst (sps_accept I itr s t l)) = s_alpha s.
Proof.
  unfold sps_accept.
  destruct (compute_subg_vector_sps I (curr_subg_of itr s) (l_rc l)) as [sg r].
  destruct (Qltb (s_best_obj s) (l_curr_obj l));
    destruct (itr mod 2 =? 0)%nat; reflexivity.
Qed.

Lemma sps_body_alpha (fuel itr : nat) (s s' : sps_state) (b : bool) :
  0 < s_alpha s ->
  sps_body I libm_pow fuel itr s = Returned (s', b) ->
  0 < s_alpha s'.
Proof.
  intros Ha. unfold sps_body.
  destruct (ls_entry I libm_pow itr s (sps_step I itr s)) as [product l0] eqn:El.
  assert (Ht0 : 0 < l_tau l0).
  { unfold ls_entry in El. injection El as _ <-. cbn. lra. }
  destruct (line_search I fuel product (s_curr_dual s) (t_dd (sps_step I itr s))
              (t_dd_idx (sps_step I itr s)) (t_dd_size (sps_step I itr s)) l0)
    as [l|] eqn:Els; [|discriminate].
  pose proof (line_search_tau_pos _ _ _ _ _ _ _ _ Ht0 Els) as Ht.
  pose proof (sps_accept_alpha itr s (sps_step I itr s) l) as Eacc.
  destruct (sps_accept I itr s (sps_step I itr s) l) as [s1 is_opt].
  cbn [fst] in Eacc. destruct is_opt.
  - intros E. injection E as <- <-. now rewrite Eacc.
  - unfold sps_tail.
    destruct (update_worst itr (s_curr_obj s1) (s_past_objs s1) (s_worst_obj s1)
                (s_worst_obj_idx s1)) as [[[past w] idx]|]; [|discriminate].
    intros E. injection E as <- <-. cbn [s_alpha].
    now apply update_alpha_pos.
Qed.

Lemma sps_loop_alpha (fuel n : nat) : forall (itr : nat) (s s' : sps_state) (b : bool),
  0 < s_alpha s ->
  sps_loop I libm_pow fuel n itr s = Returned (s', b) ->
  0 < s_alpha s'.
Proof.
  induction n as [|n IH]; intros itr s s' b Ha E; cbn [sps_loop] in E.
  - injection E as <- <-. exact Ha.
  - destruct (sps_body I libm_pow fuel itr s) as [[s1 [|]]| |] eqn:Eb; try discriminate.
    + injection E as <- <-. apply (sps_body_alpha fuel itr s s1 true Ha Eb).
    + apply (IH (S itr) s1 s' b); [|exact E].
      apply (sps_body_alpha fuel itr s s1 false Ha Eb).
Qed.

Lemma sps_init_alpha (junk : list Q) : s_alpha (fst (sps_init I libm_sqrt junk)) = 1 # 10.
Proof.
  unfold sps_init.
  destruct (init_dual_vector I (repeat 0 (num_row I)) (repeat 0 (num_col I)))
    as [[d rc] obj].
  destruct (compute_subg_vector_sps I (repeat 0%Z (num_row I)) rc) as [sg r].
  reflexivity.
Qed.

End SpsAlpha.

(* ------------------------------------------------------------------ *)
(** ** Weak duality *)

Lemma Qsum_le {A : Type} (f g : A -> Q) (l : list A) :
  (forall x, In x l -> f x <= g x) -> Qsum (map f l) <= Qsum (map g l).
Proof.
  induction l as [|h t IH]; intros H; simpl; [lra|].
  assert (Qsum (map f t) <= Qsum (map g t)) by (apply IH; intros; apply H; now right).
  assert (f h <= g h) by (apply H; now left).
  unfold Qsum in *. lra.
Qed.

Lemma Qsum_plus {A : Type} (f g : A -> Q) (l : list A) :
  Qsum (map (fun x => f x + g x) l) == Qsum (map f l) + Qsum (map g l).
Proof.
  induction l as [|h t IH]; simpl; [lra|]. unfold Qsum in *. rewrite IH. lra.
Qed.

Lemma Qsum_zero {A : Type} (l : list A) : Qsum (map (fun _ => 0) l) == 0.
Proof. induction l as [|h t IH]; simpl; [lra|]. unfold Qsum in *. rewrite IH. lra. Qed.

Lemma Qsum_scal {A : Type} (f : A -> Q) (a : Q) (l : list A) :
  Qsum (map (fun x => a * f x) l) == a * Qsum (map f l).
Proof.
  induction l as [|h t IH]; simpl; [lra|]. unfold Qsum in *. rewrite IH. lra.
Qed.

Lemma Qsum_swap {A B : Type} (f : A -> B -> Q) (la : list A) (lb : list B) :
  Qsum (map (fun a => Qsum (map (fun b => f a b) lb)) la)
  == Qsum (map (fun b => Qsum (map (fun a => f a b) la)) lb).
Proof.
  induction la as [|h t IH].
  - simpl. rewrite Qsum_zero. reflexivity.
  - cbn [map Qsum fold_right]. fold (Qsum (map (fun a => Qsum (map (fun b => f a b) lb)) t)).
    rewrite IH, <- Qsum_plus. apply Qsum_ext. intros b _. reflexivity.
Qed.

(** A sum over a list of rows, row by row. *)
Lemma Qsum_by_count (u : nat -> Q) (n : nat) (l : list nat) :
  (forall r, In r l -> (r < n)%nat) ->
  Qsum (map u l)
  == Qsum (map (fun r => inject_Z (Z.of_nat (count_occ Nat.eq_dec l r)) * u r) (seq O n)).
Proof.
  induction l as [|h t IH]; intros H.
  - cbn [map Qsum fold_right count_occ].
    rewrite (Qsum_ext _ (fun _ => 0)); [now rewrite Qsum_zero|].
    intros r _. change (inject_Z (Z.of_nat 0)) with 0. ring.
  - cbn [map Qsum fold_right]. fold (Qsum (map u t)).
    rewrite IH by (intros; apply H; now right).
    rewrite (Qsum_point (fun r => inject_Z (Z.of_nat (count_occ Nat.eq_dec t r)) * u r)
               (fun r => inject_Z (Z.of_nat (count_occ Nat.eq_dec (h :: t) r)) * u r)
               h (u h) (seq O n)).
    + rewrite count_occ_seq by (apply H; now left).
      change (inject_Z (Z.of_nat 1)) with 1. lra.
    + intros r Hr. cbn [count_occ]. destruct (Nat.eq_dec h r); [congruence|reflexivity].
    + cbn [count_occ]. destruct (Nat.eq_dec h h); [|congruence].
      rewrite inject_nat_S. ring.
Qed.

Lemma inject_list_sum (l : list nat) :
  inject_Z (Z.of_nat (list_sum l)) == Qsum (map (fun x => inject_Z (Z.of_nat x)) l).
Proof.
  induction l as [|h t IH]; [reflexivity|].
  cbn [list_sum map Qsum fold_right]. rewrite Nat2Z.inj_add, inject_Z_plus.
  unfold Qsum in IH. rewrite IH. reflexivity.
Qed.

Lemma inject_fold_add (l : list Z) :
  inject_Z (fold_right Z.add 0%Z l) == Qsum (map inject_Z l).
Proof.
  induction l as [|h t IH]; [reflexivity|].
  cbn [map Qsum fold_right]. rewrite inject_Z_plus. unfold Qsum in IH. rewrite IH.
  reflexivity.
Qed.

Lemma Qsum_minus {A : Type} (f g h : A -> Q) (l : list A) :
  (forall x, In x l -> f x == g x - h x) ->
  Qsum (map f l) == Qsum (map g l) - Qsum (map h l).
Proof.
  induction l as [|a t IH]; intros Hx; simpl; [lra|].
  unfold Qsum in *. rewrite IH by (intros; apply Hx; now right).
  rewrite (Hx a) by now left. lra.
Qed.

(** The reduced costs of the selected columns add up to the cost of the
    selection minus the duals of the rows, each as often as it is covered. *)
Lemma selected_reduced_costs (I : instance) (v : list Q) (sel : nat -> bool) :
  wf_instance I = true ->
  Qsum (map (fun c => if sel c then reduced_cost_spec I v c else 0) (seq O (num_col I)))
  == inject_Z (cover_cost I sel)
     - Qsum (map (fun r => inject_Z (Z.of_nat (covering_count I sel r)) * nth r v 0)
               (seq O (num_row I))).
Proof.
  intros Hwf. destruct (wf_instance_spec I Hwf) as [H1 _].
  unfold cover_cost. rewrite inject_fold_add, map_map.
  rewrite (Qsum_minus _ (fun c => inject_Z (if sel c then cost_of I c else 0%Z))
             (fun c =>
                Qsum (map (fun r =>
                             inject_Z (Z.of_nat
                                         (if sel c
                                          then count_occ Nat.eq_dec (rows_of_col I c) r
                                          else O))
                             * nth r v 0)
                        (seq O (num_row I))))).
  - rewrite Qsum_swap.
    rewrite (Qsum_ext
               (fun r =>
                  Qsum (map (fun c =>
                               inject_Z (Z.of_nat
                                           (if sel c
                                            then count_occ Nat.eq_dec (rows_of_col I c) r
                                            else O))
                               * nth r v 0)
                          (seq O (num_col I))))
               (fun r => inject_Z (Z.of_nat (covering_count I sel r)) * nth r v 0));
      [reflexivity|].
    intros r _.
    rewrite (Qsum_ext _ (fun c => nth r v 0
                                  * inject_Z (Z.of_nat
                                                (if sel c
                                                 then count_occ Nat.eq_dec
                                                        (rows_of_col I c) r
                                                 else O))))
      by (intros; ring).
    rewrite Qsum_scal.
    rewrite <- (map_map (fun c => if sel c then count_occ Nat.eq_dec (rows_of_col I c) r
                                  else O)
                  (fun x => inject_Z (Z.of_nat x))).
    rewrite <- inject_list_sum. fold (covering_count I sel r). ring.
  - intros c Hc. apply in_seq in Hc. destruct (sel c).
    + unfold reduced_cost_spec.
      rewrite (Qsum_by_count (fun r => nth r v 0) (num_row I) (rows_of_col I c))
        by (apply (H1 c); lia).
      reflexivity.
    + rewrite (Qsum_ext _ (fun _ => 0)); [rewrite Qsum_zero; reflexivity|].
      intros r _. change (inject_Z (Z.of_nat 0)) with 0. ring.
Qed.

(** The dual function is at most the reduced costs of any selection of
    columns added to the duals. *)
Lemma dual_function_le_selected (I : instance) (v : list Q) (sel : nat -> bool) :
  dual_function I v
  <= Qsum (map (fun r => nth r v 0) (seq O (num_row I)))
     + Qsum (map (fun c => if sel c then reduced_cost_spec I v c else 0)
               (seq O (num_col I))).
Proof.
  unfold dual_function.
  assert (HB : Qsum (map (fun c => Qmin 0 (reduced_cost_spec I v c)) (seq O (num_col I)))
               <= Qsum (map (fun c => if sel c then reduced_cost_spec I v c else 0)
                          (seq O (num_col I)))).
  { apply Qsum_le. intros c _. destruct (sel c); [apply Q.le_min_r|apply Q.le_min_l]. }
  lra.
Qed.

(** Weak duality: the dual function at a non-negative dual vector is at most
    the cost of any cover. *)
Lemma weak_duality (I : instance) (u : list Q) (sel : nat -> bool) :
  wf_instance I = true -> dual_nonneg (num_row I) u -> is_cover I sel ->
  dual_function I u <= inject_Z (cover_cost I sel).
Proof.
  intros Hwf Hnn Hcov.
  pose proof (dual_function_le_selected I u sel) as H1.
  rewrite (selected_reduced_costs I u sel Hwf) in H1.
  assert (HD : Qsum (map (fun r => nth r u 0) (seq O (num_row I)))
               <= Qsum (map (fun r => inject_Z (Z.of_nat (covering_count I sel r))
                                      * nth r u 0)
                          (seq O (num_row I)))).
  { apply Qsum_le. intros r Hr. apply in_seq in Hr.
    pose proof (Hcov r ltac:(lia)) as Hge. pose proof (Hnn r ltac:(lia)) as Hu.
    assert (1 <= inject_Z (Z.of_nat (covering_count I sel r))).
    { change 1 with (inject_Z 1). rewrite <- Zle_Qle. lia. }
    nra. }
  lra.
Qed.

(* ------------------------------------------------------------------ *)
(** ** spectral_projected_subgradient: the values and the buffers *)

Lemma Qmin_0_ext (a b : Q) : a == b -> Qmin 0 a == Qmin 0 b.
Proof.
  intros E. destruct (Q.min_spec 0 a) as [[H1 ->]|[H1 ->]];
    destruct (Q.min_spec 0 b) as [[H2 ->]|[H2 ->]]; lra.
Qed.

Lemma lagrangian_dual_function (I : instance) (u rc : list Q) :
  rc_consistent I u rc -> lagrangian I u rc == dual_function I u.
Proof.
  intros H. unfold lagrangian, dual_function.
  rewrite (Qsum_ext (fun c => Qmin 0 (nth c rc 0))
             (fun c => Qmin 0 (reduced_cost_spec I u c))); [reflexivity|].
  intros c Hc. apply in_seq in Hc. apply Qmin_0_ext. apply H. lia.
Qed.

Lemma ls_row_frame (I : instance) (tau : Q) (curr : buf) (dd : list Q) (dd_idx : list nat)
  (k : nat) (st : duals * list Q * Q) (b : buf) :
  b <> curr -> rd (fst (fst (ls_row I tau curr dd dd_idx k st))) b = rd (fst (fst st)) b.
Proof.
  intros Hb. destruct st as [[m rc] sub]. unfold ls_row.
  destruct (beyond_tol _); cbn [fst snd]; [|reflexivity].
  apply rd_wr_other. congruence.
Qed.

Lemma ls_halve_frame (I : instance) (product : Q) (curr : buf) (dd : list Q)
  (dd_idx : list nat) (dd_size : nat) (l : ls_state) (b : buf) :
  b <> curr -> rd (l_mem (ls_halve I product curr dd dd_idx dd_size l)) b = rd (l_mem l) b.
Proof.
  intros Hb. unfold ls_halve.
  assert (H : rd (fst (fst (for_range O dd_size
                              (ls_row I (l_tau l * (1 # 2)) curr dd dd_idx)
                              (l_mem l, l_rc l, l_sub_obj l)))) b
              = rd (l_mem l) b).
  { unfold for_range.
    apply (for_loop_keeps (fun st => rd (fst (fst st)) b = rd (l_mem l) b));
      [|reflexivity].
    intros k t Ht. now rewrite ls_row_frame. }
  destruct (for_range O dd_size (ls_row I (l_tau l * (1 # 2)) curr dd dd_idx)
              (l_mem l, l_rc l, l_sub_obj l)) as [[m rc] sub].
  exact H.
Qed.

Lemma line_search_frame (I : instance) (product : Q) (curr : buf) (dd : list Q)
  (dd_idx : list nat) (dd_size : nat) (b : buf) (fuel : nat) : forall l l',
  b <> curr ->
  line_search I fuel product curr dd dd_idx dd_size l = Some l' ->
  rd (l_mem l') b = rd (l_mem l) b.
Proof.
  induction fuel as [|fuel IH]; intros l l' Hb E; cbn [line_search] in E;
    destruct (xlt (l_curr_obj l) (l_accept l)); try discriminate;
    try (injection E as <-; reflexivity).
  rewrite (IH _ _ Hb E). now apply ls_halve_frame.
Qed.

Section SpsValues.

Variable I : instance.
Variable libm_sqrt : Q -> Q.
Variable libm_pow : Q -> Q -> Q.

Lemma sps_accept_fields (itr : nat) (s : sps_state) (t : step_state) (l : ls_state) :
  s_mem (fst (sps_accept I itr s t l)) = l_mem l /\
  s_reduced_costs (fst (sps_accept I itr s t l)) = l_rc l /\
  s_curr_obj (fst (sps_accept I itr s t l)) = l_curr_obj l /\
  s_old_dual (fst (sps_accept I itr s t l)) = s_curr_dual s /\
  s_dd (fst (sps_accept I itr s t l)) = t_dd t /\
  s_dd_idx (fst (sps_accept I itr s t l)) = t_dd_idx t /\
  s_momentum (fst (sps_accept I itr s t l)) = t_momentum t /\
  (if Qltb (s_best_obj s) (l_curr_obj l)
   then s_best_obj (fst (sps_accept I itr s t l)) = l_curr_obj l /\
        s_curr_dual (fst (sps_accept I itr s t l)) = s_best_dual s /\
        s_best_dual (fst (sps_accept I itr s t l)) = s_curr_dual s
   else s_best_obj (fst (sps_accept I itr s t l)) = s_best_obj s /\
        s_curr_dual (fst (sps_accept I itr s t l)) = s_curr_dual s /\
        s_best_dual (fst (sps_accept I itr s t l)) = s_best_dual s).
Proof.
  unfold sps_accept.
  destruct (compute_subg_vector_sps I (curr_subg_of itr s) (l_rc l)) as [sg r].
  destruct (Qltb (s_best_obj s) (l_curr_obj l));
    destruct (itr mod 2 =? 0)%nat; cbn; repeat split.
Qed.

(** The shape of an iteration that returns: the line search has returned a
    state [l], and the new driver state holds its buffers, reduced costs and
    objective, with the pointers as the update of the best solution leaves
    them. *)
Lemma sps_body_shape (fuel itr : nat) (s s' : sps_state) (b : bool) :
  sps_body I libm_pow fuel itr s = Returned (s', b) ->
  exists l,
    line_search I fuel (fst (ls_entry I libm_pow itr s (sps_step I itr s)))
      (s_curr_dual s) (t_dd (sps_step I itr s)) (t_dd_idx (sps_step I itr s))
      (t_dd_size (sps_step I itr s)) (snd (ls_entry I libm_pow itr s (sps_step I itr s)))
    = Some l /\
    s_mem s' = l_mem l /\
    s_reduced_costs s' = l_rc l /\
    s_curr_obj s' = l_curr_obj l /\
    s_old_dual s' = s_curr_dual s /\
    s_dd s' = t_dd (sps_step I itr s) /\
    s_dd_idx s' = t_dd_idx (sps_step I itr s) /\
    s_momentum s' = t_momentum (sps_step I itr s) /\
    (if Qltb (s_best_obj s) (l_curr_obj l)
     then s_best_obj s' = l_curr_obj l /\
          s_curr_dual s' = s_best_dual s /\ s_best_dual s' = s_curr_dual s
     else s_best_obj s' = s_best_obj s /\
          s_curr_dual s' = s_curr_dual s /\ s_best_dual s' = s_best_dual s).
Proof.
  unfold sps_body.
  destruct (ls_entry I libm_pow itr s (sps_step I itr s)) as [product l0].
  cbn [fst snd].
  destruct (line_search I fuel product (s_curr_dual s) (t_dd (sps_step I itr s))
              (t_dd_idx (sps_step I itr s)) (t_dd_size (sps_step I itr s)) l0)
    as [l|]; [|discriminate].
  pose proof (sps_accept_fields itr s (sps_step I itr s) l) as F.
  destruct (sps_accept I itr s (sps_step I itr s) l) as [s1 is_opt].
  cbn [fst] in F. destruct is_opt.
  - intros E. injection E as <- <-. exists l. split; [reflexivity|exact F].
  - destruct (sps_tail itr (l_tau l) (t_dd_size (sps_step I itr s)) s1) as [s2| |] eqn:Et;
      try discriminate.
    intros E. injection E as <- <-.
    destruct (sps_tail_same _ _ _ _ _ Et)
      as (E1 & E2 & E3 & E4 & E5 & E6 & E7 & E8 & E9 & E10 & _).
    exists l. split; [reflexivity|].
    rewrite E1, E2, E3, E4, E5, E6, E7, E8, E9, E10. exact F.
Qed.

Hypothesis Hwf : wf_instance I = true.

Lemma sps_body_value (fuel itr : nat) (s s' : sps_state) (b : bool) :
  sps_value_inv I s ->
  sps_body I libm_pow fuel itr s = Returned (s', b) ->
  sps_value_inv I s'.
Proof.
  intros (Hsz & Hnn & Hrc & Hobj & u & Hu & Hbest) Eb.
  destruct (sps_body_nonneg I libm_pow fuel itr s s' b (conj Hsz Hnn) Eb) as [Hsz' Hnn'].
  destruct (sps_body_consistent I libm_sqrt libm_pow Hwf fuel itr s s' b (conj Hsz Hrc) Eb)
    as [[_ Hrc'] Hobj'].
  assert (Hval : s_curr_obj s' == dual_function I (rd (s_mem s') (s_old_dual s'))).
  { rewrite Hobj'. now apply lagrangian_dual_function. }
  split; [exact Hsz'|]. split; [exact Hnn'|]. split; [exact Hrc'|]. split; [exact Hval|].
  destruct (sps_body_shape fuel itr s s' b Eb) as (l & _ & _ & _ & Ec & _ & _ & _ & _ & F).
  destruct (Qltb (s_best_obj s) (l_curr_obj l)).
  - destruct F as (F1 & _). exists (rd (s_mem s') (s_old_dual s')).
    split; [exact Hnn'|]. rewrite F1, <- Ec. exact Hval.
  - destruct F as (F1 & _). exists u. split; [exact Hu|]. rewrite F1. exact Hbest.
Qed.

Lemma sps_loop_value (fuel n : nat) : forall (itr : nat) (s s' : sps_state) (b : bool),
  sps_value_inv I s ->
  sps_loop I libm_pow fuel n itr s = Returned (s', b) ->
  sps_value_inv I s'.
Proof.
  induction n as [|n IH]; intros itr s s' b Hinv E; cbn [sps_loop] in E.
  - injection E as <- <-. exact Hinv.
  - destruct (sps_body I libm_pow fuel itr s) as [[s1 [|]]| |] eqn:Eb; try discriminate.
    + injection E as <- <-. apply (sps_body_value fuel itr s s1 true Hinv Eb).
    + apply (IH (S itr) s1 s' b); [|exact E].
      apply (sps_body_value fuel itr s s1 false Hinv Eb).
Qed.

End SpsValues.

Section SpsBest.

Variable I : instance.
Variable libm_sqrt : Q -> Q.
Variable libm_pow : Q -> Q -> Q.

Hypothesis Hv : valid_instance I = true.

Lemma init_obj_dual_function (dual : list Q) :
  length dual = num_row I ->
  snd (init_duals I dual) == dual_function I (fst (init_duals I dual)).
Proof.
  intros Hlen. unfold dual_function.
  rewrite (Qsum_ext (fun c => Qmin 0 (reduced_cost_spec I (fst (init_duals I dual)) c))
             (fun _ => 0)).
  - rewrite Qsum_zero, init_duals_snd.
    rewrite (Qsum_ext (init_row_min I) (fun r => nth r (fst (init_duals I dual)) 0));
      [lra|].
    intros r Hr. apply in_seq in Hr. rewrite init_duals_fst by lia. reflexivity.
  - intros c Hc. apply in_seq in Hc. apply Q.min_l.
    apply init_reduced_costs_nonneg; [assumption|assumption|lia].
Qed.

Lemma sps_init_value (junk : list Q) :
  length junk = num_row I -> sps_value_inv I (fst (sps_init I libm_sqrt junk)).
Proof.
  intros Hj.
  destruct (sps_init_nonneg I libm_sqrt junk Hv Hj) as [Hsz Hnn].
  destruct (sps_init_consistent I libm_sqrt junk Hj) as [_ Hrc].
  assert (Hobj : s_curr_obj (fst (sps_init I libm_sqrt junk))
                 == dual_function I
                      (rd (s_mem (fst (sps_init I libm_sqrt junk)))
                          (s_old_dual (fst (sps_init I libm_sqrt junk)))) /\
                 s_best_obj (fst (sps_init I libm_sqrt junk))
                 = s_curr_obj (fst (sps_init I libm_sqrt junk))).
  { unfold sps_init, init_dual_vector.
    pose proof (init_obj_dual_function (repeat 0 (num_row I)) (repeat_length _ _)) as E.
    destruct (init_duals I (repeat 0 (num_row I))) as [d obj]. cbn [fst snd] in E.
    destruct (compute_subg_vector_sps I (repeat 0%Z (num_row I))
                (compute_reduced_costs I d (repeat 0 (num_col I)))) as [sg r].
    cbn. split; [exact E|reflexivity]. }
  destruct Hobj as [Hobj Ebest].
  split; [exact Hsz|]. split; [exact Hnn|]. split; [exact Hrc|]. split; [exact Hobj|].
  exists (rd (s_mem (fst (sps_init I libm_sqrt junk)))
            (s_old_dual (fst (sps_init I libm_sqrt junk)))).
  split; [exact Hnn|]. rewrite Ebest. exact Hobj.
Qed.

Lemma sps_init_best (junk : list Q) :
  sps_best_inv I junk (s_curr_obj (fst (sps_init I libm_sqrt junk)))
    (fst (sps_init I libm_sqrt junk)).
Proof.
  unfold sps_init.
  destruct (init_dual_vector I (repeat 0 (num_row I)) (repeat 0 (num_col I)))
    as [[d rc] obj].
  destruct (compute_subg_vector_sps I (repeat 0%Z (num_row I)) rc) as [sg r].
  unfold sps_best_inv. cbn.
  split; [discriminate|]. split; [left; repeat split|left; reflexivity].
Qed.

Lemma sps_body_best (junk : list Q) (obj0 : Q) (fuel itr : nat) (s s' : sps_state)
  (b : bool) :
  sps_value_inv I s -> sps_best_inv I junk obj0 s ->
  sps_body I libm_pow fuel itr s = Returned (s', b) ->
  sps_best_inv I junk obj0 s'.
Proof.
  intros Hval (Hne & Hbest & _) Eb.
  destruct (valid_instance_spec I Hv) as (Hwf & _).
  pose proof (sps_body_value I libm_sqrt libm_pow Hwf fuel itr s s' b Hval Eb)
    as (_ & Hnn' & _ & Hobj' & _).
  destruct Hval as (Hsz & _).
  destruct (sps_body_shape I libm_pow fuel itr s s' b Eb)
    as (l & Els & Em & _ & Ec & Eo & _ & _ & _ & F).
  assert (Hframe : forall b', b' <> s_curr_dual s -> rd (s_mem s') b' = rd (s_mem s) b').
  { intros b' Hb'. rewrite Em.
    rewrite (line_search_frame I _ _ _ _ _ b' fuel _ l Hb' Els).
    unfold ls_entry. cbn [snd l_mem].
    apply (proj2 (sps_step_product I s itr Hsz)). exact Hb'. }
  assert (Hle : obj0 <= s_best_obj s).
  { destruct Hbest as [(_ & _ & ->)|(_ & _ & H)]; lra. }
  unfold sps_best_inv.
  destruct (Qltb (s_best_obj s) (l_curr_obj l)) eqn:Eimp.
  - apply Qltb_lt in Eimp. destruct F as (F1 & F2 & F3).
    rewrite F1, F2, F3, Eo, Ec.
    split; [congruence|]. split.
    + right. rewrite <- Eo at 1 2. rewrite <- Ec at 1.
      split; [exact Hnn'|]. split; [exact Hobj'|]. lra.
    + right. split; [reflexivity|]. split; [reflexivity|].
      rewrite (Hframe (s_best_dual s)) by congruence.
      destruct Hbest as [(B1 & B2 & B3)|(B1 & B2 & B3)].
      * left. rewrite B1. exact B2.
      * right. split; [exact B1|]. rewrite <- B2. exact Eimp.
  - destruct F as (F1 & F2 & F3). rewrite F1, F2, F3, Eo.
    split; [exact Hne|]. split; [|left; reflexivity].
    destruct Hbest as [(B1 & B2 & B3)|(B1 & B2 & B3)].
    + left. split; [exact B1|]. split; [|exact B3].
      rewrite <- B2. apply Hframe. congruence.
    + right. rewrite (Hframe (s_best_dual s)) by congruence.
      repeat split; assumption.
Qed.

Lemma sps_loop_best (junk : list Q) (obj0 : Q) (fuel n : nat) :
  forall (itr : nat) (s s' : sps_state) (b : bool),
  sps_value_inv I s -> sps_best_inv I junk obj0 s ->
  sps_loop I libm_pow fuel n itr s = Returned (s', b) ->
  sps_value_inv I s' /\ sps_best_inv I junk obj0 s'.
Proof.
  destruct (valid_instance_spec I Hv) as (Hwf & _).
  induction n as [|n IH]; intros itr s s' b Hval Hinv E; cbn [sps_loop] in E.
  - injection E as <- <-. split; assumption.
  - destruct (sps_body I libm_pow fuel itr s) as [[s1 [|]]| |] eqn:Eb; try discriminate.
    + injection E as <- <-. split.
      * apply (sps_body_value I libm_sqrt libm_pow Hwf fuel itr s s1 true Hval Eb).
      * apply (sps_body_best junk obj0 fuel itr s s1 true Hval Hinv Eb).
    + apply (IH (S itr) s1 s' b); [| |exact E].
      * apply (sps_body_value I libm_sqrt libm_pow Hwf fuel itr s s1 false Hval Eb).
      * apply (sps_body_best junk obj0 fuel itr s s1 false Hval Hinv Eb).
Qed.

End SpsBest.

(* ------------------------------------------------------------------ *)
(** ** spectral_projected_subgradient: what a run returns *)

(** X1: the vector stored by the SPS driver certifies a lower bound.  For a
    valid instance, whatever the run (by optimality or by exhaustion of the
    iterations), the vector copied to [best_dual_copy] is either [dual2] as
    it was allocated (never written), or a non-negative vector; in the second
    case its dual function is at most the sum of the costs of any selection
    of columns that covers every row. *)
Theorem sps_result_is_lower_bound (I : instance) (libm_sqrt : Q -> Q)
  (libm_pow : Q -> Q -> Q) (fuel max_itr : nat) (junk : list Q) (res : result)
  (sel : nat -> bool) :
  valid_instance I = true -> length junk = num_row I ->
  spectral_projected_subgradient I libm_sqrt libm_pow fuel max_itr junk = Returned res ->
  is_cover I sel ->
  best_dual_copy res = junk \/
  (dual_nonneg (num_row I) (best_dual_copy res) /\
   dual_function I (best_dual_copy res) <= inject_Z (cover_cost I sel)).
Proof.
  intros Hv Hj Erun Hcov. destruct (valid_instance_spec I Hv) as (Hwf & _).
  pose proof (sps_init_value I libm_sqrt Hv junk Hj) as H0.
  pose proof (sps_init_best I libm_sqrt junk) as B0.
  assert (Hfin : forall s b,
            sps_value_inv I s ->
            sps_best_inv I junk (s_curr_obj (fst (sps_init I libm_sqrt junk))) s ->
            best_dual_copy (sps_cleanup s b) = junk \/
            dual_nonneg (num_row I) (best_dual_copy (sps_cleanup s b))).
  { intros s b (_ & Hnn & _) (_ & Hbest & Hptr). unfold sps_cleanup.
    destruct b; cbn [best_dual_copy].
    - destruct Hptr as [E|(_ & _ & [E|[Hc _]])].
      + right. now rewrite <- E.
      + now left.
      + now right.
    - destruct Hbest as [(E1 & E2 & _)|(Hb & _)].
      + left. now rewrite E1.
      + now right. }
  assert (Hres : best_dual_copy res = junk \/ dual_nonneg (num_row I) (best_dual_copy res)).
  { unfold spectral_projected_subgradient in Erun.
    destruct (sps_init I libm_sqrt junk) as [s0 is_opt]. cbn [fst] in H0, B0, Hfin.
    destruct is_opt.
    - injection Erun as <-. now apply Hfin.
    - destruct (sps_loop I libm_pow fuel max_itr O s0) as [[s b]| |] eqn:El;
        try discriminate.
      injection Erun as <-.
      destruct (sps_loop_best I libm_sqrt libm_pow Hv junk _ fuel max_itr O s0 s b H0 B0 El)
        as [Hval Hb].
      now apply Hfin. }
  destruct Hres as [E|Hnn]; [now left|right].
  split; [exact Hnn|]. now apply weak_duality.
Qed.

Lemma sps_result_is_lower_bound_witness :
  valid_instance inst_3x2 = true /\
  is_cover inst_3x2 (fun _ => true) /\
  dual_function inst_3x2
    (best_dual_copy
       (match spectral_projected_subgradient inst_3x2 sqrt_approx pow_approx 5 3
                (repeat 0 3) with
        | Returned r => r
        | _ => {| ret_obj := 0; best_dual_copy := [] |}
        end))
  <= inject_Z (cover_cost inst_3x2 (fun _ => true)).
Proof.
  assert (Hc : is_cover inst_3x2 (fun _ => true)).
  { intros r Hr. do 3 (destruct r as [|r]; [vm_compute; lia|]). simpl in Hr. lia. }
  split; [reflexivity|]. split; [exact Hc|].
  destruct (sps_result_is_lower_bound inst_3x2 sqrt_approx pow_approx 5 3 (repeat 0 3)
              (match spectral_projected_subgradient inst_3x2 sqrt_approx pow_approx 5 3
                       (repeat 0 3) with
               | Returned r => r
               | _ => {| ret_obj := 0; best_dual_copy := [] |}
               end)
              (fun _ => true) eq_refl eq_refl) as [E|[_ H]].
  - vm_compute. reflexivity.
  - exact Hc.
  - vm_compute in E. discriminate E.
  - exact H.
Defined.



Section SpsHistory.

Variable I : instance.
Variable libm_sqrt : Q -> Q.
Variable libm_pow : Q -> Q -> Q.
Variable fuel : nat.
Variable junk : list Q.

Hypothesis Hv : valid_instance I = true.
Hypothesis Hj : length junk = num_row I.





End SpsHistory.



(** X4: at the head of every iteration of the SPS driver, [best_obj] is the
    largest of the objective values accepted so far, the initial objective
    included; it is one of them. *)
Theorem sps_best_obj_is_max (I : instance) (libm_sqrt : Q -> Q)
  (libm_pow : Q -> Q -> Q) (fuel : nat) (junk : list Q) (itr : nat) (h : list Q)
  (s : sps_state) :
  sps_reach I libm_sqrt libm_pow fuel junk itr h s ->
  is_max_of (s_best_obj s) h.
Proof.
  induction 1 as [Hopt|itr h s s' Hr [IH1 IH2] Hb].
  - assert (E : s_best_obj (fst (sps_init I libm_sqrt junk))
                = s_curr_obj (fst (sps_init I libm_sqrt junk))).
    { unfold sps_init.
      destruct (init_dual_vector I (repeat 0 (num_row I)) (repeat 0 (num_col I)))
        as [[d rc] obj].
      destruct (compute_subg_vector_sps I (repeat 0%Z (num_row I)) rc) as [sg r].
      reflexivity. }
    rewrite E. split; [now left|]. intros x [<-|[]]. lra.
  - destruct (sps_body_shape I libm_pow fuel itr s s' false Hb)
      as (l & _ & _ & _ & Ec & _ & _ & _ & _ & F).
    destruct (Qltb (s_best_obj s) (l_curr_obj l)) eqn:E; destruct F as (F1 & _).
    + apply Qltb_lt in E. rewrite F1, Ec. split; [now left|].
      intros x [<-|Hx]; [lra|]. specialize (IH2 x Hx). lra.
    + apply Qltb_ge in E. rewrite F1. split; [now right|].
      intros x [<-|Hx]; [rewrite Ec; exact E|]. now apply IH2.
Qed.

Lemma sps_best_obj_is_max_witness :
  sps_reach inst_1x2 sqrt_approx pow_approx O [0] 1
    [s_curr_obj sps_1x2_next; s_curr_obj sps_1x2_start] sps_1x2_next /\
  is_max_of (s_best_obj sps_1x2_next) [s_curr_obj sps_1x2_next; s_curr_obj sps_1x2_start].
Proof.
  assert (R : sps_reach inst_1x2 sqrt_approx pow_approx O [0] 1
                [s_curr_obj sps_1x2_next; s_curr_obj sps_1x2_start] sps_1x2_next).
  { apply (reach_step inst_1x2 sqrt_approx pow_approx O [0] O
             [s_curr_obj sps_1x2_start] sps_1x2_start sps_1x2_next).
    - apply reach_init. reflexivity.
    - vm_compute. reflexivity. }
  split; [exact R|].
  apply (sps_best_obj_is_max inst_1x2 sqrt_approx pow_approx O [0] 1 _ _ R).
Defined.

(** X5: the step length [alpha] of the SPS driver is positive at the head of
    every iteration and at the exit of the loop, for every instance: it is
    0.1 or [tau * sum(dd^2) / alpha_deno] with [alpha_deno >= ZERO_TOL], so
    that [product /= alpha] never divides by zero. *)
Theorem sps_alpha_positive (I : instance) (libm_sqrt : Q -> Q)
  (libm_pow : Q -> Q -> Q) (junk : list Q) (fuel n : nat) (s : sps_state) (b : bool) :
  sps_loop I libm_pow fuel n O (fst (sps_init I libm_sqrt junk)) = Returned (s, b) ->
  0 < s_alpha s.
Proof.
  intros E.
  apply (sps_loop_alpha I libm_pow fuel n O (fst (sps_init I libm_sqrt junk)) s b);
    [|exact E].
  rewrite sps_init_alpha. reflexivity.
Qed.

Lemma sps_alpha_positive_witness : 0 < s_alpha sps_1x2_next.
Proof.
  apply (sps_alpha_positive inst_1x2 sqrt_approx pow_approx [0] O 1 sps_1x2_next false).
  vm_compute. reflexivity.
Defined.

(** X6: in every tentative step of the SPS driver on a valid instance,
    [product] (the sum over the changed rows of delta times momentum) is
    non-negative, and positive when a row changed; it stays non-negative
    after [product /= alpha]. *)
Theorem sps_product_nonneg (I : instance) (libm_sqrt : Q -> Q)
  (libm_pow : Q -> Q -> Q) (junk : list Q) (fuel n : nat) (s : sps_state) (b : bool)
  (itr : nat) :
  valid_instance I = true -> length junk = num_row I ->
  sps_loop I libm_pow fuel n O (fst (sps_init I libm_sqrt junk)) = Returned (s, b) ->
  0 <= t_product (sps_step I itr s) /\
  ((0 < t_dd_size (sps_step I itr s))%nat -> 0 < t_product (sps_step I itr s)) /\
  0 <= fst (ls_entry I libm_pow itr s (sps_step I itr s)).
Proof.
  intros Hv Hj E.
  destruct (sps_loop_nonneg I libm_pow fuel n O _ s b
              (sps_init_nonneg I libm_sqrt junk Hv Hj) E) as [Hsz Hnn].
  assert (Ha : 0 < s_alpha s).
  { apply (sps_loop_alpha I libm_pow fuel n O (fst (sps_init I libm_sqrt junk)) s b);
      [|exact E].
    rewrite sps_init_alpha. reflexivity. }
  destruct (sps_step_product I s itr Hsz) as [EP _].
  destruct (step_product_nonneg I s itr Hnn (num_row I) (Nat.le_refl _)) as [P1 P2].
  destruct (sps_step_inv I s itr Hsz) as (_ & _ & _ & _ & _ & _ & _ & _ & _ & _ & _ & TS & _).
  assert (H0 : 0 <= t_product (sps_step I itr s)) by (rewrite EP; exact P1).
  split; [exact H0|]. split.
  - intros Hpos. rewrite EP. apply P2. intros Hnil. rewrite TS, Hnil in Hpos.
    simpl in Hpos. lia.
  - unfold ls_entry. cbn [fst]. apply Qle_shift_div_l; [exact Ha|]. lra.
Qed.

Lemma sps_product_nonneg_witness :
  valid_instance inst_1x2 = true /\
  0 <= t_product (sps_step inst_1x2 1 sps_1x2_next).
Proof.
  split; [reflexivity|].
  apply (sps_product_nonneg inst_1x2 sqrt_approx pow_approx [0] O 1 sps_1x2_next false 1
           eq_refl eq_refl).
  vm_compute. reflexivity.
Defined.

(** X8: the bookkeeping of the tentative step.  From a state with buffers of
    the allocated sizes, the first [dd_size] cells of [dd_idx] list, each once
    and in increasing order, exactly the rows whose effective delta is beyond
    [ZERO_TOL]; [dd] holds the delta of each of them; [dd_size] is at most
    the number of rows, so that the write [dd_idx[dd_size] = i] is in range. *)
Theorem sps_step_records_changed_rows (I : instance) (s : sps_state) (itr : nat) :
  sps_sized I s ->
  (t_dd_size (sps_step I itr s) <= num_row I)%nat /\
  firstn (t_dd_size (sps_step I itr s)) (t_dd_idx (sps_step I itr s))
  = filter (fun r => beyond_tol (step_value s itr r)) (seq O (num_row I)) /\
  (forall r, (r < num_row I)%nat -> beyond_tol (step_value s itr r) = true ->
     nth r (t_dd (sps_step I itr s)) 0 = step_value s itr r /\
     nth r (rd (t_mem (sps_step I itr s)) (s_curr_dual s)) 0
     = nth r (rd (s_mem s) (s_old_dual s)) 0 + step_value s itr r) /\
  (forall r, (r < num_row I)%nat -> beyond_tol (step_value s itr r) = false ->
     nth r (rd (t_mem (sps_step I itr s)) (s_curr_dual s)) 0
     = nth r (rd (s_mem s) (s_old_dual s)) 0).
Proof.
  intros Hsz.
  destruct (sps_step_inv I s itr Hsz)
    as (_ & _ & _ & _ & _ & _ & _ & _ & HC & HD & _ & TS & TX).
  split; [rewrite TS; apply filter_seq_length|]. split; [exact TX|]. split.
  - intros r Hr Hb. split; [now apply HD|].
    rewrite (HC r Hr). unfold step_changed. now rewrite Hb.
  - intros r Hr Hb. rewrite (HC r Hr). unfold step_changed. now rewrite Hb.
Qed.

Lemma sps_step_records_changed_rows_witness :
  sps_sized inst_1x2 sps_1x2_next /\
  (t_dd_size (sps_step inst_1x2 1 sps_1x2_next) <= num_row inst_1x2)%nat.
Proof.
  assert (H : sps_sized inst_1x2 sps_1x2_next) by (repeat split).
  split; [exact H|].
  apply (sps_step_records_changed_rows inst_1x2 sps_1x2_next 1 H).
Defined.

(* ------------------------------------------------------------------ *)
(** ** basic_subgradient: the step-size control *)

Lemma basic_head_control (I : instance) (s : basic_state) :
  b_counter (basic_head I s) = b_counter s /\ b_lambda (basic_head I s) = b_lambda s.
Proof.
  unfold basic_head.
  destruct (compute_subg_vector_basic I (b_subg s) (b_reduced_costs s)
              (rd (b_mem s) (b_old_dual s))) as [sg nm].
  split; reflexivity.
Qed.

Lemma basic_tail_schedule (n : nat) (s : basic_state) (u : duals * list Q * Q) :
  lambda_schedule n s -> lambda_schedule (S n) (basic_tail s u).
Proof.
  intros (Hc & k & Hl & Hk). destruct u as [[m rc] obj]. unfold basic_tail.
  destruct (Qltb (b_best_obj s) obj).
  - change (10 <? 0)%nat with false. unfold lambda_schedule. cbn [b_counter b_lambda].
    split; [lia|]. exists k. split; [exact Hl|lia].
  - destruct (Nat.ltb_spec 10 (S (b_counter s))) as [H|H];
      unfold lambda_schedule; cbn [b_counter b_lambda].
    + split; [lia|]. exists (S k). split; [|lia].
      rewrite Hl. reflexivity.
    + split; [lia|]. exists k. split; [exact Hl|lia].
Qed.

Lemma basic_loop_schedule (I : instance) (upperbound : Z) (n : nat) :
  forall (m : nat) (s : basic_state),
  lambda_schedule m s -> lambda_schedule (m + n) (basic_loop I upperbound n s).
Proof.
  induction n as [|n IH]; intros m s H; cbn [basic_loop].
  - now rewrite Nat.add_0_r.
  - assert (Hh : lambda_schedule m (basic_head I s)).
    { destruct (basic_head_control I s) as [E1 E2]. unfold lambda_schedule.
      rewrite E1, E2. exact H. }
    destruct (b_norm (basic_head I s) <? 0)%Z.
    + destruct Hh as (Hc & k & Hl & Hk). split; [exact Hc|].
      exists k. split; [exact Hl|lia].
    + replace (m + S n)%nat with (S m + n)%nat by lia.
      apply IH. now apply basic_tail_schedule.
Qed.

(** The halvings of [lambda] in double precision. *)

Lemma round_half_even_Z (q : Q) (n : Z) : q == inject_Z n -> round_half_even q = n.
Proof.
  intros E. unfold round_half_even.
  assert (Ef : Qfloor q = n) by (rewrite E; apply Qfloor_Z).
  rewrite Ef.
  assert (Ec : Qcompare (q - inject_Z n) (1 # 2) = Lt).
  { rewrite <- Qlt_alt. rewrite E. lra. }
  now rewrite Ec.
Qed.

Lemma round_half_even_tie (q : Q) : q == 1 # 2 -> round_half_even q = 0%Z.
Proof.
  intros E. unfold round_half_even.
  assert (Ef : Qfloor q = 0%Z) by (rewrite E; reflexivity).
  rewrite Ef.
  assert (Ec : Qcompare (q - inject_Z 0) (1 # 2) = Eq).
  { rewrite <- Qeq_alt. rewrite E. reflexivity. }
  now rewrite Ec.
Qed.

Lemma DENORM_MIN_pow : DENORM_MIN * inject_Z (2 ^ 1074) == 1.
Proof. unfold Qeq. vm_compute. reflexivity. Qed.

Lemma DENORM_MIN_pos : 0 < DENORM_MIN.
Proof. reflexivity. Qed.

(** A half that lies on the grid of the subnormal numbers is exact. *)
Lemma times_half_grid (x : Q) (n : Z) :
  x * (1 # 2) == inject_Z n * DENORM_MIN -> times_half x == x * (1 # 2).
Proof.
  intros E. unfold times_half. cbv zeta.
  destruct (Qltb (Qabs (x * (1 # 2))) MIN_NORMAL); [|reflexivity].
  rewrite (round_half_even_Z (x * (1 # 2) / DENORM_MIN) n).
  - rewrite E. reflexivity.
  - rewrite E. field. pose proof DENORM_MIN_pos. lra.
Qed.

(** The half of the smallest positive double, and the half of zero, are
    zero. *)
Lemma times_half_underflow (x : Q) : x == DENORM_MIN -> times_half x == 0.
Proof.
  intros E. unfold times_half. cbv zeta.
  assert (Hlt : Qltb (Qabs (x * (1 # 2))) MIN_NORMAL = true).
  { apply Qltb_lt. rewrite E. reflexivity. }
  rewrite Hlt. rewrite (round_half_even_tie (x * (1 # 2) / DENORM_MIN)).
  - reflexivity.
  - rewrite E. reflexivity.
Qed.

Lemma times_half_zero (x : Q) : x == 0 -> times_half x == 0.
Proof.
  intros E. unfold times_half. cbv zeta.
  assert (Hlt : Qltb (Qabs (x * (1 # 2))) MIN_NORMAL = true).
  { apply Qltb_lt. rewrite E. reflexivity. }
  rewrite Hlt. rewrite (round_half_even_Z (x * (1 # 2) / DENORM_MIN) 0).
  - reflexivity.
  - rewrite E. reflexivity.
Qed.

Lemma halves_pow (k : nat) : halves k * inject_Z (2 ^ Z.of_nat k) == 1.
Proof.
  induction k as [|k IH]; [reflexivity|].
  rewrite Nat2Z.inj_succ, Z.pow_succ_r by lia. cbn [halves].
  rewrite inject_Z_mult.
  transitivity (halves k * inject_Z (2 ^ Z.of_nat k)); [|exact IH].
  change (inject_Z 2) with 2. ring.
Qed.

(** [2 / 2^k] on the grid of the subnormal numbers, down to the smallest
    positive double at [k = 1075]. *)
Lemma halves_grid (k : nat) :
  (Z.of_nat k <= 1074)%Z ->
  halves k == inject_Z (2 ^ (1074 - Z.of_nat k)) * DENORM_MIN.
Proof.
  intros Hk.
  assert (Ep : inject_Z (2 ^ 1074)
               == inject_Z (2 ^ (1074 - Z.of_nat k)) * inject_Z (2 ^ Z.of_nat k)).
  { rewrite <- inject_Z_mult, <- Z.pow_add_r by lia.
    replace (1074 - Z.of_nat k + Z.of_nat k)%Z with 1074%Z by lia. reflexivity. }
  pose proof (halves_pow k) as Hh. pose proof DENORM_MIN_pow as Hd.
  rewrite Ep in Hd.
  set (h := halves k) in *. set (a := inject_Z (2 ^ Z.of_nat k)) in *.
  set (b := inject_Z (2 ^ (1074 - Z.of_nat k))) in *.
  transitivity (h * (DENORM_MIN * (b * a))); [rewrite Hd; ring|].
  transitivity ((h * a) * (b * DENORM_MIN)); [ring|]. rewrite Hh. ring.
Qed.

Lemma lambda_halvings (k : nat) :
  ((Z.of_nat k <= 1075)%Z -> Nat.iter k times_half 2 == 2 * halves k) /\
  ((1076 <= Z.of_nat k)%Z -> Nat.iter k times_half 2 == 0).
Proof.
  induction k as [|k [IH1 IH2]].
  - split; [intros _; cbn; ring|intros H; cbn in H; lia].
  - cbn [Nat.iter]. split; intros Hk.
    + specialize (IH1 ltac:(lia)).
      assert (E : Nat.iter k times_half 2 * (1 # 2)
                  == inject_Z (2 ^ (1074 - Z.of_nat k)) * DENORM_MIN).
      { rewrite IH1, <- halves_grid by lia. ring. }
      rewrite (times_half_grid _ _ E), IH1. cbn [halves]. ring.
    + destruct (Z.eq_dec (Z.of_nat k) 1075) as [Ek|Ek].
      * specialize (IH1 ltac:(lia)). apply times_half_underflow.
        rewrite IH1.
        assert (Ek' : k = S (Z.to_nat 1074)) by lia.
        rewrite Ek'. cbn [halves]. rewrite halves_grid by lia.
        rewrite Z2Nat.id by lia. change (2 ^ (1074 - 1074))%Z with 1%Z.
        change (inject_Z 1) with 1. ring.
      * apply times_half_zero. apply IH2. lia.
Qed.

(** X9: the step-size control of the Basic driver.  After a run of at most
    [n] iterations, [counter] is at most the limit 10 and [lambda] is 2.0
    halved [k] times in double precision, for a [k] with
    [11 * k + counter <= n]: [lambda] is halved at most once in eleven
    iterations.  It is [2 / 2^k] up to [k = 1075], where it is the smallest
    positive double, and 0 from the next halving on; so it is positive in
    every run of fewer than 11836 iterations, and a longer run can leave it
    at 0, with all further steps of length 0. *)
Theorem basic_lambda_halved_every_eleven (I : instance) (upperbound : Z) (n : nat)
  (junk : list Q) :
  (b_counter (basic_run I upperbound n junk) <= 10)%nat /\
  (exists k,
     (11 * k + b_counter (basic_run I upperbound n junk) <= n)%nat /\
     b_lambda (basic_run I upperbound n junk) = Nat.iter k times_half 2 /\
     ((Z.of_nat k <= 1075)%Z ->
      b_lambda (basic_run I upperbound n junk) == 2 * halves k) /\
     ((1076 <= Z.of_nat k)%Z -> b_lambda (basic_run I upperbound n junk) == 0)) /\
  ((Z.of_nat n < 11836)%Z -> 0 < b_lambda (basic_run I upperbound n junk)).
Proof.
  assert (H : lambda_schedule n (basic_run I upperbound n junk)).
  { unfold basic_run. apply (basic_loop_schedule I upperbound n O).
    unfold basic_start, basic_init.
    destruct (init_dual_vector I (repeat 0 (num_row I)) (repeat 0 (num_col I)))
      as [[d rc] obj].
    split; [cbn; lia|]. exists O. split; [reflexivity|cbn; lia]. }
  destruct H as (Hc & k & Hl & Hk).
  destruct (lambda_halvings k) as [H1 H2].
  split; [exact Hc|]. split.
  - exists k. split; [exact Hk|]. split; [exact Hl|].
    split; intros Hb; rewrite Hl; [now apply H1|now apply H2].
  - intros Hn. rewrite Hl, H1 by lia. pose proof (halves_pos k). lra.
Qed.

(* ------------------------------------------------------------------ *)
(** ** One row listed by many columns *)

Lemma nth_repeat_in {A : Type} (a d : A) (n c : nat) :
  (c < n)%nat -> nth c (repeat a n) d = a.
Proof.
  revert c. induction n as [|n IH]; intros [|c] H; cbn; try lia; auto.
  apply IH. lia.
Qed.

Lemma list_sum_ones (l : list nat) : list_sum (map (fun _ => 1%nat) l) = length l.
Proof.
  induction l as [|h t IH]; [reflexivity|].
  cbn [map list_sum length fold_right]. now rewrite <- IH.
Qed.

Section Wide.

Variable n : nat.
Hypothesis Hn : (2 <= n)%nat.

Lemma wide_accessors (c : nat) :
  (c < n)%nat ->
  cost_of (inst_wide n) c = 1%Z /\ col_size (inst_wide n) c = 1%nat /\
  row_at (inst_wide n) c = c /\ col_at (inst_wide n) c = O /\
  col_lo (inst_wide n) c = c /\ col_hi (inst_wide n) c = S c.
Proof.
  intros Hc. unfold cost_of, col_size, row_at, col_at, col_lo, col_hi, inst_wide.
  cbn [costs col_sizes row_wise_a col_wise_a col_wise_idx].
  rewrite !nth_repeat_in by lia. rewrite !seq_nth by lia.
  repeat split.
Qed.

Lemma wide_init_row_min : init_row_min (inst_wide n) O = inject_Z 1.
Proof.
  unfold init_row_min.
  change (row_lo (inst_wide n) 0) with O. change (row_hi (inst_wide n) 0) with n.
  apply (for_range_inv (fun _ mv => mv = inject_Z 1)); [lia| |].
  - destruct (wide_accessors O ltac:(lia)) as (_ & _ & -> & _).
    destruct (wide_accessors O ltac:(lia)) as (-> & _). reflexivity.
  - intros k t Hk ->. cbv zeta.
    destruct (wide_accessors k ltac:(lia)) as (Ec & Es & -> & _).
    rewrite Ec, Es. reflexivity.
Qed.

Lemma wide_reduced_cost (c : nat) :
  (c < n)%nat ->
  nth c (snd (fst (init_dual_vector (inst_wide n) (repeat 0 1) (repeat 0 n)))) 0
  = inject_Z 1 - inject_Z 1.
Proof.
  intros Hc. unfold init_dual_vector.
  pose proof (init_duals_fst (inst_wide n) (repeat 0 1) O eq_refl ltac:(cbn; lia)) as Ed.
  destruct (init_duals (inst_wide n) (repeat 0 1)) as [d obj]. cbn [fst snd] in *.
  rewrite compute_reduced_costs_nth by (rewrite ?repeat_length; cbn; lia).
  unfold col_reduced_cost, for_range.
  destruct (wide_accessors c Hc) as (Ec & _ & _ & Ea & -> & ->).
  replace (S c - c)%nat with 1%nat by lia. cbn [for_loop].
  rewrite Ec, Ea, Ed, wide_init_row_min. reflexivity.
Qed.

Lemma wide_covering_count :
  covering_count (inst_wide n)
    (fun c => Qltb (nth c (snd (fst (init_dual_vector (inst_wide n) (repeat 0 1)
                                       (repeat 0 n)))) 0) TOL14) O
  = n.
Proof.
  unfold covering_count. change (num_col (inst_wide n)) with n.
  rewrite (map_ext_in _ (fun _ => 1%nat)).
  - rewrite list_sum_ones. apply length_seq.
  - intros c Hc. apply in_seq in Hc. rewrite wide_reduced_cost by lia.
    change (Qltb (inject_Z 1 - inject_Z 1) TOL14) with true. cbv iota.
    unfold rows_of_col.
    destruct (wide_accessors c ltac:(lia)) as (_ & _ & _ & Ea & -> & ->).
    replace (S c - c)%nat with 1%nat by lia. cbn [seq map]. rewrite Ea. reflexivity.
Qed.

Lemma wide_sps_init (libm_sqrt : Q -> Q) (junk : list Q) :
  snd (sps_init (inst_wide n) libm_sqrt junk) = false /\
  nth O (s_subg1 (fst (sps_init (inst_wide n) libm_sqrt junk))) 0%Z
  = (1 - Z.of_nat n)%Z /\
  s_eta_not (fst (sps_init (inst_wide n) libm_sqrt junk))
  = xsqrt libm_sqrt
      (0 + inject_Z (int_mul (1 - Z.of_nat n) (1 - Z.of_nat n))).
Proof.
  pose proof wide_covering_count as Hcov.
  unfold sps_init.
  change (num_row (inst_wide n)) with 1%nat. change (num_col (inst_wide n)) with n.
  destruct (init_dual_vector (inst_wide n) (repeat 0 1) (repeat 0 n)) as [[d rc] obj].
  cbn [fst snd] in Hcov.
  unfold compute_subg_vector_sps.
  assert (E : nth O (subg_fill (inst_wide n) (repeat 0%Z 1) rc) 0%Z = (1 - Z.of_nat n)%Z).
  { rewrite subg_fill_nth by (cbn; lia). unfold subg_entry. now rewrite Hcov. }
  cbn [fst snd s_subg1 s_eta_not].
  change (num_row (inst_wide n)) with 1%nat.
  unfold for_range. cbn [Nat.sub for_loop scan_nonzero]. rewrite E.
  split; [|split; reflexivity].
  destruct (Z.eqb_spec (1 - Z.of_nat n) 0); [lia|reflexivity].
Qed.

Lemma wide_valid : valid_instance (inst_wide n) = true.
Proof.
  assert (Hrows : forall c, (c < n)%nat -> rows_of_col (inst_wide n) c = [O]).
  { intros c Hc. unfold rows_of_col.
    destruct (wide_accessors c Hc) as (_ & _ & _ & Ea & -> & ->).
    replace (S c - c)%nat with 1%nat by lia. cbn [seq map]. now rewrite Ea. }
  assert (Hcols : cols_of_row (inst_wide n) O = seq O n).
  { unfold cols_of_row.
    change (row_lo (inst_wide n) 0) with O. change (row_hi (inst_wide n) 0) with n.
    rewrite Nat.sub_0_r. rewrite <- (map_id (seq O n)) at 2.
    apply map_ext_in. intros c Hc. apply in_seq in Hc.
    now destruct (wide_accessors c ltac:(lia)) as (_ & _ & -> & _). }
  unfold valid_instance.
  apply andb_true_intro; split; [apply andb_true_intro; split|].
  - unfold wf_instance.
    change (num_col (inst_wide n)) with n. change (num_row (inst_wide n)) with 1%nat.
    apply andb_true_intro; split.
    + apply forallb_forall. intros c Hc. apply in_seq in Hc.
      rewrite (Hrows c) by lia.
      destruct (wide_accessors c ltac:(lia)) as (_ & -> & _). reflexivity.
    + cbn [seq forallb]. rewrite Hcols, andb_true_r.
      apply andb_true_intro; split; apply forallb_forall; intros c Hc; apply in_seq in Hc.
      * apply Nat.ltb_lt. lia.
      * rewrite (Hrows c) by lia. rewrite count_occ_seq by lia. reflexivity.
  - change (num_col (inst_wide n)) with n.
    apply forallb_forall. intros c Hc. apply in_seq in Hc.
    destruct (wide_accessors c ltac:(lia)) as (-> & _). reflexivity.
  - change (num_row (inst_wide n)) with 1%nat.
    cbn [seq forallb]. change (row_lo (inst_wide n) 0) with O.
    change (row_hi (inst_wide n) 0) with n. rewrite andb_true_r.
    apply Nat.ltb_lt. lia.
Qed.

End Wide.

(** C9: the first tolerance on one row listed by 46342 columns of cost 1, a
    valid instance.  Every column is selected at the start, the entry of the
    subgradient vector is 1 - 46342 = -46341, the driver enters its loop, and
    the product [subg1[0] * subg1[0]] is outside the range of [int]: with the
    value -2147479015 that the multiplication leaves, [eta_not] is the square
    root of a negative number, a NaN, and not the norm 46341.  At iteration 0
    [eta] and the acceptance threshold are NaN, not +infinity and -infinity;
    the test [curr_obj < accept] is false and the step is accepted with
    [tau = 1]. *)
Theorem sps_first_tolerance_overflows (libm_sqrt : Q -> Q) (libm_pow : Q -> Q -> Q)
  (junk : list Q) :
  valid_instance (inst_wide (Z.to_nat 46342)) = true /\
  snd (sps_init (inst_wide (Z.to_nat 46342)) libm_sqrt junk) = false /\
  nth O (s_subg1 (fst (sps_init (inst_wide (Z.to_nat 46342)) libm_sqrt junk))) 0%Z
  = (-46341)%Z /\
  int_mul (-46341) (-46341) = (-2147479015)%Z /\
  s_eta_not (fst (sps_init (inst_wide (Z.to_nat 46342)) libm_sqrt junk)) = NaN /\
  eta_of libm_pow
    (s_eta_not (fst (sps_init (inst_wide (Z.to_nat 46342)) libm_sqrt junk))) O = NaN /\
  l_accept
    (snd (ls_entry (inst_wide (Z.to_nat 46342)) libm_pow O
            (fst (sps_init (inst_wide (Z.to_nat 46342)) libm_sqrt junk))
            (sps_step (inst_wide (Z.to_nat 46342)) O
               (fst (sps_init (inst_wide (Z.to_nat 46342)) libm_sqrt junk))))) = NaN /\
  forall fuel,
    option_map l_tau
      (line_search (inst_wide (Z.to_nat 46342)) fuel
         (fst (ls_entry (inst_wide (Z.to_nat 46342)) libm_pow O
                 (fst (sps_init (inst_wide (Z.to_nat 46342)) libm_sqrt junk))
                 (sps_step (inst_wide (Z.to_nat 46342)) O
                    (fst (sps_init (inst_wide (Z.to_nat 46342)) libm_sqrt junk)))))
         (s_curr_dual (fst (sps_init (inst_wide (Z.to_nat 46342)) libm_sqrt junk)))
         (t_dd (sps_step (inst_wide (Z.to_nat 46342)) O
                  (fst (sps_init (inst_wide (Z.to_nat 46342)) libm_sqrt junk))))
         (t_dd_idx (sps_step (inst_wide (Z.to_nat 46342)) O
                      (fst (sps_init (inst_wide (Z.to_nat 46342)) libm_sqrt junk))))
         (t_dd_size (sps_step (inst_wide (Z.to_nat 46342)) O
                       (fst (sps_init (inst_wide (Z.to_nat 46342)) libm_sqrt junk))))
         (snd (ls_entry (inst_wide (Z.to_nat 46342)) libm_pow O
                 (fst (sps_init (inst_wide (Z.to_nat 46342)) libm_sqrt junk))
                 (sps_step (inst_wide (Z.to_nat 46342)) O
                    (fst (sps_init (inst_wide (Z.to_nat 46342)) libm_sqrt junk))))))
    = Some 1.
Proof.
  assert (Hn : (2 <= Z.to_nat 46342)%nat) by lia.
  destruct (wide_sps_init (Z.to_nat 46342) Hn libm_sqrt junk) as (Hopt & Hsg & Heta).
  rewrite Z2Nat.id in Hsg, Heta by lia.
  change (1 - 46342)%Z with (-46341)%Z in Hsg, Heta.
  set (W := inst_wide (Z.to_nat 46342)) in *.
  set (s0 := fst (sps_init W libm_sqrt junk)) in *.
  assert (En : s_eta_not s0 = NaN).
  { rewrite Heta. reflexivity. }
  assert (Ea : l_accept (snd (ls_entry W libm_pow O s0 (sps_step W O s0))) = NaN).
  { unfold ls_entry. cbn [snd l_accept]. rewrite En. reflexivity. }
  split; [apply wide_valid; exact Hn|]. split; [exact Hopt|]. split; [exact Hsg|].
  split; [reflexivity|]. split; [exact En|]. split; [rewrite En; reflexivity|].
  split; [exact Ea|].
  intros fuel. destruct fuel; cbn [line_search]; rewrite Ea; reflexivity.
Qed.

Lemma singleton_nth {A : Type} (l : list A) (d x : A) :
  length l = 1%nat -> nth O l d = x -> l = [x].
Proof.
  destruct l as [|h [|h' t]]; cbn; try discriminate. intros _ ->. reflexivity.
Qed.

Lemma wide_basic_head (n : nat) (junk : list Q) :
  (2 <= n)%nat ->
  b_norm (basic_head (inst_wide n)
            (basic_init (inst_wide n) (repeat 0 1) junk (repeat 0 n) (repeat 0%Z 1)))
  = if (int_mul (1 - Z.of_nat n) (1 - Z.of_nat n) =? 0)%Z then 1%Z
    else int_mul (1 - Z.of_nat n) (1 - Z.of_nat n).
Proof.
  intros Hn.
  pose proof (wide_covering_count n Hn) as Hcov.
  pose proof (init_duals_fst (inst_wide n) (repeat 0 1) O eq_refl ltac:(cbn; lia)) as Ed.
  pose proof (init_duals_length (inst_wide n) (repeat 0 1)) as Ld.
  unfold basic_head, basic_init. unfold init_dual_vector in *.
  destruct (init_duals (inst_wide n) (repeat 0 1)) as [d obj]. cbn [fst snd] in *.
  rewrite (wide_init_row_min n Hn) in Ed.
  apply (singleton_nth d 0 (inject_Z 1) Ld) in Ed. subst d.
  cbn [b_subg b_reduced_costs b_mem b_old_dual rd d1].
  set (rc := compute_reduced_costs (inst_wide n) [inject_Z 1] (repeat 0 n)) in *.
  unfold compute_subg_vector_basic.
  assert (Es : subg_fill (inst_wide n) (repeat 0%Z 1) rc = [(1 - Z.of_nat n)%Z]).
  { apply (singleton_nth _ 0%Z).
    - now rewrite subg_fill_length.
    - rewrite subg_fill_nth by (cbn; lia). unfold subg_entry. now rewrite Hcov. }
  rewrite Es. unfold basic_clamp_loop, for_range.
  change (num_row (inst_wide n)) with 1%nat. cbn [Nat.sub for_loop nth].
  destruct (Z.eqb_spec (1 - Z.of_nat n) 0) as [E0|E0]; [lia|]. cbn [negb].
  change (Qltb (inject_Z 1) TOL14) with false. rewrite andb_false_r.
  cbn [b_norm snd Z.add]. reflexivity.
Qed.

(** On the same instance the Basic driver stops before its first step: the
    value [compute_subg_vector_basic] returns is the product as [int]
    leaves it, a negative number, which the driver reads as the optimal
    signal. *)
Lemma basic_norm_overflows (upperbound : Z) (junk : list Q) (k : nat) :
  b_norm
    (basic_head (inst_wide (Z.to_nat 46342))
       (basic_init (inst_wide (Z.to_nat 46342)) (repeat 0 1) junk
          (repeat 0 (Z.to_nat 46342)) (repeat 0%Z 1)))
  = (-2147479015)%Z /\
  basic_loop (inst_wide (Z.to_nat 46342)) upperbound (S k)
    (basic_init (inst_wide (Z.to_nat 46342)) (repeat 0 1) junk
       (repeat 0 (Z.to_nat 46342)) (repeat 0%Z 1))
  = basic_head (inst_wide (Z.to_nat 46342))
      (basic_init (inst_wide (Z.to_nat 46342)) (repeat 0 1) junk
         (repeat 0 (Z.to_nat 46342)) (repeat 0%Z 1)).
Proof.
  assert (Hn : (2 <= Z.to_nat 46342)%nat) by lia.
  pose proof (wide_basic_head (Z.to_nat 46342) junk Hn) as E.
  rewrite Z2Nat.id in E by lia.
  change (if (int_mul (1 - 46342) (1 - 46342) =? 0)%Z then 1%Z
          else int_mul (1 - 46342) (1 - 46342)) with (-2147479015)%Z in E.
  split; [exact E|].
  generalize dependent (Z.to_nat 46342). intros n _ E.
  cbn [basic_loop]. rewrite E. reflexivity.
Qed.

(* ------------------------------------------------------------------ *)
(** ** The two subgradient computations side by side *)

(** X10: the two variants raise the optimal signal on the same reduced
    costs.  On an instance in which no row is listed more than 46341 times
    (the products [subg[i] * subg[i]] are then within the range of [int]) and
    with buffers of [num_row] cells, [compute_subg_vector_basic] returns -1
    exactly when [compute_subg_vector_sps] does, whatever the dual vector;
    when it does not, the value it returns (the divisor of the step size) is
    at least 1. *)
Theorem subgradient_variants_agree (I : instance) (subg subg' : list Z)
  (rc dual : list Q) :
  rows_fit_int I = true ->
  length subg = num_row I -> length subg' = num_row I ->
  (snd (compute_subg_vector_basic I subg rc dual) = (-1)%Z <->
   snd (compute_subg_vector_sps I subg' rc) = (-1)%Z) /\
  (snd (compute_subg_vector_basic I subg rc dual) = (-1)%Z \/
   (1 <= snd (compute_subg_vector_basic I subg rc dual))%Z).
Proof.
  intros Hb Hl Hl'.
  assert (Hfill : forall r, (r < num_row I)%nat ->
            nth r (subg_fill I subg rc) 0%Z = nth r (subg_fill I subg' rc) 0%Z).
  { intros r Hr. now rewrite !subg_fill_nth. }
  unfold compute_subg_vector_basic, compute_subg_vector_sps. cbn [snd].
  destruct (basic_clamp_loop I (subg_fill I subg rc) dual) as [[sg is_opt] norm] eqn:E.
  destruct (basic_clamp_loop_spec I (subg_fill I subg rc) dual
              (eq_trans (subg_fill_length I subg rc) Hl) sg is_opt norm E)
    as (Hc & Hopt & Hn).
  rewrite sqnorm_int_sqnorm in Hn.
  2:{ intros r Hr. rewrite (Hc r Hr).
      destruct (rows_fit_int_entries I subg rc dual r Hb Hl Hr) as [_ H]. lia. }
  destruct (scan_nonzero_spec (subg_fill I subg' rc) (num_row I) O) as [Hiff _].
  pose proof (sqnorm_nonneg (num_row I) sg) as Hnn.
  assert (Hz : all_zero (num_row I) (subg_fill I subg rc) <->
               scan_nonzero (num_row I) O (subg_fill I subg' rc) = (-1)%Z).
  { rewrite Hiff. unfold all_zero. split; intros H r Hr.
    - rewrite <- Hfill by lia. apply H. lia.
    - rewrite Hfill by lia. apply H. lia. }
  destruct is_opt; cbn [snd].
  - split; [|now left]. split; [intros _; apply Hz; now apply Hopt|reflexivity].
  - assert (Hge : (1 <= (if (norm =? 0)%Z then 1 else norm))%Z).
    { destruct (Z.eqb_spec norm 0); lia. }
    split; [|now right]. split; [lia|].
    intros H. apply Hz in H. apply Hopt in H. discriminate.
Qed.

Lemma subgradient_variants_agree_witness :
  rows_fit_int inst_1x2 = true /\
  length [0%Z] = num_row inst_1x2 /\
  (snd (compute_subg_vector_basic inst_1x2 [0%Z] [0; 0] [0]) = (-1)%Z <->
   snd (compute_subg_vector_sps inst_1x2 [5%Z] [0; 0]) = (-1)%Z).
Proof.
  split; [reflexivity|]. split; [reflexivity|].
  apply (subgradient_variants_agree inst_1x2 [0%Z] [5%Z] [0; 0] [0] eq_refl eq_refl
           eq_refl).
Defined.

(* ------------------------------------------------------------------ *)
(** ** Runs without an iteration *)

(** X11: runs without an iteration.  When the initial dual vector already
    has a zero subgradient, the SPS driver jumps to [cleanup] and stores the
    initial dual vector, whatever [max_itr].  With [max_itr = 0] and no such
    signal, the SPS driver, and the Basic driver in every case, return the
    initial objective and copy [dual2], which was never written. *)
Theorem drivers_without_iteration (I : instance) (libm_sqrt : Q -> Q)
  (libm_pow : Q -> Q -> Q) (junk : list Q) (upperbound : Z) :
  (snd (sps_init I libm_sqrt junk) = true ->
   forall fuel max_itr,
     spectral_projected_subgradient I libm_sqrt libm_pow fuel max_itr junk
     = Returned
         {| ret_obj := snd (init_dual_vector I (repeat 0 (num_row I))
                              (repeat 0 (num_col I)));
            best_dual_copy := fst (fst (init_dual_vector I (repeat 0 (num_row I))
                                          (repeat 0 (num_col I)))) |}) /\
  (snd (sps_init I libm_sqrt junk) = false ->
   forall fuel,
     spectral_projected_subgradient I libm_sqrt libm_pow fuel O junk
     = Returned
         {| ret_obj := snd (init_dual_vector I (repeat 0 (num_row I))
                              (repeat 0 (num_col I)));
            best_dual_copy := junk |}) /\
  basic_subgradient I O upperbound junk
  = {| ret_obj := snd (init_dual_vector I (repeat 0 (num_row I)) (repeat 0 (num_col I)));
       best_dual_copy := junk |}.
Proof.
  unfold spectral_projected_subgradient, basic_subgradient, sps_init, basic_init.
  destruct (init_dual_vector I (repeat 0 (num_row I)) (repeat 0 (num_col I)))
    as [[d rc] obj].
  destruct (compute_subg_vector_sps I (repeat 0%Z (num_row I)) rc) as [sg r].
  cbn [fst snd]. split; [|split].
  - intros ->. reflexivity.
  - intros ->. reflexivity.
  - reflexivity.
Qed.

(* ------------------------------------------------------------------ *)
(** ** The optimal signal *)

(** When every entry of the subgradient is zero, the selected columns cover
    each row exactly once, and their cost bounds the dual function
    everywhere. *)
Lemma zero_subgradient_certificate (I : instance) (rc : list Q) :
  wf_instance I = true ->
  (forall r, (r < num_row I)%nat -> subg_entry I rc r = 0%Z) ->
  (forall r, (r < num_row I)%nat -> covering_count I (selected rc) r = 1%nat) /\
  (forall v, dual_function I v <= inject_Z (cover_cost I (selected rc))).
Proof.
  intros Hwf Hz.
  assert (Hcov : forall r, (r < num_row I)%nat -> covering_count I (selected rc) r = 1%nat).
  { intros r Hr. specialize (Hz r Hr). unfold subg_entry in Hz.
    change (fun c => Qltb (nth c rc 0) TOL14) with (selected rc) in Hz. lia. }
  assert (Hsum : forall v,
            Qsum (map (fun r => inject_Z (Z.of_nat (covering_count I (selected rc) r))
                                * nth r v 0)
                    (seq O (num_row I)))
            == Qsum (map (fun r => nth r v 0) (seq O (num_row I)))).
  { intros v. apply Qsum_ext. intros r Hr. apply in_seq in Hr.
    rewrite Hcov by lia. change (inject_Z (Z.of_nat 1)) with 1. ring. }
  split; [exact Hcov|].
  intros v. pose proof (dual_function_le_selected I v (selected rc)) as H1.
  rewrite (selected_reduced_costs I v (selected rc) Hwf), Hsum in H1. lra.
Qed.

Section SpsOptimal.

Variable I : instance.
Variable libm_sqrt : Q -> Q.
Variable libm_pow : Q -> Q -> Q.

Lemma compute_subg_vector_sps_length (subg : list Z) (rc : list Q) :
  length (fst (compute_subg_vector_sps I subg rc)) = length subg.
Proof. unfold compute_subg_vector_sps. cbn [fst]. apply subg_fill_length. Qed.

Lemma sps_init_subg_sized (junk : list Q) :
  sps_subg_sized I (fst (sps_init I libm_sqrt junk)).
Proof.
  unfold sps_init.
  destruct (init_dual_vector I (repeat 0 (num_row I)) (repeat 0 (num_col I)))
    as [[d rc] obj].
  pose proof (compute_subg_vector_sps_length (repeat 0%Z (num_row I)) rc) as Hl.
  destruct (compute_subg_vector_sps I (repeat 0%Z (num_row I)) rc) as [sg r].
  cbn [fst] in *. split; cbn; [now rewrite Hl, repeat_length|apply repeat_length].
Qed.

Lemma curr_subg_sized (itr : nat) (s : sps_state) :
  sps_subg_sized I s -> length (curr_subg_of itr s) = num_row I.
Proof. intros [H1 H2]. unfold curr_subg_of. now destruct (itr mod 2 =? 0)%nat. Qed.

Lemma sps_accept_subg (itr : nat) (s : sps_state) (t : step_state) (l : ls_state) :
  sps_subg_sized I s ->
  sps_subg_sized I (fst (sps_accept I itr s t l)) /\
  (snd (sps_accept I itr s t l) = true ->
   forall r, (r < num_row I)%nat -> subg_entry I (l_rc l) r = 0%Z).
Proof.
  intros Hs. pose proof (curr_subg_sized itr s Hs) as Hc. destruct Hs as [H1 H2].
  unfold sps_accept.
  pose proof (compute_subg_vector_sps_length (curr_subg_of itr s) (l_rc l)) as Hl.
  assert (Hz : truthy_uchar (snd (compute_subg_vector_sps I (curr_subg_of itr s) (l_rc l)))
               = true ->
               forall r, (r < num_row I)%nat -> subg_entry I (l_rc l) r = 0%Z).
  { unfold compute_subg_vector_sps. cbn [snd]. intros Ht r Hr.
    destruct (scan_nonzero_spec (subg_fill I (curr_subg_of itr s) (l_rc l)) (num_row I) O)
      as [Hiff Hor].
    destruct Hor as [E|E]; [|rewrite E in Ht; discriminate].
    rewrite <- (subg_fill_nth I (curr_subg_of itr s) (l_rc l) r Hc Hr).
    apply Hiff; [exact E|lia]. }
  destruct (compute_subg_vector_sps I (curr_subg_of itr s) (l_rc l)) as [sg r].
  cbn [fst snd] in *. unfold curr_subg_of in Hl.
  destruct (Qltb (s_best_obj s) (l_curr_obj l));
    destruct (itr mod 2 =? 0)%nat; cbn [fst snd];
    (split; [split; cbn; congruence|exact Hz]).
Qed.

Lemma sps_body_subg (fuel itr : nat) (s s' : sps_state) (b : bool) :
  sps_subg_sized I s ->
  sps_body I libm_pow fuel itr s = Returned (s', b) ->
  sps_subg_sized I s' /\
  (b = true -> forall r, (r < num_row I)%nat -> subg_entry I (s_reduced_costs s') r = 0%Z).
Proof.
  intros Hs. unfold sps_body.
  destruct (ls_entry I libm_pow itr s (sps_step I itr s)) as [product l0].
  destruct (line_search I fuel product (s_curr_dual s) (t_dd (sps_step I itr s))
              (t_dd_idx (sps_step I itr s)) (t_dd_size (sps_step I itr s)) l0)
    as [l|]; [|discriminate].
  destruct (sps_accept_subg itr s (sps_step I itr s) l Hs) as [Hs1 Hz].
  pose proof (sps_accept_fields I itr s (sps_step I itr s) l) as (_ & Erc & _).
  destruct (sps_accept I itr s (sps_step I itr s) l) as [s1 is_opt].
  cbn [fst snd] in *. destruct is_opt.
  - intros E. injection E as <- <-. split; [exact Hs1|].
    intros _. rewrite Erc. now apply Hz.
  - destruct (sps_tail itr (l_tau l) (t_dd_size (sps_step I itr s)) s1) as [s2| |] eqn:Et;
      try discriminate.
    intros E. injection E as <- <-.
    destruct (sps_tail_same _ _ _ _ _ Et)
      as (_ & _ & _ & _ & _ & _ & _ & _ & _ & _ & E11 & E12 & _).
    split; [|discriminate]. unfold sps_subg_sized. now rewrite E11, E12.
Qed.

Lemma sps_loop_subg (fuel n : nat) : forall (itr : nat) (s s' : sps_state) (b : bool),
  sps_subg_sized I s ->
  sps_loop I libm_pow fuel n itr s = Returned (s', b) ->
  sps_subg_sized I s' /\
  (b = true -> forall r, (r < num_row I)%nat -> subg_entry I (s_reduced_costs s') r = 0%Z).
Proof.
  induction n as [|n IH]; intros itr s s' b Hs E; cbn [sps_loop] in E.
  - injection E as <- <-. split; [exact Hs|discriminate].
  - destruct (sps_body I libm_pow fuel itr s) as [[s1 [|]]| |] eqn:Eb; try discriminate.
    + injection E as <- <-. apply (sps_body_subg fuel itr s s1 true Hs Eb).
    + apply (IH (S itr) s1 s' b); [|exact E].
      apply (sps_body_subg fuel itr s s1 false Hs Eb).
Qed.

End SpsOptimal.

(** X12: what the optimal signal of the SPS driver certifies.  For a
    well-formed instance and a run that leaves the loop on the signal, the
    columns whose reduced cost is below 1e-14 cover every row exactly once:
    they are a cover, and no dual vector, of any sign, has a dual function
    above the cost of this cover. *)
Theorem sps_optimal_signal_certificate (I : instance) (libm_sqrt : Q -> Q)
  (libm_pow : Q -> Q -> Q) (junk : list Q) (fuel n : nat) (s : sps_state) :
  wf_instance I = true ->
  sps_loop I libm_pow fuel n O (fst (sps_init I libm_sqrt junk)) = Returned (s, true) ->
  (forall r, (r < num_row I)%nat ->
     covering_count I (selected (s_reduced_costs s)) r = 1%nat) /\
  is_cover I (selected (s_reduced_costs s)) /\
  (forall v, dual_function I v
             <= inject_Z (cover_cost I (selected (s_reduced_costs s)))).
Proof.
  intros Hwf El.
  destruct (sps_loop_subg I libm_pow fuel n O _ s true
              (sps_init_subg_sized I libm_sqrt junk) El) as [_ Hz].
  destruct (zero_subgradient_certificate I _ Hwf (Hz eq_refl)) as (Hone & Hdual).
  split; [exact Hone|]. split; [|exact Hdual].
  intros r Hr. rewrite (Hone r Hr). lia.
Qed.

Lemma sps_optimal_signal_certificate_witness :
  wf_instance inst_5x3 = true /\
  exists s,
    sps_loop inst_5x3 pow_approx O 1 O (fst (sps_init inst_5x3 sqrt_approx (repeat 0 5)))
    = Returned (s, true) /\
    is_cover inst_5x3 (selected (s_reduced_costs s)).
Proof.
  split; [reflexivity|].
  eexists. split; [vm_compute; reflexivity|].
  apply (sps_optimal_signal_certificate inst_5x3 sqrt_approx pow_approx (repeat 0 5) O 1
           _ eq_refl).
  vm_compute. reflexivity.
Defined.

(* ------------------------------------------------------------------ *)
(** ** basic_subgradient: what a run returns *)

Section BasicBest.

Variable I : instance.
Variable upperbound : Z.
Variable junk : list Q.

Lemma basic_row_frame (step_size : Q) (subg : list Z) (curr old : buf) (i : nat)
  (u : duals * list Q * Q) (b : buf) :
  b <> curr -> rd (fst (fst (basic_row I step_size subg curr old i u))) b = rd (fst (fst u)) b.
Proof.
  intros Hb. destruct u as [[m rc] obj]. unfold basic_row.
  destruct (Qltb _ 0); cbn [fst snd];
    repeat rewrite rd_wr_other by congruence; reflexivity.
Qed.

Lemma basic_update_frame (s : basic_state) (b : buf) :
  b <> b_curr_dual s -> rd (fst (fst (basic_update I upperbound s))) b = rd (b_mem s) b.
Proof.
  intros Hb. unfold basic_update.
  set (step := b_lambda s * ((21 # 20) * inject_Z upperbound - b_curr_obj s)
               / inject_Z (b_norm s)).
  assert (H : rd (fst (fst (for_range O (num_row I)
                              (basic_row I step (b_subg s) (b_curr_dual s) (b_old_dual s))
                              (b_mem s, b_reduced_costs s, 0)))) b
              = rd (b_mem s) b).
  { unfold for_range.
    apply (for_loop_keeps (fun u => rd (fst (fst u)) b = rd (b_mem s) b)); [|reflexivity].
    intros k t Ht. now rewrite basic_row_frame. }
  destruct (for_range O (num_row I)
              (basic_row I step (b_subg s) (b_curr_dual s) (b_old_dual s))
              (b_mem s, b_reduced_costs s, 0)) as [[m rc] obj].
  exact H.
Qed.

Lemma basic_head_fields (s : basic_state) :
  b_mem (basic_head I s) = b_mem s /\
  b_curr_dual (basic_head I s) = b_curr_dual s /\
  b_old_dual (basic_head I s) = b_old_dual s /\
  b_best_dual (basic_head I s) = b_best_dual s /\
  b_curr_obj (basic_head I s) = b_curr_obj s /\
  b_best_obj (basic_head I s) = b_best_obj s.
Proof.
  unfold basic_head.
  destruct (compute_subg_vector_basic I (b_subg s) (b_reduced_costs s)
              (rd (b_mem s) (b_old_dual s))) as [sg nm].
  repeat split.
Qed.

Lemma basic_tail_fields (s : basic_state) (u : duals * list Q * Q) :
  b_mem (basic_tail s u) = fst (fst u) /\
  b_curr_obj (basic_tail s u) = snd u /\
  b_old_dual (basic_tail s u) = b_curr_dual s /\
  b_norm (basic_tail s u) = b_norm s /\
  (if Qltb (b_best_obj s) (snd u)
   then b_best_obj (basic_tail s u) = snd u /\
        b_curr_dual (basic_tail s u) = b_best_dual s /\
        b_best_dual (basic_tail s u) = b_curr_dual s
   else b_best_obj (basic_tail s u) = b_best_obj s /\
        b_curr_dual (basic_tail s u) = b_curr_dual s /\
        b_best_dual (basic_tail s u) = b_best_dual s).
Proof.
  destruct u as [[m rc] obj]. unfold basic_tail. cbn [fst snd].
  destruct (Qltb (b_best_obj s) obj).
  - change (10 <? 0)%nat with false. cbn. repeat split.
  - destruct (10 <? S (b_counter s))%nat; cbn; repeat split.
Qed.

Lemma basic_turn_best (obj0 : Q) (h : list (list Q * Q)) (s : basic_state) :
  basic_best_inv junk obj0 h s ->
  (b_norm (basic_head I s) <? 0)%Z = false ->
  basic_best_inv junk obj0
    ((rd (b_mem (basic_turn I upperbound s)) (b_old_dual (basic_turn I upperbound s)),
      b_curr_obj (basic_turn I upperbound s)) :: h)
    (basic_turn I upperbound s).
Proof.
  intros (Hn & Hne & Hhd & Hmax & Hbest & _) Hgo.
  destruct (basic_head_fields s) as (Em & Ec & Eo & Eb & Eco & Ebo).
  unfold basic_turn.
  set (s1 := basic_head I s) in *. set (u := basic_update I upperbound s1).
  destruct (basic_tail_fields s1 u) as (Tm & Tco & To & Tn & F).
  assert (Hframe : forall b, b <> b_curr_dual s -> rd (fst (fst u)) b = rd (b_mem s) b).
  { intros b Hb. unfold u. rewrite basic_update_frame by (rewrite Ec; exact Hb).
    now rewrite Em. }
  assert (Hle : obj0 <= b_best_obj s).
  { destruct Hbest as [(_ & _ & ->)|(_ & H)]; lra. }
  set (s' := basic_tail s1 u) in *.
  unfold basic_best_inv. rewrite Tm, Tco, To, Tn, Ec.
  split; [exact Hgo|].
  destruct (Qltb (b_best_obj s1) (snd u)) eqn:Eimp; destruct F as (F1 & F2 & F3);
    rewrite F1, F2, F3, ?Eb, ?Ec, ?Ebo; rewrite Ebo in Eimp.
  - apply Qltb_lt in Eimp.
    split; [congruence|]. split; [reflexivity|]. split.
    + intros x [<-|Hx]; cbn [snd]; [lra|]. specialize (Hmax x Hx). lra.
    + split.
      * right. split; [now left|lra].
      * right. split; [reflexivity|]. split; [reflexivity|].
        rewrite (Hframe (b_best_dual s)) by congruence.
        destruct Hbest as [(B1 & B2 & B3)|(B1 & B2)].
        -- left. rewrite B1. exact B2.
        -- right. exists (b_best_obj s). split; [now right|exact Eimp].
  - apply Qltb_ge in Eimp.
    split; [exact Hne|]. split; [reflexivity|]. split.
    + intros x [<-|Hx]; cbn [snd]; [exact Eimp|]. now apply Hmax.
    + split; [|left; reflexivity].
      destruct Hbest as [(B1 & B2 & B3)|(B1 & B2)].
      * left. split; [exact B1|]. split; [|exact B3].
        rewrite <- B2. apply Hframe. congruence.
      * right. rewrite (Hframe (b_best_dual s)) by congruence.
        split; [now right|exact B2].
Qed.

Lemma basic_start_fields :
  b_curr_dual (basic_start I junk) = Dual1 /\
  b_old_dual (basic_start I junk) = Dual1 /\
  b_best_dual (basic_start I junk) = Dual2 /\
  rd (b_mem (basic_start I junk)) Dual2 = junk /\
  b_best_obj (basic_start I junk) = b_curr_obj (basic_start I junk) /\
  b_norm (basic_start I junk) = 0%Z /\
  b_curr_obj (basic_start I junk)
  = snd (init_dual_vector I (repeat 0 (num_row I)) (repeat 0 (num_col I))) /\
  rd (b_mem (basic_start I junk)) Dual1
  = fst (fst (init_dual_vector I (repeat 0 (num_row I)) (repeat 0 (num_col I)))).
Proof.
  unfold basic_start, basic_init.
  destruct (init_dual_vector I (repeat 0 (num_row I)) (repeat 0 (num_col I)))
    as [[d rc] obj].
  cbn. repeat split.
Qed.

Lemma basic_reach_best (n : nat) (h : list (list Q * Q)) (s : basic_state) :
  basic_reach I upperbound junk n h s ->
  basic_best_inv junk (b_curr_obj (basic_start I junk)) h s.
Proof.
  induction 1 as [|n h s Hr IH Hgo].
  - destruct basic_start_fields as (E1 & E2 & E3 & E4 & E5 & E6 & _).
    unfold basic_best_inv. rewrite E1, E2, E3, E5, E6.
    split; [reflexivity|]. split; [discriminate|]. split; [reflexivity|]. split.
    + intros x [<-|[]]. cbn [snd]. lra.
    + split; [left; repeat split; assumption|left; reflexivity].
  - now apply basic_turn_best.
Qed.

(** The loop, one turn at the end. *)
Lemma basic_loop_snoc (n : nat) : forall s,
  (b_norm s <? 0)%Z = false ->
  basic_loop I upperbound (S n) s
  = (if (b_norm (basic_loop I upperbound n s) <? 0)%Z then basic_loop I upperbound n s
     else if (b_norm (basic_head I (basic_loop I upperbound n s)) <? 0)%Z
          then basic_head I (basic_loop I upperbound n s)
          else basic_turn I upperbound (basic_loop I upperbound n s)).
Proof.
  induction n as [|n IH]; intros s Hs.
  - cbn [basic_loop]. rewrite Hs. reflexivity.
  - change (basic_loop I upperbound (S (S n)) s)
      with (if (b_norm (basic_head I s) <? 0)%Z then basic_head I s
            else basic_loop I upperbound (S n) (basic_turn I upperbound s)).
    change (basic_loop I upperbound (S n) s)
      with (if (b_norm (basic_head I s) <? 0)%Z then basic_head I s
            else basic_loop I upperbound n (basic_turn I upperbound s)).
    destruct (b_norm (basic_head I s) <? 0)%Z eqn:E.
    + rewrite E. reflexivity.
    + apply IH. unfold basic_turn.
      rewrite (proj1 (proj2 (proj2 (proj2 (basic_tail_fields _ _))))). exact E.
Qed.

Lemma basic_reach_run (n : nat) (h : list (list Q * Q)) (s : basic_state) :
  basic_reach I upperbound junk n h s ->
  basic_run I upperbound n junk = s /\ (b_norm s <? 0)%Z = false.
Proof.
  induction 1 as [|n h s Hr [IH1 IH2] Hgo].
  - split; [reflexivity|].
    rewrite (proj1 (proj2 (proj2 (proj2 (proj2 (proj2 basic_start_fields)))))).
    reflexivity.
  - unfold basic_run in *. split.
    + rewrite basic_loop_snoc.
      * rewrite IH1, IH2, Hgo. reflexivity.
      * rewrite (proj1 (proj2 (proj2 (proj2 (proj2 (proj2 basic_start_fields)))))).
        reflexivity.
    + unfold basic_turn.
      rewrite (proj1 (proj2 (proj2 (proj2 (basic_tail_fields _ _))))). exact Hgo.
Qed.

Lemma basic_exit_run (k : nat) (h : list (list Q * Q)) (s : basic_state) :
  basic_reach I upperbound junk k h s ->
  (b_norm (basic_head I s) <? 0)%Z = true ->
  forall n, (k < n)%nat -> basic_run I upperbound n junk = basic_head I s.
Proof.
  intros Hr Hex.
  destruct (basic_reach_run k h s Hr) as [E1 E2].
  assert (H0 : (b_norm (basic_start I junk) <? 0)%Z = false).
  { rewrite (proj1 (proj2 (proj2 (proj2 (proj2 (proj2 basic_start_fields)))))).
    reflexivity. }
  assert (H : forall d, basic_run I upperbound (S k + d) junk = basic_head I s).
  { induction d as [|d IH]; unfold basic_run in *.
    - rewrite Nat.add_0_r, basic_loop_snoc by exact H0. rewrite E1, E2, Hex. reflexivity.
    - replace (S k + S d)%nat with (S (S k + d)) by lia.
      rewrite basic_loop_snoc by exact H0. rewrite IH, Hex. reflexivity. }
  intros n Hn. replace n with (S k + (n - S k))%nat by lia. apply H.
Qed.

End BasicBest.

(** X13: the result of the Basic driver at the iteration limit.  When the
    first [n] iterations have not raised the optimal signal and [h] lists the
    iterates with their evaluated objectives, [basic_subgradient] with
    [max_itr = n] returns [best_obj], the largest objective of [h].  If no
    iteration improved on the initial objective, the vector copied is [dual2]
    as allocated (never written); otherwise the vector copied and the value
    returned are the iterate and the objective of one and the same
    iteration. *)
Theorem basic_result_at_iteration_limit (I : instance) (upperbound : Z) (junk : list Q)
  (n : nat) (h : list (list Q * Q)) (s : basic_state) :
  basic_reach I upperbound junk n h s ->
  basic_subgradient I n upperbound junk
  = {| ret_obj := b_best_obj s; best_dual_copy := rd (b_mem s) (b_best_dual s) |} /\
  (forall x, In x h -> snd x <= ret_obj (basic_subgradient I n upperbound junk)) /\
  ((ret_obj (basic_subgradient I n upperbound junk)
    = snd (init_dual_vector I (repeat 0 (num_row I)) (repeat 0 (num_col I))) /\
    best_dual_copy (basic_subgradient I n upperbound junk) = junk) \/
   (In (best_dual_copy (basic_subgradient I n upperbound junk),
        ret_obj (basic_subgradient I n upperbound junk)) h /\
    snd (init_dual_vector I (repeat 0 (num_row I)) (repeat 0 (num_col I)))
    < ret_obj (basic_subgradient I n upperbound junk))).
Proof.
  intros Hr.
  destruct (basic_reach_run I upperbound junk n h s Hr) as [Erun Hn].
  destruct (basic_reach_best I upperbound junk n h s Hr) as (_ & _ & _ & Hmax & Hbest & _).
  assert (E : basic_subgradient I n upperbound junk
              = {| ret_obj := b_best_obj s;
                   best_dual_copy := rd (b_mem s) (b_best_dual s) |}).
  { change (basic_subgradient I n upperbound junk)
      with (basic_finish (basic_run I upperbound n junk)).
    rewrite Erun. unfold basic_finish. rewrite Hn. reflexivity. }
  rewrite E. cbn [ret_obj best_dual_copy].
  rewrite <- (proj1 (proj2 (proj2 (proj2 (proj2 (proj2 (proj2
                (basic_start_fields I junk)))))))).
  split; [reflexivity|]. split; [exact Hmax|].
  destruct Hbest as [(B1 & B2 & B3)|(B1 & B2)].
  - left. rewrite B1. split; assumption.
  - right. split; assumption.
Qed.

(** X14: the result of the Basic driver on the optimal signal.  When the
    signal is raised at the head of iteration [k], every run with
    [max_itr > k] returns the objective of the final iterate.  The vector
    copied is the buffer of [curr_dual]: the final iterate when the last step
    did not improve on the best objective; when it did, the other buffer,
    which holds [dual2] as allocated or an earlier iterate of smaller
    objective. *)
Theorem basic_result_at_optimal_exit (I : instance) (upperbound : Z) (junk : list Q)
  (k : nat) (h : list (list Q * Q)) (s : basic_state) (n : nat) :
  basic_reach I upperbound junk k h s ->
  (b_norm (basic_head I s) <? 0)%Z = true -> (k < n)%nat ->
  basic_subgradient I n upperbound junk
  = {| ret_obj := b_curr_obj s; best_dual_copy := rd (b_mem s) (b_curr_dual s) |} /\
  hd_error h = Some (rd (b_mem s) (b_old_dual s), b_curr_obj s) /\
  ((b_old_dual s = b_curr_dual s /\
    best_dual_copy (basic_subgradient I n upperbound junk) = rd (b_mem s) (b_old_dual s)) \/
   (b_old_dual s <> b_curr_dual s /\
    (best_dual_copy (basic_subgradient I n upperbound junk) = junk \/
     exists o, In (best_dual_copy (basic_subgradient I n upperbound junk), o) h /\
               o < ret_obj (basic_subgradient I n upperbound junk)))).
Proof.
  intros Hr Hex Hn.
  pose proof (basic_exit_run I upperbound junk k h s Hr Hex n Hn) as Erun.
  destruct (basic_reach_best I upperbound junk k h s Hr) as (_ & Hne & Hhd & _ & _ & Hptr).
  destruct (basic_head_fields I s) as (Em & Ec & _ & _ & Eco & _).
  assert (E : basic_subgradient I n upperbound junk
              = {| ret_obj := b_curr_obj s;
                   best_dual_copy := rd (b_mem s) (b_curr_dual s) |}).
  { change (basic_subgradient I n upperbound junk)
      with (basic_finish (basic_run I upperbound n junk)).
    rewrite Erun. unfold basic_finish. rewrite Hex, Em, Ec, Eco. reflexivity. }
  rewrite E. cbn [ret_obj best_dual_copy].
  split; [reflexivity|]. split; [exact Hhd|].
  destruct Hptr as [Eoc|(E1 & E2 & Hc)].
  - left. split; [exact Eoc|now rewrite Eoc].
  - right. split; [congruence|exact Hc].
Qed.

Lemma basic_result_at_iteration_limit_witness :
  exists h s,
    basic_reach inst_5x3 6 (repeat 0 5) 1 h s /\
    basic_subgradient inst_5x3 1 6 (repeat 0 5)
    = {| ret_obj := b_best_obj s; best_dual_copy := rd (b_mem s) (b_best_dual s) |}.
Proof.
  pose proof (breach_step inst_5x3 6 (repeat 0 5) O _ _
                (breach_init inst_5x3 6 (repeat 0 5))
                ltac:(vm_compute; reflexivity)) as R.
  eexists. eexists. split; [exact R|].
  apply (basic_result_at_iteration_limit inst_5x3 6 (repeat 0 5) 1 _ _ R).
Defined.

Lemma basic_result_at_optimal_exit_witness :
  exists h s,
    basic_reach inst_5x3 6 (repeat 0 5) 1 h s /\
    (b_norm (basic_head inst_5x3 s) <? 0)%Z = true /\
    basic_subgradient inst_5x3 2 6 (repeat 0 5)
    = {| ret_obj := b_curr_obj s; best_dual_copy := rd (b_mem s) (b_curr_dual s) |}.
Proof.
  pose proof (breach_step inst_5x3 6 (repeat 0 5) O _ _
                (breach_init inst_5x3 6 (repeat 0 5))
                ltac:(vm_compute; reflexivity)) as R.
  assert (Hex : (b_norm (basic_head inst_5x3
                           (basic_turn inst_5x3 6 (basic_start inst_5x3 (repeat 0%Q 5))))
                 <? 0)%Z = true) by (vm_compute; reflexivity).
  eexists. eexists. split; [exact R|]. split; [exact Hex|].
  apply (basic_result_at_optimal_exit inst_5x3 6 (repeat 0 5) 1 _ _ 2 R Hex). lia.
Defined.

(* ------------------------------------------------------------------ *)
(** ** The accessors *)







(* ------------------------------------------------------------------ *)
(** ** load_scp_instance: what a successful load leaves *)

Module LoaderWf.

Import Loader.

Local Open Scope Z_scope.

(** The invariant rule of the token loop: a property of the index and the
    state that every step keeps holds, at the end, for the index the loop
    stops at. *)
Lemma token_loop_inv (St : Type) (step : St -> Z -> list Ascii.ascii -> load_result St)
  (n : Z) (P : Z -> St -> Prop) :
  (forall s j t s', j < n -> P j s -> step s j t = Loaded s' -> P (j + 1) s') ->
  forall lines j s r,
    P j s -> token_loop St step n lines j s = Loaded r -> P (Z.max j n) (fst r).
Proof.
  intros Hstep. induction lines as [|l rest IH]; intros j s r Hp E; cbn [token_loop] in E.
  - destruct (Z.leb_spec n j); [|discriminate].
    injection E as <-. cbn [fst]. now rewrite Z.max_l by lia.
  - destruct (Z.leb_spec n j) as [Hge|Hlt].
    + injection E as <-. cbn [fst]. now rewrite Z.max_l by lia.
    + set (inner :=
             fix inner (cur : list (list Ascii.ascii)) (j : Z) (s : St) {struct cur}
               : load_result (St * list (list Ascii.ascii)) :=
               if n <=? j then Loaded (s, rest)
               else
                 match cur with
                 | [] => token_loop St step n rest j s
                 | t :: ts =>
                     if not_newline t then
                       match step s j t with
                       | Loaded s' => inner ts (j + 1) s'
                       | Failed => Failed
                       | Undefined => Undefined
                       end
                     else inner ts j s
                 end) in E.
      assert (Hin : forall cur j s r,
                P j s -> inner cur j s = Loaded r -> P (Z.max j n) (fst r)).
      { clear E Hp Hlt j s r.
        induction cur as [|t ts IHc]; intros j s r Hp E; cbn [inner] in E.
        - destruct (Z.leb_spec n j) as [Hge|Hlt].
          + injection E as <-. cbn [fst]. now rewrite Z.max_l by lia.
          + exact (IH j s r Hp E).
        - destruct (Z.leb_spec n j) as [Hge|Hlt].
          + injection E as <-. cbn [fst]. now rewrite Z.max_l by lia.
          + destruct (not_newline t).
            * destruct (step s j t) as [s'| |] eqn:Es; try discriminate.
              replace (Z.max j n) with (Z.max (j + 1) n) by lia.
              apply (IHc (j + 1) s'); [now apply (Hstep s j t)|exact E].
            * exact (IHc j s r Hp E). }
      destruct (tokens l) as [|t0 ts0]; [discriminate|].
      apply (Hin (t0 :: ts0) j s r Hp). cbn [inner].
      destruct (Z.leb_spec n j); [lia|exact E].
Qed.

Import LoaderSpec.

Lemma store_Loaded {A : Type} (arr arr' : list A) (k : Z) (v : A) :
  store arr k v = Loaded arr' ->
  0 <= k < Z.of_nat (length arr) /\ arr' = upd arr (Z.to_nat k) v.
Proof.
  unfold store. destruct (Z.leb_spec 0 k); destruct (Z.ltb_spec k (Z.of_nat (length arr)));
    cbn [andb]; try discriminate.
  intros E. injection E as <-. split; [lia|reflexivity].
Qed.

Lemma count_occ_snoc (l : list Z) (v x : Z) :
  count_occ Z.eq_dec (l ++ [v]) x
  = (count_occ Z.eq_dec l x + (if Z.eq_dec v x then 1 else 0))%nat.
Proof. rewrite count_occ_app. cbn [count_occ]. reflexivity. Qed.

Section EntryStep.

Variables NR NC : nat.

Lemma entry_step_inv (i j : nat) (w w' : row_state) (token : list Ascii.ascii) :
  (i < NR)%nat ->
  rows_inv NR NC w i j ->
  entry_step (Z.of_nat i) w (Z.of_nat j) token = Loaded w' ->
  rows_inv NR NC w' i (S j) /\ w_row_sizes w' = w_row_sizes w /\
  w_num_nonzero w' = w_num_nonzero w.
Proof.
  intros Hi (L1 & L2 & L3 & L4 & L5 & L6 & Hcs & Hrl & Hre & Hce & Hcnt) E.
  unfold entry_step in E.
  destruct (atoi token =? INT_MIN)%Z; [discriminate|].
  set (col_idx := atoi token - 1) in *.
  destruct (Z.ltb_spec col_idx 0) as [|Hc0]; [discriminate|].
  destruct (Z.leb_spec (Z.of_nat (length (w_cols w))) col_idx) as [|Hc1]; [discriminate|].
  set (c := Z.to_nat col_idx) in *.
  assert (Hc : (c < NC)%nat) by (unfold c; lia).
  assert (Ecz : Z.of_nat c = col_idx) by (unfold c; lia).
  destruct (store (nth c (w_cols w) []) (nth c (w_col_sizes w) 0) (Z.of_nat i))
    as [col| |] eqn:Ecol; try discriminate.
  cbn [bind] in E.
  destruct (store (nth (Z.to_nat (Z.of_nat i)) (w_rows w) []) (Z.of_nat j) col_idx)
    as [row| |] eqn:Erow; try discriminate.
  cbn [bind] in E. injection E as <-.
  rewrite Nat2Z.id in Erow.
  apply store_Loaded in Ecol. destruct Ecol as [Hkc ->].
  apply store_Loaded in Erow. destruct Erow as [Hkr ->].
  rewrite (L2 c Hc) in Hkc. rewrite (L4 i Hi) in Hkr. rewrite !Nat2Z.id.
  set (k := Z.to_nat (nth c (w_col_sizes w) 0)) in *.
  assert (Hk : (k < NR)%nat) by (unfold k; lia).
  match goal with |- rows_inv _ _ ?x _ _ /\ _ => set (w2 := x) end.
  assert (E1 : w_cols w2 = upd (w_cols w) c (upd (nth c (w_cols w) []) k (Z.of_nat i)))
    by reflexivity.
  assert (E2 : w_rows w2 = upd (w_rows w) i (upd (nth i (w_rows w) []) j col_idx))
    by reflexivity.
  assert (E3 : w_col_sizes w2 = upd (w_col_sizes w) c (nth c (w_col_sizes w) 0 + 1))
    by reflexivity.
  assert (E4 : w_row_sizes w2 = w_row_sizes w) by reflexivity.
  assert (E5 : w_num_nonzero w2 = w_num_nonzero w) by reflexivity.
  clearbody w2.
  split; [|split; assumption].
  assert (Hrl' : forall r, rowlen w2 i (S j) r
                 = if Nat.eq_dec r i then S j else rowlen w i j r).
  { intros r. unfold rowlen. rewrite E4.
    destruct (Nat.ltb_spec r i); destruct (Nat.eqb_spec r i); destruct (Nat.eq_dec r i);
      try lia; reflexivity. }
  assert (Hji : rowlen w i j i = j).
  { unfold rowlen. destruct (Nat.ltb_spec i i); [lia|]. now rewrite Nat.eqb_refl. }
  assert (Hre' : forall r, (r < NR)%nat ->
            row_entries w2 i (S j) r
            = if Nat.eq_dec r i then row_entries w i j r ++ [col_idx]
              else row_entries w i j r).
  { intros r Hr. unfold row_entries. rewrite Hrl', E2.
    destruct (Nat.eq_dec r i) as [->|Hne].
    - rewrite nth_upd_eq by lia. rewrite Hji.
      apply firstn_upd_snoc. rewrite (L4 i Hi). lia.
    - rewrite nth_upd_neq by congruence. reflexivity. }
  assert (Hce' : forall c', (c' < NC)%nat ->
            col_entries w2 c'
            = if Nat.eq_dec c' c then col_entries w c' ++ [Z.of_nat i]
              else col_entries w c').
  { intros c' Hc'. unfold col_entries. rewrite E1, E3.
    destruct (Nat.eq_dec c' c) as [->|Hne].
    - rewrite !nth_upd_eq by lia.
      replace (Z.to_nat (nth c (w_col_sizes w) 0 + 1)) with (S k) by (unfold k; lia).
      apply firstn_upd_snoc. rewrite (L2 c Hc). lia.
    - rewrite !nth_upd_neq by congruence. reflexivity. }
  unfold rows_inv. rewrite E1, E2, E3, E4.
  rewrite !length_upd.
  split; [exact L1|]. split.
  { intros c' Hc'. destruct (Nat.eq_dec c' c) as [->|Hne].
    - rewrite nth_upd_eq by lia. rewrite length_upd. now apply L2.
    - rewrite nth_upd_neq by congruence. now apply L2. }
  split; [exact L3|]. split.
  { intros r Hr. destruct (Nat.eq_dec r i) as [->|Hne].
    - rewrite nth_upd_eq by lia. rewrite length_upd. now apply L4.
    - rewrite nth_upd_neq by congruence. now apply L4. }
  split; [exact L5|]. split; [exact L6|]. split.
  { intros c' Hc'. destruct (Nat.eq_dec c' c) as [->|Hne].
    - rewrite nth_upd_eq by lia. lia.
    - rewrite nth_upd_neq by congruence. now apply Hcs. }
  split.
  { intros r Hr. rewrite Hrl'. destruct (Nat.eq_dec r i); [lia|now apply Hrl]. }
  split.
  { intros r x Hr Hx. rewrite (Hre' r Hr) in Hx.
    destruct (Nat.eq_dec r i) as [->|Hne]; [|now apply (Hre r x Hr)].
    apply in_app_or in Hx. destruct Hx as [Hx|[<-|[]]]; [now apply (Hre i x Hr)|lia]. }
  split.
  { intros c' x Hc' Hx. rewrite (Hce' c' Hc') in Hx.
    destruct (Nat.eq_dec c' c) as [->|Hne]; [|now apply (Hce c' x Hc')].
    apply in_app_or in Hx. destruct Hx as [Hx|[<-|[]]]; [now apply (Hce c x Hc)|lia]. }
  intros r c' Hr Hc'. rewrite (Hre' r Hr), (Hce' c' Hc').
  specialize (Hcnt r c' Hr Hc').
  destruct (Nat.eq_dec r i) as [->|Hne]; destruct (Nat.eq_dec c' c) as [->|Hnc];
    rewrite ?count_occ_snoc, Hcnt.
  - destruct (Z.eq_dec col_idx (Z.of_nat c)); destruct (Z.eq_dec (Z.of_nat i) (Z.of_nat i));
      lia.
  - destruct (Z.eq_dec col_idx (Z.of_nat c')); lia.
  - destruct (Z.eq_dec (Z.of_nat i) (Z.of_nat r)); lia.
  - reflexivity.
Qed.

Lemma rows_inv_ext (w : row_state) (i j i' j' : nat) :
  (forall r, rowlen w i j r = rowlen w i' j' r) ->
  rows_inv NR NC w i j -> rows_inv NR NC w i' j'.
Proof.
  intros Hext (L1 & L2 & L3 & L4 & L5 & L6 & Hcs & Hrl & Hre & Hce & Hcnt).
  assert (Hre' : forall r, row_entries w i' j' r = row_entries w i j r).
  { intros r. unfold row_entries. now rewrite Hext. }
  unfold rows_inv. repeat (split; [assumption|]).
  split; [intros r Hr; rewrite <- Hext; now apply Hrl|].
  split; [intros r x Hr; rewrite Hre'; now apply Hre|].
  split; [assumption|].
  intros r c Hr Hc. rewrite Hre'. now apply Hcnt.
Qed.

Lemma read_rows_inv (k : nat) :
  forall (i : nat) lines w w',
    (i + k = NR)%nat ->
    rows_inv NR NC w i O ->
    read_rows k (Z.of_nat i) lines w = Loaded w' ->
    rows_inv NR NC w' NR O.
Proof.
  induction k as [|k IH]; intros i lines w w' Hik Hw E.
  - cbn [read_rows] in E. injection E as <-.
    replace i with NR in Hw by lia. exact Hw.
  - cbn [read_rows] in E.
    destruct lines as [|l rest]; [discriminate|].
    destruct (tokens l) as [|token ts]; [discriminate|].
    cbv zeta in E.
    set (size := atoi token) in *.
    destruct ((w_num_nonzero w + size <? INT_MIN) || (INT_MAX <? w_num_nonzero w + size))%bool;
      [discriminate|].
    match type of E with
    | bind (token_loop _ _ _ _ _ ?x) _ = _ => set (w1 := x) in *
    end.
    destruct (token_loop row_state (entry_step (Z.of_nat i)) size rest 0 w1)
      as [r| |] eqn:Et; try discriminate.
    cbn [bind] in E.
    assert (Hi : (i < NR)%nat) by lia.
    assert (Hw1 : rows_inv NR NC w1 i O).
    { destruct Hw as (L1 & L2 & L3 & L4 & L5 & L6 & Hcs & Hrl & Hre & Hce & Hcnt).
      assert (Hl : forall r0, rowlen w1 i O r0 = rowlen w i O r0).
      { intros r0. unfold rowlen, w1. cbn [w_row_sizes]. rewrite Nat2Z.id.
        destruct (Nat.ltb_spec r0 i); [|reflexivity].
        rewrite nth_upd_neq by lia. reflexivity. }
      assert (Hr1 : forall r0, row_entries w1 i O r0 = row_entries w i O r0).
      { intros r0. unfold row_entries. rewrite Hl. reflexivity. }
      unfold rows_inv.
      split; [exact L1|]. split; [exact L2|]. split; [exact L3|].
      split; [exact L4|]. split; [exact L5|].
      split; [unfold w1; cbn [w_row_sizes]; now rewrite length_upd|].
      split; [exact Hcs|].
      split; [intros r0 Hr; rewrite Hl; now apply Hrl|].
      split; [intros r0 x Hr; rewrite Hr1; now apply Hre|].
      split; [exact Hce|].
      intros r0 c Hr Hc. rewrite Hr1. now apply Hcnt. }
    assert (Hs1 : nth i (w_row_sizes w1) 0 = size).
    { unfold w1. cbn [w_row_sizes]. rewrite Nat2Z.id.
      apply nth_upd_eq. destruct Hw as (_ & _ & _ & _ & _ & L6 & _). lia. }
    pose proof (token_loop_inv row_state (entry_step (Z.of_nat i)) size
                  (fun j w => 0 <= j /\ rows_inv NR NC w i (Z.to_nat j)
                              /\ nth i (w_row_sizes w) 0 = size)) as Hloop.
    cbv beta in Hloop.
    assert (Hr : 0 <= Z.max 0 size /\ rows_inv NR NC (fst r) i (Z.to_nat (Z.max 0 size))
                 /\ nth i (w_row_sizes (fst r)) 0 = size).
    { apply (Hloop) with (lines := rest) (s := w1);
        [|split; [lia|split; [exact Hw1|exact Hs1]]|exact Et].
      intros s j t s' Hj (Hj0 & Hs & Hsz) Es.
      rewrite <- (Z2Nat.id j Hj0) in Es.
      destruct (entry_step_inv i (Z.to_nat j) s s' t Hi Hs Es) as (Hs' & Hrs & _).
      split; [lia|]. split; [|now rewrite Hrs].
      replace (Z.to_nat (j + 1)) with (S (Z.to_nat j)) by lia. exact Hs'. }
    destruct Hr as (_ & Hr & Hsz).
    apply (IH (S i) (snd r) (fst r) w'); [lia| |].
    + apply (rows_inv_ext (fst r) i (Z.to_nat (Z.max 0 size))); [|exact Hr].
      intros r0. unfold rowlen.
      destruct (Nat.ltb_spec r0 i); destruct (Nat.ltb_spec r0 (S i)); try lia;
        destruct (Nat.eqb_spec r0 i); destruct (Nat.eqb_spec r0 (S i)); try lia;
        try reflexivity.
      subst r0. rewrite Hsz. lia.
    + replace (Z.of_nat (S i)) with (Z.of_nat i + 1) by lia. exact E.
Qed.

End EntryStep.

(** The loops that allocate the rows of a temporary matrix. *)
Lemma alloc_rows (malloc_ok : Z -> bool) (n : nat) (m : Z) (c0 c' : list (list Z)) :
  length c0 = n ->
  for_range O n
    (fun i st => c <- st ;; x <- MALLOC malloc_ok m (zeros m) ;; Loaded (upd c i x))
    (Loaded c0) = Loaded c' ->
  length c' = n /\ forall i, (i < n)%nat -> nth i c' [] = zeros m.
Proof.
  intros Hlen E.
  pose proof (for_range_inv
    (fun k (st : load_result (list (list Z))) =>
       match st with
       | Loaded c => length c = n /\ forall i, (i < k)%nat -> nth i c [] = zeros m
       | _ => True
       end)
    (fun i st => c <- st ;; x <- MALLOC malloc_ok m (zeros m) ;; Loaded (upd c i x))
    O n (Loaded c0) (Nat.le_0_l n)) as H.
  cbv beta in H. rewrite E in H. apply H.
  - split; [exact Hlen|]. intros i Hi. lia.
  - intros k [c| |] Hk Hc; cbn [bind]; try exact I.
    unfold MALLOC. destruct (malloc_ok m); cbn [bind]; [|exact I].
    destruct Hc as [Hl Hc]. rewrite length_upd. split; [exact Hl|].
    intros i Hi. destruct (Nat.eq_dec i k) as [->|Hne].
    + apply nth_upd_eq. lia.
    + rewrite nth_upd_neq by congruence. apply Hc. lia.
Qed.

Lemma off_S_le (sizes : list Z) (r i : nat) :
  (r < i)%nat -> (off sizes r + Z.to_nat (nth r sizes 0%Z) <= off sizes i)%nat.
Proof.
  induction i as [|i IH]; intros Hr; [lia|].
  cbn [off]. destruct (Nat.eq_dec r i) as [->|Hne]; [lia|].
  assert (r < i)%nat by lia. specialize (IH H). lia.
Qed.

(** The inner loop of [compress]: it copies [m] entries of [arr] to the
    positions from [k0] on. *)
Lemma compress_inner (arr : list Z) (m : nat) (a idx : list Z) (k0 : Z)
  (a' idx' : list Z) (k' : Z) :
  0 <= k0 ->
  for_range O m
    (fun j (st : load_result (list Z * list Z * Z)) =>
       s <- st ;;
       let '(a, idx, k) := s in
       a' <- store a k (nth j arr 0) ;;
       Loaded (a', idx, k + 1))
    (Loaded (a, idx, k0)) = Loaded (a', idx', k') ->
  idx' = idx /\ k' = k0 + Z.of_nat m /\ length a' = length a /\
  (forall j, (j < m)%nat -> nth (Z.to_nat k0 + j) a' 0 = nth j arr 0) /\
  (forall p, (p < Z.to_nat k0)%nat -> nth p a' 0 = nth p a 0).
Proof.
  intros Hk0 E.
  pose proof (for_range_inv
    (fun j (st : load_result (list Z * list Z * Z)) =>
       match st with
       | Loaded (a1, idx1, k1) =>
           idx1 = idx /\ k1 = k0 + Z.of_nat j /\ length a1 = length a /\
           (forall j', (j' < j)%nat -> nth (Z.to_nat k0 + j') a1 0 = nth j' arr 0) /\
           (forall p, (p < Z.to_nat k0)%nat -> nth p a1 0 = nth p a 0)
       | _ => True
       end)
    (fun j (st : load_result (list Z * list Z * Z)) =>
       s <- st ;;
       let '(a, idx, k) := s in
       a' <- store a k (nth j arr 0) ;;
       Loaded (a', idx, k + 1))
    O m (Loaded (a, idx, k0)) (Nat.le_0_l m)) as H.
  cbv beta in H. rewrite E in H. apply H.
  - split; [reflexivity|]. split; [lia|]. split; [reflexivity|].
    split; [intros j' Hj'; lia|]. intros p _. reflexivity.
  - intros j [[[a1 idx1] k1]| |] Hj Hinv; cbn [bind]; try exact I.
    destruct (store a1 k1 (nth j arr 0)) as [a2| |] eqn:Es; cbn [bind]; try exact I.
    apply store_Loaded in Es. destruct Es as [Hr ->].
    destruct Hinv as (-> & -> & Hl & Hc & Hp).
    rewrite length_upd. split; [reflexivity|]. split; [lia|]. split; [exact Hl|].
    replace (Z.to_nat (k0 + Z.of_nat j)) with (Z.to_nat k0 + j)%nat by lia.
    split.
    + intros j' Hj'. destruct (Nat.eq_dec j' j) as [->|Hne].
      * apply nth_upd_eq. lia.
      * rewrite nth_upd_neq by lia. apply Hc. lia.
    + intros p Hp'. rewrite nth_upd_neq by lia. now apply Hp.
Qed.

(** [compress]: the index array holds the running positions and the value
    array the entries of each array, one array after the other. *)
Lemma compress_spec (num : Z) (sizes : list Z) (arrs : list (list Z))
  (a idx a' idx' : list Z) :
  compress num sizes arrs a idx = Loaded (a', idx') ->
  0 <= num /\
  (forall r, (r <= Z.to_nat num)%nat -> nth r idx' 0 = Z.of_nat (off sizes r)) /\
  (forall r j, (r < Z.to_nat num)%nat -> (j < Z.to_nat (nth r sizes 0%Z))%nat ->
     nth (off sizes r + j) a' 0 = nth j (nth r arrs []) 0).
Proof.
  unfold compress. intros E.
  match type of E with
  | bind (for_range _ _ ?b ?x) _ = _ => set (body := b) in *; set (s0 := x) in *
  end.
  pose proof (for_range_inv
    (fun i (st : load_result (list Z * list Z * Z)) =>
       match st with
       | Loaded (a1, idx1, k1) =>
           k1 = Z.of_nat (off sizes i) /\
           (forall r, (r < i)%nat -> nth r idx1 0 = Z.of_nat (off sizes r)) /\
           (forall r j, (r < i)%nat -> (j < Z.to_nat (nth r sizes 0%Z))%nat ->
              nth (off sizes r + j) a1 0 = nth j (nth r arrs []) 0)
       | _ => True
       end)
    body O (Z.to_nat num) s0 (Nat.le_0_l _)) as H.
  cbv beta in H.
  destruct (for_range O (Z.to_nat num) body s0) as [[[a1 idx1] k1]| |] eqn:El;
    try discriminate.
  cbn [bind] in E.
  destruct (store idx1 num k1) as [idx2| |] eqn:Es; try discriminate.
  cbn [bind] in E. injection E as <- <-.
  apply store_Loaded in Es. destruct Es as [Hnum ->].
  assert (Hinv : k1 = Z.of_nat (off sizes (Z.to_nat num)) /\
           (forall r, (r < Z.to_nat num)%nat -> nth r idx1 0 = Z.of_nat (off sizes r)) /\
           (forall r j, (r < Z.to_nat num)%nat -> (j < Z.to_nat (nth r sizes 0%Z))%nat ->
              nth (off sizes r + j) a1 0 = nth j (nth r arrs []) 0)).
  { apply H.
    - unfold s0. split; [reflexivity|]. split; intros; lia.
    - clear H El. intros i [[[a2 idx2] k2]| |] Hi Hinv; unfold body; cbn [bind]; try exact I.
      destruct (store idx2 (Z.of_nat i) k2) as [idx3| |] eqn:Es; cbn [bind];
        try exact I.
      apply store_Loaded in Es. destruct Es as [Hri ->].
      destruct Hinv as (-> & Hidx & Ha).
      match goal with
      | |- match ?x with _ => _ end => destruct x as [[[a3 idx4] k3]| |] eqn:Ei
      end; try exact I.
      apply compress_inner in Ei; [|lia].
      destruct Ei as (-> & -> & _ & Hc & Hp).
      rewrite Nat2Z.id in *.
      split; [cbn [off]; lia|]. split.
      + intros r Hr. destruct (Nat.eq_dec r i) as [->|Hne].
        * apply nth_upd_eq. lia.
        * rewrite nth_upd_neq by congruence. apply Hidx. lia.
      + intros r j Hr Hj. destruct (Nat.eq_dec r i) as [->|Hne].
        * now apply Hc.
        * assert (Hlt : (r < i)%nat) by lia.
          pose proof (off_S_le sizes r i Hlt).
          rewrite Hp by lia. now apply Ha. }
  destruct Hinv as (-> & Hidx & Ha).
  split; [lia|]. split; [|exact Ha].
  intros r Hr. destruct (Nat.eq_dec r (Z.to_nat num)) as [->|Hne].
  - apply nth_upd_eq. lia.
  - rewrite nth_upd_neq by congruence. apply Hidx. lia.
Qed.

Lemma map_seq_firstn {A B : Type} (f : nat -> B) (g : A -> B) (d : A) (n : nat) :
  forall lo l,
    (n <= length l)%nat ->
    (forall j, (j < n)%nat -> f (lo + j)%nat = g (nth j l d)) ->
    map f (seq lo n) = map g (firstn n l).
Proof.
  induction n as [|n IH]; intros lo l Hn Hf; [reflexivity|].
  destruct l as [|x l]; [cbn in Hn; lia|].
  cbn [seq map firstn]. f_equal.
  - specialize (Hf O ltac:(lia)). rewrite Nat.add_0_r in Hf. exact Hf.
  - apply IH; [cbn in Hn; lia|].
    intros j Hj. specialize (Hf (S j) ltac:(lia)).
    rewrite Nat.add_succ_r in Hf. exact Hf.
Qed.

Lemma nth_map_to_nat (l : list Z) (j : nat) :
  nth j (map Z.to_nat l) O = Z.to_nat (nth j l 0).
Proof. change O with (Z.to_nat 0). apply map_nth. Qed.

(** The walk over one array of a compressed structure finds the entries of
    the array it was built from. *)
Lemma compress_slices (num : Z) (sizes : list Z) (arrs : list (list Z))
  (a idx a' idx' : list Z) (c : nat) :
  compress num sizes arrs a idx = Loaded (a', idx') ->
  (c < Z.to_nat num)%nat ->
  (Z.to_nat (nth c sizes 0%Z) <= length (nth c arrs []))%nat ->
  map (fun j => nth j (map Z.to_nat a') O)
    (seq (nth c (map Z.to_nat idx') O)
       (nth (S c) (map Z.to_nat idx') O - nth c (map Z.to_nat idx') O))
  = map Z.to_nat (firstn (Z.to_nat (nth c sizes 0)) (nth c arrs [])).
Proof.
  intros E Hc Hsz. apply compress_spec in E. destruct E as (_ & Hidx & Ha).
  rewrite !nth_map_to_nat, !Hidx by lia. rewrite !Nat2Z.id.
  cbn [off]. replace (off sizes c + Z.to_nat (nth c sizes 0%Z) - off sizes c)%nat
    with (Z.to_nat (nth c sizes 0%Z)) by lia.
  apply (map_seq_firstn _ _ 0); [exact Hsz|].
  intros j Hj. rewrite nth_map_to_nat. f_equal. now apply Ha.
Qed.

(** The walk [for (j = idx[c]; j < idx[c+1]; j++)] over a compressed
    structure reads entries of the array [c] only. *)
Lemma compress_walk (num : Z) (sizes : list Z) (arrs : list (list Z))
  (a idx a' idx' : list Z) (bound c j : Z) :
  compress num sizes arrs a idx = Loaded (a', idx') ->
  0 <= c < num ->
  (Z.to_nat (nth (Z.to_nat c) sizes 0%Z) <= length (nth (Z.to_nat c) arrs []))%nat ->
  (forall x, In x (firstn (Z.to_nat (nth (Z.to_nat c) sizes 0)) (nth (Z.to_nat c) arrs []))
             -> 0 <= x < bound) ->
  nth (Z.to_nat c) idx' 0 <= j < nth (Z.to_nat (c + 1)) idx' 0 ->
  0 <= nth (Z.to_nat j) a' 0 < bound.
Proof.
  intros E Hc Hsz Hin Hj. apply compress_spec in E. destruct E as (_ & Hidx & Ha).
  replace (Z.to_nat (c + 1)) with (S (Z.to_nat c)) in Hj by lia.
  rewrite !Hidx in Hj by lia. cbn [off] in Hj.
  set (n := Z.to_nat c) in *.
  set (k := (Z.to_nat j - off sizes n)%nat).
  assert (Hk : (k < Z.to_nat (nth n sizes 0%Z))%nat) by (unfold k; lia).
  replace (Z.to_nat j) with (off sizes n + k)%nat by (unfold k; lia).
  rewrite Ha by (unfold n; lia || exact Hk).
  apply Hin. rewrite <- (nth_firstn_lt _ (Z.to_nat (nth n sizes 0)) k 0 Hk).
  apply nth_In. rewrite length_firstn. lia.
Qed.

Lemma count_occ_to_nat (l : list Z) (n : nat) :
  (forall x, In x l -> 0 <= x) ->
  count_occ Nat.eq_dec (map Z.to_nat l) n = count_occ Z.eq_dec l (Z.of_nat n).
Proof.
  induction l as [|x l IH]; intros H; [reflexivity|].
  cbn [map count_occ]. rewrite IH by (intros y Hy; apply H; now right).
  assert (0 <= x) by (apply H; now left).
  destruct (Nat.eq_dec (Z.to_nat x) n); destruct (Z.eq_dec x (Z.of_nat n)); try lia;
    reflexivity.
Qed.

Lemma MALLOC_Loaded {A : Type} (malloc_ok : Z -> bool) (n : Z) (cells c : list A) :
  MALLOC malloc_ok n cells = Loaded c -> c = cells.
Proof. unfold MALLOC. destruct (malloc_ok n); congruence. Qed.

Lemma length_zeros (n : Z) : length (zeros n) = Z.to_nat n.
Proof. apply repeat_length. Qed.

Lemma nth_zeros (n : Z) (i : nat) : nth i (zeros n) 0 = 0.
Proof.
  unfold zeros. generalize (Z.to_nat n). intros m. revert i.
  induction m as [|m IH]; intros [|i]; cbn; auto.
Qed.

Lemma bind_Loaded {A B : Type} (c : load_result A) (k : A -> load_result B) (b : B) :
  bind c k = Loaded b -> exists x, c = Loaded x /\ k x = Loaded b.
Proof. destruct c as [x| |]; cbn [bind]; try discriminate. intros E. now exists x. Qed.

Tactic Notation "bind_step" hyp(E) ident(x) ident(Ex) :=
  apply bind_Loaded in E; destruct E as (x & Ex & E); cbv beta in E.

(** X17: what a successful load leaves.  When [load_scp_instance] returns 0,
    the declared numbers of rows and columns are not negative and there is
    one cost for each column.  Every entry that a walk
    [for (j = idx[c]; j < idx[c+1]; j++)] over [col_wise_a] reads is a row
    index in range, and every entry such a walk over [row_wise_a] reads is a
    column index in range.  The two compressed structures describe the same
    incidence relation: [col_sizes] holds the number of rows of each column,
    and a row lists a column as often as the column lists the row. *)
Theorem loaded_instance_is_well_formed (malloc_ok : Z -> bool) (file : String.string)
  (r : raw_instance) :
  load_scp_instance malloc_ok file = Loaded r ->
  0 <= r_num_row r /\ 0 <= r_num_col r /\
  length (r_costs r) = num_col (to_instance r) /\
  (forall c j, 0 <= c < r_num_col r ->
     nth (Z.to_nat c) (r_col_wise_idx r) 0 <= j
       < nth (Z.to_nat (c + 1)) (r_col_wise_idx r) 0 ->
     0 <= nth (Z.to_nat j) (r_col_wise_a r) 0 < r_num_row r) /\
  (forall i j, 0 <= i < r_num_row r ->
     nth (Z.to_nat i) (r_row_wise_idx r) 0 <= j
       < nth (Z.to_nat (i + 1)) (r_row_wise_idx r) 0 ->
     0 <= nth (Z.to_nat j) (r_row_wise_a r) 0 < r_num_col r) /\
  wf_instance (to_instance r) = true.
Proof.
  unfold load_scp_instance. generalize (lines_from [] (String.list_ascii_of_string file)).
  intros lines E. unfold load_lines in E.
  destruct lines as [|first rest]; [discriminate|].
  destruct (tokens first) as [|t1 [|t2 ts]]; try discriminate.
  cbv zeta in E.
  set (nr := atoi t1) in *. set (nc := atoi t2) in *.
  bind_step E costs0 Ecosts. bind_step E rc Erc.
  bind_step E cols0 Ecols0. bind_step E rows0 Erows0.
  bind_step E cols Ecols. bind_step E rows Erows.
  bind_step E cs0 Ecs0. bind_step E rs0 Ers0.
  bind_step E w Ew.
  bind_step E cwa Ecwa. bind_step E cwi Ecwi. bind_step E cw Ecw.
  bind_step E rwa Erwa. bind_step E rwi Erwi. bind_step E rw Erw.
  bind_step E bdc Ebdc.
  injection E as <-.
  apply MALLOC_Loaded in Ecosts, Ecols0, Erows0, Ecs0, Ers0. subst costs0 cols0 rows0 cs0 rs0.
  destruct cw as [cw_a cw_i]. destruct rw as [rw_a rw_i].
  set (NR := Z.to_nat nr) in *. set (NC := Z.to_nat nc) in *.
  apply alloc_rows in Ecols; [|apply repeat_length]. destruct Ecols as [Lc Hcols].
  apply alloc_rows in Erows; [|apply repeat_length]. destruct Erows as [Lr Hrows].
  assert (Hw : rows_inv NR NC w NR O).
  { match type of Ew with read_rows _ _ _ ?x = _ => set (w0 := x) in * end.
    apply (read_rows_inv NR NC NR O (snd rc) w0 w (Nat.add_0_l NR)); [|exact Ew].
    assert (Hl : forall r0, rowlen w0 O O r0 = O).
    { intros r0. unfold rowlen. destruct (Nat.ltb_spec r0 O); [lia|].
      now destruct (r0 =? 0)%nat. }
    assert (Hre : forall r0, row_entries w0 O O r0 = []).
    { intros r0. unfold row_entries. now rewrite Hl. }
    assert (Hce : forall c, col_entries w0 c = []).
    { intros c. unfold col_entries, w0. cbn [w_col_sizes]. now rewrite nth_zeros. }
    unfold rows_inv.
    split; [exact Lc|].
    split; [intros c Hc; unfold w0; cbn [w_cols]; rewrite Hcols by exact Hc;
            apply length_zeros|].
    split; [exact Lr|].
    split; [intros r0 Hr; unfold w0; cbn [w_rows]; rewrite Hrows by exact Hr;
            apply length_zeros|].
    split; [apply length_zeros|]. split; [apply length_zeros|].
    split; [intros c Hc; unfold w0; cbn [w_col_sizes]; rewrite nth_zeros; lia|].
    split; [intros r0 Hr; rewrite Hl; lia|].
    split; [intros r0 x Hr; rewrite Hre; intros []|].
    split; [intros c x Hc; rewrite Hce; intros []|].
    intros r0 c Hr Hc. now rewrite Hre, Hce. }
  destruct Hw as (L1 & L2 & L3 & L4 & L5 & L6 & Hcs & Hrl & Hre & Hce & Hcnt).
  assert (Hlen : forall r0, (r0 < NR)%nat ->
            rowlen w NR O r0 = Z.to_nat (nth r0 (w_row_sizes w) 0)).
  { intros r0 Hr. unfold rowlen. destruct (Nat.ltb_spec r0 NR); [reflexivity|lia]. }
  pose proof (compress_spec _ _ _ _ _ _ _ Ecw) as (Hnc & _).
  pose proof (compress_spec _ _ _ _ _ _ _ Erw) as (Hnr & _).
  set (I := to_instance _).
  assert (HC : forall c, (c < NC)%nat ->
            rows_of_col I c = map Z.to_nat (col_entries w c)).
  { intros c Hc. unfold rows_of_col, col_lo, col_hi, col_entries.
    apply (compress_slices nc _ _ cwa cwi); [exact Ecw|exact Hc|].
    rewrite (L2 c Hc). specialize (Hcs c Hc). lia. }
  assert (HR : forall r0, (r0 < NR)%nat ->
            cols_of_row I r0 = map Z.to_nat (row_entries w NR O r0)).
  { intros r0 Hr. unfold cols_of_row, row_lo, row_hi, row_entries.
    rewrite (Hlen r0 Hr).
    apply (compress_slices nr _ _ rwa rwi); [exact Erw|exact Hr|].
    rewrite (L4 r0 Hr), <- (Hlen r0 Hr). now apply Hrl. }
  cbn [r_num_row r_num_col r_costs r_col_wise_a r_col_wise_idx r_row_wise_a
       r_row_wise_idx fst snd].
  split; [exact Hnr|]. split; [exact Hnc|]. split.
  { change (num_col I) with NC.
    pose proof (token_loop_inv (list Z)
                  (fun c i t => Loaded (upd c (Z.to_nat i) (atoi t))) nc
                  (fun _ c => length c = NC)) as Hloop.
    cbv beta in Hloop.
    apply (Hloop) with (lines := rest) (j := 0) (s := zeros nc);
      [|apply length_zeros|exact Erc].
    intros c j t c' _ Hl Ec. injection Ec as <-. now rewrite length_upd. }
  split.
  { intros c j Hc Hj.
    assert (Hc' : (Z.to_nat c < NC)%nat) by (unfold NC; lia).
    apply (compress_walk nc _ _ cwa cwi cw_a cw_i nr c j Ecw Hc); [| |exact Hj].
    - rewrite (L2 _ Hc'). specialize (Hcs _ Hc'). lia.
    - intros x Hx. specialize (Hce _ x Hc' Hx). unfold NR in Hce. lia. }
  split.
  { intros i j Hi Hj.
    assert (Hi' : (Z.to_nat i < NR)%nat) by (unfold NR; lia).
    apply (compress_walk nr _ _ rwa rwi rw_a rw_i nc i j Erw Hi); [| |exact Hj].
    - rewrite (L4 _ Hi'), <- (Hlen _ Hi'). now apply Hrl.
    - intros x Hx. rewrite <- (Hlen _ Hi') in Hx.
      specialize (Hre _ x Hi' Hx). unfold NC in Hre. lia. }
  unfold wf_instance. change (num_col I) with NC. change (num_row I) with NR.
  apply andb_true_intro. split.
  - apply forallb_forall. intros c Hc. apply in_seq in Hc.
    assert (Hc' : (c < NC)%nat) by lia.
    apply andb_true_intro. split.
    + apply forallb_forall. intros x Hx. apply Nat.ltb_lt.
      rewrite (HC c Hc') in Hx. apply in_map_iff in Hx. destruct Hx as (y & <- & Hy).
      specialize (Hce c y Hc' Hy). lia.
    + apply Nat.eqb_eq. rewrite (HC c Hc'), length_map.
      unfold col_entries. rewrite length_firstn, (L2 c Hc').
      unfold col_size. change (col_sizes I) with (map Z.to_nat (w_col_sizes w)).
      rewrite nth_map_to_nat. specialize (Hcs c Hc'). lia.
  - apply forallb_forall. intros r0 Hr. apply in_seq in Hr.
    assert (Hr' : (r0 < NR)%nat) by lia.
    apply andb_true_intro. split.
    + apply forallb_forall. intros x Hx. apply Nat.ltb_lt.
      rewrite (HR r0 Hr') in Hx. apply in_map_iff in Hx. destruct Hx as (y & <- & Hy).
      specialize (Hre r0 y Hr' Hy). lia.
    + apply forallb_forall. intros c Hc. apply in_seq in Hc.
      assert (Hc' : (c < NC)%nat) by lia.
      apply Nat.eqb_eq. rewrite (HR r0 Hr'), (HC c Hc').
      rewrite !count_occ_to_nat.
      * now apply Hcnt.
      * intros x Hx. specialize (Hce c x Hc' Hx). lia.
      * intros x Hx. specialize (Hre r0 x Hr' Hx). lia.
Qed.

Import String.

Lemma loaded_instance_is_well_formed_witness :
  load_scp_instance malloc_positive
    (scp_text ["3 2"; "2 2"; "1"; "1"; "2"; "1 2"; "1"; "2"]%string) = Loaded raw_3x2 /\
  wf_instance (to_instance raw_3x2) = true.
Proof.
  split; [vm_compute; reflexivity|].
  apply (loaded_instance_is_well_formed malloc_positive
           (scp_text ["3 2"; "2 2"; "1"; "1"; "2"; "1 2"; "1"; "2"]%string) raw_3x2).
  vm_compute. reflexivity.
Defined.

End LoaderWf.
